(** * Bulk import/export job engine: a shallow embedding and its properties

    The definitions below follow the TypeScript sources of the service
    (ImportsService, ExportsService, DistributedLockService,
    StaleJobCleanupService, the stream transforms and the ImportJob entity).
    Stateful code is written with explicit state passing: the relational
    store is a finite map from job ids to job rows, the key-value service a
    finite map from lock keys to tokens, object storage a finite map from
    storage keys to buffers and the queue a list of payloads. *)

From Stdlib Require Import ZArith QArith.
From stdpp Require Import base option list gmap strings sorting pretty.
From Stdlib Require Import Strings.String Strings.Ascii.

#[local] Open Scope string_scope.
#[local] Open Scope Z_scope.

(** ** JavaScript string helpers used by the service *)

Module Js.

(** [String.prototype.split] with a one-character separator: the result is
    never empty, and the empty string splits into one empty segment. *)
Fixpoint split (sep : ascii) (s : string) : list string :=
  match s with
  | EmptyString => [EmptyString]
  | String c s' =>
      if Ascii.eqb c sep then EmptyString :: split sep s'
      else match split sep s' with
           | [] => [String c EmptyString]
           | seg :: rest => String c seg :: rest
           end
  end.

(** [Array.prototype.pop] as used for its value: the last element, or
    [undefined] on an empty array. *)
Definition pop (l : list string) : option string := last l.

Definition lower_ascii (c : ascii) : ascii :=
  let n := nat_of_ascii c in
  if (Nat.leb 65 n && Nat.leb n 90)%bool then ascii_of_nat (n + 32) else c.

(** [String.prototype.toLowerCase] on the ASCII range. *)
Fixpoint toLowerCase (s : string) : string :=
  match s with
  | EmptyString => EmptyString
  | String c s' => String (lower_ascii c) (toLowerCase s')
  end.

Definition is_space (c : ascii) : bool :=
  let n := nat_of_ascii c in
  (Nat.eqb n 32 || (Nat.leb 9 n && Nat.leb n 13))%bool.

Fixpoint trimStart (s : string) : string :=
  match s with
  | EmptyString => EmptyString
  | String c s' => if is_space c then trimStart s' else s
  end.

Fixpoint trimEnd (s : string) : string :=
  match s with
  | EmptyString => EmptyString
  | String c s' =>
      match trimEnd s' with
      | EmptyString => if is_space c then EmptyString else String c EmptyString
      | t => String c t
      end
  end.

(** [String.prototype.trim] (ASCII white space). *)
Definition trim (s : string) : string := trimEnd (trimStart s).

(** The line feed character. *)
Definition LF : ascii := ascii_of_nat 10.

(** A JavaScript string used as a condition: only the empty string is
    falsy. *)
Definition truthy (s : string) : bool :=
  match s with EmptyString => false | _ => true end.

End Js.

(** ** Import format detection (ImportsService.detectFormat) *)

Module Format.

(** [filename.split('.').pop()?.toLowerCase()], then the comparison chain. *)
Definition detectFormat (filename : string) : string :=
  let ext := Js.toLowerCase <$> Js.pop (Js.split "." filename) in
  if decide (ext = Some "csv") then "csv"
  else if decide (ext = Some "ndjson" \/ ext = Some "jsonl") then "ndjson"
  else "json".

(** The usual notion of a file extension, written independently of the
    code: the text after the last dot, and none when the name has no dot. *)
Fixpoint extension (filename : string) : option string :=
  match filename with
  | EmptyString => None
  | String c rest =>
      match extension rest with
      | Some e => Some e
      | None => if Ascii.eqb c "." then Some rest else None
      end
  end.

(** The format an extension stands for (compared without regard to case). *)
Definition format_of_extension (ext : string) : string :=
  let e := Js.toLowerCase ext in
  if decide (e = "csv") then "csv"
  else if decide (e = "ndjson" \/ e = "jsonl") then "ndjson"
  else "json".

(** Detection as the specification words it: a name without an extension,
    like one with an unrecognised extension, is taken as [json]. *)
Definition detectFormat_spec (filename : string) : string :=
  match extension filename with
  | Some e => format_of_extension e
  | None => "json"
  end.

End Format.

(** ** Entities (import-job.entity.ts) *)

Module Entities.

Inductive ImportJobStatus :=
  PENDING | PROCESSING | COMPLETED | FAILED | CANCELLED.

#[export] Instance ImportJobStatus_eq_dec : EqDecision ImportJobStatus.
Proof. solve_decision. Defined.

(** The enum's string values, as they appear in messages. *)
Definition status_string (s : ImportJobStatus) : string :=
  match s with
  | PENDING => "pending"
  | PROCESSING => "processing"
  | COMPLETED => "completed"
  | FAILED => "failed"
  | CANCELLED => "cancelled"
  end.

Inductive ResourceType := USERS | ARTICLES | COMMENTS.

#[export] Instance ResourceType_eq_dec : EqDecision ResourceType.
Proof. solve_decision. Defined.

Definition resource_string (r : ResourceType) : string :=
  match r with
  | USERS => "users"
  | ARTICLES => "articles"
  | COMMENTS => "comments"
  end.

Record ImportJobError := mkError {
  row : Z;
  field : option string;
  message : string;
  value : option string;
}.

(** [errorRate] is a quotient of two counters; it is kept exact here. *)
Record ImportJobMetrics := mkMetrics {
  rowsPerSecond : Z;
  errorRate : Q;
  durationMs : Z;
}.

(** A row of [import_jobs]. Dates are milliseconds since the epoch; a
    nullable column is an [option]. *)
Record ImportJob := mkJob {
  id : string;
  idempotencyKey : option string;
  resourceType : ResourceType;
  status : ImportJobStatus;
  fileUrl : option string;
  fileName : option string;
  fileSize : option Z;
  fileFormat : option string;
  totalRows : Z;
  processedRows : Z;
  successfulRows : Z;
  failedRows : Z;
  skippedRows : Z;
  errors : list ImportJobError;
  metrics : option ImportJobMetrics;
  errorMessage : option string;
  startedAt : option Z;
  completedAt : option Z;
  lockedBy : option string;
  lockedAt : option Z;
  createdAt : Z;
  updatedAt : Z;
  version : Z;
}.

(** [Partial<ImportJob>] over the columns a caller sets: [None] is an absent
    key, and for a nullable column [Some None] is an explicit [null]. The
    primary key and the columns the ORM maintains (createdAt, updatedAt,
    version) are never part of an update object. *)
Record PartialImportJob := mkPartial {
  u_idempotencyKey : option (option string);
  u_resourceType : option ResourceType;
  u_status : option ImportJobStatus;
  u_fileUrl : option (option string);
  u_fileName : option (option string);
  u_fileSize : option (option Z);
  u_fileFormat : option (option string);
  u_totalRows : option Z;
  u_processedRows : option Z;
  u_successfulRows : option Z;
  u_failedRows : option Z;
  u_skippedRows : option Z;
  u_errors : option (list ImportJobError);
  u_metrics : option (option ImportJobMetrics);
  u_errorMessage : option (option string);
  u_startedAt : option (option Z);
  u_completedAt : option (option Z);
  u_lockedBy : option (option string);
  u_lockedAt : option (option Z);
}.

(** The empty update object [{}]. *)
Definition no_updates : PartialImportJob :=
  mkPartial None None None None None None None None None None
            None None None None None None None None None.

(** [Object.assign(job, updates)]: every key present in [updates]
    overwrites the job's field. *)
Definition assign (job : ImportJob) (u : PartialImportJob) : ImportJob :=
  {| id := id job;
     idempotencyKey := default (idempotencyKey job) (u_idempotencyKey u);
     resourceType := default (resourceType job) (u_resourceType u);
     status := default (status job) (u_status u);
     fileUrl := default (fileUrl job) (u_fileUrl u);
     fileName := default (fileName job) (u_fileName u);
     fileSize := default (fileSize job) (u_fileSize u);
     fileFormat := default (fileFormat job) (u_fileFormat u);
     totalRows := default (totalRows job) (u_totalRows u);
     processedRows := default (processedRows job) (u_processedRows u);
     successfulRows := default (successfulRows job) (u_successfulRows u);
     failedRows := default (failedRows job) (u_failedRows u);
     skippedRows := default (skippedRows job) (u_skippedRows u);
     errors := default (errors job) (u_errors u);
     metrics := default (metrics job) (u_metrics u);
     errorMessage := default (errorMessage job) (u_errorMessage u);
     startedAt := default (startedAt job) (u_startedAt u);
     completedAt := default (completedAt job) (u_completedAt u);
     lockedBy := default (lockedBy job) (u_lockedBy u);
     lockedAt := default (lockedAt job) (u_lockedAt u);
     createdAt := createdAt job;
     updatedAt := updatedAt job;
     version := version job |}.

(** [job.status = s]. *)
Definition set_status (job : ImportJob) (s : ImportJobStatus) : ImportJob :=
  assign job
    (mkPartial None None (Some s) None None None None None None None
               None None None None None None None None None).

(** What the ORM does to a row when it writes it: the [@VersionColumn] is
    incremented and the [@UpdateDateColumn] refreshed. *)
Definition touch (now : Z) (job : ImportJob) : ImportJob :=
  {| id := id job;
     idempotencyKey := idempotencyKey job;
     resourceType := resourceType job;
     status := status job;
     fileUrl := fileUrl job;
     fileName := fileName job;
     fileSize := fileSize job;
     fileFormat := fileFormat job;
     totalRows := totalRows job;
     processedRows := processedRows job;
     successfulRows := successfulRows job;
     failedRows := failedRows job;
     skippedRows := skippedRows job;
     errors := errors job;
     metrics := metrics job;
     errorMessage := errorMessage job;
     startedAt := startedAt job;
     completedAt := completedAt job;
     lockedBy := lockedBy job;
     lockedAt := lockedAt job;
     createdAt := createdAt job;
     updatedAt := now;
     version := version job + 1 |}.

(** [get isTerminal]. *)
Definition isTerminal (job : ImportJob) : bool :=
  bool_decide (status job = COMPLETED \/ status job = FAILED \/
               status job = CANCELLED).

End Entities.

(** ** The job table and the two transactional primitives
    (ImportsService.atomicStatusTransition, ImportsService.finalizeJob) *)

Module JobStore.
Import Entities.

(** The [import_jobs] table, keyed by primary key. The store is taken to be
    available: a statement that the driver fails is not modelled, so the
    [catch] branches that only report such a failure have no counterpart. *)
Abbreviation Table := (gmap string ImportJob).

(** Every row is stored under its own primary key. *)
Definition wf_table (db : Table) : Prop :=
  map_Forall (fun k j => id j = k) db.

#[export] Instance wf_table_dec db : Decision (wf_table db).
Proof. unfold wf_table. apply _. Defined.

(** [createQueryBuilder('job').setLock('pessimistic_write')
      .where('job.id = :id').getOne()]. *)
Definition getOne (db : Table) (jobId : string) : option ImportJob :=
  db !! jobId.

(** [manager.save(job)] of a loaded row: the row is written back under its
    primary key, and the entity handed in carries the new version. *)
Definition save (now : Z) (job : ImportJob) (db : Table) : Table * ImportJob :=
  let job' := touch now job in (<[id job := job']> db, job').

(** [repository.update(id, partial)]: a plain UPDATE of the listed columns
    of the row with that key, whatever its current state; no row, no
    effect. *)
Definition update (now : Z) (jobId : string) (u : PartialImportJob)
    (db : Table) : Table :=
  match db !! jobId with
  | Some job => <[jobId := touch now (assign job u)]> db
  | None => db
  end.

(** The value [atomicStatusTransition] resolves to. *)
Record TransitionResult := mkResult {
  success : bool;
  job : option ImportJob;
  reason : option string;
}.

Definition atomicStatusTransition (now : Z) (db : Table) (jobId : string)
    (fromStatus toStatus : ImportJobStatus)
    (additionalUpdates : option PartialImportJob)
  : Table * TransitionResult :=
  match getOne db jobId with
  | None =>
      (* rollback *)
      (db, mkResult false None (Some "Job not found"))
  | Some job =>
      if decide (status job <> fromStatus) then
        (* rollback *)
        (db, mkResult false None
               (Some ("Job status is " ++ status_string (status job) ++
                      ", expected " ++ status_string fromStatus)))
      else
        let job1 := set_status job toStatus in
        let job2 := match additionalUpdates with
                    | Some u => assign job1 u
                    | None => job1
                    end in
        let '(db', saved) := save now job2 db in
        (* commit *)
        (db', mkResult true (Some saved) None)
  end.

(** How a call to [finalizeJob] ends: the row was written, the call
    returned early after logging a warning, or it threw. *)
Inductive FinalizeOutcome :=
| Finalized
| Refused (warning : string)
| Threw (error : string).

Definition finalizeJob (now : Z) (db : Table) (jobId : string)
    (st : ImportJobStatus) (updates : PartialImportJob)
  : Table * FinalizeOutcome :=
  match getOne db jobId with
  | None =>
      (db, Threw ("Job " ++ jobId ++ " not found during finalization"))
  | Some job =>
      if decide (status job <> PROCESSING) then
        (db, Refused ("Job " ++ jobId ++ " cannot be finalized: status is " ++
                      status_string (status job) ++ ", expected PROCESSING"))
      else
        let job1 := assign (set_status job st) updates in
        (fst (save now job1 db), Finalized)
  end.

(** The update objects the orchestrator passes to [finalizeJob]. *)
Definition completedUpdates (now : Z) (total processed successful failed
    skipped : Z) (errs : list ImportJobError) (m : ImportJobMetrics)
  : PartialImportJob :=
  {| u_idempotencyKey := None; u_resourceType := None; u_status := None;
     u_fileUrl := None; u_fileName := None; u_fileSize := None;
     u_fileFormat := None;
     u_totalRows := Some total;
     u_processedRows := Some processed;
     u_successfulRows := Some successful;
     u_failedRows := Some failed;
     u_skippedRows := Some skipped;
     u_errors := Some errs;
     u_metrics := Some (Some m);
     u_errorMessage := None;
     u_startedAt := None;
     u_completedAt := Some (Some now);
     u_lockedBy := Some None;
     u_lockedAt := Some None |}.

Definition failedUpdates (now : Z) (msg : string) (m : ImportJobMetrics)
  : PartialImportJob :=
  {| u_idempotencyKey := None; u_resourceType := None; u_status := None;
     u_fileUrl := None; u_fileName := None; u_fileSize := None;
     u_fileFormat := None;
     u_totalRows := None; u_processedRows := None;
     u_successfulRows := None; u_failedRows := None; u_skippedRows := None;
     u_errors := None;
     u_metrics := Some (Some m);
     u_errorMessage := Some (Some msg);
     u_startedAt := None;
     u_completedAt := Some (Some now);
     u_lockedBy := Some None;
     u_lockedAt := Some None |}.

(** An update object that sets both ownership columns to [null]. *)
Definition clears_lock (u : PartialImportJob) : Prop :=
  u_lockedBy u = Some None /\ u_lockedAt u = Some None.

(** The update object of the PENDING to PROCESSING transition. *)
Definition claimUpdates (nodeId : string) (now : Z) : PartialImportJob :=
  {| u_idempotencyKey := None; u_resourceType := None; u_status := None;
     u_fileUrl := None; u_fileName := None; u_fileSize := None;
     u_fileFormat := None;
     u_totalRows := None; u_processedRows := None;
     u_successfulRows := None; u_failedRows := None; u_skippedRows := None;
     u_errors := None; u_metrics := None; u_errorMessage := None;
     u_startedAt := Some (Some now);
     u_completedAt := None;
     u_lockedBy := Some (Some nodeId);
     u_lockedAt := Some (Some now) |}.

(** The update object of the second save of [createImportFromFile]. *)
Definition fileUrlUpdates (storageKey : string) : PartialImportJob :=
  {| u_idempotencyKey := None; u_resourceType := None; u_status := None;
     u_fileUrl := Some (Some storageKey);
     u_fileName := None; u_fileSize := None; u_fileFormat := None;
     u_totalRows := None; u_processedRows := None;
     u_successfulRows := None; u_failedRows := None; u_skippedRows := None;
     u_errors := None; u_metrics := None; u_errorMessage := None;
     u_startedAt := None; u_completedAt := None;
     u_lockedBy := None; u_lockedAt := None |}.

(** [updateJobProgress]: the five counters, written without a transaction. *)
Definition progressUpdates (total processed successful failed skipped : Z)
  : PartialImportJob :=
  {| u_idempotencyKey := None; u_resourceType := None; u_status := None;
     u_fileUrl := None; u_fileName := None; u_fileSize := None;
     u_fileFormat := None;
     u_totalRows := Some total;
     u_processedRows := Some processed;
     u_successfulRows := Some successful;
     u_failedRows := Some failed;
     u_skippedRows := Some skipped;
     u_errors := None; u_metrics := None; u_errorMessage := None;
     u_startedAt := None; u_completedAt := None;
     u_lockedBy := None; u_lockedAt := None |}.

Definition updateJobProgress (now : Z) (db : Table) (jobId : string)
    (total processed successful failed skipped : Z) : Table :=
  update now jobId (progressUpdates total processed successful failed skipped) db.

End JobStore.

(** ** Creating import jobs (ImportsService.createImportFromFile,
    ImportsService.createImportFromUrl) *)

Module Imports.
Import Entities JobStore.

(** [Express.Multer.File], the fields the service reads. *)
Record UploadedFile := mkFile {
  originalname : string;
  size : Z;
  buffer : string;
}.

(** [{ resourceType; format? }]. *)
Record FileDto := mkFileDto {
  fd_resourceType : ResourceType;
  fd_format : option string;
}.

(** [CreateImportDto]. *)
Record CreateImportDto := mkUrlDto {
  cd_resourceType : ResourceType;
  cd_fileUrl : option string;
  cd_format : option string;
}.

(** [ImportJobData], the queue payload. *)
Record ImportJobData := mkJobData {
  jd_jobId : string;
  jd_resourceType : ResourceType;
  jd_fileUrl : option string;
  jd_filePath : option string;
  jd_fileFormat : string;
  jd_idempotencyKey : option string;
}.

(** One [importQueue.add(name, data, opts)]. *)
Record QueueEntry := mkEntry {
  qe_name : string;
  qe_data : ImportJobData;
  qe_jobId : string;
  qe_attempts : Z;
  qe_backoffDelay : Z;
}.

(** One object put into the bucket. *)
Record StoredObject := mkObject {
  so_body : string;
  so_contentType : string;
  so_metadata : list (string * string);
}.

(** Everything a creation request can write to. *)
Record World := mkWorld {
  jobs : Table;
  objects : gmap string StoredObject;
  queue : list QueueEntry;
}.

(** What the surroundings supply to one request: the clock, today's date
    as the storage service prints it, and the primary key the database
    generates for a new row. *)
Record Env := mkEnv {
  now : Z;
  today : string;
  newId : string;
}.

Record ImportJobResponseDto := mkDto {
  r_id : string;
  r_resourceType : ResourceType;
  r_status : ImportJobStatus;
  r_idempotencyKey : option string;
  r_totalRows : Z;
  r_processedRows : Z;
  r_successfulRows : Z;
  r_failedRows : Z;
  r_skippedRows : Z;
  r_progressPercentage : Z;
  r_fileName : option string;
  r_fileSize : option Z;
  r_fileFormat : option string;
  r_errors : list ImportJobError;
  r_metrics : option ImportJobMetrics;
  r_errorMessage : option string;
  r_startedAt : option Z;
  r_completedAt : option Z;
  r_createdAt : Z;
  r_updatedAt : Z;
}.

Inductive Response :=
| Ok (dto : ImportJobResponseDto)
| ConflictException (msg : string)
| QueryFailedError (msg : string).

(** [s || undefined] on a nullable string: null and the empty string both
    give [undefined]. *)
Definition string_or_undefined (o : option string) : option string :=
  match o with
  | Some s => if Js.truthy s then Some s else None
  | None => None
  end.

(** [n || undefined] on a nullable number: null and zero both give
    [undefined]. *)
Definition number_or_undefined (o : option Z) : option Z :=
  match o with
  | Some n => if Z.eqb n 0 then None else Some n
  | None => None
  end.

(** [get progressPercentage]: [Math.round((processed / total) * 100)], with
    the quotient taken exactly. *)
Definition progressPercentage (job : ImportJob) : Z :=
  if Z.eqb (totalRows job) 0 then 0
  else (200 * processedRows job + totalRows job) / (2 * totalRows job).

Definition toResponseDto (job : ImportJob) : ImportJobResponseDto :=
  {| r_id := id job;
     r_resourceType := resourceType job;
     r_status := status job;
     r_idempotencyKey := string_or_undefined (idempotencyKey job);
     r_totalRows := totalRows job;
     r_processedRows := processedRows job;
     r_successfulRows := successfulRows job;
     r_failedRows := failedRows job;
     r_skippedRows := skippedRows job;
     r_progressPercentage := progressPercentage job;
     r_fileName := string_or_undefined (fileName job);
     r_fileSize := number_or_undefined (fileSize job);
     r_fileFormat := string_or_undefined (fileFormat job);
     r_errors := errors job;
     r_metrics := metrics job;
     r_errorMessage := string_or_undefined (errorMessage job);
     r_startedAt := startedAt job;
     r_completedAt := completedAt job;
     r_createdAt := createdAt job;
     r_updatedAt := updatedAt job |}.

(** [findOne({ where: { idempotencyKey: key } })]. *)
Definition findByIdempotencyKey (db : Table) (key : string)
  : option ImportJob :=
  snd <$> List.find (fun kj => bool_decide (idempotencyKey (snd kj) = Some key))
                    (map_to_list db).

(** [repository.create({...})] followed by the first [save]: the row is
    inserted under the generated key with version 1, and the insert fails
    on the unique index when another row already carries the key. *)
Definition insertJob (env : Env) (key : option string) (rt : ResourceType)
    (url name : option string) (sz : option Z) (format : string)
    (db : Table) : (Table * ImportJob) + string :=
  let job :=
    {| id := newId env; idempotencyKey := key; resourceType := rt;
       status := PENDING; fileUrl := url; fileName := name; fileSize := sz;
       fileFormat := Some format;
       totalRows := 0; processedRows := 0; successfulRows := 0;
       failedRows := 0; skippedRows := 0; errors := [];
       metrics := None; errorMessage := None; startedAt := None;
       completedAt := None; lockedBy := None; lockedAt := None;
       createdAt := now env; updatedAt := now env; version := 1 |} in
  match key ≫= findByIdempotencyKey db with
  | Some _ =>
      inr "duplicate key value violates unique constraint"
  | None => inl (<[newId env := job]> db, job)
  end.

Definition supported_format (format : string) : bool :=
  bool_decide (format = "json" \/ format = "ndjson" \/ format = "csv").

(** ImportsService.getContentType. *)
Definition getContentType (format : string) : string :=
  if decide (format = "csv") then "text/csv"
  else if decide (format = "ndjson") then "application/x-ndjson"
  else "application/json".

Definition keep_char (c : ascii) : bool :=
  let n := nat_of_ascii c in
  ((Nat.leb 97 n && Nat.leb n 122) || (Nat.leb 65 n && Nat.leb n 90) ||
   (Nat.leb 48 n && Nat.leb n 57) || Nat.eqb n 46 || Nat.eqb n 45)%bool.

(** [fileName.replace(/[^a-zA-Z0-9.-]/g, '_')]. *)
Fixpoint sanitize (s : string) : string :=
  match s with
  | EmptyString => EmptyString
  | String c s' => String (if keep_char c then c else "_"%char) (sanitize s')
  end.

(** StorageService.generateImportKey. *)
Definition generateImportKey (env : Env) (jobId fileName : string) : string :=
  let extension :=
    match string_or_undefined (Js.pop (Js.split "." fileName)) with
    | Some e => e
    | None => "dat"
    end in
  "imports/" ++ today env ++ "/" ++ jobId ++ "/" ++ sanitize fileName ++
  "." ++ extension.

Definition enqueue (data : ImportJobData) (q : list QueueEntry)
  : list QueueEntry :=
  (q ++ [mkEntry "process-import" data (jd_jobId data) 3 5000])%list.

Definition createImportFromFile (env : Env) (w : World) (file : UploadedFile)
    (dto : FileDto) (idempotencyKey : option string) : World * Response :=
  let existing :=
    match idempotencyKey with
    | Some k => if Js.truthy k then findByIdempotencyKey (jobs w) k else None
    | None => None
    end in
  match existing with
  | Some existingJob => (w, Ok (toResponseDto existingJob))
  | None =>
      let format :=
        match string_or_undefined (fd_format dto) with
        | Some f => f
        | None => Format.detectFormat (originalname file)
        end in
      if negb (supported_format format) then
        (w, ConflictException ("Unsupported file format: " ++ format))
      else
        match insertJob env idempotencyKey (fd_resourceType dto) None
                (Some (originalname file)) (Some (size file)) format (jobs w)
        with
        | inr e => (w, QueryFailedError e)
        | inl (db1, job) =>
            let storageKey :=
              generateImportKey env (id job) (originalname file) in
            let object :=
              mkObject (buffer file) (getContentType format)
                [("jobId", id job);
                 ("resourceType", resource_string (fd_resourceType dto));
                 ("format", format)] in
            let objects1 := <[storageKey := object]> (objects w) in
            let job1 :=
              assign job (fileUrlUpdates storageKey) in
            let '(db2, job2) := save (now env) job1 db1 in
            let data :=
              mkJobData (id job2) (fd_resourceType dto) None
                (Some storageKey) format idempotencyKey in
            (mkWorld db2 objects1 (enqueue data (queue w)),
             Ok (toResponseDto job2))
        end
  end.

Definition createImportFromUrl (env : Env) (w : World) (dto : CreateImportDto)
    (idempotencyKey : option string) : World * Response :=
  let existing :=
    match idempotencyKey with
    | Some k => if Js.truthy k then findByIdempotencyKey (jobs w) k else None
    | None => None
    end in
  match existing with
  | Some existingJob => (w, Ok (toResponseDto existingJob))
  | None =>
      match string_or_undefined (cd_fileUrl dto) with
      | None =>
          (w, ConflictException
                "fileUrl is required when not uploading a file")
      | Some fileUrl =>
          let format :=
            match string_or_undefined (cd_format dto) with
            | Some f => f
            | None => Format.detectFormat fileUrl
            end in
          if negb (supported_format format) then
            (w, ConflictException ("Unsupported file format: " ++ format))
          else
            match insertJob env idempotencyKey (cd_resourceType dto)
                    (Some fileUrl) None None format (jobs w)
            with
            | inr e => (w, QueryFailedError e)
            | inl (db1, job) =>
                let data :=
                  mkJobData (id job) (cd_resourceType dto) (Some fileUrl)
                    None format idempotencyKey in
                (mkWorld db1 (objects w) (enqueue data (queue w)),
                 Ok (toResponseDto job))
            end
      end
  end.

End Imports.

(** ** Stream transforms (stream.utils.ts) *)

Module Streams.

(** What [NdjsonParseTransform] pushes for one line: the parsed value, or
    the parse error together with the raw line. *)
Record NdjsonItem (Row : Type) := mkItem {
  data : option Row;
  error : option string;
  lineNumber : Z;
  raw : option string;
}.
Arguments mkItem {Row}.
Arguments data {Row}.
Arguments error {Row}.
Arguments lineNumber {Row}.
Arguments raw {Row}.

Section BatchTransform.
Context {A : Type}.

(** [_transform]: the chunk joins the pending batch, which is pushed once
    it has [batchSize] elements. The result is the new pending batch and
    what was pushed. *)
Definition batch_transform (batchSize : Z) (batch : list A) (chunk : A)
  : list A * list (list A) :=
  let batch' := (batch ++ [chunk])%list in
  if Z.of_nat (List.length batch') >=? batchSize then ([], [batch'])
  else (batch', []).

(** [_flush]: a non-empty pending batch is pushed. *)
Definition batch_flush (batch : list A) : list (list A) :=
  match batch with
  | [] => []
  | _ => [batch]
  end.

Fixpoint batch_run (batchSize : Z) (batch : list A) (chunks : list A)
  : list (list A) :=
  match chunks with
  | [] => batch_flush batch
  | x :: rest =>
      let '(b, out) := batch_transform batchSize batch x in
      (out ++ batch_run batchSize b rest)%list
  end.

(** Everything a [BatchTransform] pushes when fed [chunks] and ended. *)
Definition BatchTransform (batchSize : Z) (chunks : list A)
  : list (list A) :=
  batch_run batchSize [] chunks.
End BatchTransform.

Section NdjsonParseTransform.
Context {Row : Type}.
(** [JSON.parse]: the value, or the message of the error thrown. *)
Variable JSON_parse : string -> Row + string.

Record NdjsonState := mkNdjson {
  nd_buffer : string;
  nd_lineNumber : Z;
}.

Definition parse_line (n : Z) (trimmed : string) : NdjsonItem Row :=
  match JSON_parse trimmed with
  | inl parsed => mkItem (Some parsed) None n None
  | inr msg =>
      mkItem None
        (Some ("Invalid JSON at line " ++ pretty n ++ ": " ++ msg))
        n (Some trimmed)
  end.

(** The [for (const line of lines)] loop: every line is numbered, blank
    lines push nothing. *)
Fixpoint ndjson_lines (n : Z) (lines : list string)
  : Z * list (NdjsonItem Row) :=
  match lines with
  | [] => (n, [])
  | line :: rest =>
      let trimmed := Js.trim line in
      let '(m, out) := ndjson_lines (n + 1) rest in
      if decide (trimmed = "") then (m, out)
      else (m, parse_line (n + 1) trimmed :: out)
  end.

(** [_transform]. *)
Definition ndjson_transform (st : NdjsonState) (chunk : string)
  : NdjsonState * list (NdjsonItem Row) :=
  let buffer := nd_buffer st ++ chunk in
  let lines := Js.split Js.LF buffer in
  let '(n, out) := ndjson_lines (nd_lineNumber st) (removelast lines) in
  (mkNdjson (default "" (Js.pop lines)) n, out).

(** [_flush]: a last line without a line feed. *)
Definition ndjson_flush (st : NdjsonState) : list (NdjsonItem Row) :=
  if Js.truthy (Js.trim (nd_buffer st))
  then [parse_line (nd_lineNumber st + 1) (Js.trim (nd_buffer st))]
  else [].

Fixpoint ndjson_run (st : NdjsonState) (chunks : list string)
  : list (NdjsonItem Row) :=
  match chunks with
  | [] => ndjson_flush st
  | c :: rest =>
      let '(st', out) := ndjson_transform st c in
      (out ++ ndjson_run st' rest)%list
  end.

(** Everything an [NdjsonParseTransform] pushes for a stream of chunks. *)
Definition NdjsonParseTransform (chunks : list string)
  : list (NdjsonItem Row) :=
  ndjson_run (mkNdjson "" 0) chunks.
End NdjsonParseTransform.

End Streams.

(** ** The import pipeline (ImportsService.executeImportProcessing and the
    stream, batch and upsert methods it drives) *)

Module Pipeline.
Import Entities JobStore Streams.

(** [private readonly maxErrors = 100]. *)
Definition maxErrors : nat := 100.

Record FieldError := mkFieldError {
  fe_field : string;
  fe_message : string;
  fe_value : option string;
}.

Record ImportBatchResult := mkBatch {
  successful : Z;
  failed : Z;
  skipped : Z;
  batchErrors : list ImportJobError;
}.

Record ValidatedImportRecord (Row : Type) := mkValidated {
  isValid : bool;
  v_data : option Row;
  v_errors : option (list FieldError);
  v_lineNumber : Z;
  v_raw : option Row;
}.
Arguments mkValidated {Row}.
Arguments isValid {Row}.
Arguments v_data {Row}.
Arguments v_errors {Row}.
Arguments v_lineNumber {Row}.
Arguments v_raw {Row}.

(** The counters and the error list a stream method accumulates and
    returns. *)
Record StreamResult := mkStream {
  s_totalRows : Z;
  s_processedRows : Z;
  s_successfulRows : Z;
  s_failedRows : Z;
  s_skippedRows : Z;
  s_errors : list ImportJobError;
}.

Definition emptyResult : StreamResult := mkStream 0 0 0 0 0 [].

(** How a run of [executeImportProcessing] ends. *)
Inductive RunOutcome :=
| Completed
| Rethrown (msg : string).

(** [Array.prototype.slice(0, n)]. *)
Definition slice0 {A} (n : nat) (l : list A) : list A := take n l.

(** [if (errors.length < maxErrors)
      errors.push(...more.slice(0, maxErrors - errors.length))]. *)
Definition push_capped (errs more : list ImportJobError)
  : list ImportJobError :=
  if (List.length errs <? maxErrors)%nat
  then (errs ++ slice0 (maxErrors - List.length errs) more)%list
  else errs.

(** [Math.round(a / b)] for a positive divisor, with the quotient exact. *)
Definition round_div (a b : Z) : Z := (2 * a + b) / (2 * b).

Definition len {A} (l : list A) : Z := Z.of_nat (List.length l).

(** The relation between the counters that the job record is meant to
    keep: successful + failed + skipped <= processed <= total. *)
Definition counters_ok (r : StreamResult) : Prop :=
  s_successfulRows r + s_failedRows r + s_skippedRows r <= s_processedRows r
  /\ s_processedRows r <= s_totalRows r.

Definition row_counters_ok (j : ImportJob) : Prop :=
  successfulRows j + failedRows j + skippedRows j <= processedRows j
  /\ processedRows j <= totalRows j.

(** A stream result counts every failed row of a run and keeps the first
    [maxErrors] of its row errors. *)
Definition counts_all_keeps_first (run : Z * list ImportJobError)
    (r : StreamResult) : Prop :=
  s_failedRows r = fst run /\ s_errors r = take maxErrors (snd run).

Section Processing.
Context {Row DB : Type}.

(** [job.batchSize] from the configuration. *)
Variable batchSize : Z.

(** The collaborators the pipeline calls and that lie outside the
    service: the class-validator based [validateRecord]; the body of the
    upsert transaction for a resource type ([upsertUsers],
    [upsertArticles], [upsertComments]), which gives the new database and
    the batch counts or throws; [commitTransaction], which may throw;
    JavaScript truthiness of a parsed value; [JSON.parse];
    [Array.isArray]; the csv-parse parser; the two byte sources. *)
Variable validateRecord :
  Row -> ResourceType -> Z -> ValidatedImportRecord Row.
Variable upsertByType :
  DB -> list (ValidatedImportRecord Row) -> ResourceType ->
  (DB * ImportBatchResult) + string.
Variable commitTransaction : DB -> option string.
Variable truthy : Row -> bool.
Variable JSON_parse : string -> Row + string.
Variable asArray : Row -> option (list Row).
Variable csvParse : list string -> list Row.
Variable storage_getStream : string -> list string + string.
Variable fetch : string -> list string + string.

Definition database_errors (records : list (ValidatedImportRecord Row))
    (msg : string) : list ImportJobError :=
  map (fun r => mkError (v_lineNumber r) None ("Database error: " ++ msg) None)
      records.

(** [upsertRecords]: one transaction per batch. When the body or the
    commit throws, the transaction is rolled back and every record of the
    batch is counted as failed, on top of what was counted so far. *)
Definition upsertRecords (db : DB)
    (records : list (ValidatedImportRecord Row)) (rt : ResourceType)
  : DB * ImportBatchResult :=
  match upsertByType db records rt with
  | inl (db', r) =>
      match commitTransaction db' with
      | None => (db', mkBatch (successful r) (failed r) (skipped r)
                              (batchErrors r))
      | Some msg =>
          (db, mkBatch (successful r) (failed r + len records) (skipped r)
                       (batchErrors r ++ database_errors records msg)%list)
      end
  | inr msg => (db, mkBatch 0 (len records) 0 (database_errors records msg))
  end.

Definition to_job_error (record : ValidatedImportRecord Row)
    (e : FieldError) : ImportJobError :=
  mkError (v_lineNumber record) (Some (fe_field e)) (fe_message e)
          (fe_value e).

(** The loop over the invalid records: each one counts as failed; its
    messages are stored while the list is still below the cap. *)
Definition add_invalid (acc : Z * list ImportJobError)
    (record : ValidatedImportRecord Row) : Z * list ImportJobError :=
  let '(failedCount, errs) := acc in
  (failedCount + 1,
   match v_errors record with
   | Some es =>
       if (List.length errs <? maxErrors)%nat
       then (errs ++ map (to_job_error record) es)%list
       else errs
   | None => errs
   end).

Definition processBatchWithLineNumbers (db : DB)
    (records : list (Row * Z)) (rt : ResourceType)
  : DB * ImportBatchResult :=
  let validatedRecords :=
    map (fun r => validateRecord (fst r) rt (snd r)) records in
  let validRecords := List.filter isValid validatedRecords in
  let invalidRecords :=
    List.filter (fun r => negb (isValid r)) validatedRecords in
  let '(failedCount, errs) :=
    fold_left add_invalid invalidRecords (0, []) in
  if (0 <? len validRecords) then
    let '(db', result) := upsertRecords db validRecords rt in
    (db', mkBatch (0 + successful result) (failedCount + failed result)
                  (0 + skipped result) (errs ++ batchErrors result)%list)
  else (db, mkBatch 0 failedCount 0 errs).

(** [processBatch]: rows are numbered from [startRow]. *)
Definition processBatch (db : DB) (batch : list Row) (rt : ResourceType)
    (startRow : Z) : DB * ImportBatchResult :=
  processBatchWithLineNumbers db
    (imap (fun index data => (data, startRow + Z.of_nat index)) batch) rt.

(** [if (batchNumber % 10 === 0) await this.updateJobProgress(...)]. *)
Definition flush_every_10 (now : Z) (tbl : Table) (jobId : string)
    (batchNumber : Z) (r : StreamResult) : Table :=
  if Z.rem batchNumber 10 =? 0 then
    updateJobProgress now tbl jobId (s_totalRows r) (s_processedRows r)
      (s_successfulRows r) (s_failedRows r) (s_skippedRows r)
  else tbl.

(** One iteration of the [for await] loop of [processCSVStream]. *)
Definition csv_step (now : Z) (jobId : string) (rt : ResourceType)
    (st : Table * DB * StreamResult * Z) (batch : list Row)
  : Table * DB * StreamResult * Z :=
  let '(tbl, db, r, batchNumber0) := st in
  let batchNumber := batchNumber0 + 1 in
  let startRow := (batchNumber - 1) * batchSize + 1 in
  let totalRows := s_totalRows r + len batch in
  let '(db', result) := processBatch db batch rt startRow in
  let r' :=
    mkStream totalRows (s_processedRows r + len batch)
      (s_successfulRows r + successful result)
      (s_failedRows r + failed result)
      (s_skippedRows r + skipped result)
      (push_capped (s_errors r) (batchErrors result)) in
  (flush_every_10 now tbl jobId batchNumber r', db', r', batchNumber).

Definition processCSVStream (now : Z) (tbl : Table) (db : DB)
    (stream : list string) (rt : ResourceType) (jobId : string)
  : Table * DB * StreamResult :=
  let batches := BatchTransform batchSize (csvParse stream) in
  let '(tbl', db', r, _) :=
    fold_left (csv_step now jobId rt) batches (tbl, db, emptyResult, 0) in
  (tbl', db', r).

(** The number of failed rows and the full sequence of row errors of a CSV
    run, batch after batch, with no cap applied anywhere above
    [processBatch]; [batchNumber0] batches came before. *)
Fixpoint csv_uncapped (db : DB) (rt : ResourceType) (batchNumber0 : Z)
    (batches : list (list Row)) : Z * list ImportJobError :=
  match batches with
  | [] => (0, [])
  | batch :: rest =>
      let batchNumber := batchNumber0 + 1 in
      let '(db', result) :=
        processBatch db batch rt ((batchNumber - 1) * batchSize + 1) in
      let '(failedRest, errorsRest) := csv_uncapped db' rt batchNumber rest in
      (failed result + failedRest,
       (batchErrors result ++ errorsRest)%list)
  end.

(** The loop over the items of one NDJSON batch: a line that failed to
    parse counts as failed and its message is stored while there is room;
    a line that parsed to a truthy value joins the records to validate. *)
Definition split_item (acc : Z * list ImportJobError * list (Row * Z))
    (item : NdjsonItem Row) : Z * list ImportJobError * list (Row * Z) :=
  let '(failedRows, errs, validRecords) := acc in
  match Imports.string_or_undefined (error item) with
  | Some msg =>
      (failedRows + 1,
       if (List.length errs <? maxErrors)%nat
       then (errs ++ [mkError (lineNumber item) None msg None])%list
       else errs,
       validRecords)
  | None =>
      match data item with
      | Some d =>
          if truthy d
          then (failedRows, errs,
                (validRecords ++ [(d, lineNumber item)])%list)
          else acc
      | None => acc
      end
  end.

(** The lines of a batch that failed to parse, and how many there are. *)
Definition parse_failed (item : NdjsonItem Row) : bool :=
  bool_decide (is_Some (Imports.string_or_undefined (error item))).

Definition parse_failures (typedBatch : list (NdjsonItem Row)) : Z :=
  len (List.filter parse_failed typedBatch).

(** One iteration of the [for await] loop of [processNDJSONStream]. *)
Definition ndjson_step (now : Z) (jobId : string) (rt : ResourceType)
    (st : Table * DB * StreamResult * Z) (typedBatch : list (NdjsonItem Row))
  : Table * DB * StreamResult * Z :=
  let '(tbl, db, r, batchNumber0) := st in
  let batchNumber := batchNumber0 + 1 in
  let totalRows := s_totalRows r + len typedBatch in
  let '(failedRows, errs, validRecords) :=
    fold_left split_item typedBatch (s_failedRows r, s_errors r, []) in
  let '(db', r') :=
    if (0 <? len validRecords) then
      let '(db', result) :=
        processBatchWithLineNumbers db validRecords rt in
      (db',
       mkStream totalRows (s_processedRows r + len validRecords)
         (s_successfulRows r + successful result)
         (failedRows + failed result)
         (s_skippedRows r + skipped result)
         (push_capped errs (batchErrors result)))
    else
      (db, mkStream totalRows (s_processedRows r) (s_successfulRows r)
             failedRows (s_skippedRows r) errs) in
  (flush_every_10 now tbl jobId batchNumber r', db', r', batchNumber).

Definition processNDJSONStream (now : Z) (tbl : Table) (db : DB)
    (stream : list string) (rt : ResourceType) (jobId : string)
  : Table * DB * StreamResult :=
  let batches :=
    BatchTransform batchSize (NdjsonParseTransform JSON_parse stream) in
  let '(tbl', db', r, _) :=
    fold_left (ndjson_step now jobId rt) batches (tbl, db, emptyResult, 0) in
  (tbl', db', r).

(** What one NDJSON batch contributes when nothing is capped: the
    messages of its unparsable lines and the records handed on. *)
Definition parse_errors (typedBatch : list (NdjsonItem Row))
  : list ImportJobError :=
  omap (fun item =>
          (fun msg => mkError (lineNumber item) None msg None) <$>
          Imports.string_or_undefined (error item)) typedBatch.

Definition valid_records (typedBatch : list (NdjsonItem Row))
  : list (Row * Z) :=
  omap (fun item =>
          match Imports.string_or_undefined (error item) with
          | Some _ => None
          | None =>
              match data item with
              | Some d => if truthy d then Some (d, lineNumber item) else None
              | None => None
              end
          end) typedBatch.

(** The number of failed rows and the full sequence of row errors of an
    NDJSON run, batch after batch, with no cap applied anywhere above
    [processBatchWithLineNumbers]. *)
Fixpoint ndjson_uncapped (db : DB) (rt : ResourceType)
    (batches : list (list (NdjsonItem Row))) : Z * list ImportJobError :=
  match batches with
  | [] => (0, [])
  | typedBatch :: rest =>
      let validRecords := valid_records typedBatch in
      let '(db', result) :=
        if (0 <? len validRecords)
        then processBatchWithLineNumbers db validRecords rt
        else (db, mkBatch 0 0 0 []) in
      let '(failedRest, errorsRest) := ndjson_uncapped db' rt rest in
      (parse_failures typedBatch + failed result + failedRest,
       (parse_errors typedBatch ++ batchErrors result ++ errorsRest)%list)
  end.

(** [data.slice(i, i + batchSize)] for non-negative [i]. *)
Definition slice_from (data : list Row) (i : Z) : list Row :=
  take (Z.to_nat (i + batchSize) - Z.to_nat i) (drop (Z.to_nat i) data).

(** The [for (let i = 0; i < data.length; i += this.batchSize)] loop of
    [processJSONStream]; it ends within [fuel] rounds or gives [None]. *)
Fixpoint json_loop (fuel : nat) (now : Z) (jobId : string)
    (rt : ResourceType) (data : list Row) (i : Z)
    (st : Table * DB * StreamResult)
  : option (Table * DB * StreamResult) :=
  if i <? len data then
    match fuel with
    | O => None
    | S fuel' =>
        let '(tbl, db, r) := st in
        let batch := slice_from data i in
        let startRow := i + 1 in
        let '(db', result) := processBatch db batch rt startRow in
        let r' :=
          mkStream (s_totalRows r) (s_processedRows r + len batch)
            (s_successfulRows r + successful result)
            (s_failedRows r + failed result)
            (s_skippedRows r + skipped result)
            (push_capped (s_errors r) (batchErrors result)) in
        let tbl' :=
          updateJobProgress now tbl jobId (s_totalRows r')
            (s_processedRows r') (s_successfulRows r') (s_failedRows r')
            (s_skippedRows r') in
        json_loop fuel' now jobId rt data (i + batchSize) (tbl', db', r')
    end
  else Some st.

(** The same totals for the loop of [processJSONStream]. *)
Fixpoint json_uncapped (fuel : nat) (db : DB) (rt : ResourceType)
    (data : list Row) (i : Z) : Z * list ImportJobError :=
  if i <? len data then
    match fuel with
    | O => (0, [])
    | S fuel' =>
        let '(db', result) := processBatch db (slice_from data i) rt (i + 1) in
        let '(failedRest, errorsRest) :=
          json_uncapped fuel' db' rt data (i + batchSize) in
        (failed result + failedRest,
         (batchErrors result ++ errorsRest)%list)
    end
  else (0, []).

(** [processJSONStream]: the whole file is parsed first; anything but an
    array is an error. The outer [option] is [None] when the loop does
    not end, the sum is the value returned or the error thrown. *)
Definition processJSONStream (now : Z) (tbl : Table) (db : DB)
    (stream : list string) (rt : ResourceType) (jobId : string)
  : option ((Table * DB * StreamResult) + string) :=
  let content := fold_right String.append "" stream in
  match JSON_parse content with
  | inr msg => Some (inr ("Invalid JSON: " ++ msg))
  | inl parsed =>
      match asArray parsed with
      | None =>
          Some (inr ("Invalid JSON: " ++
                     "JSON file must contain an array of objects"))
      | Some data =>
          inl <$> json_loop (List.length data) now jobId rt data 0
                    (tbl, db,
                     mkStream (len data) 0 0 0 0 [])
      end
  end.

(** The first lines of [executeImportProcessing]: where the bytes come
    from. *)
Definition openStream (jobData : Imports.ImportJobData)
  : list string + string :=
  match Imports.string_or_undefined (Imports.jd_filePath jobData) with
  | Some filePath => storage_getStream filePath
  | None =>
      match Imports.string_or_undefined (Imports.jd_fileUrl jobData) with
      | Some fileUrl => fetch fileUrl
      | None => inr "No file path or URL provided"
      end
  end.

Definition completionMetrics (r : StreamResult) (durationMs : Z)
  : ImportJobMetrics :=
  mkMetrics
    (if 0 <? durationMs then round_div (s_processedRows r * 1000) durationMs
     else 0)
    (if 0 <? s_totalRows r
     then Qmake (s_failedRows r) (Z.to_pos (s_totalRows r)) else 0%Q)
    durationMs.

(** The update object of the COMPLETED finalize. *)
Definition completionUpdates (now durationMs : Z) (r : StreamResult)
  : PartialImportJob :=
  completedUpdates now (s_totalRows r) (s_processedRows r)
    (s_successfulRows r) (s_failedRows r) (s_skippedRows r)
    (slice0 maxErrors (s_errors r)) (completionMetrics r durationMs).

(** The [catch] block: finalize as FAILED and rethrow; an error thrown by
    that finalize replaces the one being handled. *)
Definition fail_run (now durationMs : Z) (tbl : Table) (db : DB)
    (jobId : string) (errorMessage : string)
  : Table * DB * RunOutcome :=
  match finalizeJob now tbl jobId FAILED
          (failedUpdates now errorMessage (mkMetrics 0 1%Q durationMs)) with
  | (tbl', Threw e) => (tbl', db, Rethrown e)
  | (tbl', _) => (tbl', db, Rethrown errorMessage)
  end.

(** [executeImportProcessing]; [None] when the JSON loop does not end. *)
Definition executeImportProcessing (now durationMs : Z) (tbl : Table)
    (db : DB) (job : ImportJob) (jobData : Imports.ImportJobData)
  : option (Table * DB * RunOutcome) :=
  match openStream jobData with
  | inr msg => Some (fail_run now durationMs tbl db (id job) msg)
  | inl stream =>
      let processed :=
        if decide (Imports.jd_fileFormat jobData = "csv") then
          Some (inl (processCSVStream now tbl db stream (resourceType job)
                       (id job)))
        else if decide (Imports.jd_fileFormat jobData = "ndjson") then
          Some (inl (processNDJSONStream now tbl db stream
                       (resourceType job) (id job)))
        else processJSONStream now tbl db stream (resourceType job)
               (id job) in
      match processed with
      | None => None
      | Some (inr msg) => Some (fail_run now durationMs tbl db (id job) msg)
      | Some (inl (tbl1, db1, r)) =>
          match finalizeJob now tbl1 (id job) COMPLETED
                  (completionUpdates now durationMs r) with
          | (tbl2, Threw e) =>
              Some (fail_run now durationMs tbl2 db1 (id job) e)
          | (tbl2, _) => Some (tbl2, db1, Completed)
          end
      end
  end.
End Processing.

End Pipeline.

(** ** Stale-job recovery (StaleJobCleanupService.handleStaleImportJob) *)

Module StaleCleanup.
Import Entities JobStore.

Definition resetUpdates (message : string) : PartialImportJob :=
  {| u_idempotencyKey := None; u_resourceType := None;
     u_status := Some PENDING;
     u_fileUrl := None; u_fileName := None; u_fileSize := None;
     u_fileFormat := None;
     u_totalRows := None; u_processedRows := None;
     u_successfulRows := None; u_failedRows := None; u_skippedRows := None;
     u_errors := None; u_metrics := None;
     u_errorMessage := Some (Some message);
     u_startedAt := Some None;
     u_completedAt := None;
     u_lockedBy := Some None;
     u_lockedAt := Some None |}.

Definition failUpdates (now : Z) (message : string) : PartialImportJob :=
  {| u_idempotencyKey := None; u_resourceType := None;
     u_status := Some FAILED;
     u_fileUrl := None; u_fileName := None; u_fileSize := None;
     u_fileFormat := None;
     u_totalRows := None; u_processedRows := None;
     u_successfulRows := None; u_failedRows := None; u_skippedRows := None;
     u_errors := None; u_metrics := None;
     u_errorMessage := Some (Some message);
     u_startedAt := None;
     u_completedAt := Some (Some now);
     u_lockedBy := Some None;
     u_lockedAt := Some None |}.

(** [handleStaleImportJob], on the row as the sweep read it; [message] is
    the text the service puts together from the thresholds and the row. *)
Definition handleStaleImportJob (restartStaleJobs : bool) (now : Z)
    (message : string) (tbl : Table) (job : ImportJob) : Table :=
  if (restartStaleJobs && bool_decide (status job = PROCESSING))%bool
  then update now (id job) (resetUpdates message) tbl
  else update now (id job) (failUpdates now message) tbl.

End StaleCleanup.

(** ** Every write the service makes to the import job table *)

Module Service.
Import Entities JobStore.

(** One write to the table, by any of the code paths that write to it. *)
Inductive write : Table -> Table -> Prop :=
| write_insert env key rt url name sz format tbl tbl' job :
    Imports.insertJob env key rt url name sz format tbl = inl (tbl', job) ->
    write tbl tbl'
| write_fileUrl now storageKey tbl job :
    tbl !! id job = Some job ->
    write tbl (fst (save now (assign job (fileUrlUpdates storageKey)) tbl))
| write_claim now nodeId jobId tbl :
    write tbl (fst (atomicStatusTransition now tbl jobId PENDING PROCESSING
                      (Some (claimUpdates nodeId now))))
| write_progress now jobId total processed successful failed skipped tbl :
    write tbl (updateJobProgress now tbl jobId total processed successful
                 failed skipped)
| write_completed now durationMs jobId r tbl :
    write tbl (fst (finalizeJob now tbl jobId COMPLETED
                      (Pipeline.completionUpdates now durationMs r)))
| write_failed now jobId msg m tbl :
    write tbl (fst (finalizeJob now tbl jobId FAILED
                      (failedUpdates now msg m)))
| write_stale restart now message tbl job :
    write tbl (StaleCleanup.handleStaleImportJob restart now message tbl job).

(** The tables the service can produce from an empty one. *)
Inductive reachable : Table -> Prop :=
| reachable_empty : reachable ∅
| reachable_write tbl tbl' : reachable tbl -> write tbl tbl' -> reachable tbl'.

(** The error lists of all rows respect the cap. *)
Definition errors_capped (tbl : Table) : Prop :=
  map_Forall (fun _ j => (List.length (errors j) <= Pipeline.maxErrors)%nat)
             tbl.

(** An update object whose error list, if it has one, respects the cap. *)
Definition capped_updates (u : PartialImportJob) : Prop :=
  forall es, u_errors u = Some es ->
             (List.length es <= Pipeline.maxErrors)%nat.

End Service.

(** ** Export queries (ExportsService.applyCommonFilters, fetchUsers,
    fetchArticles, fetchComments, countRecords, streamRecords) *)

Module Exports.
Import Entities.

(** Column and parameter values. *)
Inductive Value :=
| VNull
| VBool (b : bool)
| VString (s : string)
| VDate (ms : Z)
| VStrings (l : list string).

#[export] Instance Value_eq_dec : EqDecision Value.
Proof. solve_decision. Defined.

(** A row of a resource table, as an object from column names to values. *)
Abbreviation Entity := (gmap string Value).

(** The three resource tables, each in the order in which the store holds
    its rows. *)
Record Database := mkDatabase {
  users : list Entity;
  articles : list Entity;
  comments : list Entity;
}.

(** [ExportFiltersDto]. *)
Record ExportFiltersDto := mkFilters {
  ids : option (list string);
  createdAfter : option string;
  createdBefore : option string;
  updatedAfter : option string;
  updatedBefore : option string;
  f_status : option string;
  active : option bool;
  authorId : option string;
  articleId : option string;
  userId : option string;
}.

Definition noFilters : ExportFiltersDto :=
  mkFilters None None None None None None None None None None.

Inductive Operator := OpGe | OpLe | OpEq | OpIn.

(** One [andWhere] condition: [alias.column op :placeholder]. *)
Record Condition := mkCondition {
  c_column : string;
  c_operator : Operator;
  c_placeholder : string;
}.

(** The state of a [SelectQueryBuilder]. *)
Record SelectQueryBuilder := mkBuilder {
  from : list Entity;
  wheres : list Condition;
  parameters : gmap string Value;
  orderByAsc : option string;
  skipped : option Z;
  taken : option Z;
}.

Definition createQueryBuilder (table : list Entity) : SelectQueryBuilder :=
  mkBuilder table [] ∅ None None None.

(** [qb.andWhere(condition, parameters)]: the condition is appended and the
    given parameters are added to those already set. *)
Definition andWhere (qb : SelectQueryBuilder) (c : Condition)
    (params : gmap string Value) : SelectQueryBuilder :=
  mkBuilder (from qb) (wheres qb ++ [c])%list (params ∪ parameters qb)
            (orderByAsc qb) (skipped qb) (taken qb).

Definition orderBy (qb : SelectQueryBuilder) (column : string)
  : SelectQueryBuilder :=
  mkBuilder (from qb) (wheres qb) (parameters qb) (Some column)
            (skipped qb) (taken qb).

Definition skip (qb : SelectQueryBuilder) (n : Z) : SelectQueryBuilder :=
  mkBuilder (from qb) (wheres qb) (parameters qb) (orderByAsc qb)
            (Some n) (taken qb).

Definition take_ (qb : SelectQueryBuilder) (n : Z) : SelectQueryBuilder :=
  mkBuilder (from qb) (wheres qb) (parameters qb) (orderByAsc qb)
            (skipped qb) (Some n).

(** Whether a row satisfies a condition once its placeholder has a value. *)
Definition compare (v : option Value) (op : Operator) (p : Value) : bool :=
  match op, v, p with
  | OpGe, Some (VDate a), VDate b => b <=? a
  | OpLe, Some (VDate a), VDate b => a <=? b
  | OpEq, Some a, b => bool_decide (a = b)
  | OpIn, Some (VString a), VStrings l => bool_decide (a ∈ l)
  | _, _, _ => false
  end.

Definition satisfies (params : gmap string Value) (e : Entity)
    (c : Condition) : bool :=
  match params !! c_placeholder c with
  | Some p => compare (e !! c_column c) (c_operator c) p
  | None => false
  end.

(** A statement can be run only when every placeholder in it has been
    given a value; one that was not is left in the SQL text as it stands
    and the store rejects the statement. *)
Definition unbound (qb : SelectQueryBuilder) : list string :=
  List.filter (fun name => bool_decide (parameters qb !! name = None))
              (map c_placeholder (wheres qb)).

Definition selected (qb : SelectQueryBuilder) : list Entity :=
  List.filter (fun e => forallb (satisfies (parameters qb) e) (wheres qb))
              (from qb).

(** The sort key of a row: its date in the order column; a row without one
    sorts last. *)
Definition sort_key (column : string) (e : Entity) : option Z :=
  match e !! column with
  | Some (VDate ms) => Some ms
  | _ => None
  end.

Definition key_leb (a b : option Z) : bool :=
  match a, b with
  | Some x, Some y => x <=? y
  | Some _, None => true
  | None, Some _ => false
  | None, None => true
  end.

(** ORDER BY column ASC: rows with equal keys stay in the order in which
    the store holds them, which is all the statement asks for. *)
Fixpoint insert_by (column : string) (e : Entity) (sorted : list Entity)
  : list Entity :=
  match sorted with
  | [] => [e]
  | x :: rest =>
      if key_leb (sort_key column e) (sort_key column x)
      then e :: x :: rest
      else x :: insert_by column e rest
  end.

Definition sort_by (column : string) (rows : list Entity) : list Entity :=
  fold_right (insert_by column) [] rows.

Definition ordered (qb : SelectQueryBuilder) : list Entity :=
  match orderByAsc qb with
  | Some column => sort_by column (selected qb)
  | None => selected qb
  end.

Definition paged (qb : SelectQueryBuilder) (rows : list Entity)
  : list Entity :=
  let rows1 := match skipped qb with
               | Some n => drop (Z.to_nat n) rows
               | None => rows
               end in
  match taken qb with
  | Some n => take (Z.to_nat n) rows1
  | None => rows1
  end.

Definition query_error (name : string) : string :=
  "syntax error at or near :" ++ name.

(** [qb.getMany()]. *)
Definition getMany (qb : SelectQueryBuilder) : list Entity + string :=
  match unbound qb with
  | name :: _ => inr (query_error name)
  | [] => inl (paged qb (ordered qb))
  end.

(** [qb.getCount()]. *)
Definition getCount (qb : SelectQueryBuilder) : Z + string :=
  match unbound qb with
  | name :: _ => inr (query_error name)
  | [] => inl (Z.of_nat (List.length (selected qb)))
  end.

(** An exported record: its keys in order, each with the value read from
    the row ([None] where the row has no such column). *)
Abbreviation FormattedRecord := (list (string * option Value)).

Definition renamed (e : Entity) (columns : list (string * string))
  : FormattedRecord :=
  map (fun kc => (fst kc, e !! snd kc)) columns.

Definition lookup_key (field : string) (formatted : FormattedRecord)
  : option (string * option Value) :=
  List.find (fun kv => bool_decide (fst kv = field)) formatted.

(** [formatRecord]: the row's columns under their exported names, cut down
    to [fields] when a non-empty projection is given. *)
Definition formatRecord (record : Entity) (rt : ResourceType)
    (fields : option (list string)) : FormattedRecord :=
  let formatted :=
    match rt with
    | USERS =>
        renamed record
          [("id", "id"); ("email", "email"); ("name", "name");
           ("role", "role"); ("active", "active");
           ("created_at", "createdAt"); ("updated_at", "updatedAt")]
    | ARTICLES =>
        renamed record
          [("id", "id"); ("slug", "slug"); ("title", "title");
           ("body", "body"); ("author_id", "authorId"); ("tags", "tags");
           ("status", "status"); ("published_at", "publishedAt");
           ("created_at", "createdAt"); ("updated_at", "updatedAt")]
    | COMMENTS =>
        renamed record
          [("id", "id"); ("article_id", "articleId");
           ("user_id", "userId"); ("body", "body");
           ("created_at", "createdAt")]
    end in
  match fields with
  | Some fs =>
      if (0 <? List.length fs)%nat
      then omap (fun field => lookup_key field formatted) fs
      else formatted
  | None => formatted
  end.

Section Queries.
(** [new Date(text).getTime()]. *)
Variable Date_parse : string -> Z.

Definition when {A} (o : option A) (test : A -> bool)
    (f : A -> SelectQueryBuilder -> SelectQueryBuilder)
    (qb : SelectQueryBuilder) : SelectQueryBuilder :=
  match o with
  | Some a => if test a then f a qb else qb
  | None => qb
  end.

Definition nonempty (l : list string) : bool :=
  (0 <? List.length l)%nat.

(** [applyCommonFilters]; with [filters] null nothing is added. *)
Definition applyCommonFilters (qb : SelectQueryBuilder)
    (filters : option ExportFiltersDto) : SelectQueryBuilder :=
  match filters with
  | None => qb
  | Some f =>
      let qb1 :=
        when (ids f) nonempty
          (fun l q => andWhere q (mkCondition "id" OpIn "ids")
                        {[ "ids" := VStrings l ]}) qb in
      let qb2 :=
        when (createdAfter f) Js.truthy
          (fun d q => andWhere q
                        (mkCondition "createdAt" OpGe "createdAfter")
                        {[ "createdAt" := VDate (Date_parse d) ]}) qb1 in
      let qb3 :=
        when (createdBefore f) Js.truthy
          (fun d q => andWhere q
                        (mkCondition "createdAt" OpLe "createdBefore")
                        {[ "createdBefore" := VDate (Date_parse d) ]}) qb2 in
      let qb4 :=
        when (updatedAfter f) Js.truthy
          (fun d q => andWhere q
                        (mkCondition "updatedAt" OpGe "updatedAfter")
                        {[ "updatedAfter" := VDate (Date_parse d) ]}) qb3 in
      when (updatedBefore f) Js.truthy
        (fun d q => andWhere q
                      (mkCondition "updatedAt" OpLe "updatedBefore")
                      {[ "updatedBefore" := VDate (Date_parse d) ]}) qb4
  end.

(** The conditions each resource adds to the common ones, shared by the
    fetch and the count of that resource. *)
Definition userFilters (db : Database) (filters : option ExportFiltersDto)
  : SelectQueryBuilder :=
  let qb := applyCommonFilters (createQueryBuilder (users db)) filters in
  when (filters ≫= active) (fun _ => true)
    (fun b q => andWhere q (mkCondition "active" OpEq "active")
                  {[ "active" := VBool b ]}) qb.

Definition articleFilters (db : Database)
    (filters : option ExportFiltersDto) : SelectQueryBuilder :=
  let qb := applyCommonFilters (createQueryBuilder (articles db)) filters in
  let qb1 :=
    when (filters ≫= f_status) Js.truthy
      (fun v q => andWhere q (mkCondition "status" OpEq "status")
                    {[ "status" := VString v ]}) qb in
  when (filters ≫= authorId) Js.truthy
    (fun v q => andWhere q (mkCondition "authorId" OpEq "authorId")
                  {[ "authorId" := VString v ]}) qb1.

Definition commentFilters (db : Database)
    (filters : option ExportFiltersDto) : SelectQueryBuilder :=
  let qb := applyCommonFilters (createQueryBuilder (comments db)) filters in
  let qb1 :=
    when (filters ≫= articleId) Js.truthy
      (fun v q => andWhere q (mkCondition "articleId" OpEq "articleId")
                    {[ "articleId" := VString v ]}) qb in
  when (filters ≫= userId) Js.truthy
    (fun v q => andWhere q (mkCondition "userId" OpEq "userId")
                  {[ "userId" := VString v ]}) qb1.

Definition filtered (db : Database) (rt : ResourceType)
    (filters : option ExportFiltersDto) : SelectQueryBuilder :=
  match rt with
  | USERS => userFilters db filters
  | ARTICLES => articleFilters db filters
  | COMMENTS => commentFilters db filters
  end.

(** The rows a query selects, in the order the fetches see them. *)
Definition export_rows (db : Database) (rt : ResourceType)
    (filters : option ExportFiltersDto) : list Entity :=
  sort_by "createdAt" (selected (filtered db rt filters)).

(** [fetchUsers], [fetchArticles], [fetchComments]:
    [qb.orderBy(alias.createdAt, 'ASC').skip(offset).take(limit)
       .getMany()]. *)
Definition fetchUsers (db : Database) (filters : option ExportFiltersDto)
    (offset limit : Z) : list Entity + string :=
  getMany (take_ (skip (orderBy (userFilters db filters) "createdAt")
                    offset) limit).

Definition fetchArticles (db : Database)
    (filters : option ExportFiltersDto) (offset limit : Z)
  : list Entity + string :=
  getMany (take_ (skip (orderBy (articleFilters db filters) "createdAt")
                    offset) limit).

Definition fetchComments (db : Database)
    (filters : option ExportFiltersDto) (offset limit : Z)
  : list Entity + string :=
  getMany (take_ (skip (orderBy (commentFilters db filters) "createdAt")
                    offset) limit).

Definition fetchRecordsBatch (db : Database) (rt : ResourceType)
    (filters : option ExportFiltersDto) (offset limit : Z)
  : list Entity + string :=
  match rt with
  | USERS => fetchUsers db filters offset limit
  | ARTICLES => fetchArticles db filters offset limit
  | COMMENTS => fetchComments db filters offset limit
  end.

(** [countRecords]. *)
Definition countRecords (db : Database) (rt : ResourceType)
    (filters : option ExportFiltersDto) : Z + string :=
  getCount (filtered db rt filters).

(** The [while (hasMore)] loop of [streamRecords]: what was written so
    far, and the error that stopped the loop, if any. [None] when [fuel]
    rounds were not enough. *)
Fixpoint stream_loop (fuel : nat) (batchSize : Z) (db : Database)
    (rt : ResourceType) (filters : option ExportFiltersDto)
    (fields : option (list string)) (offset : Z)
    (written : list FormattedRecord)
  : option (list FormattedRecord * option string) :=
  match fuel with
  | O => None
  | S fuel' =>
      match fetchRecordsBatch db rt filters offset batchSize with
      | inr e => Some (written, Some e)
      | inl records =>
          if Z.of_nat (List.length records) =? 0 then Some (written, None)
          else
            let written' :=
              (written ++ map (fun r => formatRecord r rt fields) records)%list
            in
            if Z.of_nat (List.length records) =? batchSize
            then stream_loop fuel' batchSize db rt filters fields
                   (offset + Z.of_nat (List.length records)) written'
            else Some (written', None)
      end
  end.

Definition table_of (db : Database) (rt : ResourceType) : list Entity :=
  match rt with
  | USERS => users db
  | ARTICLES => articles db
  | COMMENTS => comments db
  end.

(** The records [streamRecords] writes, in order. One round per row of
    the table and one more always suffice for a positive batch size. *)
Definition streamRecords (batchSize : Z) (db : Database)
    (rt : ResourceType) (filters : option ExportFiltersDto)
    (fields : option (list string))
  : option (list FormattedRecord * option string) :=
  stream_loop (S (List.length (table_of db rt))) batchSize db rt filters
    fields 0 [].
End Queries.

(** The date in the [createdAt] column is at or before [bound]. *)
Definition created_by (bound : Z) (e : Entity) : bool :=
  match e !! "createdAt" with
  | Some (VDate ms) => ms <=? bound
  | _ => false
  end.

(** [a] may come before [b] in ascending order of [column]. *)
Definition key_le (column : string) (a b : Entity) : Prop :=
  key_leb (sort_key column a) (sort_key column b) = true.

(** Rows are in ascending order of [createdAt], rows without a date last. *)
Definition by_createdAt : Entity -> Entity -> Prop := key_le "createdAt".

(** The order the specification asks for: ascending [createdAt], and
    ascending [id] among rows with the same [createdAt]. *)
Definition id_of (e : Entity) : string :=
  match e !! "id" with
  | Some (VString s) => s
  | _ => ""
  end.

Definition by_createdAt_then_id (a b : Entity) : Prop :=
  match sort_key "createdAt" a, sort_key "createdAt" b with
  | Some x, Some y => x < y \/ (x = y /\ String.leb (id_of a) (id_of b) = true)
  | Some _, None => True
  | None, Some _ => False
  | None, None => String.leb (id_of a) (id_of b) = true
  end.

End Exports.

(** ** The distributed lock (DistributedLockService) *)

Module Lock.

Record Lock := mkLock {
  key : string;
  token : string;
  expiresAt : Z;
}.

#[global] Instance Lock_eq_dec : EqDecision Lock.
Proof. solve_decision. Defined.

Record LockOptions := mkOptions {
  ttlMs : option Z;
  retries : option Z;
  retryDelayMs : option Z;
}.

Definition DEFAULT_LOCK_TTL_MS : Z := 30000.
Definition DEFAULT_RETRIES : Z := 3.
Definition DEFAULT_RETRY_DELAY_MS : Z := 100.

(** The key-value service: each key holds a value and the instant at which
    it expires. The service is taken to be reachable, so the branches that
    only log a transport error have no counterpart. *)
Abbreviation Redis := (gmap string (string * Z)).

(** [GET key] at time [now]: an expired key reads as absent. *)
Definition get (now : Z) (redis : Redis) (k : string) : option string :=
  match redis !! k with
  | Some (v, expiry) => if now <? expiry then Some v else None
  | None => None
  end.

(** [SET key value PX ttl NX]: one atomic command; [true] stands for the
    reply OK. *)
Definition set_px_nx (now : Z) (redis : Redis) (k value : string) (ttl : Z)
  : Redis * bool :=
  match get now redis k with
  | Some _ => (redis, false)
  | None => (<[k := (value, now + ttl)]> redis, true)
  end.

(** The [for (attempt = 0; attempt <= retries; attempt++)] loop, with
    [attempts] rounds left; a failed round is followed by a sleep of
    [retryDelayMs] when another round remains. *)
Fixpoint acquire_loop (attempts : nat) (now : Z) (redis : Redis)
    (lockKey tok : string) (ttl delay : Z) : Redis * option Lock :=
  match attempts with
  | O => (redis, None)
  | S rest =>
      let '(redis', ok) := set_px_nx now redis lockKey tok ttl in
      if ok then (redis', Some (mkLock lockKey tok (now + ttl)))
      else acquire_loop rest (now + delay) redis' lockKey tok ttl delay
  end.

(** [acquireLock]; [uuid] is the random part of the token. *)
Definition acquireLock (nodeId uuid : string) (now : Z) (redis : Redis)
    (resourceKey : string) (options : LockOptions) : Redis * option Lock :=
  let ttl := default DEFAULT_LOCK_TTL_MS (ttlMs options) in
  let n := default DEFAULT_RETRIES (retries options) in
  let delay := default DEFAULT_RETRY_DELAY_MS (retryDelayMs options) in
  let lockKey := "lock:" ++ resourceKey in
  let tok := nodeId ++ ":" ++ uuid in
  acquire_loop (Z.to_nat (n + 1)) now redis lockKey tok ttl delay.

(** [releaseLock]: the script deletes the key only if it still holds the
    token. *)
Definition releaseLock (now : Z) (redis : Redis) (lock : Lock)
  : Redis * bool :=
  if decide (get now redis (key lock) = Some (token lock))
  then (delete (key lock) redis, true)
  else (redis, false).

(** [extendLock]: the script renews the expiry only if the key still holds
    the token. *)
Definition extendLock (now : Z) (redis : Redis) (lock : Lock) (ttl : Z)
  : Redis * bool :=
  if decide (get now redis (key lock) = Some (token lock))
  then (<[key lock := (token lock, now + ttl)]> redis, true)
  else (redis, false).

Definition isLocked (now : Z) (redis : Redis) (resourceKey : string) : bool :=
  bool_decide (is_Some (get now redis ("lock:" ++ resourceKey))).

Definition getLockHolder (now : Z) (redis : Redis) (resourceKey : string)
  : option string :=
  get now redis ("lock:" ++ resourceKey).

End Lock.

(** ** Several nodes working on one delivered import job
    (ImportsService.processImport, step by step) *)

Module Cluster.
Import Entities JobStore.

(** Where a node stands in [processImport]. *)
Inductive NodeState :=
| Delivered                       (* the queue handed the job over *)
| Holding (lock : Lock.Lock)      (* the lock was acquired *)
| Running (lock : Lock.Lock)      (* the transition succeeded: the pipeline runs *)
| Releasing (lock : Lock.Lock)    (* the [finally] block is due *)
| Exited.

#[global] Instance NodeState_eq_dec : EqDecision NodeState.
Proof. solve_decision. Defined.

Record State := mkState {
  clock : Z;
  redis : Lock.Redis;
  table : Table;
  nodes : gmap string NodeState;
  executed : list string;         (* the nodes that started the pipeline *)
}.

(** The options [processImport] passes to [acquireLock]. *)
Definition importLockOptions : Lock.LockOptions :=
  Lock.mkOptions (Some 300000) (Some 0) None.

Definition lockKey (jobId : string) : string := "import-job:" ++ jobId.

Definition set_node (s : State) (n : string) (st : NodeState) : State :=
  mkState (clock s) (redis s) (table s) (<[n := st]> (nodes s)) (executed s).

(** Who makes a step: a node running [processImport], or the
    surroundings (time passing, a renewal timer firing, the stale-job sweep
    of a service configured not to restart jobs). *)
Inductive Actor := Node (n : string) | Surroundings.

(** The steps of the system around one job [jobId]. Each database
    transaction and each command to the key-value service is one step. *)
Inductive step (jobId : string) : State -> Actor -> State -> Prop :=
| step_acquire s n uuid redis' lock :
    nodes s !! n = Some Delivered ->
    Lock.acquireLock n uuid (clock s) (redis s) (lockKey jobId)
      importLockOptions = (redis', Some lock) ->
    step jobId s (Node n)
      (mkState (clock s) redis' (table s) (<[n := Holding lock]> (nodes s))
               (executed s))
| step_skip s n uuid redis' :
    nodes s !! n = Some Delivered ->
    Lock.acquireLock n uuid (clock s) (redis s) (lockKey jobId)
      importLockOptions = (redis', None) ->
    step jobId s (Node n)
      (mkState (clock s) redis' (table s) (<[n := Exited]> (nodes s))
               (executed s))
| step_transition_ok s n lock table' r :
    nodes s !! n = Some (Holding lock) ->
    atomicStatusTransition (clock s) (table s) jobId PENDING PROCESSING
      (Some (claimUpdates n (clock s))) = (table', r) ->
    success r = true ->
    step jobId s (Node n)
      (mkState (clock s) (redis s) table' (<[n := Running lock]> (nodes s))
               (n :: executed s))
| step_transition_failed s n lock table' r :
    nodes s !! n = Some (Holding lock) ->
    atomicStatusTransition (clock s) (table s) jobId PENDING PROCESSING
      (Some (claimUpdates n (clock s))) = (table', r) ->
    success r = false ->
    step jobId s (Node n)
      (mkState (clock s) (redis s) table' (<[n := Releasing lock]> (nodes s))
               (executed s))
| step_progress s n lock total processed successful failed skipped :
    nodes s !! n = Some (Running lock) ->
    step jobId s (Node n)
      (mkState (clock s) (redis s)
         (updateJobProgress (clock s) (table s) jobId total processed
            successful failed skipped)
         (nodes s) (executed s))
| step_completed s n lock durationMs r :
    nodes s !! n = Some (Running lock) ->
    step jobId s (Node n)
      (mkState (clock s) (redis s)
         (fst (finalizeJob (clock s) (table s) jobId COMPLETED
                 (Pipeline.completionUpdates (clock s) durationMs r)))
         (<[n := Releasing lock]> (nodes s)) (executed s))
| step_failed s n lock msg m :
    nodes s !! n = Some (Running lock) ->
    step jobId s (Node n)
      (mkState (clock s) (redis s)
         (fst (finalizeJob (clock s) (table s) jobId FAILED
                 (failedUpdates (clock s) msg m)))
         (<[n := Releasing lock]> (nodes s)) (executed s))
| step_release s n lock :
    nodes s !! n = Some (Releasing lock) ->
    step jobId s (Node n)
      (mkState (clock s)
         (fst (Lock.releaseLock (clock s) (redis s) lock))
         (table s) (<[n := Exited]> (nodes s)) (executed s))
| step_tick s dt :
    0 <= dt ->
    step jobId s Surroundings
      (mkState (clock s + dt) (redis s) (table s) (nodes s) (executed s))
| step_renew s n lock ttl :
    nodes s !! n = Some (Holding lock) \/ nodes s !! n = Some (Running lock) ->
    step jobId s Surroundings
      (mkState (clock s)
         (fst (Lock.extendLock (clock s) (redis s) lock ttl))
         (table s) (nodes s) (executed s))
| step_sweep s message job :
    step jobId s Surroundings
      (mkState (clock s) (redis s)
         (StaleCleanup.handleStaleImportJob false (clock s) message
            (table s) job)
         (nodes s) (executed s)).

(** A start: the job is stored and pending, every node of the cluster has
    just been handed the job, and nobody has run the pipeline. *)
Definition initial (jobId : string) (s : State) : Prop :=
  wf_table (table s) /\
  (exists j, table s !! jobId = Some j /\ status j = PENDING) /\
  map_Forall (fun _ st => st = Delivered) (nodes s) /\
  executed s = [].

Inductive reachable (jobId : string) : State -> Prop :=
| reachable_initial s : initial jobId s -> reachable jobId s
| reachable_step s a s' :
    reachable jobId s -> step jobId s a s' -> reachable jobId s'.

(** From [tbl] to [tbl'] the row of [jobId] stays, with the status it had
    or with a status other than PENDING. *)
Definition advances (jobId : string) (tbl tbl' : Table) : Prop :=
  forall j, tbl !! jobId = Some j ->
  exists j', tbl' !! jobId = Some j' /\
             (status j' = status j \/ status j' <> PENDING).

(** What holds in every state the cluster can reach. *)
Record invariant (jobId : string) (s : State) : Prop := mkInvariant {
  inv_wf : wf_table (table s);
  inv_row : exists j, table s !! jobId = Some j /\
                      (executed s <> [] -> status j <> PENDING);
  inv_one : (List.length (executed s) <= 1)%nat;
  inv_running : forall n lock,
      nodes s !! n = Some (Running lock) -> n ∈ executed s;
}.

End Cluster.

(** ** The CSV decoder (the csv-parse parser as ImportsService.processCSVStream
    configures it) *)

Module Csv.

(** The options of the parser that the service sets. *)
Record Options := mkOptions {
  columns : bool;
  skip_empty_lines : bool;
  trim : bool;
  cast : bool;
  cast_date : bool;
}.

(** [csvParse({ columns: true, skip_empty_lines: true, trim: true,
                cast: true, cast_date: false })]. *)
Definition importOptions : Options :=
  {| columns := true; skip_empty_lines := true; trim := true; cast := true;
     cast_date := false |}.

(** A value of a decoded row: a string, or the number that [parseFloat]
    reads from the text. *)
Inductive CsvValue :=
| CsvString (s : string)
| CsvNumber (text : string).

#[global] Instance CsvValue_eq_dec : EqDecision CsvValue.
Proof. solve_decision. Defined.

(** A field as it stands in the file, and whether it was written between
    quotes. *)
Record Cell := mkCell {
  text : string;
  quoted : bool;
}.

Abbreviation Row := (list (string * CsvValue)).

Definition is_digit (c : ascii) : bool :=
  let n := nat_of_ascii c in (Nat.leb 48 n && Nat.leb n 57)%bool.

Definition is_hex (c : ascii) : bool :=
  let n := nat_of_ascii c in
  ((Nat.leb 48 n && Nat.leb n 57) || (Nat.leb 65 n && Nat.leb n 70) ||
   (Nat.leb 97 n && Nat.leb n 102))%bool.

Definition is_octal (c : ascii) : bool :=
  let n := nat_of_ascii c in (Nat.leb 48 n && Nat.leb n 55)%bool.

Definition is_binary (c : ascii) : bool :=
  let n := nat_of_ascii c in (Nat.leb 48 n && Nat.leb n 49)%bool.

Fixpoint drop_while (p : ascii -> bool) (s : string) : string :=
  match s with
  | EmptyString => EmptyString
  | String c rest => if p c then drop_while p rest else s
  end.

Fixpoint all_chars (p : ascii -> bool) (s : string) : bool :=
  match s with
  | EmptyString => true
  | String c rest => (p c && all_chars p rest)%bool
  end.

(** One or more digits, then the rest. *)
Definition digits1 (s : string) : option string :=
  match s with
  | String c rest => if is_digit c then Some (drop_while is_digit rest) else None
  | EmptyString => None
  end.

Definition strip_sign (s : string) : string :=
  match s with
  | String "+" rest => rest
  | String "-" rest => rest
  | _ => s
  end.

(** Nothing, or an exponent part, up to the end of the text. *)
Definition exponent_end (s : string) : bool :=
  match s with
  | EmptyString => true
  | String c rest =>
      if (Ascii.eqb c "e" || Ascii.eqb c "E")%bool then
        match digits1 (strip_sign rest) with
        | Some EmptyString => true
        | _ => false
        end
      else false
  end.

(** A decimal literal: digits with an optional fraction and exponent, or a
    fraction that starts with the point. *)
Definition decimal_literal (s : string) : bool :=
  match s with
  | String "." rest =>
      match digits1 rest with
      | Some rest' => exponent_end rest'
      | None => false
      end
  | _ =>
      match digits1 s with
      | Some (String "." rest') => exponent_end (drop_while is_digit rest')
      | Some rest' => exponent_end rest'
      | None => false
      end
  end.

(** [0x], [0o] and [0b] integer literals. *)
Definition nondecimal_literal (s : string) : bool :=
  match s with
  | String "0" (String x (String d rest)) =>
      let body := String d rest in
      if (Ascii.eqb x "x" || Ascii.eqb x "X")%bool then all_chars is_hex body
      else if (Ascii.eqb x "o" || Ascii.eqb x "O")%bool then all_chars is_octal body
      else if (Ascii.eqb x "b" || Ascii.eqb x "B")%bool then all_chars is_binary body
      else false
  | _ => false
  end.

(** The parser's [__isFloat], [value - parseFloat(value) + 1 >= 0]: true
    of the texts JavaScript reads as a finite number (surrounding white
    space aside). Magnitudes beyond the range of a double are not told
    apart here. *)
Definition isFloat (value : string) : bool :=
  let t := Js.trim value in
  (decimal_literal (strip_sign t) || nondecimal_literal t)%bool.

(** The text of a field once the [trim] option has been applied: white
    space around an unquoted field goes, what stands between quotes
    stays. *)
Definition cell_text (o : Options) (c : Cell) : string :=
  if (trim o && negb (quoted c))%bool then Js.trim (text c) else text c.

(** The parser's [__cast] with no cast function and [cast_date] off. *)
Definition cast_text (o : Options) (t : string) : CsvValue :=
  if cast o then (if isFloat t then CsvNumber t else CsvString t)
  else CsvString t.

(** The value the parser stores for a field. *)
Definition field_value (o : Options) (c : Cell) : CsvValue :=
  cast_text o (cell_text o c).

(** A line with no character on it. *)
Definition empty_line (record : list Cell) : bool :=
  match record with
  | [c] => (negb (quoted c) && negb (Js.truthy (text c)))%bool
  | [] => true
  | _ => false
  end.

(** With [columns: true] the first record names the columns; a name must be
    a string. *)
Fixpoint column_names (values : list CsvValue) : option (list string) :=
  match values with
  | [] => Some []
  | CsvString name :: rest => cons name <$> column_names rest
  | CsvNumber _ :: _ => None
  end.

(** The records after the header: each becomes an object keyed by the
    column names; a record of another length stops the parser. *)
Fixpoint data_rows (o : Options) (names : list string)
    (records : list (list Cell)) : list Row * option string :=
  match records with
  | [] => ([], None)
  | record :: rest =>
      if (List.length record =? List.length names)%nat then
        let '(rows, err) := data_rows o names rest in
        (zip names (map (field_value o) record) :: rows, err)
      else ([], Some "Invalid Record Length")
  end.

Section Parser.
(** The lexical layer of the parser: the records of the input and the
    fields of each, as written. *)
Variable lex : string -> list (list Cell).

Definition records (o : Options) (input : string) : list (list Cell) :=
  if skip_empty_lines o
  then List.filter (fun r => negb (empty_line r)) (lex input)
  else lex input.

(** The rows the parser emits, and the error that stopped it, if any. *)
Definition parse (o : Options) (input : string) : list Row * option string :=
  match records o input with
  | [] => ([], None)
  | header :: rest =>
      match column_names (map (field_value o) header) with
      | Some names => data_rows o names rest
      | None => ([], Some "Invalid column definition")
      end
  end.
End Parser.

(** The lexical layer on input without quotes and carriage returns: lines
    end with a line feed, fields are separated by commas. *)
Definition plain_lex (input : string) : list (list Cell) :=
  let lines := Js.split Js.LF input in
  let lines' := match Js.pop lines with
                | Some EmptyString => removelast lines
                | _ => lines
                end in
  map (fun line => map (fun t => mkCell t false) (Js.split "," line)) lines'.

(** The value of a field under the options of the service: its text,
    trimmed unless it was quoted, as a number when it reads as one and as a
    string otherwise. *)
Definition import_text (c : Cell) : string :=
  if quoted c then text c else Js.trim (text c).

Definition import_value (c : Cell) : CsvValue :=
  if isFloat (import_text c) then CsvNumber (import_text c)
  else CsvString (import_text c).

(** What the specification says a value is: the field's text, trimmed, as a
    string. *)
Definition raw_string (c : Cell) : CsvValue := CsvString (Js.trim (text c)).

End Csv.

(** ** Sample rows used by the examples *)

Module Samples.
Import Entities JobStore.

(** A freshly created job, as [createImportFromFile] builds it. *)
Definition pendingJob (jobId : string) : ImportJob :=
  {| id := jobId; idempotencyKey := None; resourceType := USERS;
     status := PENDING; fileUrl := Some "imports/users.ndjson";
     fileName := Some "users.ndjson"; fileSize := Some 64;
     fileFormat := Some "ndjson";
     totalRows := 0; processedRows := 0; successfulRows := 0;
     failedRows := 0; skippedRows := 0; errors := [];
     metrics := None; errorMessage := None; startedAt := None;
     completedAt := None; lockedBy := None; lockedAt := None;
     createdAt := 1000; updatedAt := 1000; version := 1 |}.

(** The same job once a node has claimed it. *)
Definition processingJob (jobId nodeId : string) : ImportJob :=
  touch 2000 (assign (set_status (pendingJob jobId) PROCESSING)
                     (claimUpdates nodeId 2000)).

Definition pendingTable : Table := {[ "job-1" := pendingJob "job-1" ]}.

Definition processingTable : Table :=
  {[ "job-1" := processingJob "job-1" "node-b" ]}.

Definition zeroMetrics : ImportJobMetrics := mkMetrics 0 0%Q 0.

(** The update object of a completed run over three rows. *)
Definition doneUpdates : PartialImportJob :=
  completedUpdates 3000 3 3 2 1 0 [] zeroMetrics.

(** Stand-ins for the collaborators of the pipeline, enough to run it on a
    small file: a parser that accepts exactly the lines opening with a
    brace, a validator and an upsert that accept every record. *)
Definition toyParse (line : string) : string + string :=
  match line with
  | String "{" _ => inl line
  | _ => inr "Unexpected token"
  end.

Definition toyValidate (data : string) (rt : ResourceType) (lineNumber : Z)
  : Pipeline.ValidatedImportRecord string :=
  Pipeline.mkValidated true (Some data) None lineNumber None.

Definition toyUpsert (db : unit)
    (records : list (Pipeline.ValidatedImportRecord string))
    (rt : ResourceType) : (unit * Pipeline.ImportBatchResult) + string :=
  inl (db, Pipeline.mkBatch (Pipeline.len records) 0 0 []).

(** Two lines: an empty object, then text that is not JSON. *)
Definition brokenNdjson : string :=
  "{}" ++ String Js.LF ("not json" ++ String Js.LF "").

Definition ndjsonJobData : Imports.ImportJobData :=
  Imports.mkJobData "job-1" USERS None (Some "imports/users.ndjson")
    "ndjson" None.

(** The pipeline over the stand-ins, reading [brokenNdjson] from storage. *)
Definition runBrokenNdjson
  : option (Table * unit * Pipeline.RunOutcome) :=
  Pipeline.executeImportProcessing 1000 toyValidate toyUpsert
    (fun _ => None) (fun _ => true) toyParse (fun _ => None) (fun _ => [])
    (fun _ => inl [brokenNdjson]) (fun _ => inr "unreachable")
    3000 40 processingTable tt (processingJob "job-1" "node-b")
    ndjsonJobData.

(** A table with one freshly inserted job. *)
Definition insertedTable : Table :=
  match Imports.insertJob (Imports.mkEnv 5000 "2024-01-15" "job-2") None
          USERS None (Some "users.csv") (Some 12) "csv" ∅ with
  | inl (tbl, _) => tbl
  | inr _ => ∅
  end.

(** Two users created at the same instant; the store holds the one with
    the greater id first. A third user was created later. *)
Definition userRow (ident email : string) (created updated : Z)
  : Exports.Entity :=
  {[ "id" := Exports.VString ident; "email" := Exports.VString email;
     "name" := Exports.VString "User"; "role" := Exports.VString "reader";
     "active" := Exports.VBool true; "createdAt" := Exports.VDate created;
     "updatedAt" := Exports.VDate updated ]}.

Definition userB : Exports.Entity := userRow "b" "b@example.com" 500 500.
Definition userA : Exports.Entity := userRow "a" "a@example.com" 500 500.
Definition userC : Exports.Entity := userRow "c" "c@example.com" 900 900.

Definition tiesDb : Exports.Database :=
  Exports.mkDatabase [userC; userB; userA] [] [].

(** A date parser for the examples: every text reads as instant 600. *)
Definition toyDate (text : string) : Z := 600.

Definition createdAfterFilter : Exports.ExportFiltersDto :=
  Exports.mkFilters None (Some "2024-01-01") None None None None None None
    None None.

Definition createdBeforeFilter : Exports.ExportFiltersDto :=
  Exports.mkFilters None None (Some "2024-01-01") None None None None None
    None None.

(** Two nodes are handed job-1; node-a takes the lock, node-b is turned
    away, node-a claims the job. *)
Definition lockA : Lock.Lock :=
  Lock.mkLock "lock:import-job:job-1" "node-a:u1" 300000.

Definition cluster0 : Cluster.State :=
  Cluster.mkState 0 ∅ pendingTable
    {[ "node-a" := Cluster.Delivered; "node-b" := Cluster.Delivered ]} [].

Definition cluster1 : Cluster.State :=
  Cluster.mkState 0
    (fst (Lock.acquireLock "node-a" "u1" 0 ∅ (Cluster.lockKey "job-1")
            Cluster.importLockOptions))
    pendingTable
    (<[ "node-a" := Cluster.Holding lockA ]> (Cluster.nodes cluster0)) [].

Definition cluster2 : Cluster.State :=
  Cluster.mkState 0 (Cluster.redis cluster1) pendingTable
    (<[ "node-b" := Cluster.Exited ]> (Cluster.nodes cluster1)) [].

Definition cluster3 : Cluster.State :=
  Cluster.mkState 0 (Cluster.redis cluster2)
    (fst (atomicStatusTransition 0 pendingTable "job-1" PENDING PROCESSING
            (Some (claimUpdates "node-a" 0))))
    (<[ "node-a" := Cluster.Running lockA ]> (Cluster.nodes cluster2))
    ["node-a"].

(** A CSV file of users with a numeric column. *)
Definition usersCsv : string :=
  "name,age" ++ String Js.LF (" Alice ,42" ++ String Js.LF "").

(** A world in which an import was already created under the key [k1]. *)
Definition keyedJob : ImportJob :=
  assign (pendingJob "job-1")
    {| u_idempotencyKey := Some (Some "k1"); u_resourceType := None;
       u_status := Some COMPLETED; u_fileUrl := None; u_fileName := None;
       u_fileSize := None; u_fileFormat := None; u_totalRows := Some 3;
       u_processedRows := Some 3; u_successfulRows := Some 3;
       u_failedRows := None; u_skippedRows := None; u_errors := None;
       u_metrics := None; u_errorMessage := None; u_startedAt := None;
       u_completedAt := Some (Some 2500); u_lockedBy := None;
       u_lockedAt := None |}.

Definition replayWorld : Imports.World :=
  Imports.mkWorld {[ "job-1" := keyedJob ]} ∅ [].

Definition emptyWorld : Imports.World := Imports.mkWorld ∅ ∅ [].

Definition sampleEnv : Imports.Env := Imports.mkEnv 5000 "2024-01-15" "job-2".

Definition sampleFile : Imports.UploadedFile :=
  Imports.mkFile "users.csv" 12 "email,name".

Definition sampleFileDto : Imports.FileDto := Imports.mkFileDto USERS None.

Definition sampleUrlDto : Imports.CreateImportDto :=
  Imports.mkUrlDto USERS (Some "https://example.com/users.ndjson") None.

End Samples.

(** ** The other stream transforms (stream.utils.ts) *)

Module StreamUtils.

(** [Buffer.concat(chunks).toString()]: the text a stream of chunks
    carries. *)
Definition text_of (chunks : list string) : string :=
  fold_right String.append "" chunks.

(** What [LineReaderTransform] pushes for one line. *)
Record Line := mkLine {
  line : string;
  l_lineNumber : Z;
}.

Record LineReaderState := mkReader {
  lr_buffer : string;
  lr_lineNumber : Z;
}.

(** The [for (const line of lines)] loop of [LineReaderTransform]: every
    line is numbered and pushed as it is. *)
Fixpoint reader_lines (n : Z) (lines : list string) : Z * list Line :=
  match lines with
  | [] => (n, [])
  | l :: rest =>
      let '(m, out) := reader_lines (n + 1) rest in
      (m, mkLine l (n + 1) :: out)
  end.

(** [LineReaderTransform._transform]. *)
Definition reader_transform (st : LineReaderState) (chunk : string)
  : LineReaderState * list Line :=
  let buffer := lr_buffer st ++ chunk in
  let lines := Js.split Js.LF buffer in
  let '(n, out) := reader_lines (lr_lineNumber st) (removelast lines) in
  (mkReader (default "" (Js.pop lines)) n, out).

(** [LineReaderTransform._flush]: what is left in the buffer is a last
    line, unless it is empty. *)
Definition reader_flush (st : LineReaderState) : list Line :=
  if Js.truthy (lr_buffer st)
  then [mkLine (lr_buffer st) (lr_lineNumber st + 1)]
  else [].

Fixpoint reader_run (st : LineReaderState) (chunks : list string)
  : list Line :=
  match chunks with
  | [] => reader_flush st
  | c :: rest =>
      let '(st', out) := reader_transform st c in
      (out ++ reader_run st' rest)%list
  end.

(** Everything a [LineReaderTransform] pushes for a stream of chunks. *)
Definition LineReaderTransform (chunks : list string) : list Line :=
  reader_run (mkReader "" 0) chunks.

Section NdjsonStringifyTransform.
Context {A : Type}.
(** [JSON.stringify]: the text, or the message of the error thrown (a
    circular structure, a BigInt). *)
Variable JSON_stringify : A -> string + string.

(** [NdjsonStringifyTransform._transform]: one line per object; an object
    that cannot be serialised ends the stream with that error, after the
    lines already written. *)
Fixpoint NdjsonStringifyTransform (chunks : list A)
  : list string * option string :=
  match chunks with
  | [] => ([], None)
  | x :: rest =>
      match JSON_stringify x with
      | inl text =>
          let '(out, err) := NdjsonStringifyTransform rest in
          ((text ++ String Js.LF "") :: out, err)
      | inr msg => ([], Some msg)
      end
  end.
End NdjsonStringifyTransform.

(** [ByteCountTransform]: the chunks pass through; [getBytes()] afterwards
    is the sum of their lengths. *)
Definition ByteCountTransform (chunks : list string) : list string * Z :=
  (chunks,
   fold_left (fun bytes chunk => bytes + Z.of_nat (String.length chunk))
             chunks 0).

(** The lines of a text with their numbers, the first one being
    [n + 1]: a reading of the text that knows nothing of chunks. *)
Definition numbered (n : Z) (lines : list string) : list (Z * string) :=
  imap (fun i l => (n + Z.of_nat i + 1, l)) lines.

(** What a numbered line of an NDJSON text gives: nothing when it is
    blank, and otherwise the parsed value or the parse error, with the
    number of the line. *)
Definition item_of {Row} (JSON_parse : string -> Row + string)
    (kl : Z * string) : option (Streams.NdjsonItem Row) :=
  let trimmed := Js.trim (snd kl) in
  if decide (trimmed = "") then None
  else Some (Streams.parse_line JSON_parse (fst kl) trimmed).

(** The items an NDJSON text stands for. *)
Definition ndjson_items {Row} (JSON_parse : string -> Row + string)
    (text : string) : list (Streams.NdjsonItem Row) :=
  omap (item_of JSON_parse) (numbered 0 (Js.split Js.LF text)).

(** The lines of a text: a line feed ends a line, so a text that ends in
    one has no further, empty line. *)
Definition text_lines (text : string) : list string :=
  let segments := Js.split Js.LF text in
  if decide (last segments = Some "") then removelast segments
  else segments.

(** The batches of a list cut every [n] elements. *)
Definition nth_batch {A} (n : nat) (l : list A) (i : nat) : option (list A) :=
  if (i * n <? List.length l)%nat then Some (take n (drop (i * n) l))
  else None.

End StreamUtils.

(** ** More sample values used by the examples *)

Module MoreSamples.

Definition toyStringify (s : string) : string + string := inl s.

(** The two lines [{a}] and [{b}], cut in the middle of the second. *)
Definition exportedChunks : list string :=
  ["{a}" ++ String Js.LF "{"; "b}" ++ String Js.LF ""].

(** A key held by another caller until the instant 150. *)
Definition heldRedis : Lock.Redis := {["lock:job" := ("other:1", 150)]}.

(** A protected function that takes ten milliseconds, leaves the
    key-value service alone and returns 7. *)
Definition quickJob (start : Z) (redis : Lock.Redis)
  : Z * Lock.Redis * (Z + string) :=
  (start + 10, redis, inl 7).

End MoreSamples.

(** ** Running a function under the lock (DistributedLockService.withLock) *)

Module LockUse.

(** The options of a caller that sets the lease and the number of retries,
    as [processImport], [processExport] and [cleanupStaleJobs] do. *)
Definition lease (ttl retries : Z) : Lock.LockOptions :=
  Lock.mkOptions (Some ttl) (Some retries) None.

(** The instant of the attempt numbered [k] (from 0) of an acquisition
    that starts at [now]. *)
Definition attempt_at (now delay : Z) (k : nat) : Z :=
  now + Z.of_nat k * delay.

Section WithLock.
Context {T : Type}.

(** [withLock]. The protected function is given the instant at which it
    starts and the key-value service as it finds it; it answers with the
    instant at which it ends, the key-value service as it leaves it, and
    the value it returns or the error it throws. The [finally] block
    releases the lock at that instant, whichever way the function ends. *)
Definition withLock (nodeId uuid : string) (now : Z) (redis : Lock.Redis)
    (resourceKey : string) (options : Lock.LockOptions)
    (fn : Z -> Lock.Redis -> Z * Lock.Redis * (T + string))
  : Lock.Redis * (T + string) :=
  match Lock.acquireLock nodeId uuid now redis resourceKey options with
  | (redis1, None) =>
      (redis1, inr ("Failed to acquire lock for resource: " ++ resourceKey))
  | (redis1, Some lock) =>
      let ttl := default Lock.DEFAULT_LOCK_TTL_MS (Lock.ttlMs options) in
      let '(ended, redis2, result) :=
        fn (Lock.expiresAt lock - ttl) redis1 in
      (fst (Lock.releaseLock ended redis2 lock), result)
  end.
End WithLock.

End LockUse.

(** ** The periodic sweep for stale import jobs
    (StaleJobCleanupService.cleanupStaleJobs and what it calls) *)

Module StaleSweep.
Import Entities JobStore.

Definition DEFAULT_STALE_THRESHOLD_MS : Z := 30 * 60 * 1000.
Definition DEFAULT_STALE_LOCK_THRESHOLD_MS : Z := 10 * 60 * 1000.

(** The three settings the constructor reads. *)
Record Config := mkConfig {
  staleThresholdMs : Z;
  staleLockThresholdMs : Z;
  restartStaleJobs : bool;
}.

Definition defaults : Config :=
  mkConfig DEFAULT_STALE_THRESHOLD_MS DEFAULT_STALE_LOCK_THRESHOLD_MS false.

(** [deduplicateJobs]: the filter keeps a job unless its id was seen
    before. *)
Fixpoint dedup_from (seen : gset string) (jobs : list ImportJob)
  : list ImportJob :=
  match jobs with
  | [] => []
  | job :: rest =>
      if decide (id job ∈ seen) then dedup_from seen rest
      else job :: dedup_from ({[id job]} ∪ seen) rest
  end.

Definition deduplicateJobs (jobs : list ImportJob) : list ImportJob :=
  dedup_from ∅ jobs.

(** A nullable date column compared with [<]: NULL satisfies no
    comparison. *)
Definition before (column : option Z) (threshold : Z) : bool :=
  match column with
  | Some t => t <? threshold
  | None => false
  end.

(** [where: { status: PROCESSING, startedAt: LessThan(staleThreshold) }]. *)
Definition stuck (staleThreshold : Z) (job : ImportJob) : bool :=
  bool_decide (status job = PROCESSING) && before (startedAt job) staleThreshold.

(** [lockedBy IS NOT NULL AND lockedAt < :threshold
     AND status IN (PENDING, PROCESSING)]. *)
Definition stale_lock (staleLockThreshold : Z) (job : ImportJob) : bool :=
  bool_decide (is_Some (lockedBy job)) &&
  before (lockedAt job) staleLockThreshold &&
  bool_decide (status job = PENDING \/ status job = PROCESSING).

(** The rows of the table, in the order in which the store returns
    them. *)
Definition rows (tbl : Table) : list ImportJob := (map_to_list tbl).*2.

Section Sweep.
Variable cfg : Config.
(** The text of [errorMessage], which the service puts together from the
    threshold, or from the row's start date and owner. *)
Variable message : ImportJob -> string.

(** [cleanupStaleImportJobs], the sweep taken to happen at the one
    instant [now]: the new table and the number of jobs handled. *)
Definition cleanupStaleImportJobs (now : Z) (tbl : Table) : Table * Z :=
  let staleThreshold := now - staleThresholdMs cfg in
  let staleLockThreshold := now - staleLockThresholdMs cfg in
  let staleProcessingJobs := List.filter (stuck staleThreshold) (rows tbl) in
  let staleLockJobs :=
    List.filter (stale_lock staleLockThreshold) (rows tbl) in
  let allStaleJobs :=
    deduplicateJobs (staleProcessingJobs ++ staleLockJobs) in
  fold_left
    (fun (st : Table * Z) job =>
       (StaleCleanup.handleStaleImportJob (restartStaleJobs cfg) now
          (message job) (fst st) job,
        snd st + 1))
    allStaleJobs (tbl, 0).

(** [forceCleanupImportJob]. *)
Definition forceCleanupImportJob (now : Z) (tbl : Table) (jobId : string)
  : Table * bool :=
  match tbl !! jobId with
  | None => (tbl, false)
  | Some job =>
      if (bool_decide (status job = PROCESSING) ||
          bool_decide (is_Some (Imports.string_or_undefined (lockedBy job))))%bool
      then (StaleCleanup.handleStaleImportJob (restartStaleJobs cfg) now
              (message job) tbl job, true)
      else (tbl, false)
  end.

(** [cleanupStaleJobs]: both sweeps under the lock [stale-job-cleanup],
    taken for one minute and without retry. The sweep of the export jobs
    works on a table of its own, [exports]. *)
Definition cleanupStaleJobs {Exports : Type}
    (cleanupStaleExportJobs : Z -> Exports -> Exports * Z)
    (nodeId uuid : string) (now : Z) (redis : Lock.Redis) (tbl : Table)
    (exports : Exports) : Lock.Redis * Table * Exports * (Z * Z) :=
  match Lock.acquireLock nodeId uuid now redis "stale-job-cleanup"
          (LockUse.lease 60000 0) with
  | (redis1, None) => (redis1, tbl, exports, (0, 0))
  | (redis1, Some lock) =>
      let '(tbl', importCount) := cleanupStaleImportJobs now tbl in
      let '(exports', exportCount) := cleanupStaleExportJobs now exports in
      (fst (Lock.releaseLock now redis1 lock), tbl', exports',
       (importCount, exportCount))
  end.

(** Whether the sweep at [now] picks a row, and the row it leaves in its
    place. *)
Definition stale (now : Z) (job : ImportJob) : bool :=
  stuck (now - staleThresholdMs cfg) job ||
  stale_lock (now - staleLockThresholdMs cfg) job.

Definition swept (now : Z) (job : ImportJob) : ImportJob :=
  if (restartStaleJobs cfg && bool_decide (status job = PROCESSING))%bool
  then touch now (assign job (StaleCleanup.resetUpdates (message job)))
  else touch now (assign job (StaleCleanup.failUpdates now (message job))).

End Sweep.

End StaleSweep.

(** ** More JavaScript string helpers *)

Module JsText.

(** [Array.prototype.join]. *)
Fixpoint join (sep : string) (l : list string) : string :=
  match l with
  | [] => ""
  | [x] => x
  | x :: rest => x ++ sep ++ join sep rest
  end.

(** Whether every character of a text is in a class. *)
Fixpoint all_chars (p : ascii -> bool) (s : string) : bool :=
  match s with
  | EmptyString => true
  | String c s' => p c && all_chars p s'
  end.

(** [s.includes(c)] for a one-character text. *)
Fixpoint includes (c : ascii) (s : string) : bool :=
  match s with
  | EmptyString => false
  | String x s' => Ascii.eqb x c || includes c s'
  end.

Definition in_range (lo hi : nat) (c : ascii) : bool :=
  (Nat.leb lo (nat_of_ascii c) && Nat.leb (nat_of_ascii c) hi)%bool.

Definition is_digit (c : ascii) : bool := in_range 48 57 c.
Definition is_lower (c : ascii) : bool := in_range 97 122 c.
Definition is_upper (c : ascii) : bool := in_range 65 90 c.

(** The class [\w]. *)
Definition is_word (c : ascii) : bool :=
  is_lower c || is_upper c || is_digit c || Ascii.eqb c "_".

(** [s.replace(/[class]/g, '')]: the characters of the class are dropped. *)
Fixpoint remove_chars (p : ascii -> bool) (s : string) : string :=
  match s with
  | EmptyString => EmptyString
  | String c s' =>
      if p c then remove_chars p s' else String c (remove_chars p s')
  end.

(** [s.replace(/[class]+/g, by)] for a one-character replacement: every
    maximal run of characters of the class becomes one [by]. *)
Fixpoint replace_runs (p : ascii -> bool) (by_ : ascii) (s : string)
  : string :=
  match s with
  | EmptyString => EmptyString
  | String c s' =>
      if p c then
        match s' with
        | String c' _ =>
            if p c' then replace_runs p by_ s'
            else String by_ (replace_runs p by_ s')
        | EmptyString => String by_ EmptyString
        end
      else String c (replace_runs p by_ s')
  end.

(** [s.split(/\s+/)]: the texts between the maximal runs of white space; a
    run at either end leaves an empty text there. *)
Fixpoint split_ws (s : string) : list string :=
  match s with
  | EmptyString => [EmptyString]
  | String c s' =>
      if Js.is_space c then
        match s' with
        | String c' _ =>
            if Js.is_space c' then split_ws s' else EmptyString :: split_ws s'
        | EmptyString => [EmptyString; EmptyString]
        end
      else
        match split_ws s' with
        | seg :: rest => String c seg :: rest
        | [] => [String c EmptyString]
        end
  end.

(** [[...new Set(l)]]: the distinct elements in the order in which they
    first occur; [seen] holds the elements already in the set. *)
Fixpoint set_from (seen : list string) (l : list string) : list string :=
  match l with
  | [] => []
  | x :: rest =>
      if decide (x ∈ seen) then set_from seen rest
      else x :: set_from (x :: seen) rest
  end.

Definition distinct (l : list string) : list string := set_from [] l.

End JsText.

(** ** Regular expressions, as far as the validators use them *)

Module Regex.

(** The patterns: nothing, the empty text, one character of a class,
    sequence, alternative and repetition. *)
Inductive regex :=
| Never
| Empty
| Class (p : ascii -> bool)
| Seq (r1 r2 : regex)
| Alt (r1 r2 : regex)
| Star (r : regex).

(** [r+], [r?], [r{n}], a literal character and a literal text. *)
Definition Plus (r : regex) : regex := Seq r (Star r).
Definition Opt (r : regex) : regex := Alt Empty r.
Fixpoint Times (n : nat) (r : regex) : regex :=
  match n with
  | O => Empty
  | S n' => Seq r (Times n' r)
  end.
Definition Lit (c : ascii) : regex := Class (Ascii.eqb c).
Fixpoint Text (s : string) : regex :=
  match s with
  | EmptyString => Empty
  | String c s' => Seq (Lit c) (Text s')
  end.

(** Whether a pattern matches the empty text. *)
Fixpoint nullable (r : regex) : bool :=
  match r with
  | Never => false
  | Empty => true
  | Class _ => false
  | Seq r1 r2 => nullable r1 && nullable r2
  | Alt r1 r2 => nullable r1 || nullable r2
  | Star _ => true
  end.

(** What is left of a pattern once the character [c] has been read. *)
Fixpoint after (c : ascii) (r : regex) : regex :=
  match r with
  | Never => Never
  | Empty => Never
  | Class p => if p c then Empty else Never
  | Seq r1 r2 =>
      if nullable r1 then Alt (Seq (after c r1) r2) (after c r2)
      else Seq (after c r1) r2
  | Alt r1 r2 => Alt (after c r1) (after c r2)
  | Star r1 => Seq (after c r1) (Star r1)
  end.

(** [/^r$/.test(s)]: the whole text is read, character by character. *)
Fixpoint test (r : regex) (s : string) : bool :=
  match s with
  | EmptyString => nullable r
  | String c s' => test (after c r) s'
  end.

(** The texts a pattern stands for, written independently of [test]. *)
Inductive matches : regex -> string -> Prop :=
| matches_empty : matches Empty ""
| matches_class p c : p c = true -> matches (Class p) (String c "")
| matches_seq r1 r2 s1 s2 :
    matches r1 s1 -> matches r2 s2 -> matches (Seq r1 r2) (s1 ++ s2)
| matches_left r1 r2 s : matches r1 s -> matches (Alt r1 r2) s
| matches_right r1 r2 s : matches r2 s -> matches (Alt r1 r2) s
| matches_star_nil r : matches (Star r) ""
| matches_star_more r s1 s2 :
    matches r s1 -> matches (Star r) s2 -> matches (Star r) (s1 ++ s2).

(** All 256 characters. *)
Definition all_ascii : list ascii := map ascii_of_nat (seq 0 256).

(** Whether every character of the class [p] is in the class [q]. *)
Definition class_within (p q : ascii -> bool) : bool :=
  forallb (fun c => implb (p c) (q c)) all_ascii.

(** Whether every class of a pattern lies within [q]: then so does every
    character of a text the pattern matches. *)
Fixpoint classes_within (q : ascii -> bool) (r : regex) : bool :=
  match r with
  | Never | Empty => true
  | Class p => class_within p q
  | Seq r1 r2 | Alt r1 r2 => classes_within q r1 && classes_within q r2
  | Star r1 => classes_within q r1
  end.

(** The length of every text a pattern matches, when the pattern fixes
    it. *)
Fixpoint fixed_length (r : regex) : option nat :=
  match r with
  | Never => None
  | Empty => Some O
  | Class _ => Some 1%nat
  | Seq r1 r2 =>
      match fixed_length r1, fixed_length r2 with
      | Some a, Some b => Some (a + b)%nat
      | _, _ => None
      end
  | Alt r1 r2 =>
      match fixed_length r1, fixed_length r2 with
      | Some a, Some b => if Nat.eqb a b then Some a else None
      | _, _ => None
      end
  | Star _ => None
  end.

End Regex.

(** ** The validation helpers (validation.utils.ts) and the check of the
    Idempotency-Key header (idempotency-key.decorator.ts)

    Texts are taken to be ASCII: on other characters JavaScript's white
    space and case mapping are wider than [Js.is_space] and
    [Js.toLowerCase]. *)

Module ValidationUtils.
Import Regex JsText.

Definition lower_or_digit (c : ascii) : bool := is_lower c || is_digit c.

(** [/^[a-z0-9]+(?:-[a-z0-9]+)*$/]. *)
Definition kebabCaseRegex : regex :=
  Seq (Plus (Class lower_or_digit))
      (Star (Seq (Lit "-") (Plus (Class lower_or_digit)))).

Definition isValidSlug (slug : string) : bool := test kebabCaseRegex slug.

(** The class [[^\s@]]. *)
Definition email_char (c : ascii) : bool :=
  negb (Js.is_space c || Ascii.eqb c "@").

(** [/^[^\s@]+@[^\s@]+\.[^\s@]+$/]. *)
Definition emailRegex : regex :=
  Seq (Plus (Class email_char))
      (Seq (Lit "@")
           (Seq (Plus (Class email_char))
                (Seq (Lit ".") (Plus (Class email_char))))).

Definition isValidEmail (email : string) : bool := test emailRegex email.

(** The classes [[0-9a-f]], [[1-5]] and [[89ab]] under the flag [i]. *)
Definition is_hex (c : ascii) : bool :=
  is_digit c || in_range 97 102 c || in_range 65 70 c.
Definition is_version (c : ascii) : bool := in_range 49 53 c.
Definition is_variant (c : ascii) : bool :=
  in_range 56 57 c || in_range 97 98 c || in_range 65 66 c.

(** [/^[0-9a-f]{8}-[0-9a-f]{4}-[1-5][0-9a-f]{3}-[89ab][0-9a-f]{3}-[0-9a-f]{12}$/i]. *)
Definition uuidRegex : regex :=
  Seq (Times 8 (Class is_hex))
  (Seq (Lit "-")
  (Seq (Times 4 (Class is_hex))
  (Seq (Lit "-")
  (Seq (Class is_version)
  (Seq (Times 3 (Class is_hex))
  (Seq (Lit "-")
  (Seq (Class is_variant)
  (Seq (Times 3 (Class is_hex))
  (Seq (Lit "-")
       (Times 12 (Class is_hex))))))))))).

Definition isValidUUID (uuid : string) : bool := test uuidRegex uuid.

(** [countWords], on a string. *)
Definition countWords (text : string) : Z :=
  if negb (Js.truthy text) then 0
  else
    let trimmed := Js.trim text in
    if decide (trimmed = "") then 0
    else Z.of_nat (List.length (split_ws trimmed)).

Definition isValidBodyLength (body : string) (maxWords : Z) : bool :=
  countWords body <=? maxWords.

(** [s.replace(/^-|-$/g, '')]: one dash is dropped at the start and one at
    the end. *)
Definition drop_first_if (c : ascii) (s : string) : string :=
  match s with
  | String x s' => if Ascii.eqb x c then s' else s
  | EmptyString => EmptyString
  end.

Fixpoint drop_last_if (c : ascii) (s : string) : string :=
  match s with
  | EmptyString => EmptyString
  | String x EmptyString => if Ascii.eqb x c then EmptyString else s
  | String x s' => String x (drop_last_if c s')
  end.

(** The classes [[^\w\s-]] and [[\s_]]. *)
Definition not_kept (c : ascii) : bool :=
  negb (is_word c || Js.is_space c || Ascii.eqb c "-").
Definition space_or_underscore (c : ascii) : bool :=
  Js.is_space c || Ascii.eqb c "_".

(** [toKebabCase]. *)
Definition toKebabCase (str : string) : string :=
  drop_last_if "-"
    (drop_first_if "-"
       (replace_runs (Ascii.eqb "-") "-"
          (replace_runs space_or_underscore "-"
             (remove_chars not_kept (Js.trim (Js.toLowerCase str)))))).

(** [truncateValue] on a string; [substring(0, n)] takes a negative [n]
    for 0. *)
Definition truncateValue (value : string) (maxLength : Z) : string :=
  if maxLength <? Z.of_nat (String.length value)
  then String.substring 0 (Z.to_nat maxLength) value ++ "..."
  else value.

(** The values [parseBoolean] tells apart. *)
Inductive Unknown :=
| UBoolean (b : bool)
| UString (s : string)
| UNumber (n : Z)
| UOther.

Definition parseBoolean (value : Unknown) : option bool :=
  match value with
  | UBoolean b => Some b
  | UString s =>
      let lower := Js.trim (Js.toLowerCase s) in
      if bool_decide (lower ∈ ["true"; "1"; "yes"]) then Some true
      else if bool_decide (lower ∈ ["false"; "0"; "no"]) then Some false
      else None
  | UNumber n =>
      if n =? 1 then Some true else if n =? 0 then Some false else None
  | UOther => None
  end.

(** [sanitizeString] on a string: trimmed, then without null bytes. *)
Definition sanitizeString (value : string) : string :=
  remove_chars (Ascii.eqb (ascii_of_nat 0)) (Js.trim value).

(** [isValidTagsArray] on an array of strings. *)
Definition isValidTagsArray (tags : list string) : bool :=
  forallb (fun tag => (0 <? String.length (Js.trim tag))%nat) tags.

(** [normalizeTags]. *)
Definition normalizeTags (tags : list string) : list string :=
  let normalized := map (fun tag => Js.toLowerCase (Js.trim tag)) tags in
  List.filter (fun tag => (0 <? String.length tag)%nat) (distinct normalized).

(** The class [[a-zA-Z0-9\-_]]. *)
Definition key_char (c : ascii) : bool :=
  is_lower c || is_upper c || is_digit c || Ascii.eqb c "-" ||
  Ascii.eqb c "_".

(** [/^[a-zA-Z0-9\-_]+$/]. *)
Definition validPattern : regex := Plus (Class key_char).

(** [isValidIdempotencyKey]. *)
Definition isValidIdempotencyKey (key : option string) : bool :=
  match key with
  | None => false
  | Some k =>
      if negb (Js.truthy k) then false
      else if ((String.length k =? 0) || (255 <? String.length k))%nat
      then false
      else test validPattern k
  end.

(** A text in kebab case, read from left to right: [start] tells whether a
    word has to begin at this point. Written independently of the
    pattern. *)
Fixpoint kebab_from (start : bool) (s : string) : bool :=
  match s with
  | EmptyString => negb start
  | String c s' =>
      if Ascii.eqb c "-" then negb start && kebab_from true s'
      else lower_or_digit c && kebab_from false s'
  end.

(** Whether a text is free of two [c] in a row. *)
Fixpoint no_double (c : ascii) (s : string) : bool :=
  match s with
  | EmptyString => true
  | String x s' =>
      match s' with
      | String y _ => negb (Ascii.eqb x c && Ascii.eqb y c) && no_double c s'
      | EmptyString => true
      end
  end.

(** The characters of a slug. *)
Definition slug_char (c : ascii) : bool :=
  lower_or_digit c || Ascii.eqb c "-".

(** A word of a slug. *)
Definition slug_word (w : string) : Prop :=
  w <> "" /\ all_chars lower_or_digit w = true.

(** The number of words of a text: the maximal runs of characters that
    are not white space; [inside] tells whether the character before was
    part of a word. *)
Fixpoint words_from (inside : bool) (s : string) : Z :=
  match s with
  | EmptyString => 0
  | String c s' =>
      if Js.is_space c then words_from false s'
      else (if inside then 0 else 1) + words_from true s'
  end.

Definition word_count (s : string) : Z := words_from false s.

End ValidationUtils.

(** ** Writing an export (ExportsService.transformToCsv, wrapAsJsonArray) *)

Module ExportWriters.
Import Entities Exports JsText.

(** The double quote character. *)
Definition DQUOTE : ascii := ascii_of_nat 34.

(** The replacement of [escapeCSV]: every double quote of the text is
    doubled. *)
Fixpoint double_quotes (s : string) : string :=
  match s with
  | EmptyString => EmptyString
  | String c s' =>
      if Ascii.eqb c DQUOTE
      then String DQUOTE (String DQUOTE (double_quotes s'))
      else String c (double_quotes s')
  end.

(** [getHeaders]. *)
Definition getHeaders (rt : ResourceType) : list string :=
  match rt with
  | USERS =>
      ["id"; "email"; "name"; "role"; "active"; "created_at"; "updated_at"]
  | ARTICLES =>
      ["id"; "slug"; "title"; "body"; "author_id"; "tags"; "status";
       "published_at"; "created_at"; "updated_at"]
  | COMMENTS => ["id"; "article_id"; "user_id"; "body"; "created_at"]
  end.

(** The names every object inherits from [Object.prototype]. Under such
    a name an exported record reads the inherited member, whatever its own
    keys are; the properties below are about the other names. *)
Definition Object_prototype : list string :=
  ["constructor"; "__defineGetter__"; "__defineSetter__"; "hasOwnProperty";
   "__lookupGetter__"; "__lookupSetter__"; "isPrototypeOf";
   "propertyIsEnumerable"; "toString"; "valueOf"; "__proto__";
   "toLocaleString"].

(** [chunk[h]] for a name that is not inherited: the value under a key of
    an exported record; a key the record lacks and a column the row lacks
    both read as [undefined]. *)
Definition chunk_get (chunk : FormattedRecord) (h : string) : option Value :=
  match lookup_key h chunk with
  | Some (_, v) => v
  | None => None
  end.

Section Csv.
(** [typeof value === 'object' ? JSON.stringify(value) : String(value)] on a
    value that is neither null nor undefined: how JavaScript prints a date
    and an array is left to the surroundings. *)
Variable JSON_stringify : Value -> string.

Definition value_text (value : Value) : string :=
  match value with
  | VBool true => "true"
  | VBool false => "false"
  | VString s => s
  | v => JSON_stringify v
  end.

(** The text of a cell before escaping: empty for null and undefined. *)
Definition cell_text (value : option Value) : string :=
  match value with
  | None | Some VNull => ""
  | Some v => value_text v
  end.

(** [escapeCSV]. *)
Definition escapeCSV (value : option Value) : string :=
  match value with
  | None | Some VNull => ""
  | Some v =>
      let str := value_text v in
      if (includes "," str || includes DQUOTE str || includes Js.LF str)%bool
      then String DQUOTE (double_quotes str ++ String DQUOTE "")
      else str
  end.

(** One line of the file, from the values of its cells. *)
Definition written_line (vs : list (option Value)) : string :=
  join "," (map escapeCSV vs) ++ String Js.LF "".

(** The header names of an export. *)
Definition csv_headers (rt : ResourceType) (fields : option (list string))
  : list string :=
  match fields with
  | Some fs => if (0 <? List.length fs)%nat then fs else getHeaders rt
  | None => getHeaders rt
  end.

(** The handler of [data]: the header line goes out before the first
    record; the state is whether it has been written. *)
Definition csv_on_data (headers : list string)
    (st : bool * list string) (chunk : FormattedRecord)
  : bool * list string :=
  let '(headerWritten, out) := st in
  let out1 :=
    if headerWritten then out
    else (out ++ [(join "," headers ++ String Js.LF "")%string])%list in
  let values := map (fun h => escapeCSV (chunk_get chunk h)) headers in
  (true, (out1 ++ [(join "," values ++ String Js.LF "")%string])%list).

(** [transformToCsv]: everything written to the output for a stream of
    records that ends. *)
Definition transformToCsv (chunks : list FormattedRecord)
    (rt : ResourceType) (fields : option (list string)) : list string :=
  snd (fold_left (csv_on_data (csv_headers rt fields)) chunks (false, [])).

End Csv.

Section JsonArray.
Context {A : Type}.
Variable JSON_stringify : A -> string.

(** The handler of [data] of [wrapAsJsonArray]; the state is [first]. *)
Definition json_on_data (st : bool * list string) (chunk : A)
  : bool * list string :=
  let '(first, out) := st in
  let out1 := if first then out else (out ++ [","])%list in
  (false, (out1 ++ [JSON_stringify chunk])%list).

(** [wrapAsJsonArray]: everything written to the output. *)
Definition wrapAsJsonArray (chunks : list A) : list string :=
  (snd (fold_left json_on_data chunks (true, ["["])) ++ ["]"])%list.
End JsonArray.

(** Reading a CSV text as RFC 4180 describes it: fields separated by
    commas, records ended by a line feed, a field in double quotes holding
    commas, line feeds and doubled double quotes. Written independently
    of the writer. *)
Inductive Mode := RecordStart | FieldStart | Plain | Quoted | QuoteSeen.

Fixpoint read_csv (m : Mode) (field : string) (fields : list string)
    (s : string) : list (list string) :=
  match s with
  | EmptyString =>
      match m with
      | RecordStart => []
      | _ => [(fields ++ [field])%list]
      end
  | String c s' =>
      let plain :=
        if Ascii.eqb c ","
        then read_csv FieldStart "" (fields ++ [field])%list s'
        else if Ascii.eqb c Js.LF
        then (fields ++ [field])%list :: read_csv RecordStart "" [] s'
        else read_csv Plain (field ++ String c "") fields s' in
      match m with
      | Quoted =>
          if Ascii.eqb c DQUOTE then read_csv QuoteSeen field fields s'
          else read_csv Quoted (field ++ String c "") fields s'
      | QuoteSeen =>
          if Ascii.eqb c DQUOTE
          then read_csv Quoted (field ++ String DQUOTE "") fields s'
          else plain
      | RecordStart | FieldStart =>
          if Ascii.eqb c DQUOTE then read_csv Quoted "" fields s' else plain
      | Plain => plain
      end
  end.

(** The reader is at the start of a field. *)
Definition at_start (m : Mode) : Prop := m = RecordStart \/ m = FieldStart.

(** The characters that end a field. *)
Definition separator (t : ascii) : Prop := t = ","%char \/ t = Js.LF.

Definition parse_csv (text : string) : list (list string) :=
  read_csv RecordStart "" [] text.

(** A text that needs no quoting. *)
Definition plain_text (s : string) : bool :=
  negb (includes "," s || includes DQUOTE s || includes Js.LF s).

(** A column name that is written as it stands and is read from the
    record itself. *)
Definition plain_name (h : string) : bool :=
  plain_text h && negb (bool_decide (h ∈ Object_prototype)).

End ExportWriters.

Module ExportSamples.
Import Exports ExportWriters.

(** A stand-in for [JSON.stringify] on dates and arrays. *)
Definition toyJson (v : Value) : string := "[x]".

(** A user whose name holds a comma and a double quote. *)
Definition quotedUser : Entity :=
  <[ "name" := VString ("Doe, " ++ String DQUOTE "Jane") ]> Samples.userA.

Definition quotedRecord : FormattedRecord :=
  formatRecord quotedUser Entities.USERS None.

End ExportSamples.

(** ** The upserts of a batch (ImportsService.upsertUsers, upsertArticles,
    upsertComments) *)

Module Upserts.
Import Entities JobStore Pipeline JsText ValidationUtils.

(** [ImportUserRecordDto], [ImportArticleRecordDto],
    [ImportCommentRecordDto]. *)
Record ImportUserRecordDto := mkUserDto {
  ud_id : option string;
  ud_email : string;
  ud_name : string;
  ud_role : string;
  ud_active : bool;
  ud_created_at : option string;
  ud_updated_at : option string;
}.

Record ImportArticleRecordDto := mkArticleDto {
  ad_id : option string;
  ad_slug : string;
  ad_title : string;
  ad_body : string;
  ad_author_id : string;
  ad_tags : option (list string);
  ad_status : string;
  ad_published_at : option string;
  ad_created_at : option string;
  ad_updated_at : option string;
}.

Record ImportCommentRecordDto := mkCommentDto {
  cd_id : option string;
  cd_article_id : string;
  cd_user_id : string;
  cd_body : string;
  cd_created_at : option string;
}.

(** The entities as the upserts fill them; a date that is left undefined
    or null is [None]. *)
Record User := mkUser {
  user_id : string;
  user_email : string;
  user_name : string;
  user_role : string;
  user_active : bool;
  user_createdAt : option Z;
  user_updatedAt : option Z;
}.

Record Article := mkArticle {
  article_id : string;
  article_slug : string;
  article_title : string;
  article_body : string;
  article_authorId : string;
  article_tags : list string;
  article_status : string;
  article_publishedAt : option Z;
  article_createdAt : option Z;
  article_updatedAt : option Z;
}.

Record Comment := mkComment {
  comment_id : string;
  comment_articleId : string;
  comment_userId : string;
  comment_body : string;
  comment_createdAt : option Z;
}.

(** An optional text used as a condition: undefined and the empty text
    are falsy. *)
Definition present (o : option string) : option string :=
  match o with
  | Some s => if Js.truthy s then Some s else None
  | None => None
  end.

(** [s.includes(needle)]. *)
Fixpoint includes_text (needle s : string) : bool :=
  String.prefix needle s ||
  match s with
  | EmptyString => false
  | String _ s' => includes_text needle s'
  end.

(** The message of the TypeError for [record.data.prop] when [data] is
    undefined. *)
Definition undefined_read (prop : string) : string :=
  "Cannot read properties of undefined (reading '" ++ prop ++ "')".

(** The records with the data each one carries; reading a property of the
    data of a record that has none throws. *)
Definition with_data {Row} (records : list (ValidatedImportRecord Row))
  : option (list (Z * Row)) :=
  mapM (fun r => match v_data r with
                 | Some data => Some (v_lineNumber r, data)
                 | None => None
                 end) records.

(** The counters and the error list of an upsert loop; [skipped] is the
    constant 0. *)
Record Tally := mkTally {
  t_successful : Z;
  t_failed : Z;
  t_errors : list ImportJobError;
}.

(** [successful++]. *)
Definition success (t : Tally) : Tally :=
  mkTally (t_successful t + 1) (t_failed t) (t_errors t).

(** [failed++; errors.push(e)]. *)
Definition failure (t : Tally) (e : ImportJobError) : Tally :=
  mkTally (t_successful t) (t_failed t + 1) (t_errors t ++ [e])%list.

Definition batch_of (t : Tally) : ImportBatchResult :=
  mkBatch (t_successful t) (t_failed t) 0 (t_errors t).

(** [commentId.startsWith('cm_') ? commentId.substring(3) : commentId]. *)
Definition strip_cm (commentId : string) : string :=
  match commentId with
  | String "c" (String "m" (String "_" rest)) => rest
  | _ => commentId
  end.

Section Upserts.
Context {DB : Type}.

(** What lies outside the service: [new Date(text)] as an instant;
    [uuidv4()], which draws an identifier from the surroundings; the
    queries [manager.find] and [manager.findOne], which give the rows
    found or throw; [manager.save], which gives the new database or
    throws. The statements SAVEPOINT, RELEASE SAVEPOINT and ROLLBACK TO
    SAVEPOINT are taken to succeed: after a save that threw, the database
    is as it was before the save. *)
Variable Date_parse : string -> Z.
Variable uuidv4 : DB -> string * DB.
Variable findUsersByEmail : DB -> list string -> list User + string.
Variable findUserIds : DB -> list string -> list string + string.
Variable findArticlesBySlug : DB -> list string -> list Article + string.
Variable findArticleIds : DB -> list string -> list string + string.
Variable findOneComment : DB -> string -> option Comment + string.
Variable saveUser : DB -> User -> DB + string.
Variable saveArticle : DB -> Article -> DB + string.
Variable saveComment : DB -> Comment -> DB + string.

(** [text ? new Date(text) : undefined]. *)
Definition date_of (text : option string) : option Z :=
  Date_parse <$> present text.

(** [id || uuidv4()]. *)
Definition id_or_fresh (db : DB) (ident : option string) : string * DB :=
  match present ident with
  | Some i => (i, db)
  | None => uuidv4 db
  end.

(** *** Users *)

(** [new Map(existingUsers.map((u) => [u.email, u]))]: a later row
    replaces an earlier one with the same email. *)
Definition emailToUser_of (existingUsers : list User) : gmap string User :=
  fold_left (fun m u => <[user_email u := u]> m) existingUsers ∅.

Definition duplicate_in_file (what : string) (lineNumber : Z)
    (key : string) (first : Z) : ImportJobError :=
  mkError lineNumber (Some what)
    ("Duplicate " ++ what ++ " in import file: " ++ key ++
     " (first seen on row " ++ pretty first ++ ")")
    (Some key).

(** The error stored for a user whose save threw. *)
Definition user_save_error (lineNumber : Z) (userData : ImportUserRecordDto)
    (errorMessage : string) : ImportJobError :=
  if (includes_text "duplicate key" errorMessage ||
      includes_text "unique constraint" errorMessage)%bool
  then mkError lineNumber (Some "email")
         ("Duplicate email: " ++ ud_email userData)
         (Some (ud_email userData))
  else if includes_text "invalid input value for enum user_role_enum"
            errorMessage
  then mkError lineNumber (Some "role")
         ("Invalid role: " ++ ud_role userData ++
          ". Must be one of: admin, manager, author, editor, reader")
         (Some (ud_role userData))
  else mkError lineNumber None errorMessage None.

(** The user that is saved: the existing one with the new name, role and
    state, or a new one. *)
Definition user_to_save (db : DB) (existingUser : option User)
    (userData : ImportUserRecordDto) : User * DB :=
  match existingUser with
  | Some u =>
      (mkUser (user_id u) (user_email u) (ud_name userData)
              (ud_role userData) (ud_active userData) (user_createdAt u)
              (match present (ud_updated_at userData) with
               | Some t => Some (Date_parse t)
               | None => user_updatedAt u
               end), db)
  | None =>
      let '(ident, db1) := id_or_fresh db (ud_id userData) in
      (mkUser ident (ud_email userData) (ud_name userData)
              (ud_role userData) (ud_active userData)
              (date_of (ud_created_at userData))
              (date_of (ud_updated_at userData)), db1)
  end.

(** One round of the loop of [upsertUsers]; the state is the database,
    [seenEmailsInBatch] and the counters. *)
Definition upsertUsers_step (emailToUser : gmap string User)
    (st : DB * gmap string Z * Tally) (record : Z * ImportUserRecordDto)
  : DB * gmap string Z * Tally :=
  let '(db, seenEmailsInBatch, tally) := st in
  let '(lineNumber, userData) := record in
  let emailLower := Js.toLowerCase (ud_email userData) in
  match seenEmailsInBatch !! emailLower with
  | Some first =>
      (db, seenEmailsInBatch,
       failure tally
         (duplicate_in_file "email" lineNumber (ud_email userData) first))
  | None =>
      let seen := <[emailLower := lineNumber]> seenEmailsInBatch in
      let '(user, db1) :=
        user_to_save db (emailToUser !! ud_email userData) userData in
      match saveUser db1 user with
      | inl db2 => (db2, seen, success tally)
      | inr errorMessage =>
          (db1, seen,
           failure tally (user_save_error lineNumber userData errorMessage))
      end
  end.

(** [upsertUsers]. *)
Definition upsertUsers (db : DB)
    (records : list (ValidatedImportRecord ImportUserRecordDto))
  : (DB * ImportBatchResult) + string :=
  match with_data records with
  | None => inr (undefined_read "email")
  | Some rows =>
      match findUsersByEmail db (map (fun r => ud_email (snd r)) rows) with
      | inr e => inr e
      | inl existingUsers =>
          let '(db', _, tally) :=
            fold_left (upsertUsers_step (emailToUser_of existingUsers)) rows
                      (db, ∅, mkTally 0 0 []) in
          inl (db', batch_of tally)
      end
  end.

(** *** Articles *)

Definition slugToArticle_of (existingArticles : list Article)
  : gmap string Article :=
  fold_left (fun m a => <[article_slug a := a]> m) existingArticles ∅.

Definition article_save_error (lineNumber : Z)
    (articleData : ImportArticleRecordDto) (errorMessage : string)
  : ImportJobError :=
  if (includes_text "duplicate key" errorMessage ||
      includes_text "unique constraint" errorMessage)%bool
  then mkError lineNumber (Some "slug")
         ("Duplicate slug: " ++ ad_slug articleData)
         (Some (ad_slug articleData))
  else if includes_text "invalid input value for enum article_status_enum"
            errorMessage
  then mkError lineNumber (Some "status")
         ("Invalid status: " ++ ad_status articleData ++
          ". Must be one of: draft, published, archived")
         (Some (ad_status articleData))
  else mkError lineNumber None errorMessage None.

Definition article_to_save (db : DB) (existingArticle : option Article)
    (articleData : ImportArticleRecordDto) : Article * DB :=
  match existingArticle with
  | Some a =>
      (mkArticle (article_id a) (article_slug a) (ad_title articleData)
                 (ad_body articleData) (ad_author_id articleData)
                 (default [] (ad_tags articleData)) (ad_status articleData)
                 (date_of (ad_published_at articleData))
                 (article_createdAt a)
                 (match present (ad_updated_at articleData) with
                  | Some t => Some (Date_parse t)
                  | None => article_updatedAt a
                  end), db)
  | None =>
      let '(ident, db1) := id_or_fresh db (ad_id articleData) in
      (mkArticle ident (ad_slug articleData) (ad_title articleData)
                 (ad_body articleData) (ad_author_id articleData)
                 (default [] (ad_tags articleData)) (ad_status articleData)
                 (date_of (ad_published_at articleData))
                 (date_of (ad_created_at articleData))
                 (date_of (ad_updated_at articleData)), db1)
  end.

(** One round of the loop of [upsertArticles]. *)
Definition upsertArticles_step (slugToArticle : gmap string Article)
    (validAuthorIds : list string)
    (st : DB * gmap string Z * Tally) (record : Z * ImportArticleRecordDto)
  : DB * gmap string Z * Tally :=
  let '(db, seenSlugsInBatch, tally) := st in
  let '(lineNumber, articleData) := record in
  match seenSlugsInBatch !! ad_slug articleData with
  | Some first =>
      (db, seenSlugsInBatch,
       failure tally
         (duplicate_in_file "slug" lineNumber (ad_slug articleData) first))
  | None =>
      let seen := <[ad_slug articleData := lineNumber]> seenSlugsInBatch in
      if negb (bool_decide (ad_author_id articleData ∈ validAuthorIds))
      then
        (db, seen,
         failure tally
           (mkError lineNumber (Some "author_id")
              ("Invalid author_id: " ++ ad_author_id articleData ++
               " does not exist")
              (Some (ad_author_id articleData))))
      else
        let '(article, db1) :=
          article_to_save db (slugToArticle !! ad_slug articleData)
                          articleData in
        match saveArticle db1 article with
        | inl db2 => (db2, seen, success tally)
        | inr errorMessage =>
            (db1, seen,
             failure tally
               (article_save_error lineNumber articleData errorMessage))
        end
  end.

(** [upsertArticles]. *)
Definition upsertArticles (db : DB)
    (records : list (ValidatedImportRecord ImportArticleRecordDto))
  : (DB * ImportBatchResult) + string :=
  match with_data records with
  | None => inr (undefined_read "slug")
  | Some rows =>
      match findArticlesBySlug db (map (fun r => ad_slug (snd r)) rows) with
      | inr e => inr e
      | inl existingArticles =>
          let authorIds :=
            distinct (map (fun r => ad_author_id (snd r)) rows) in
          match findUserIds db (List.filter isValidUUID authorIds) with
          | inr e => inr e
          | inl validAuthorIds =>
              let '(db', _, tally) :=
                fold_left
                  (upsertArticles_step (slugToArticle_of existingArticles)
                                       validAuthorIds)
                  rows (db, ∅, mkTally 0 0 []) in
              inl (db', batch_of tally)
          end
      end
  end.

(** *** Comments *)

(** The body of the [try] of [upsertComments]: the comment that is saved,
    or the message thrown by the lookup. *)
Definition comment_to_save (db : DB) (commentId : option string)
    (commentData : ImportCommentRecordDto) : (Comment * DB) + string :=
  let fresh :=
    let '(ident, db1) := id_or_fresh db commentId in
    inl (mkComment ident (cd_article_id commentData)
                   (cd_user_id commentData) (cd_body commentData)
                   (date_of (cd_created_at commentData)), db1) in
  match present commentId with
  | Some ident =>
      match findOneComment db ident with
      | inr e => inr e
      | inl (Some existingComment) =>
          inl (mkComment (comment_id existingComment)
                         (cd_article_id commentData)
                         (cd_user_id commentData) (cd_body commentData)
                         (comment_createdAt existingComment), db)
      | inl None => fresh
      end
  | None => fresh
  end.

(** One round of the loop of [upsertComments]. *)
Definition upsertComments_step (validArticleIds validUserIds : list string)
    (st : DB * Tally) (record : Z * ImportCommentRecordDto) : DB * Tally :=
  let '(db, tally) := st in
  let '(lineNumber, commentData) := record in
  let commentId := strip_cm <$> present (cd_id commentData) in
  if negb (bool_decide (cd_article_id commentData ∈ validArticleIds))
  then
    (db,
     failure tally
       (mkError lineNumber (Some "article_id")
          ("Invalid foreign key: article_id " ++
           cd_article_id commentData ++ " does not exist")
          (Some (cd_article_id commentData))))
  else if negb (bool_decide (cd_user_id commentData ∈ validUserIds))
  then
    (db,
     failure tally
       (mkError lineNumber (Some "user_id")
          ("Invalid user_id: " ++ cd_user_id commentData ++
           " does not exist")
          (Some (cd_user_id commentData))))
  else
    match comment_to_save db commentId commentData with
    | inr errorMessage =>
        (db, failure tally (mkError lineNumber None errorMessage None))
    | inl (comment, db1) =>
        match saveComment db1 comment with
        | inl db2 => (db2, success tally)
        | inr errorMessage =>
            (db1, failure tally (mkError lineNumber None errorMessage None))
        end
    end.

(** [upsertComments]. *)
Definition upsertComments (db : DB)
    (records : list (ValidatedImportRecord ImportCommentRecordDto))
  : (DB * ImportBatchResult) + string :=
  match with_data records with
  | None => inr (undefined_read "article_id")
  | Some rows =>
      let articleIds :=
        distinct (map (fun r => cd_article_id (snd r)) rows) in
      match findArticleIds db (List.filter isValidUUID articleIds) with
      | inr e => inr e
      | inl validArticleIds =>
          let userIds :=
            distinct (map (fun r => cd_user_id (snd r)) rows) in
          match findUserIds db (List.filter isValidUUID userIds) with
          | inr e => inr e
          | inl validUserIds =>
              let '(db', tally) :=
                fold_left
                  (upsertComments_step validArticleIds validUserIds)
                  rows (db, mkTally 0 0 []) in
              inl (db', batch_of tally)
          end
      end
  end.

End Upserts.

(** The line on which a key is first seen among the records before a
    given one. *)
Definition first_seen {Row} (key : Row -> string) (k : string)
    (records : list (ValidatedImportRecord Row)) : option Z :=
  v_lineNumber <$>
    List.find (fun r => bool_decide (key <$> v_data r = Some k)) records.

(** A tally accounts for the rows it has seen: each one counted once, as
    saved or as failed, and one stored error for each failed one, on the
    line of that row and in the order of the rows. *)
Definition accounts (lines : list Z) (r : ImportBatchResult) : Prop :=
  successful r + failed r = len lines /\
  skipped r = 0 /\
  0 <= successful r /\
  len (batchErrors r) = failed r /\
  sublist (map row (batchErrors r)) lines.

End Upserts.

Module UpsertSamples.
Import Entities JobStore Pipeline Upserts.

(** A store that is the list of the rows saved, the latest first; every
    save goes through, nothing is found in it, and every identifier that
    is asked for exists. *)
Definition toyUuid {DB} (db : DB) : string * DB :=
  ("00000000-0000-4000-8000-000000000000", db).

Definition toyFind {DB Found} (db : DB) (keys : list string)
  : list Found + string := inl [].

Definition toyFindIds {DB} (db : DB) (ids : list string)
  : list string + string := inl ids.

Definition toyFindOne {DB Found} (db : DB) (ident : string)
  : option Found + string := inl None.

Definition toySave {Row} (db : list Row) (row : Row) : list Row + string :=
  inl (row :: db).

Definition valid {Row} (line : Z) (data : Row) : ValidatedImportRecord Row :=
  mkValidated true (Some data) None line None.

Definition someId : string := "11111111-1111-4111-8111-111111111111".

(** Two users with the same email up to case, on lines 2 and 3. *)
Definition ada : ImportUserRecordDto :=
  mkUserDto None "ada@example.com" "Ada" "admin" true None None.

Definition adaAgain : ImportUserRecordDto :=
  mkUserDto None "ADA@example.com" "Ada L." "reader" true None None.

Definition twoUsers : list (ValidatedImportRecord ImportUserRecordDto) :=
  [valid 2 ada; valid 3 adaAgain].

Definition twoUsersResult : ImportBatchResult :=
  mkBatch 1 1 0
    [mkError 3 (Some "email")
       "Duplicate email in import file: ADA@example.com (first seen on row 2)"
       (Some "ADA@example.com")].

Definition adaSaved : User :=
  mkUser "00000000-0000-4000-8000-000000000000" "ada@example.com" "Ada"
         "admin" true None None.

(** Two articles with the same slug, on lines 2 and 3. *)
Definition intro : ImportArticleRecordDto :=
  mkArticleDto None "intro" "Intro" "Text" someId None "draft" None None None.

Definition twoArticles
  : list (ValidatedImportRecord ImportArticleRecordDto) :=
  [valid 2 intro; valid 3 intro].

Definition twoArticlesResult : ImportBatchResult :=
  mkBatch 1 1 0
    [mkError 3 (Some "slug")
       "Duplicate slug in import file: intro (first seen on row 2)"
       (Some "intro")].

Definition introSaved : Article :=
  mkArticle "00000000-0000-4000-8000-000000000000" "intro" "Intro" "Text"
            someId [] "draft" None None None.

(** Two comments, the second on an article whose identifier is not a
    UUID and is therefore not looked up. *)
Definition hello : ImportCommentRecordDto :=
  mkCommentDto None someId someId "Hello" None.

Definition astray : ImportCommentRecordDto :=
  mkCommentDto None "nowhere" someId "Hello" None.

Definition twoComments
  : list (ValidatedImportRecord ImportCommentRecordDto) :=
  [valid 2 hello; valid 3 astray].

Definition twoCommentsResult : ImportBatchResult :=
  mkBatch 1 1 0
    [mkError 3 (Some "article_id")
       "Invalid foreign key: article_id nowhere does not exist"
       (Some "nowhere")].

Definition helloSaved : Comment :=
  mkComment "00000000-0000-4000-8000-000000000000" someId someId "Hello"
            None.

End UpsertSamples.

(** ** The API key guard (ApiKeyGuard) *)

Module ApiKeyGuard.
Import JsText.

(** The constructor: the keys are the parts of the configured text
    between commas, trimmed, without the empty ones, as a set. *)
Definition apiKeys_of (apiKeyConfig : string) : list string :=
  distinct
    (List.filter (fun key => (0 <? String.length key)%nat)
       (map Js.trim (Js.split "," apiKeyConfig))).

Definition key_required : string :=
  "API key is required. Provide it in the X-API-Key header.".

Definition key_invalid : string := "Invalid API key.".

(** [canActivate]: [true], or the message of the
    [UnauthorizedException] thrown; [providedApiKey] is the header of the
    request, if it has one. *)
Definition canActivate (apiKeyConfig : string)
    (providedApiKey : option string) : bool + string :=
  let apiKeys := apiKeys_of apiKeyConfig in
  if (List.length apiKeys =? 0)%nat then inl true
  else
    match providedApiKey with
    | None => inr key_required
    | Some key =>
        if negb (Js.truthy key) then inr key_required
        else if negb (bool_decide (key ∈ apiKeys)) then inr key_invalid
        else inl true
    end.

End ApiKeyGuard.

(** * Properties *)

(** ** Properties of format detection *)

Module FormatFacts.
Import Format.

Lemma split_nonempty sep s : Js.split sep s <> [].
Proof.
  destruct s as [|c s]; simpl; [discriminate|].
  destruct (Ascii.eqb c sep); [discriminate|].
  destruct (Js.split sep s); discriminate.
Qed.

Lemma split_no_extension (f : string) :
  extension f = None -> Js.split "." f = [f].
Proof.
  induction f as [|c f IH]; [reflexivity|].
  cbn [Js.split extension]. intros H.
  destruct (extension f) as [e|]; [discriminate|].
  destruct (Ascii.eqb c "."); [discriminate|].
  rewrite IH; reflexivity.
Qed.

Lemma split_extension (f e : string) :
  extension f = Some e ->
  last (Js.split "." f) = Some e /\ (2 <= List.length (Js.split "." f))%nat.
Proof.
  revert e. induction f as [|c f IH]; intros e H; [discriminate|].
  cbn [Js.split extension] in *.
  destruct (extension f) as [e'|] eqn:He.
  - injection H as <-. destruct (IH e' eq_refl) as [Hl Hn].
    destruct (Ascii.eqb c ".").
    + rewrite last_cons, Hl. split; [reflexivity|]. cbn [List.length]. lia.
    + destruct (Js.split "." f) as [|seg rest]; [cbn in Hn; lia|].
      rewrite last_cons in Hl |- *.
      destruct rest as [|r rest]; [cbn in Hn; lia|].
      rewrite last_cons in Hl |- *.
      destruct (last rest); split; try assumption; cbn [List.length] in *; lia.
  - destruct (Ascii.eqb c "."); [|discriminate]. injection H as <-.
    rewrite (split_no_extension f He). split; [reflexivity|]. cbn. lia.
Qed.

(** The last segment produced by [split "."] is the extension when there is
    a dot, and the whole name otherwise. *)
Lemma pop_split_extension (f : string) :
  Js.pop (Js.split "." f) = Some (default f (extension f)).
Proof.
  unfold Js.pop. destruct (extension f) as [e|] eqn:He.
  - apply (split_extension f e He).
  - rewrite (split_no_extension f He). reflexivity.
Qed.

(** Detection in terms of the last segment. *)
Lemma detectFormat_segment (f : string) :
  detectFormat f = format_of_extension (default f (extension f)).
Proof.
  unfold detectFormat, format_of_extension.
  rewrite pop_split_extension. cbn [fmap option_fmap option_map].
  set (e := Js.toLowerCase _).
  destruct (decide (e = "csv")) as [->|Hcsv].
  - rewrite decide_True by reflexivity. reflexivity.
  - rewrite decide_False by congruence.
    destruct (decide (e = "ndjson" \/ e = "jsonl")) as [Hnd|Hnd].
    + rewrite decide_True; [reflexivity|]. destruct Hnd; [left|right]; congruence.
    + rewrite decide_False; [reflexivity|].
      intros [[=]|[=]]; apply Hnd; [left|right]; assumption.
Qed.

(** On every filename that has a dot, detection is exactly what the
    specification says. *)
Lemma detectFormat_with_dot (f e : string) :
  extension f = Some e -> detectFormat f = detectFormat_spec f.
Proof.
  intros He. rewrite detectFormat_segment.
  unfold detectFormat_spec. rewrite He. reflexivity.
Qed.

(** C10 (as amended): detection classifies, without regard to case, the
    text after the last dot of the filename, and the whole filename when it
    has no dot: csv gives csv, ndjson and jsonl give ndjson, and everything
    else gives json. So it agrees with the specification on every filename
    with a dot, and on a dot-less filename it answers json unless the name
    itself is csv, ndjson or jsonl. *)
Theorem detectFormat_last_segment (f : string) :
  detectFormat f = format_of_extension (default f (extension f)) /\
  (is_Some (extension f) -> detectFormat f = detectFormat_spec f) /\
  (extension f = None ->
   detectFormat f = "json" \/
   Js.toLowerCase f = "csv" \/ Js.toLowerCase f = "ndjson" \/
   Js.toLowerCase f = "jsonl").
Proof.
  split; [apply detectFormat_segment|]. split.
  - intros [e He]. exact (detectFormat_with_dot f e He).
  - intros Hn. rewrite detectFormat_segment, Hn. cbn [default].
    unfold format_of_extension.
    destruct (decide (Js.toLowerCase f = "csv")); [auto|].
    destruct (decide (Js.toLowerCase f = "ndjson" \/
                      Js.toLowerCase f = "jsonl")) as [[H|H]|H]; auto.
Qed.

Lemma detectFormat_last_segment_witness :
  detectFormat "users.CSV" = detectFormat_spec "users.CSV".
Proof.
  apply (proj1 (proj2 (detectFormat_last_segment "users.CSV"))).
  vm_compute. eauto.
Defined.

(** C10 (as stated) fails on the dot-less filename [csv]: it has no
    extension, so the specification gives json, yet the code answers csv. *)
Lemma detectFormat_dotless_csv :
  extension "csv" = None /\ detectFormat "csv" = "csv" /\
  detectFormat "csv" <> detectFormat_spec "csv".
Proof. repeat split; vm_compute; congruence. Qed.

Example detectFormat_upper : detectFormat "Users.CSV" = "csv".
Proof. reflexivity. Qed.

Example detectFormat_jsonl : detectFormat "dump.2024.jsonl" = "ndjson".
Proof. reflexivity. Qed.

Example detectFormat_unknown : detectFormat "archive.tar.gz" = "json".
Proof. reflexivity. Qed.

Example detectFormat_none : detectFormat "README" = "json".
Proof. reflexivity. Qed.

End FormatFacts.

(** ** Properties of the job store primitives *)

Module JobStoreFacts.
Import Entities JobStore.

Lemma id_assign j u : id (assign j u) = id j.
Proof. reflexivity. Qed.

Lemma id_touch now j : id (touch now j) = id j.
Proof. reflexivity. Qed.

Lemma version_touch_assign now j u :
  version (touch now (assign j u)) = version j + 1.
Proof. reflexivity. Qed.

Lemma status_touch now j : status (touch now j) = status j.
Proof. reflexivity. Qed.

Lemma status_assign_set j s u :
  status (assign (set_status j s) u) = default s (u_status u).
Proof. reflexivity. Qed.

Lemma wf_table_insert db k j :
  wf_table db -> id j = k -> wf_table (<[k := j]> db).
Proof. intros Hwf Hid. apply map_Forall_insert_2; assumption. Qed.

Lemma save_lookup now j db :
  fst (save now j db) !! id j = Some (touch now j) /\
  snd (save now j db) = touch now j /\
  forall k, k <> id j -> fst (save now j db) !! k = db !! k.
Proof.
  unfold save; cbn. split; [apply lookup_insert_eq|]. split; [reflexivity|].
  intros k Hk. apply lookup_insert_ne. congruence.
Qed.

(** C1: the three outcomes of the atomic status transition. With no row
    under [jobId] the call fails with reason "Job not found" and the table
    is unchanged; with a row whose status is not [fromStatus] it fails with
    reason "Job status is X, expected Y" and the table is unchanged;
    otherwise the row gets status [toStatus] and then the updates, its
    version is incremented, it is written back under [jobId] (no other row
    is touched) and it is the job returned. *)
Theorem atomicStatusTransition_outcomes (now : Z) (db : Table)
    (jobId : string) (fromStatus toStatus : ImportJobStatus)
    (additionalUpdates : option PartialImportJob) (Hwf : wf_table db) :
  let '(db', r) :=
    atomicStatusTransition now db jobId fromStatus toStatus additionalUpdates in
  match db !! jobId with
  | None =>
      db' = db /\ success r = false /\ job r = None /\
      reason r = Some "Job not found"
  | Some j =>
      if decide (status j = fromStatus) then
        let u := default no_updates additionalUpdates in
        let j' := touch now (assign (set_status j toStatus) u) in
        success r = true /\ reason r = None /\ job r = Some j' /\
        db' !! jobId = Some j' /\
        (forall k, k <> jobId -> db' !! k = db !! k) /\
        status j' = default toStatus (u_status u) /\
        version j' = version j + 1
      else
        db' = db /\ success r = false /\ job r = None /\
        reason r = Some ("Job status is " ++ status_string (status j) ++
                         ", expected " ++ status_string fromStatus)
  end.
Proof.
  unfold atomicStatusTransition, getOne.
  destruct (db !! jobId) as [j|] eqn:Hj; [|cbn; auto].
  pose proof (Hwf _ _ Hj) as Hid. cbn in Hid.
  destruct (decide (status j = fromStatus)) as [Hs|Hs].
  - rewrite decide_False by (intros Hn; apply Hn, Hs).
    assert (Hu : match additionalUpdates with
                 | Some u => assign (set_status j toStatus) u
                 | None => set_status j toStatus
                 end = assign (set_status j toStatus)
                         (default no_updates additionalUpdates)).
    { destruct additionalUpdates; [reflexivity|]. destruct j; reflexivity. }
    rewrite Hu. unfold save.
    rewrite id_assign. change (id (set_status j toStatus)) with (id j).
    rewrite Hid. cbn [success reason job].
    repeat split.
    + apply lookup_insert_eq.
    + intros k Hk. apply lookup_insert_ne. congruence.
  - rewrite decide_True by assumption. cbn. auto.
Qed.

(** When the update object carries no [status] key, the stored status is
    [toStatus]. *)
Lemma atomicStatusTransition_status (now : Z) (db : Table) (jobId : string)
    (fromStatus toStatus : ImportJobStatus) (u : PartialImportJob)
    (j : ImportJob) :
  db !! jobId = Some j -> status j = fromStatus -> u_status u = None ->
  exists j', job (snd (atomicStatusTransition now db jobId fromStatus
                         toStatus (Some u))) = Some j' /\
             status j' = toStatus.
Proof.
  intros Hj Hs Hu. unfold atomicStatusTransition, getOne. rewrite Hj.
  rewrite decide_False by (intros Hn; apply Hn, Hs).
  cbn. eexists; split; [reflexivity|]. cbn. rewrite Hu. reflexivity.
Qed.

Lemma atomicStatusTransition_outcomes_witness :
  let '(db', r) :=
    atomicStatusTransition 2000 Samples.pendingTable "job-1" PENDING
      PROCESSING (Some (claimUpdates "node-a" 2000)) in
  match Samples.pendingTable !! "job-1" with
  | None =>
      db' = Samples.pendingTable /\ success r = false /\ job r = None /\
      reason r = Some "Job not found"
  | Some j =>
      if decide (status j = PENDING) then
        let u := default no_updates (Some (claimUpdates "node-a" 2000)) in
        let j' := touch 2000 (assign (set_status j PROCESSING) u) in
        success r = true /\ reason r = None /\ job r = Some j' /\
        db' !! "job-1" = Some j' /\
        (forall k, k <> "job-1" -> db' !! k = Samples.pendingTable !! k) /\
        status j' = default PROCESSING (u_status u) /\
        version j' = version j + 1
      else
        db' = Samples.pendingTable /\ success r = false /\ job r = None /\
        reason r = Some ("Job status is " ++ status_string (status j) ++
                         ", expected " ++ status_string PENDING)
  end.
Proof.
  apply (atomicStatusTransition_outcomes 2000 Samples.pendingTable "job-1"
           PENDING PROCESSING (Some (claimUpdates "node-a" 2000))).
  apply (bool_decide_unpack _). vm_compute. exact I.
Defined.

Example transition_not_found :
  atomicStatusTransition 5 Samples.pendingTable "job-9" PENDING PROCESSING None
  = (Samples.pendingTable, mkResult false None (Some "Job not found")).
Proof. reflexivity. Qed.

Example transition_wrong_status :
  atomicStatusTransition 5 Samples.processingTable "job-1" PENDING PROCESSING
    None
  = (Samples.processingTable,
     mkResult false None
       (Some "Job status is processing, expected pending")).
Proof. reflexivity. Qed.

Lemma completedUpdates_clears now t p sc f k errs m :
  clears_lock (completedUpdates now t p sc f k errs m).
Proof. split; reflexivity. Qed.

Lemma failedUpdates_clears now msg m : clears_lock (failedUpdates now msg m).
Proof. split; reflexivity. Qed.

(** C3 (as amended): finalize looks at the status only. If the row is not
    in PROCESSING the call returns after logging a warning and the table is
    unchanged. If it is in PROCESSING, whoever owns the row, the row gets
    the terminal status and then the updates and is written back; the
    ownership columns end up null when the update object sets them to null,
    which the update objects of the orchestrator do. *)
Theorem finalizeJob_status_guard (now : Z) (db : Table) (jobId : string)
    (st : ImportJobStatus) (updates : PartialImportJob) (j : ImportJob)
    (Hwf : wf_table db) (Hj : db !! jobId = Some j) :
  let '(db', out) := finalizeJob now db jobId st updates in
  if decide (status j = PROCESSING) then
    let j' := touch now (assign (set_status j st) updates) in
    out = Finalized /\
    db' !! jobId = Some j' /\
    (forall k, k <> jobId -> db' !! k = db !! k) /\
    status j' = default st (u_status updates) /\
    (clears_lock updates -> lockedBy j' = None /\ lockedAt j' = None)
  else
    db' = db /\ exists w, out = Refused w.
Proof.
  unfold finalizeJob, getOne. rewrite Hj.
  pose proof (Hwf _ _ Hj) as Hid. cbn in Hid.
  destruct (decide (status j = PROCESSING)) as [Hs|Hs].
  - rewrite decide_False by (intros Hn; apply Hn, Hs).
    unfold save. cbn [fst]. rewrite id_assign.
    change (id (set_status j st)) with (id j). rewrite Hid.
    repeat split.
    + apply lookup_insert_eq.
    + intros k Hk. apply lookup_insert_ne. congruence.
    + destruct H as [Hb _]. cbn. rewrite Hb. reflexivity.
    + destruct H as [_ Ha]. cbn. rewrite Ha. reflexivity.
  - rewrite decide_True by assumption. split; [reflexivity|]. eauto.
Qed.

Lemma finalizeJob_status_guard_witness :
  let '(db', out) :=
    finalizeJob 3000 Samples.processingTable "job-1" COMPLETED
      Samples.doneUpdates in
  if decide (status (Samples.processingJob "job-1" "node-b") = PROCESSING) then
    let j' := touch 3000 (assign (set_status
                (Samples.processingJob "job-1" "node-b") COMPLETED)
                Samples.doneUpdates) in
    out = Finalized /\
    db' !! "job-1" = Some j' /\
    (forall k, k <> "job-1" -> db' !! k = Samples.processingTable !! k) /\
    status j' = default COMPLETED (u_status Samples.doneUpdates) /\
    (clears_lock Samples.doneUpdates ->
     lockedBy j' = None /\ lockedAt j' = None)
  else
    db' = Samples.processingTable /\ exists w, out = Refused w.
Proof.
  apply (finalizeJob_status_guard 3000 Samples.processingTable "job-1"
           COMPLETED Samples.doneUpdates
           (Samples.processingJob "job-1" "node-b")).
  - apply (bool_decide_unpack _). vm_compute. exact I.
  - reflexivity.
Defined.

(** C3 (as stated) fails when the row is in PROCESSING but owned by another
    node: node-a finalizes a row whose [lockedBy] is node-b, and the row is
    rewritten as COMPLETED with the ownership cleared. *)
Lemma finalizeJob_ignores_owner :
  exists j db',
    Samples.processingTable !! "job-1" = Some j /\
    lockedBy j = Some "node-b" /\ lockedBy j <> Some "node-a" /\
    finalizeJob 3000 Samples.processingTable "job-1" COMPLETED
      Samples.doneUpdates = (db', Finalized) /\
    db' <> Samples.processingTable /\
    (status <$> db' !! "job-1") = Some COMPLETED /\
    (lockedBy <$> db' !! "job-1") = Some None.
Proof.
  eexists _, _. split; [reflexivity|].
  split; [reflexivity|]. split; [discriminate|].
  split; [reflexivity|]. split.
  - intros Heq.
    assert (H : (status <$> fst (finalizeJob 3000 Samples.processingTable
                   "job-1" COMPLETED Samples.doneUpdates) !! "job-1")
                = (status <$> Samples.processingTable !! "job-1")).
    { cbn [fst finalizeJob]. f_equal. f_equal. exact Heq. }
    vm_compute in H. discriminate.
  - split; reflexivity.
Qed.

Example finalize_not_processing :
  exists w, finalizeJob 3000 Samples.pendingTable "job-1" COMPLETED
              Samples.doneUpdates = (Samples.pendingTable, Refused w).
Proof. eexists. reflexivity. Qed.

Example finalize_missing_row :
  exists e, finalizeJob 3000 Samples.pendingTable "job-2" COMPLETED
              Samples.doneUpdates = (Samples.pendingTable, Threw e).
Proof. eexists. reflexivity. Qed.

End JobStoreFacts.

(** ** Properties of import creation *)

Module ImportsFacts.
Import Entities JobStore Imports.

Lemma findByIdempotencyKey_sound (db : Table) (k : string) (j : ImportJob) :
  findByIdempotencyKey db k = Some j ->
  idempotencyKey j = Some k /\ exists i, db !! i = Some j.
Proof.
  unfold findByIdempotencyKey. intros H.
  destruct (List.find _ _) as [[i j']|] eqn:Hf; [|discriminate].
  cbn in H. injection H as <-.
  apply List.find_some in Hf as [Hin Hb]. cbn in Hb.
  apply bool_decide_eq_true in Hb. split; [assumption|].
  exists i. apply elem_of_map_to_list, list_elem_of_In. assumption.
Qed.



(** For contrast, a first request does create, upload and enqueue. *)
Example createImportFromFile_fresh :
  let '(w, r) := createImportFromFile Samples.sampleEnv Samples.emptyWorld
                   Samples.sampleFile Samples.sampleFileDto (Some "k1") in
  base.size (jobs w) = 1%nat /\ base.size (objects w) = 1%nat /\
  List.length (queue w) = 1%nat /\
  (status <$> jobs w !! "job-2") = Some PENDING /\
  (idempotencyKey <$> jobs w !! "job-2") = Some (Some "k1") /\
  (fileFormat <$> jobs w !! "job-2") = Some (Some "csv") /\
  is_Some (objects w !! "imports/2024-01-15/job-2/users.csv.csv").
Proof. vm_compute. repeat split; eauto. Qed.

Example createImportFromUrl_fresh :
  let '(w, r) := createImportFromUrl Samples.sampleEnv Samples.emptyWorld
                   Samples.sampleUrlDto None in
  base.size (jobs w) = 1%nat /\ base.size (objects w) = 0%nat /\
  List.length (queue w) = 1%nat /\
  (fileFormat <$> jobs w !! "job-2") = Some (Some "ndjson").
Proof. vm_compute. repeat split; eauto. Qed.

End ImportsFacts.

(** ** The stream transforms on small inputs *)

Module StreamsFacts.
Import Streams.

(** Batches are cut at [batchSize]; the last one may be short. *)
Example batch_of_five :
  BatchTransform 2 [1; 2; 3; 4; 5] = [[1; 2]; [3; 4]; [5]].
Proof. reflexivity. Qed.

(** Nothing is lost or reordered by batching. *)
Lemma batch_run_concat {A} (batchSize : Z) (chunks pending : list A) :
  List.concat (batch_run batchSize pending chunks) = (pending ++ chunks)%list.
Proof.
  revert pending. induction chunks as [|x rest IH]; intros pending.
  - cbn. destruct pending; cbn; rewrite ?app_nil_r; reflexivity.
  - cbn [batch_run]. unfold batch_transform.
    destruct (Z.of_nat (List.length (pending ++ [x])) >=? batchSize).
    + rewrite concat_app, IH. cbn. rewrite app_nil_r, <- app_assoc.
      reflexivity.
    + cbn [app]. rewrite IH, <- app_assoc. reflexivity.
Qed.

Lemma BatchTransform_concat {A} (batchSize : Z) (chunks : list A) :
  List.concat (BatchTransform batchSize chunks) = chunks.
Proof. apply batch_run_concat. Qed.

(** Lines are numbered from 1 whatever the chunking, blank lines are
    numbered but not pushed, and a last line without a line feed is pushed
    by the flush. *)
Example ndjson_lines_across_chunks :
  NdjsonParseTransform Samples.toyParse
    ["{a}" ++ String Js.LF "{b"; "}" ++ String Js.LF (String Js.LF "{c}")]
  = [mkItem (Some "{a}") None 1 None;
     mkItem (Some "{b}") None 2 None;
     mkItem (Some "{c}") None 4 None].
Proof. vm_compute. reflexivity. Qed.

End StreamsFacts.

(** ** Properties of the import pipeline *)

Module PipelineFacts.
Import Entities JobStore Streams Pipeline.

Lemma take_take_app {A} (n : nat) (l k : list A) :
  take n (take n l ++ k) = take n (l ++ k).
Proof.
  rewrite !take_app, take_take, Nat.min_id, length_take.
  destruct (decide (List.length l <= n)%nat) as [Hle|Hgt].
  - rewrite Nat.min_r by lia. reflexivity.
  - rewrite Nat.min_l by lia.
    replace (n - n)%nat with 0%nat by apply eq_sym, Nat.sub_diag.
    replace (n - List.length l)%nat with 0%nat; [reflexivity|].
    symmetry. apply Nat.sub_0_le. apply Nat.lt_le_incl, Nat.nle_gt, Hgt.
Qed.

Lemma push_capped_take (errs more : list ImportJobError) :
  (List.length errs <= maxErrors)%nat ->
  push_capped errs more = take maxErrors (errs ++ more).
Proof.
  intros Hle. unfold push_capped, slice0.
  rewrite take_app, (take_ge errs) by assumption.
  destruct (Nat.ltb_spec (List.length errs) maxErrors) as [Hlt|Hge].
  - reflexivity.
  - replace (maxErrors - List.length errs)%nat with 0%nat by lia.
    rewrite take_0, app_nil_r. reflexivity.
Qed.

Lemma push_one_take (errs : list ImportJobError) (e : ImportJobError) :
  (List.length errs <= maxErrors)%nat ->
  (if (List.length errs <? maxErrors)%nat then (errs ++ [e])%list else errs)
  = take maxErrors (errs ++ [e]).
Proof.
  intros Hle. rewrite take_app, (take_ge errs) by assumption.
  destruct (Nat.ltb_spec (List.length errs) maxErrors) as [Hlt|Hge].
  - rewrite take_ge; [reflexivity|cbn [List.length]; lia].
  - replace (maxErrors - List.length errs)%nat with 0%nat by lia.
    rewrite take_0, app_nil_r. reflexivity.
Qed.

Lemma length_take_cap {A} (l : list A) :
  (List.length (take maxErrors l) <= maxErrors)%nat.
Proof. rewrite length_take. lia. Qed.

Lemma push_capped_length (errs more : list ImportJobError) :
  (List.length errs <= maxErrors)%nat ->
  (List.length (push_capped errs more) <= maxErrors)%nat.
Proof.
  intros H. rewrite push_capped_take by assumption. apply length_take_cap.
Qed.

Section Processing.
Context {Row DB : Type}.
Variable batchSize : Z.
Variable validateRecord :
  Row -> ResourceType -> Z -> ValidatedImportRecord Row.
Variable upsertByType :
  DB -> list (ValidatedImportRecord Row) -> ResourceType ->
  (DB * ImportBatchResult) + string.
Variable commitTransaction : DB -> option string.
Variable truthy : Row -> bool.
Variable JSON_parse : string -> Row + string.

#[local] Abbreviation pbwln :=
  (processBatchWithLineNumbers validateRecord upsertByType commitTransaction).
#[local] Abbreviation step :=
  (ndjson_step validateRecord upsertByType commitTransaction truthy).
#[local] Abbreviation uncapped :=
  (ndjson_uncapped validateRecord upsertByType commitTransaction truthy).
#[local] Abbreviation pbatch :=
  (processBatch validateRecord upsertByType commitTransaction).
#[local] Abbreviation cstep :=
  (csv_step batchSize validateRecord upsertByType commitTransaction).
#[local] Abbreviation cuncapped :=
  (csv_uncapped batchSize validateRecord upsertByType commitTransaction).
#[local] Abbreviation jloop :=
  (json_loop batchSize validateRecord upsertByType commitTransaction).
#[local] Abbreviation juncapped :=
  (json_uncapped batchSize validateRecord upsertByType commitTransaction).

Lemma parse_failures_cons (a : NdjsonItem Row) (l : list (NdjsonItem Row)) :
  parse_failures (a :: l) =
  (if parse_failed a then 1 else 0) + parse_failures l.
Proof.
  unfold parse_failures, len. cbn [List.filter].
  destruct (parse_failed a); cbn [List.length]; lia.
Qed.

Lemma parse_errors_cons (a : NdjsonItem Row) (l : list (NdjsonItem Row)) :
  parse_errors (a :: l) =
  match Imports.string_or_undefined (error a) with
  | Some msg => mkError (lineNumber a) None msg None :: parse_errors l
  | None => parse_errors l
  end.
Proof.
  unfold parse_errors.
  destruct (Imports.string_or_undefined (error a)) eqn:H;
    cbn; rewrite H; reflexivity.
Qed.

Lemma valid_records_cons (a : NdjsonItem Row) (l : list (NdjsonItem Row)) :
  valid_records truthy (a :: l) =
  match Imports.string_or_undefined (error a) with
  | Some _ => valid_records truthy l
  | None =>
      match data a with
      | Some d =>
          if truthy d then (d, lineNumber a) :: valid_records truthy l
          else valid_records truthy l
      | None => valid_records truthy l
      end
  end.
Proof.
  unfold valid_records.
  destruct (Imports.string_or_undefined (error a)) eqn:H;
    cbn; rewrite H; [reflexivity|].
  destruct (data a) as [d|]; [destruct (truthy d)|]; reflexivity.
Qed.

(** The loop over the items of a batch, in closed form. *)
Lemma fold_split_item (typedBatch : list (NdjsonItem Row)) :
  forall (f : Z) (e : list ImportJobError) (v : list (Row * Z)),
  (List.length e <= maxErrors)%nat ->
  fold_left (split_item truthy) typedBatch (f, e, v) =
  (f + parse_failures typedBatch,
   take maxErrors (e ++ parse_errors typedBatch),
   (v ++ valid_records truthy typedBatch)%list).
Proof.
  induction typedBatch as [|a l IH]; intros f e v He.
  - cbn. rewrite !app_nil_r, take_ge by assumption.
    f_equal. f_equal. unfold parse_failures, len. cbn. lia.
  - cbn [fold_left].
    rewrite parse_failures_cons, parse_errors_cons, valid_records_cons.
    unfold split_item at 2, parse_failed.
    destruct (Imports.string_or_undefined (error a)) as [msg|] eqn:Hm.
    + rewrite push_one_take by assumption.
      rewrite IH by apply length_take_cap.
      rewrite take_take_app, <- app_assoc.
      rewrite bool_decide_eq_true_2 by eauto.
      f_equal. f_equal. lia.
    + rewrite bool_decide_eq_false_2 by (intros [? [=]]).
      destruct (data a) as [d|]; [destruct (truthy d)|].
      * rewrite IH by assumption. rewrite <- app_assoc. reflexivity.
      * rewrite IH by assumption. reflexivity.
      * rewrite IH by assumption. reflexivity.
Qed.

Lemma len_nonneg {A} (l : list A) : 0 <= len l.
Proof. unfold len. lia. Qed.

(** One round of the NDJSON loop, in closed form. *)
Lemma ndjson_step_spec (now : Z) (jobId : string) (rt : ResourceType)
    (tbl : Table) (db : DB) (r : StreamResult) (n : Z)
    (typedBatch : list (NdjsonItem Row)) :
  (List.length (s_errors r) <= maxErrors)%nat ->
  let validRecords := valid_records truthy typedBatch in
  let dr := if 0 <? len validRecords then pbwln db validRecords rt
            else (db, mkBatch 0 0 0 []) in
  exists tbl',
    step now jobId rt (tbl, db, r, n) typedBatch =
    (tbl', fst dr,
     mkStream (s_totalRows r + len typedBatch)
       (s_processedRows r + len validRecords)
       (s_successfulRows r + successful (snd dr))
       (s_failedRows r + parse_failures typedBatch + failed (snd dr))
       (s_skippedRows r + skipped (snd dr))
       (take maxErrors
          (s_errors r ++ parse_errors typedBatch ++ batchErrors (snd dr))),
     n + 1).
Proof.
  intros He validRecords dr. unfold ndjson_step.
  rewrite fold_split_item by assumption. cbn [app].
  fold validRecords. subst dr.
  destruct (0 <? len validRecords) eqn:Hv.
  - destruct (pbwln db validRecords rt) as [db' result]. cbn [fst snd].
    rewrite push_capped_take by apply length_take_cap.
    rewrite take_take_app, <- app_assoc. eexists. reflexivity.
  - cbn [fst snd successful failed skipped batchErrors].
    apply Z.ltb_ge in Hv. pose proof (len_nonneg validRecords) as Hn.
    replace (len validRecords) with 0 by lia.
    rewrite !Z.add_0_r, app_nil_r. eexists. reflexivity.
Qed.

(** The whole NDJSON loop against the uncapped totals. *)
Lemma ndjson_fold_spec (now : Z) (jobId : string) (rt : ResourceType)
    (batches : list (list (NdjsonItem Row))) :
  forall (tbl : Table) (db : DB) (r : StreamResult) (n : Z),
  (List.length (s_errors r) <= maxErrors)%nat ->
  exists tbl' db' r' n',
    fold_left (step now jobId rt) batches (tbl, db, r, n)
    = (tbl', db', r', n') /\
    s_failedRows r' = s_failedRows r + fst (uncapped db rt batches) /\
    s_errors r' =
      take maxErrors (s_errors r ++ snd (uncapped db rt batches)).
Proof.
  induction batches as [|b rest IH]; intros tbl db r n He.
  - exists tbl, db, r, n. cbn.
    rewrite Z.add_0_r, app_nil_r, take_ge by assumption. auto.
  - cbn [fold_left ndjson_uncapped].
    destruct (ndjson_step_spec now jobId rt tbl db r n b He) as [tbl1 Hs].
    rewrite Hs. clear Hs.
    set (dr := if 0 <? len (valid_records truthy b)
               then pbwln db (valid_records truthy b) rt
               else (db, mkBatch 0 0 0 [])).
    destruct dr as [db1 result] eqn:Hdr. cbn [fst snd].
    match goal with
    | |- context [fold_left _ rest (tbl1, db1, ?r1, ?n1)] =>
        destruct (IH tbl1 db1 r1 n1) as (tbl2 & db2 & r2 & n2 & Hf & Hfail & Herr);
          [apply length_take_cap|]
    end.
    exists tbl2, db2, r2, n2. split; [exact Hf|].
    destruct (uncapped db1 rt rest) as [failedRest errorsRest].
    cbn [fst snd s_failedRows s_errors] in *.
    split; [lia|].
    rewrite Herr, take_take_app, <- !app_assoc. reflexivity.
Qed.

(** The failure counter of an NDJSON run counts every failed row, while
    the error list is the first [maxErrors] of the row errors. *)
Lemma processNDJSONStream_totals (now : Z) (tbl : Table) (db : DB)
    (stream : list string) (rt : ResourceType) (jobId : string) :
  counts_all_keeps_first
    (uncapped db rt
       (BatchTransform batchSize (NdjsonParseTransform JSON_parse stream)))
    (snd (processNDJSONStream batchSize validateRecord upsertByType
            commitTransaction truthy JSON_parse now tbl db stream rt jobId)).
Proof.
  unfold processNDJSONStream, counts_all_keeps_first.
  destruct (ndjson_fold_spec now jobId rt
              (BatchTransform batchSize
                 (NdjsonParseTransform JSON_parse stream)) tbl db
              emptyResult 0)
    as (tbl' & db' & r' & n' & Hf & Hfail & Herr); [cbn; lia|].
  rewrite Hf. cbn [snd]. cbn [emptyResult s_failedRows s_errors] in *.
  split; [lia|]. rewrite Herr. reflexivity.
Qed.

(** The whole CSV loop against the uncapped totals. *)
Lemma csv_fold_spec (now : Z) (jobId : string) (rt : ResourceType)
    (batches : list (list Row)) :
  forall (tbl : Table) (db : DB) (r : StreamResult) (n : Z),
  (List.length (s_errors r) <= maxErrors)%nat ->
  exists tbl' db' r' n',
    fold_left (cstep now jobId rt) batches (tbl, db, r, n)
    = (tbl', db', r', n') /\
    s_failedRows r' = s_failedRows r + fst (cuncapped db rt n batches) /\
    s_errors r' =
      take maxErrors (s_errors r ++ snd (cuncapped db rt n batches)).
Proof.
  induction batches as [|b rest IH]; intros tbl db r n He.
  - exists tbl, db, r, n. cbn.
    rewrite Z.add_0_r, app_nil_r, take_ge by assumption. auto.
  - cbn [fold_left csv_uncapped]. unfold csv_step at 2.
    destruct (pbatch db b rt ((n + 1 - 1) * batchSize + 1))
      as [db1 result].
    match goal with
    | |- context [fold_left _ rest (?t1, db1, ?r1, ?n1)] =>
        destruct (IH t1 db1 r1 n1) as (tbl2 & db2 & r2 & n2 & Hf & Hfail & Herr);
          [apply push_capped_length; assumption|]
    end.
    exists tbl2, db2, r2, n2. split; [exact Hf|].
    destruct (cuncapped db1 rt (n + 1) rest) as [failedRest errorsRest].
    cbn [fst snd s_failedRows s_errors] in *.
    split; [lia|].
    rewrite Herr, push_capped_take by assumption.
    rewrite take_take_app, <- app_assoc. reflexivity.
Qed.

Lemma processCSVStream_totals (csvParse : list string -> list Row)
    (now : Z) (tbl : Table) (db : DB) (stream : list string)
    (rt : ResourceType) (jobId : string) :
  counts_all_keeps_first
    (cuncapped db rt 0 (BatchTransform batchSize (csvParse stream)))
    (snd (processCSVStream batchSize validateRecord upsertByType
            commitTransaction csvParse now tbl db stream rt jobId)).
Proof.
  unfold processCSVStream, counts_all_keeps_first.
  destruct (csv_fold_spec now jobId rt
              (BatchTransform batchSize (csvParse stream)) tbl db
              emptyResult 0)
    as (tbl' & db' & r' & n' & Hf & Hfail & Herr); [cbn; lia|].
  rewrite Hf. cbn [snd]. cbn [emptyResult s_failedRows s_errors] in *.
  split; [lia|]. rewrite Herr. reflexivity.
Qed.

(** The JSON loop against the uncapped totals, when it ends. *)
Lemma json_loop_spec (now : Z) (jobId : string) (rt : ResourceType)
    (data : list Row) (fuel : nat) :
  forall (i : Z) (tbl : Table) (db : DB) (r : StreamResult) tbl' db' r',
  (List.length (s_errors r) <= maxErrors)%nat ->
  jloop fuel now jobId rt data i (tbl, db, r) = Some (tbl', db', r') ->
  s_failedRows r' = s_failedRows r + fst (juncapped fuel db rt data i) /\
  s_errors r' =
    take maxErrors (s_errors r ++ snd (juncapped fuel db rt data i)).
Proof.
  induction fuel as [|fuel IH]; intros i tbl db r tbl' db' r' He Hrun.
  - cbn in Hrun |- *. destruct (i <? len data); [discriminate|].
    injection Hrun as <- <- <-. cbn.
    rewrite Z.add_0_r, app_nil_r, take_ge by assumption. auto.
  - cbn [json_loop json_uncapped] in Hrun |- *.
    destruct (i <? len data).
    + destruct (pbatch db (slice_from batchSize data i) rt (i + 1))
        as [db1 result].
      apply IH in Hrun; [|apply push_capped_length; assumption].
      destruct (juncapped fuel db1 rt data (i + batchSize))
        as [failedRest errorsRest].
      cbn [fst snd s_failedRows s_errors] in *.
      destruct Hrun as [Hfail Herr]. split; [lia|].
      rewrite Herr, push_capped_take by assumption.
      rewrite take_take_app, <- app_assoc. reflexivity.
    + injection Hrun as <- <- <-. cbn.
      rewrite Z.add_0_r, app_nil_r, take_ge by assumption. auto.
Qed.

(** For a positive batch size the JSON loop ends within one round per
    element. *)
Lemma json_loop_ends (now : Z) (jobId : string) (rt : ResourceType)
    (data : list Row) (fuel : nat) :
  1 <= batchSize ->
  forall (i : Z) (st : Table * DB * StreamResult),
  (Z.to_nat (len data - i) <= fuel)%nat ->
  is_Some (jloop fuel now jobId rt data i st).
Proof.
  intros Hbs. induction fuel as [|fuel IH]; intros i st Hfuel.
  - cbn. destruct (Z.ltb_spec i (len data)); [lia|eauto].
  - cbn [json_loop]. destruct (Z.ltb_spec i (len data)); [|eauto].
    destruct st as [[tbl db] r].
    destruct (pbatch db (slice_from batchSize data i) rt (i + 1))
      as [db1 result].
    apply IH. lia.
Qed.

Lemma processJSONStream_totals (asArray : Row -> option (list Row))
    (now : Z) (tbl : Table) (db : DB) (stream : list string)
    (rt : ResourceType) (jobId : string) tbl' db' r :
  processJSONStream batchSize validateRecord upsertByType commitTransaction
    JSON_parse asArray now tbl db stream rt jobId
  = Some (inl (tbl', db', r)) ->
  exists parsed data,
    JSON_parse (fold_right String.append "" stream) = inl parsed /\
    asArray parsed = Some data /\
    s_totalRows r = len data /\
    counts_all_keeps_first (juncapped (List.length data) db rt data 0) r.
Proof.
  unfold processJSONStream. intros Hrun.
  destruct (JSON_parse (fold_right String.append "" stream))
    as [parsed|msg] eqn:Hparse; [|discriminate].
  destruct (asArray parsed) as [data|] eqn:Harr; [|discriminate].
  destruct (jloop (List.length data) now jobId rt data 0
              (tbl, db, mkStream (len data) 0 0 0 0 []))
    as [[[t d] r0]|] eqn:Hloop; [|discriminate].
  cbn in Hrun. injection Hrun as -> -> ->.
  exists parsed, data. split; [reflexivity|]. split; [exact Harr|].
  pose proof (json_loop_spec now jobId rt data (List.length data) 0 tbl db
                (mkStream (len data) 0 0 0 0 []) tbl' db' r) as Hspec.
  destruct Hspec as [Hfail Herr]; [cbn; lia|exact Hloop|].
  cbn [s_failedRows s_errors] in Hfail, Herr. split.
  - assert (Hgen : forall fuel i t d r1 t' d' r',
               jloop fuel now jobId rt data i (t, d, r1) = Some (t', d', r') ->
               s_totalRows r' = s_totalRows r1).
    { induction fuel as [|fuel IH]; intros i t d r1 t' d' r' H;
        cbn [json_loop] in H; destruct (i <? len data).
      - discriminate.
      - injection H as <- <- <-. reflexivity.
      - destruct (pbatch d (slice_from batchSize data i) rt (i + 1))
          as [d1 result].
        apply IH in H. exact H.
      - injection H as <- <- <-. reflexivity. }
    exact (Hgen _ _ _ _ _ _ _ _ Hloop).
  - split; [lia|]. rewrite Herr. reflexivity.
Qed.

(** With a positive batch size a run always comes to an end. *)
Lemma executeImportProcessing_returns (asArray : Row -> option (list Row))
    (csvParse : list string -> list Row)
    (storage_getStream fetch : string -> list string + string)
    (now durationMs : Z) (tbl : Table) (db : DB) (job : ImportJob)
    (jobData : Imports.ImportJobData) :
  1 <= batchSize ->
  is_Some (executeImportProcessing batchSize validateRecord upsertByType
             commitTransaction truthy JSON_parse asArray csvParse
             storage_getStream fetch now durationMs tbl db job jobData).
Proof.
  intros Hbs. unfold executeImportProcessing.
  destruct (openStream storage_getStream fetch jobData) as [stream|msg];
    [|eauto].
  destruct (decide (Imports.jd_fileFormat jobData = "csv")).
  - destruct (processCSVStream _ _ _ _ _ _ _ _ _ _ _) as [[t d] r].
    destruct (finalizeJob _ _ _ _ _) as [t2 []]; eauto.
  - destruct (decide (Imports.jd_fileFormat jobData = "ndjson")).
    + destruct (processNDJSONStream _ _ _ _ _ _ _ _ _ _ _ _) as [[t d] r].
      destruct (finalizeJob _ _ _ _ _) as [t2 []]; eauto.
    + unfold processJSONStream.
      destruct (JSON_parse _) as [parsed|msg]; [|eauto].
      destruct (asArray parsed) as [data|]; [|eauto].
      destruct (json_loop_ends now (id job) (resourceType job) data
                  (List.length data) Hbs 0
                  (tbl, db, mkStream (len data) 0 0 0 0 []))
        as [[[t d] r] Hloop]; [unfold len; lia|].
      rewrite Hloop. cbn.
      destruct (finalizeJob _ _ _ _ _) as [t2 []]; eauto.
Qed.

Lemma valid_records_all_failed (typedBatch : list (NdjsonItem Row)) :
  Forall (fun item => parse_failed item = true) typedBatch ->
  valid_records truthy typedBatch = [] /\
  parse_failures typedBatch = len typedBatch.
Proof.
  induction 1 as [|a l Ha _ [IHv IHf]]; [split; reflexivity|].
  rewrite valid_records_cons, parse_failures_cons, Ha, IHv, IHf.
  unfold parse_failed in Ha. apply bool_decide_eq_true in Ha as [msg Hm].
  rewrite Hm. split; [reflexivity|]. unfold len. cbn [List.length]. lia.
Qed.

(** A batch made of lines that failed to parse raises the total and the
    failure counter by its size and leaves the processed counter as it
    was. *)
Lemma ndjson_step_unparsable (now : Z) (jobId : string) (rt : ResourceType)
    (tbl : Table) (db : DB) (r : StreamResult) (n : Z)
    (typedBatch : list (NdjsonItem Row)) :
  (List.length (s_errors r) <= maxErrors)%nat ->
  Forall (fun item => parse_failed item = true) typedBatch ->
  exists tbl' errs,
    step now jobId rt (tbl, db, r, n) typedBatch =
    (tbl', db,
     mkStream (s_totalRows r + len typedBatch) (s_processedRows r)
       (s_successfulRows r) (s_failedRows r + len typedBatch)
       (s_skippedRows r) errs,
     n + 1).
Proof.
  intros He Hall.
  destruct (valid_records_all_failed typedBatch Hall) as [Hv Hf].
  destruct (ndjson_step_spec now jobId rt tbl db r n typedBatch He)
    as [tbl' Hs].
  rewrite Hv, Hf in Hs. cbn [len List.length Z.of_nat Z.ltb Z.compare] in Hs.
  cbn [fst snd successful failed skipped batchErrors] in Hs.
  rewrite !Z.add_0_r in Hs. eexists _, _. exact Hs.
Qed.

End Processing.

(** *** The CSV path keeps the counters in step *)

Section CountRespecting.
Context {Row DB : Type}.
Variable batchSize : Z.
Variable validateRecord :
  Row -> ResourceType -> Z -> ValidatedImportRecord Row.
Variable upsertByType :
  DB -> list (ValidatedImportRecord Row) -> ResourceType ->
  (DB * ImportBatchResult) + string.
Variable commitTransaction : DB -> option string.
Variable csvParse : list string -> list Row.

(** The upsert of a batch accounts for each record at most once, as the
    three upsert methods do, and the commit goes through. *)
Hypothesis upsert_counts :
  forall db records rt db' r,
    upsertByType db records rt = inl (db', r) ->
    0 <= successful r /\ 0 <= failed r /\ 0 <= skipped r /\
    successful r + failed r + skipped r <= len records.
Hypothesis commit_succeeds : forall db, commitTransaction db = None.

Lemma fold_add_invalid (l : list (ValidatedImportRecord Row)) :
  forall (f : Z) (e : list ImportJobError),
  fst (fold_left add_invalid l (f, e)) = f + len l.
Proof.
  induction l as [|x l IH]; intros f e.
  - cbn. unfold len. cbn. lia.
  - cbn [fold_left]. unfold add_invalid at 2. rewrite IH.
    unfold len. cbn [List.length]. lia.
Qed.

Lemma filter_split_length {A} (p : A -> bool) (l : list A) :
  len (List.filter p l) + len (List.filter (fun x => negb (p x)) l) = len l.
Proof.
  unfold len. induction l as [|x l IH]; [reflexivity|].
  cbn [List.filter]. destruct (p x); cbn [negb List.length]; lia.
Qed.

Lemma upsertRecords_counts (db : DB)
    (records : list (ValidatedImportRecord Row)) (rt : ResourceType) :
  let r := snd (upsertRecords upsertByType commitTransaction db records rt) in
  0 <= successful r /\ 0 <= failed r /\ 0 <= skipped r /\
  successful r + failed r + skipped r <= len records.
Proof.
  unfold upsertRecords.
  destruct (upsertByType db records rt) as [[db' r]|msg] eqn:Hu.
  - rewrite commit_succeeds. cbn. exact (upsert_counts _ _ _ _ _ Hu).
  - cbn. unfold len. lia.
Qed.

Lemma processBatchWithLineNumbers_counts (db : DB)
    (records : list (Row * Z)) (rt : ResourceType) :
  let r := snd (processBatchWithLineNumbers validateRecord upsertByType
                  commitTransaction db records rt) in
  0 <= successful r /\ 0 <= failed r /\ 0 <= skipped r /\
  successful r + failed r + skipped r <= len records.
Proof.
  unfold processBatchWithLineNumbers.
  set (validated := map _ records).
  assert (Hlen : len validated = len records)
    by (unfold len, validated; rewrite length_map; reflexivity).
  pose proof (filter_split_length isValid validated) as Hsplit.
  pose proof (fold_add_invalid
                (List.filter (fun r => negb (isValid r)) validated) 0 [])
    as Hfold.
  destruct (fold_left add_invalid _ (0, [])) as [failedCount errs].
  cbn [fst] in Hfold.
  assert (0 <= len (List.filter (fun r => negb (isValid r)) validated))
    by (unfold len; lia).
  assert (0 <= len (List.filter isValid validated)) by (unfold len; lia).
  destruct (0 <? len (List.filter isValid validated)) eqn:Hv.
  - pose proof (upsertRecords_counts db (List.filter isValid validated) rt)
      as Hup.
    destruct (upsertRecords upsertByType commitTransaction db
                (List.filter isValid validated) rt) as [db' result].
    cbv zeta in Hup. cbn [snd successful failed skipped] in *.
    apply Z.ltb_lt in Hv. lia.
  - cbn [snd successful failed skipped]. apply Z.ltb_ge in Hv. lia.
Qed.

(** One round of the CSV loop keeps the relation between the counters. *)
Lemma csv_step_counters (now : Z) (jobId : string) (rt : ResourceType)
    (tbl : Table) (db : DB) (r : StreamResult) (n : Z) (batch : list Row) :
  counters_ok r ->
  counters_ok
    (snd (fst (csv_step batchSize validateRecord upsertByType
                 commitTransaction now jobId rt (tbl, db, r, n) batch))).
Proof.
  intros [Hsum Hproc]. unfold csv_step, processBatch.
  match goal with
  | |- context [processBatchWithLineNumbers _ _ _ db ?recs rt] =>
      pose proof (processBatchWithLineNumbers_counts db recs rt) as Hb;
        assert (Hl : len recs = len batch)
          by (unfold len; rewrite length_imap; reflexivity);
        destruct (processBatchWithLineNumbers validateRecord upsertByType
                    commitTransaction db recs rt) as [db' result]
  end.
  cbn [snd fst] in *. unfold counters_ok. cbn. lia.
Qed.

(** X28: a CSV run keeps its counters in step. When every upsert counts
    each record of its batch at most once and every commit goes through,
    the counters a CSV run returns, and hands to the final update,
    satisfy successful + failed + skipped <= processed <= total. *)
Lemma processCSVStream_counters (now : Z) (tbl : Table) (db : DB)
    (stream : list string) (rt : ResourceType) (jobId : string) :
  counters_ok
    (snd (processCSVStream batchSize validateRecord upsertByType
            commitTransaction csvParse now tbl db stream rt jobId)).
Proof.
  unfold processCSVStream.
  set (batches := Streams.BatchTransform batchSize (csvParse stream)).
  assert (Hgen : forall bs t d r n,
             counters_ok r ->
             counters_ok
               (snd (fst (fold_left
                            (csv_step batchSize validateRecord upsertByType
                               commitTransaction now jobId rt) bs
                            (t, d, r, n))))).
  { induction bs as [|b bs IH]; intros t d r n Hr; [exact Hr|].
    cbn [fold_left].
    pose proof (csv_step_counters now jobId rt t d r n b Hr) as Hstep.
    destruct (csv_step batchSize validateRecord upsertByType
                commitTransaction now jobId rt (t, d, r, n) b)
      as [[[t1 d1] r1] n1].
    apply IH. exact Hstep. }
  specialize (Hgen batches tbl db emptyResult 0).
  destruct (fold_left _ batches (tbl, db, emptyResult, 0))
    as [[[t1 d1] r1] n1].
  apply Hgen. unfold counters_ok. cbn. lia.
Qed.

End CountRespecting.

(** The lemma at a run of two rows over the stand-ins. *)
Lemma processCSVStream_counters_witness :
  counters_ok
    (snd (processCSVStream 1000 Samples.toyValidate Samples.toyUpsert
            (fun _ => None) (fun chunks => chunks) 3000
            Samples.processingTable tt ["a"; "b"] USERS "job-1")).
Proof.
  apply (processCSVStream_counters 1000 Samples.toyValidate
           Samples.toyUpsert (fun _ => None) (fun chunks => chunks)).
  - intros db records rt db' r H. injection H as <- <-. cbn.
    unfold len. lia.
  - reflexivity.
Defined.

(** C2 fails on the code: an NDJSON file of two lines, the second of which
    is not JSON, is imported to completion with total 2, processed 1,
    successful 1 and failed 1, so that successful + failed + skipped exceeds
    processed in the row written by the final update. *)
Theorem ndjson_parse_failure_outruns_processed :
  exists tbl' j,
    Samples.runBrokenNdjson = Some (tbl', tt, Completed) /\
    tbl' !! "job-1" = Some j /\
    status j = COMPLETED /\
    totalRows j = 2 /\ processedRows j = 1 /\ successfulRows j = 1 /\
    failedRows j = 1 /\ skippedRows j = 0 /\
    ~ row_counters_ok j.
Proof.
  eexists _, _. split; [vm_compute; reflexivity|].
  split; [vm_compute; reflexivity|].
  cbn. repeat split. unfold row_counters_ok. cbn. lia.
Qed.

End PipelineFacts.

(** ** Properties of the import job table under the service's writes *)

Module ServiceFacts.
Import Entities JobStore Pipeline Service.

Lemma errors_capped_insert (tbl : Table) (k : string) (j : ImportJob) :
  errors_capped tbl -> (List.length (errors j) <= maxErrors)%nat ->
  errors_capped (<[k := j]> tbl).
Proof. intros Ht Hj. apply map_Forall_insert_2; assumption. Qed.

Lemma errors_assign_capped (j : ImportJob) (u : PartialImportJob) :
  (List.length (errors j) <= maxErrors)%nat -> capped_updates u ->
  (List.length (errors (assign j u)) <= maxErrors)%nat.
Proof.
  intros Hj Hu. cbn. destruct (u_errors u) as [es|] eqn:He; cbn; auto.
Qed.

Lemma errors_capped_update (now : Z) (jobId : string) (u : PartialImportJob)
    (tbl : Table) :
  errors_capped tbl -> capped_updates u ->
  errors_capped (update now jobId u tbl).
Proof.
  intros Ht Hu. unfold update.
  destruct (tbl !! jobId) as [j|] eqn:Hj; [|assumption].
  apply errors_capped_insert; [assumption|].
  apply (errors_assign_capped j u); [|assumption]. exact (Ht _ _ Hj).
Qed.

Lemma errors_capped_finalize (now : Z) (tbl : Table) (jobId : string)
    (st : ImportJobStatus) (u : PartialImportJob) :
  errors_capped tbl -> capped_updates u ->
  errors_capped (fst (finalizeJob now tbl jobId st u)).
Proof.
  intros Ht Hu. unfold finalizeJob, getOne.
  destruct (tbl !! jobId) as [j|] eqn:Hj; [|assumption].
  destruct (decide (status j <> PROCESSING)); [assumption|].
  cbn [fst save]. apply errors_capped_insert; [assumption|].
  change (errors (touch now (assign (set_status j st) u)))
    with (errors (assign (set_status j st) u)).
  apply errors_assign_capped; [|assumption]. exact (Ht _ _ Hj).
Qed.

Lemma errors_capped_transition (now : Z) (tbl : Table) (jobId : string)
    (a b : ImportJobStatus) (u : PartialImportJob) :
  errors_capped tbl -> capped_updates u ->
  errors_capped (fst (atomicStatusTransition now tbl jobId a b (Some u))).
Proof.
  intros Ht Hu. unfold atomicStatusTransition, getOne.
  destruct (tbl !! jobId) as [j|] eqn:Hj; [|assumption].
  destruct (decide (status j <> a)); [assumption|].
  cbn [fst save]. apply errors_capped_insert; [assumption|].
  change (errors (touch now (assign (set_status j b) u)))
    with (errors (assign (set_status j b) u)).
  apply errors_assign_capped; [|assumption]. exact (Ht _ _ Hj).
Qed.

Lemma capped_no_errors (u : PartialImportJob) :
  u_errors u = None -> capped_updates u.
Proof. intros H es He. congruence. Qed.

Lemma capped_completion (now durationMs : Z) (r : StreamResult) :
  capped_updates (completionUpdates now durationMs r).
Proof.
  intros es H. cbn in H. injection H as <-.
  apply PipelineFacts.length_take_cap.
Qed.

(** Each write of the service keeps every stored error list within the
    cap. *)
Lemma write_keeps_cap (tbl tbl' : Table) :
  write tbl tbl' -> errors_capped tbl -> errors_capped tbl'.
Proof.
  intros Hw Ht. destruct Hw.
  - unfold Imports.insertJob in H.
    destruct (key ≫= Imports.findByIdempotencyKey tbl); [discriminate|].
    injection H as <- _. apply errors_capped_insert; [assumption|].
    cbn. lia.
  - cbn [fst save]. apply errors_capped_insert; [assumption|].
    cbn. exact (Ht _ _ H).
  - apply errors_capped_transition; [assumption|].
    apply capped_no_errors; reflexivity.
  - apply errors_capped_update; [assumption|].
    apply capped_no_errors; reflexivity.
  - apply errors_capped_finalize; [assumption|]. apply capped_completion.
  - apply errors_capped_finalize; [assumption|].
    apply capped_no_errors; reflexivity.
  - unfold StaleCleanup.handleStaleImportJob.
    destruct (_ && _)%bool; (apply errors_capped_update; [assumption|]);
      apply capped_no_errors; reflexivity.
Qed.

Lemma reachable_errors_capped (tbl : Table) :
  reachable tbl -> errors_capped tbl.
Proof.
  induction 1 as [|tbl tbl' _ IH Hw].
  - apply map_Forall_empty.
  - exact (write_keeps_cap tbl tbl' Hw IH).
Qed.



End ServiceFacts.

(** ** Properties of the export queries *)

Module ExportsFacts.
Import Entities Exports.

Lemma key_leb_total (a b : option Z) : key_leb a b = false -> key_leb b a = true.
Proof.
  destruct a as [x|], b as [y|]; cbn; try congruence.
  intros H. apply Z.leb_gt in H. apply Z.leb_le. lia.
Qed.

Lemma key_leb_trans (a b c : option Z) :
  key_leb a b = true -> key_leb b c = true -> key_leb a c = true.
Proof.
  destruct a as [x|], b as [y|], c as [z|]; cbn; try congruence.
  rewrite !Z.leb_le. lia.
Qed.

Lemma insert_by_perm (column : string) (e : Entity) (l : list Entity) :
  insert_by column e l ≡ₚ e :: l.
Proof.
  induction l as [|x rest IH]; cbn; [reflexivity|].
  destruct (key_leb _ _); [reflexivity|].
  rewrite IH. apply perm_swap.
Qed.

Lemma sort_by_perm (column : string) (l : list Entity) :
  sort_by column l ≡ₚ l.
Proof.
  induction l as [|x rest IH]; cbn; [reflexivity|].
  rewrite insert_by_perm, IH. reflexivity.
Qed.

Lemma insert_by_sorted (column : string) (e : Entity) (l : list Entity) :
  StronglySorted (key_le column) l ->
  StronglySorted (key_le column) (insert_by column e l).
Proof.
  induction 1 as [|x rest Hs IH Hall]; cbn.
  - repeat constructor.
  - destruct (key_leb (sort_key column e) (sort_key column x)) eqn:Hk.
    + constructor; [constructor; assumption|].
      constructor; [exact Hk|].
      eapply Forall_impl; [exact Hall|].
      intros y Hy. exact (key_leb_trans _ _ _ Hk Hy).
    + constructor; [exact IH|].
      rewrite insert_by_perm. constructor; [|exact Hall].
      apply key_leb_total, Hk.
Qed.

Lemma sort_by_sorted (column : string) (l : list Entity) :
  StronglySorted (key_le column) (sort_by column l).
Proof.
  induction l as [|x rest IH]; cbn; [constructor|].
  apply insert_by_sorted, IH.
Qed.

Section Queries.
Variable Date_parse : string -> Z.

#[local] Abbreviation filtered := (Exports.filtered Date_parse).
#[local] Abbreviation fetchRecordsBatch := (Exports.fetchRecordsBatch Date_parse).
#[local] Abbreviation countRecords := (Exports.countRecords Date_parse).
#[local] Abbreviation stream_loop := (Exports.stream_loop Date_parse).
#[local] Abbreviation streamRecords := (Exports.streamRecords Date_parse).
#[local] Abbreviation export_rows := (Exports.export_rows Date_parse).

(** The fetch and the count run the same statement, up to ORDER BY,
    OFFSET and LIMIT. *)
Lemma fetchRecordsBatch_spec (db : Database) (rt : ResourceType)
    (filters : option ExportFiltersDto) (offset limit : Z) :
  fetchRecordsBatch db rt filters offset limit =
  match unbound (filtered db rt filters) with
  | name :: _ => inr (query_error name)
  | [] => inl (take (Z.to_nat limit)
                 (drop (Z.to_nat offset) (export_rows db rt filters)))
  end.
Proof. destruct rt; reflexivity. Qed.

Lemma countRecords_spec (db : Database) (rt : ResourceType)
    (filters : option ExportFiltersDto) :
  countRecords db rt filters =
  match unbound (filtered db rt filters) with
  | name :: _ => inr (query_error name)
  | [] => inl (Z.of_nat (List.length (export_rows db rt filters)))
  end.
Proof.
  unfold Exports.countRecords, getCount, export_rows.
  rewrite (Permutation_length (sort_by_perm "createdAt" _)).
  reflexivity.
Qed.

Lemma selected_from (db : Database) (rt : ResourceType)
    (filters : option ExportFiltersDto) :
  from (filtered db rt filters) = table_of db rt.
Proof.
  destruct rt, filters as [f|]; cbn; try reflexivity;
    unfold userFilters, articleFilters, commentFilters, applyCommonFilters,
      when; cbn;
    repeat match goal with
           | |- context [match ?o with Some _ => _ | None => _ end] =>
               destruct o; cbn
           | |- context [if ?b then _ else _] => destruct b; cbn
           end; reflexivity.
Qed.

Lemma export_rows_length (db : Database) (rt : ResourceType)
    (filters : option ExportFiltersDto) :
  (List.length (export_rows db rt filters) <= List.length (table_of db rt))%nat.
Proof.
  unfold export_rows.
  rewrite (Permutation_length (sort_by_perm "createdAt" _)).
  unfold selected. rewrite selected_from. apply List.filter_length_le.
Qed.

(** The paging loop writes every selected row once, in order. *)
Lemma stream_loop_all (batchSize : Z) (db : Database) (rt : ResourceType)
    (filters : option ExportFiltersDto) (fields : option (list string))
    (fuel : nat) :
  1 <= batchSize ->
  unbound (filtered db rt filters) = [] ->
  forall (offset : nat) (written : list FormattedRecord),
  (List.length (export_rows db rt filters) - offset < fuel)%nat ->
  stream_loop fuel batchSize db rt filters fields (Z.of_nat offset) written
  = Some ((written ++
           map (fun r => formatRecord r rt fields)
               (drop offset (export_rows db rt filters)))%list, None).
Proof.
  intros Hbs Hb. induction fuel as [|fuel IH]; intros offset written Hfuel;
    [lia|].
  cbn [Exports.stream_loop]. rewrite fetchRecordsBatch_spec, Hb.
  rewrite Nat2Z.id.
  set (rest := drop offset (export_rows db rt filters)) in *.
  assert (Hlen : List.length rest =
                 (List.length (export_rows db rt filters) - offset)%nat)
    by apply length_drop.
  destruct (Z.eqb_spec (Z.of_nat (List.length (take (Z.to_nat batchSize) rest))) 0)
    as [Hz|Hnz].
  - rewrite length_take in Hz.
    assert (List.length rest = 0%nat) as Hr by lia.
    apply nil_length_inv in Hr. rewrite Hr. cbn. rewrite app_nil_r.
    reflexivity.
  - destruct (Z.eqb_spec (Z.of_nat (List.length (take (Z.to_nat batchSize) rest)))
                batchSize) as [Hfull|Hpart].
    + set (T := take (Z.to_nat batchSize) rest) in *.
      assert (HT : List.length T = Z.to_nat batchSize) by lia.
      assert (Hrest : (T ++ drop (offset + List.length T)
                             (export_rows db rt filters))%list = rest).
      { rewrite <- drop_drop. fold rest. rewrite HT. apply take_drop. }
      rewrite <- Nat2Z.inj_add. rewrite IH.
      * rewrite <- app_assoc, <- map_app, Hrest. reflexivity.
      * subst T. rewrite length_take in *. lia.
    + rewrite length_take in Hpart.
      rewrite take_ge by lia. reflexivity.
Qed.

(** C8 (as amended): for a positive batch size, either the count and the
    stream both fail on the same rejected statement, or the stream
    writes, formatted, exactly the rows the count counted (the rows of the
    table that satisfy the shared WHERE conditions), in ascending order
    of [createdAt]. Rows with equal [createdAt] come in the order the
    store returns them; their ids play no part. *)
Theorem export_order_and_count (batchSize : Z) (db : Database)
    (rt : ResourceType) (filters : option ExportFiltersDto)
    (fields : option (list string)) (Hbs : 1 <= batchSize) :
  match countRecords db rt filters with
  | inr e => streamRecords batchSize db rt filters fields = Some ([], Some e)
  | inl total =>
      exists rows,
        streamRecords batchSize db rt filters fields
        = Some (map (fun r => formatRecord r rt fields) rows, None) /\
        StronglySorted by_createdAt rows /\
        rows ≡ₚ selected (filtered db rt filters) /\
        total = Z.of_nat (List.length rows)
  end.
Proof.
  rewrite countRecords_spec. unfold Exports.streamRecords.
  destruct (unbound (filtered db rt filters)) as [|name others] eqn:Hb.
  - exists (export_rows db rt filters). split.
    + rewrite (stream_loop_all batchSize db rt filters fields _ Hbs Hb 0 []).
      * rewrite drop_0. reflexivity.
      * pose proof (export_rows_length db rt filters). lia.
    + split; [apply sort_by_sorted|]. split; [apply sort_by_perm|reflexivity].
  - cbn [Exports.stream_loop]. rewrite fetchRecordsBatch_spec, Hb.
    reflexivity.
Qed.

(** ** The [createdAfter] filter *)

Lemma when_parameters {A} (o : option A) (test : A -> bool)
    (c : Condition) (mk : A -> gmap string Value) (qb : SelectQueryBuilder)
    (k : string) :
  (forall a, mk a !! k = None) ->
  parameters (when o test (fun a q => andWhere q c (mk a)) qb) !! k
  = parameters qb !! k.
Proof.
  intros Hk. unfold when. destruct o as [a|]; [|reflexivity].
  destruct (test a); [|reflexivity].
  cbn. rewrite lookup_union_r by apply Hk. reflexivity.
Qed.

Lemma when_wheres {A} (o : option A) (test : A -> bool)
    (c : Condition) (mk : A -> gmap string Value) (qb : SelectQueryBuilder)
    (c0 : Condition) :
  c0 ∈ wheres qb ->
  c0 ∈ wheres (when o test (fun a q => andWhere q c (mk a)) qb).
Proof.
  intros Hin. unfold when. destruct o as [a|]; [|assumption].
  destruct (test a); [|assumption].
  cbn. apply elem_of_app. left. assumption.
Qed.

Lemma singleton_other (k k' : string) (v : Value) :
  k <> k' -> ({[ k := v ]} : gmap string Value) !! k' = None.
Proof. intros. apply lookup_singleton_ne. assumption. Qed.

(** With a [createdAfter] filter the placeholder [:createdAfter] is in
    the statement and no parameter of that name is ever set: the date is
    passed under the name [createdAt]. *)
Lemma createdAfter_unbound (db : Database) (rt : ResourceType)
    (f : ExportFiltersDto) (d : string) :
  createdAfter f = Some d -> Js.truthy d = true ->
  mkCondition "createdAt" OpGe "createdAfter"
    ∈ wheres (filtered db rt (Some f)) /\
  parameters (filtered db rt (Some f)) !! "createdAfter" = None.
Proof.
  intros Hd Ht. split.
  - assert (Hstep : forall qb,
              mkCondition "createdAt" OpGe "createdAfter"
                ∈ wheres (when (createdAfter f) Js.truthy
                            (fun d q =>
                               andWhere q
                                 (mkCondition "createdAt" OpGe "createdAfter")
                                 {[ "createdAt" := VDate (Date_parse d) ]})
                            qb)).
    { intros qb. rewrite Hd. unfold when. rewrite Ht. cbn.
      apply elem_of_app. right. apply list_elem_of_singleton. reflexivity. }
    destruct rt; cbn [Exports.filtered userFilters articleFilters
                        commentFilters applyCommonFilters].
    + do 4 apply when_wheres. apply Hstep.
    + do 5 apply when_wheres. apply Hstep.
    + do 5 apply when_wheres. apply Hstep.
  - destruct rt; cbn [Exports.filtered userFilters articleFilters
                        commentFilters applyCommonFilters];
      repeat (etransitivity;
              [apply when_parameters; intros; apply singleton_other;
               discriminate|]);
      apply lookup_empty.
Qed.

(** So both the count and every fetch are rejected. *)
Lemma createdAfter_rejected (db : Database) (rt : ResourceType)
    (f : ExportFiltersDto) (d : string) (offset limit : Z) :
  createdAfter f = Some d -> Js.truthy d = true ->
  exists e, countRecords db rt (Some f) = inr e /\
            fetchRecordsBatch db rt (Some f) offset limit = inr e.
Proof.
  intros Hd Ht.
  destruct (createdAfter_unbound db rt f d Hd Ht) as [Hin Hnone].
  rewrite countRecords_spec, fetchRecordsBatch_spec.
  destruct (unbound (filtered db rt (Some f))) as [|name others] eqn:Hu.
  - exfalso.
    assert (Hm : "createdAfter" ∈ unbound (filtered db rt (Some f))).
    { unfold unbound. apply list_elem_of_In, List.filter_In. split.
      - apply list_elem_of_In.
        apply (list_elem_of_fmap_2 c_placeholder _ _ Hin).
      - apply bool_decide_eq_true. exact Hnone. }
    rewrite Hu in Hm. inversion Hm.
  - eexists. split; reflexivity.
Qed.

(** The sibling filter works: with [createdBefore] alone the count is the
    number of rows created at or before the bound. *)
Lemma createdBefore_applies (db : Database) (rt : ResourceType)
    (d : string) :
  Js.truthy d = true ->
  countRecords db rt
    (Some (mkFilters None None (Some d) None None None None None None None))
  = inl (Z.of_nat (List.length
           (List.filter (created_by (Date_parse d)) (table_of db rt)))).
Proof.
  intros Ht.
  destruct rt; unfold Exports.countRecords, getCount, Exports.filtered,
    userFilters, articleFilters, commentFilters, applyCommonFilters, when;
    cbn; rewrite Ht; cbn; unfold unbound, selected; cbn;
    rewrite bool_decide_eq_false_2
      by (rewrite lookup_union_l, lookup_singleton_eq by reflexivity;
          discriminate);
    cbn; do 3 f_equal; apply List.filter_ext; intros e;
    unfold satisfies, created_by; cbn;
    rewrite lookup_union_l, lookup_singleton_eq by reflexivity;
    cbn; rewrite andb_true_r;
    destruct (e !! "createdAt") as [[]|]; reflexivity.
Qed.

End Queries.

Lemma export_order_and_count_witness :
  match countRecords Samples.toyDate Samples.tiesDb USERS None with
  | inr e =>
      streamRecords Samples.toyDate 2 Samples.tiesDb USERS None None
      = Some ([], Some e)
  | inl total =>
      exists rows,
        streamRecords Samples.toyDate 2 Samples.tiesDb USERS None None
        = Some (map (fun r => formatRecord r USERS None) rows, None) /\
        StronglySorted by_createdAt rows /\
        rows ≡ₚ selected (filtered Samples.toyDate Samples.tiesDb USERS None) /\
        total = Z.of_nat (List.length rows)
  end.
Proof.
  apply (export_order_and_count Samples.toyDate 2 Samples.tiesDb USERS None
           None).
  lia.
Defined.

(** C8 (as stated) fails on ties: two users share their [createdAt], the
    store holds id b before id a, and the export emits b before a. *)
Lemma export_ties_not_by_id :
  fetchRecordsBatch Samples.toyDate Samples.tiesDb USERS None 0 1000
  = inl [Samples.userB; Samples.userA; Samples.userC] /\
  streamRecords Samples.toyDate 1000 Samples.tiesDb USERS None None
  = Some (map (fun r => formatRecord r USERS None)
              [Samples.userB; Samples.userA; Samples.userC], None) /\
  sort_key "createdAt" Samples.userB = sort_key "createdAt" Samples.userA /\
  id_of Samples.userB = "b" /\ id_of Samples.userA = "a" /\
  ~ by_createdAt_then_id Samples.userB Samples.userA.
Proof.
  split; [vm_compute; reflexivity|].
  split; [vm_compute; reflexivity|].
  split; [reflexivity|]. split; [reflexivity|]. split; [reflexivity|].
  vm_compute. intros [H|[_ H]]; discriminate.
Qed.

(** C9 fails on the code: with a [createdAfter] filter the count, the fetch
    and so the whole stream are rejected (the placeholder [:createdAfter]
    has no value), where the same bound given as [createdBefore] is
    applied: of three users created at 500, 500 and 900, two are at or
    before 600. *)
Theorem createdAfter_filter_rejected :
  countRecords Samples.toyDate Samples.tiesDb USERS
    (Some Samples.createdAfterFilter)
  = inr "syntax error at or near :createdAfter" /\
  streamRecords Samples.toyDate 1000 Samples.tiesDb USERS
    (Some Samples.createdAfterFilter) None
  = Some ([], Some "syntax error at or near :createdAfter") /\
  countRecords Samples.toyDate Samples.tiesDb USERS
    (Some Samples.createdBeforeFilter)
  = inl 2.
Proof. repeat split; vm_compute; reflexivity. Qed.

End ExportsFacts.

(** ** Properties of the lock and of the cluster around one job *)

Module ClusterFacts.
Import Entities JobStore Cluster.

(** *** The job row under the writes of the steps *)

Lemma advances_refl jobId tbl : advances jobId tbl tbl.
Proof. intros j Hj. exists j. auto. Qed.

Lemma wf_update (now : Z) (k : string) (u : PartialImportJob) (tbl : Table) :
  wf_table tbl -> wf_table (update now k u tbl).
Proof.
  intros Hwf. unfold update. destruct (tbl !! k) as [j|] eqn:Hj; [|assumption].
  apply JobStoreFacts.wf_table_insert; [assumption|]. exact (Hwf _ _ Hj).
Qed.

Lemma advances_update (now : Z) (jobId k : string) (u : PartialImportJob)
    (tbl : Table) :
  (u_status u = None \/ exists st, u_status u = Some st /\ st <> PENDING) ->
  advances jobId tbl (update now k u tbl).
Proof.
  intros Hu j Hj. unfold update.
  destruct (tbl !! k) as [jk|] eqn:Hk; [|exists j; auto].
  destruct (decide (k = jobId)) as [->|Hne].
  - rewrite lookup_insert_eq. eexists. split; [reflexivity|].
    assert (jk = j) as -> by congruence.
    cbn. destruct Hu as [->|(st & -> & Hst)]; cbn; auto.
  - rewrite lookup_insert_ne by assumption. exists j. auto.
Qed.

Lemma wf_finalize (now : Z) (tbl : Table) (jobId : string)
    (st : ImportJobStatus) (u : PartialImportJob) :
  wf_table tbl -> wf_table (fst (finalizeJob now tbl jobId st u)).
Proof.
  intros Hwf. unfold finalizeJob, getOne.
  destruct (tbl !! jobId) as [j|] eqn:Hj; [|assumption].
  destruct (decide (status j <> PROCESSING)); [assumption|].
  cbn [fst save]. apply JobStoreFacts.wf_table_insert; [assumption|].
  reflexivity.
Qed.

Lemma advances_finalize (now : Z) (tbl : Table) (jobId : string)
    (st : ImportJobStatus) (u : PartialImportJob) :
  wf_table tbl -> u_status u = None -> st <> PENDING ->
  advances jobId tbl (fst (finalizeJob now tbl jobId st u)).
Proof.
  intros Hwf Hu Hst j Hj. unfold finalizeJob, getOne. rewrite Hj.
  destruct (decide (status j <> PROCESSING)); [exists j; auto|].
  cbn [fst save]. change (id (assign (set_status j st) u)) with (id j).
  rewrite (Hwf _ _ Hj). rewrite lookup_insert_eq.
  eexists. split; [reflexivity|]. right. cbn. rewrite Hu. exact Hst.
Qed.

Lemma wf_transition (now : Z) (tbl : Table) (jobId : string)
    (a b : ImportJobStatus) (u : option PartialImportJob) :
  wf_table tbl -> wf_table (fst (atomicStatusTransition now tbl jobId a b u)).
Proof.
  intros Hwf. unfold atomicStatusTransition, getOne.
  destruct (tbl !! jobId) as [j|] eqn:Hj; [|assumption].
  destruct (decide (status j <> a)); [assumption|].
  cbn [fst save]. apply JobStoreFacts.wf_table_insert; [assumption|].
  destruct u; reflexivity.
Qed.

(** A transition that fails leaves the table as it was; one that succeeds
    found the row in [fromStatus] and leaves it in [toStatus]. *)
Lemma transition_failed_unchanged (now : Z) (tbl : Table) (jobId : string)
    (a b : ImportJobStatus) (u : option PartialImportJob) tbl' r :
  atomicStatusTransition now tbl jobId a b u = (tbl', r) ->
  success r = false -> tbl' = tbl.
Proof.
  unfold atomicStatusTransition, getOne.
  destruct (tbl !! jobId) as [j|]; [|intros [= <- <-]; reflexivity].
  destruct (decide (status j <> a)); [intros [= <- <-]; reflexivity|].
  cbn. intros [= <- <-]. discriminate.
Qed.

Lemma transition_ok_claims (now : Z) (tbl : Table) (jobId n : string)
    tbl' r :
  wf_table tbl ->
  atomicStatusTransition now tbl jobId PENDING PROCESSING
    (Some (claimUpdates n now)) = (tbl', r) ->
  success r = true ->
  (exists j, tbl !! jobId = Some j /\ status j = PENDING) /\
  (exists j', tbl' !! jobId = Some j' /\ status j' = PROCESSING).
Proof.
  intros Hwf. unfold atomicStatusTransition, getOne.
  destruct (tbl !! jobId) as [j|] eqn:Hj; [|intros [= <- <-]; discriminate].
  destruct (decide (status j <> PENDING)) as [Hs|Hs];
    [intros [= <- <-]; discriminate|].
  cbn. intros [= <- <-] _. split.
  - exists j. split; [reflexivity|].
    destruct (decide (status j = PENDING)); [assumption|contradiction].
  - change (id (assign (set_status j PROCESSING) (claimUpdates n now)))
      with (id j).
    rewrite (Hwf _ _ Hj), lookup_insert_eq. eexists. split; reflexivity.
Qed.

Lemma wf_sweep (now : Z) (message : string) (tbl : Table) (job : ImportJob) :
  wf_table tbl ->
  wf_table (StaleCleanup.handleStaleImportJob false now message tbl job).
Proof. intros. cbn. apply wf_update. assumption. Qed.

Lemma advances_sweep (jobId : string) (now : Z) (message : string)
    (tbl : Table) (job : ImportJob) :
  advances jobId tbl
    (StaleCleanup.handleStaleImportJob false now message tbl job).
Proof.
  cbn. apply advances_update. right. exists FAILED.
  split; [reflexivity|discriminate].
Qed.

(** *** The invariant of the cluster *)

Lemma invariant_initial (jobId : string) (s : State) :
  initial jobId s -> invariant jobId s.
Proof.
  intros (Hwf & (j & Hj & Hs) & Hn & He). split.
  - exact Hwf.
  - exists j. split; [exact Hj|]. rewrite He. congruence.
  - rewrite He. cbn. lia.
  - intros n lock Hr. apply Hn in Hr. discriminate.
Qed.

(** A step that keeps [executed] and under which the row advances keeps the
    first three parts of the invariant. *)
Lemma invariant_row_advances (jobId : string) (s : State) (tbl' : Table) :
  invariant jobId s -> wf_table tbl' -> advances jobId (table s) tbl' ->
  exists j, tbl' !! jobId = Some j /\
            (executed s <> [] -> status j <> PENDING).
Proof.
  intros [_ (j & Hj & Hs) _ _] _ Hadv.
  destruct (Hadv j Hj) as (j' & Hj' & Hst). exists j'. split; [exact Hj'|].
  intros He. destruct Hst as [Heq|Hne]; [rewrite Heq; auto|exact Hne].
Qed.

Lemma running_insert_other (s : State) (n : string) (st : NodeState) :
  (forall lock, st <> Running lock) ->
  (forall m lock, nodes s !! m = Some (Running lock) -> m ∈ executed s) ->
  forall m lock, <[n := st]> (nodes s) !! m = Some (Running lock) ->
                 m ∈ executed s.
Proof.
  intros Hst Hr m lock. destruct (decide (n = m)) as [->|Hne].
  - rewrite lookup_insert_eq. intros [= ->]. exfalso. eapply Hst; reflexivity.
  - rewrite lookup_insert_ne by assumption. apply Hr.
Qed.

Lemma invariant_step (jobId : string) (s s' : State) (a : Actor) :
  invariant jobId s -> step jobId s a s' -> invariant jobId s'.
Proof.
  intros Hinv Hstep. pose proof Hinv as [Hwf Hrow Hone Hrun].
  destruct Hstep
    as [s n uuid redis' lock Hn Hacq
       |s n uuid redis' Hn Hacq
       |s n lock table' r Hn Htr Hok
       |s n lock table' r Hn Htr Hko
       |s n lock total processed successful failed skipped Hn
       |s n lock durationMs r Hn
       |s n lock msg m Hn
       |s n lock Hn
       |s dt Hdt
       |s n lock ttl Hn
       |s message job].
  - (* acquire *)
    constructor; cbn; try assumption.
    apply running_insert_other; [discriminate|assumption].
  - (* skip *)
    constructor; cbn; try assumption.
    apply running_insert_other; [discriminate|assumption].
  - (* transition succeeded *)
    destruct (transition_ok_claims _ _ _ _ _ _ Hwf Htr Hok)
      as [(j & Hj & Hs) (j' & Hj' & Hs')].
    assert (He : executed s = []).
    { destruct Hrow as (j0 & Hj0 & Hp).
      destruct (executed s) as [|x l] eqn:Hx; [reflexivity|].
      exfalso. assert (j0 = j) as -> by congruence.
      apply Hp; [discriminate|exact Hs]. }
    constructor; cbn.
    + pose proof (wf_transition (clock s) (table s) jobId PENDING PROCESSING
                    (Some (claimUpdates n (clock s))) Hwf) as Hw.
      rewrite Htr in Hw. exact Hw.
    + exists j'. split; [exact Hj'|]. intros _. rewrite Hs'. discriminate.
    + rewrite He. cbn. lia.
    + intros m lk. destruct (decide (n = m)) as [->|Hne].
      * intros _. apply list_elem_of_here.
      * rewrite lookup_insert_ne by assumption. intros Hm.
        apply list_elem_of_further. eapply Hrun. exact Hm.
  - (* transition failed *)
    rewrite (transition_failed_unchanged _ _ _ _ _ _ _ _ Htr Hko).
    constructor; cbn; try assumption.
    apply running_insert_other; [discriminate|assumption].
  - (* progress *)
    assert (Hw : wf_table (updateJobProgress (clock s) (table s) jobId total
                             processed successful failed skipped))
      by (apply wf_update; assumption).
    constructor; cbn; try assumption.
    apply (invariant_row_advances jobId s _ Hinv Hw).
    apply advances_update. left. reflexivity.
  - (* completed *)
    pose proof (wf_finalize (clock s) (table s) jobId COMPLETED
                  (Pipeline.completionUpdates (clock s) durationMs r) Hwf)
      as Hw.
    constructor; cbn; try assumption.
    + apply (invariant_row_advances jobId s _ Hinv Hw).
      apply advances_finalize; [assumption|reflexivity|discriminate].
    + apply running_insert_other; [discriminate|assumption].
  - (* failed *)
    pose proof (wf_finalize (clock s) (table s) jobId FAILED
                  (failedUpdates (clock s) msg m) Hwf) as Hw.
    constructor; cbn; try assumption.
    + apply (invariant_row_advances jobId s _ Hinv Hw).
      apply advances_finalize; [assumption|reflexivity|discriminate].
    + apply running_insert_other; [discriminate|assumption].
  - (* release *)
    constructor; cbn; try assumption.
    apply running_insert_other; [discriminate|assumption].
  - (* tick *)
    constructor; cbn; assumption.
  - (* renew *)
    constructor; cbn; assumption.
  - (* sweep *)
    pose proof (wf_sweep (clock s) message (table s) job Hwf) as Hw.
    constructor; cbn; try assumption.
    apply (invariant_row_advances jobId s _ Hinv Hw).
    apply advances_sweep.
Qed.

Lemma reachable_invariant (jobId : string) (s : State) :
  reachable jobId s -> invariant jobId s.
Proof.
  induction 1 as [s Hi|s a s' _ IH Hs].
  - apply invariant_initial, Hi.
  - exact (invariant_step jobId s s' a IH Hs).
Qed.

(** *** The lock *)

Lemma acquire_free (n uuid : string) (now : Z) (redis : Lock.Redis)
    (resourceKey : string) :
  Lock.get now redis ("lock:" ++ resourceKey) = None ->
  Lock.acquireLock n uuid now redis resourceKey importLockOptions =
  (<["lock:" ++ resourceKey := (n ++ ":" ++ uuid, now + 300000)]> redis,
   Some (Lock.mkLock ("lock:" ++ resourceKey) (n ++ ":" ++ uuid)
           (now + 300000))).
Proof.
  intros Hfree. unfold Lock.acquireLock.
  change (Z.to_nat (default Lock.DEFAULT_RETRIES
                      (Lock.retries importLockOptions) + 1)) with 1%nat.
  unfold Lock.acquire_loop, Lock.set_px_nx. rewrite Hfree. reflexivity.
Qed.

Lemma acquire_held (n uuid : string) (now : Z) (redis : Lock.Redis)
    (resourceKey holder : string) :
  Lock.get now redis ("lock:" ++ resourceKey) = Some holder ->
  Lock.acquireLock n uuid now redis resourceKey importLockOptions
  = (redis, None).
Proof.
  intros Hheld. unfold Lock.acquireLock.
  change (Z.to_nat (default Lock.DEFAULT_RETRIES
                      (Lock.retries importLockOptions) + 1)) with 1%nat.
  unfold Lock.acquire_loop, Lock.set_px_nx. rewrite Hheld. reflexivity.
Qed.

(** Of two acquisitions of a free key, the second made before the lease of
    the first runs out, the first returns a lock and the second none. *)
Lemma acquire_exclusive (n1 n2 u1 u2 : string) (now now' : Z)
    (redis : Lock.Redis) (resourceKey : string) :
  Lock.get now redis ("lock:" ++ resourceKey) = None ->
  now <= now' < now + 300000 ->
  let '(redis1, lock1) :=
    Lock.acquireLock n1 u1 now redis resourceKey importLockOptions in
  let '(redis2, lock2) :=
    Lock.acquireLock n2 u2 now' redis1 resourceKey importLockOptions in
  is_Some lock1 /\ lock2 = None /\ redis2 = redis1.
Proof.
  intros Hfree Hnow. rewrite (acquire_free n1 u1 now redis resourceKey Hfree).
  rewrite (acquire_held n2 u2 now' _ resourceKey (n1 ++ ":" ++ u1)).
  - split; [eauto|]. split; reflexivity.
  - unfold Lock.get. rewrite lookup_insert_eq.
    destruct (Z.ltb_spec now' (now + 300000)); [reflexivity|lia].
Qed.

(** Once the owner has released the lock, the next acquisition succeeds. *)
Lemma release_then_acquire (n1 n2 u1 u2 : string) (now now' : Z)
    (redis : Lock.Redis) (resourceKey : string) :
  Lock.get now redis ("lock:" ++ resourceKey) = None ->
  now <= now' < now + 300000 ->
  let '(redis1, lock1) :=
    Lock.acquireLock n1 u1 now redis resourceKey importLockOptions in
  match lock1 with
  | None => False
  | Some lock =>
      let '(redis2, released) := Lock.releaseLock now' redis1 lock in
      released = true /\
      is_Some (snd (Lock.acquireLock n2 u2 now' redis2 resourceKey
                      importLockOptions))
  end.
Proof.
  intros Hfree Hnow. rewrite (acquire_free n1 u1 now redis resourceKey Hfree).
  unfold Lock.releaseLock. cbn [Lock.key Lock.token].
  rewrite decide_True.
  - split; [reflexivity|]. rewrite acquire_free; [cbn; eauto|].
    unfold Lock.get. rewrite lookup_delete_eq. reflexivity.
  - unfold Lock.get. rewrite lookup_insert_eq.
    destruct (Z.ltb_spec now' (now + 300000)); [reflexivity|lia].
Qed.

(** *** The nodes *)

(** A node that starts the pipeline held the lock and found the row in
    PENDING. *)
Lemma pipeline_entry (jobId : string) (s s' : State) (a : Actor) :
  wf_table (table s) -> step jobId s a s' -> executed s' <> executed s ->
  exists n lock j,
    a = Node n /\ executed s' = n :: executed s /\
    nodes s !! n = Some (Holding lock) /\
    table s !! jobId = Some j /\ status j = PENDING.
Proof.
  intros Hwf Hstep Hne.
  destruct Hstep as [| |s n lock table' r Hn Htr Hok| | | | | | | |];
    try (cbn in Hne; congruence).
  destruct (transition_ok_claims _ _ _ _ _ _ Hwf Htr Hok)
    as [(j & Hj & Hs) _].
  exists n, lock, j. repeat split; assumption.
Qed.

(** A node that does not start the pipeline never writes to the table. *)
Lemma bystander_leaves_table (jobId : string) (s s' : State) (n : string) :
  invariant jobId s -> step jobId s (Node n) s' -> n ∉ executed s' ->
  table s' = table s.
Proof.
  intros Hinv Hstep Hout. pose proof Hinv as [_ _ _ Hrun].
  remember (Node n) as a eqn:Ha.
  destruct Hstep
    as [s m uuid redis' lock Hn Hacq
       |s m uuid redis' Hn Hacq
       |s m lock table' r Hn Htr Hok
       |s m lock table' r Hn Htr Hko
       |s m lock total processed successful failed skipped Hn
       |s m lock durationMs r Hn
       |s m lock msg mt Hn
       |s m lock Hn
       |s dt Hdt
       |s m lock ttl Hn
       |s message job];
    try discriminate; injection Ha as ->; cbn in *; try reflexivity.
  - exfalso. apply Hout, list_elem_of_here.
  - exact (transition_failed_unchanged _ _ _ _ _ _ _ _ Htr Hko).
  - exfalso. apply Hout. eapply Hrun. exact Hn.
  - exfalso. apply Hout. eapply Hrun. exact Hn.
  - exfalso. apply Hout. eapply Hrun. exact Hn.
Qed.



End ClusterFacts.

(** ** Properties of the CSV decoder *)

Module CsvFacts.
Import Csv.

Lemma cell_text_import (c : Cell) : cell_text importOptions c = import_text c.
Proof. unfold cell_text, import_text. cbn. destruct (quoted c); reflexivity. Qed.

Lemma field_value_import (c : Cell) :
  field_value importOptions c = import_value c.
Proof.
  unfold field_value, cast_text, import_value. rewrite cell_text_import.
  reflexivity.
Qed.

(** A header is accepted exactly when none of its names reads as a number,
    and the names are then the texts of its fields. *)
Lemma column_names_import (header : list Cell) (names : list string) :
  column_names (map (field_value importOptions) header) = Some names ->
  names = map import_text header /\
  Forall (fun c => isFloat (import_text c) = false) header.
Proof.
  revert names. induction header as [|c rest IH]; intros names H.
  - cbn in H. injection H as <-. split; constructor.
  - cbn [map column_names] in H. rewrite field_value_import in H.
    unfold import_value in H.
    destruct (isFloat (import_text c)) eqn:Hf; [discriminate|].
    destruct (column_names (map (field_value importOptions) rest))
      as [ns|] eqn:Hn; [|discriminate].
    cbn in H. injection H as <-.
    destruct (IH ns eq_refl) as [-> Hall].
    split; [reflexivity|]. constructor; assumption.
Qed.

(** The data records become rows one for one, up to the first record whose
    length differs from the header's. *)
Lemma data_rows_import (names : list string) (data : list (list Cell)) :
  let '(rows, err) := data_rows importOptions names data in
  exists used,
    used `prefix_of` data /\
    rows = map (fun record => zip names (map import_value record)) used /\
    ((err = None /\ used = data) \/ err = Some "Invalid Record Length").
Proof.
  induction data as [|record rest IH]; cbn [data_rows].
  - exists []. split; [reflexivity|]. split; [reflexivity|]. left. auto.
  - destruct (List.length record =? List.length names)%nat.
    + destruct (data_rows importOptions names rest) as [rows err].
      destruct IH as (used & Hp & Hrows & He). subst rows.
      exists (record :: used). split; [apply prefix_cons; assumption|].
      split.
      * cbn [map]. f_equal. f_equal. apply map_ext. intros c.
        apply field_value_import.
      * destruct He as [[He Hu]|He]; subst; [left|right]; auto.
    + exists []. split; [apply prefix_nil|]. split; [reflexivity|].
      right. reflexivity.
Qed.



Example csv_empty_lines_skipped :
  parse plain_lex importOptions
    ("email" ++ String Js.LF (String Js.LF ("a@b.c" ++ String Js.LF "")))
  = ([[("email", CsvString "a@b.c")]], None).
Proof. vm_compute. reflexivity. Qed.

End CsvFacts.

(** ** Properties of the string helpers *)

Module JsFacts.

Lemma split_not_nil sep s : Js.split sep s <> [].
Proof.
  destruct s as [|c s]; cbn; [discriminate|].
  destruct (Ascii.eqb c sep); [discriminate|].
  destruct (Js.split sep s); discriminate.
Qed.

Lemma split_sep sep s :
  Js.split sep (String sep s) = "" :: Js.split sep s.
Proof. cbn. rewrite Ascii.eqb_refl. reflexivity. Qed.

Lemma split_other sep c s seg rest :
  c <> sep -> Js.split sep s = seg :: rest ->
  Js.split sep (String c s) = String c seg :: rest.
Proof.
  intros Hc Hs. cbn. apply Ascii.eqb_neq in Hc. rewrite Hc, Hs. reflexivity.
Qed.

Lemma append_cons c (a b : string) : String c a ++ b = String c (a ++ b).
Proof. reflexivity. Qed.

Lemma removelast_cons2 {A} (x y : A) l :
  removelast (x :: y :: l) = x :: removelast (y :: l).
Proof. reflexivity. Qed.

(** Splitting a text given in two parts: the segments closed within the
    first part, then the split of its open segment followed by the
    second part. *)
Lemma split_app sep a b :
  Js.split sep (a ++ b) =
  (removelast (Js.split sep a) ++
   Js.split sep (default "" (last (Js.split sep a)) ++ b))%list.
Proof.
  induction a as [|c a IH]; [reflexivity|].
  rewrite append_cons. destruct (Ascii.eqb_spec c sep) as [->|Hc].
  - rewrite !split_sep, IH.
    destruct (Js.split sep a) as [|seg rest] eqn:Ha;
      [exfalso; exact (split_not_nil _ _ Ha)|].
    rewrite removelast_cons2, last_cons_cons. reflexivity.
  - destruct (Js.split sep a) as [|seg rest] eqn:Ha;
      [exfalso; exact (split_not_nil _ _ Ha)|].
    rewrite (split_other sep c a seg rest Hc Ha).
    destruct rest as [|r rest].
    + change (Js.split sep (a ++ b) = Js.split sep (seg ++ b)) in IH.
      destruct (Js.split sep (seg ++ b)) as [|seg2 rest2] eqn:Hs;
        [exfalso; exact (split_not_nil _ _ Hs)|].
      rewrite (split_other sep c _ _ _ Hc IH).
      change (String c seg2 :: rest2 = Js.split sep (String c seg ++ b)).
      rewrite append_cons, (split_other sep c _ _ _ Hc Hs).
      reflexivity.
    + rewrite !removelast_cons2, !last_cons_cons in *.
      cbn [app] in *. rewrite (split_other sep c _ _ _ Hc IH). reflexivity.
Qed.

(** The last segment of a split holds no separator. *)
Lemma split_last_closed sep s l :
  last (Js.split sep s) = Some l -> Js.split sep l = [l].
Proof.
  revert l. induction s as [|c s IH]; intros l.
  - cbn. intros [= <-]. reflexivity.
  - destruct (Ascii.eqb_spec c sep) as [->|Hc].
    + rewrite split_sep.
      destruct (Js.split sep s) as [|seg rest] eqn:Hs;
        [exfalso; exact (split_not_nil _ _ Hs)|].
      rewrite last_cons_cons. apply IH.
    + destruct (Js.split sep s) as [|seg rest] eqn:Hs;
        [exfalso; exact (split_not_nil _ _ Hs)|].
      rewrite (split_other sep c s seg rest Hc Hs).
      destruct rest as [|r rest].
      * cbn. intros [= <-]. specialize (IH seg eq_refl).
        rewrite (split_other sep c seg seg [] Hc IH). reflexivity.
      * rewrite last_cons_cons. apply IH.
Qed.

Lemma last_default_closed sep s :
  Js.split sep (default "" (last (Js.split sep s)))
  = [default "" (last (Js.split sep s))].
Proof.
  destruct (last (Js.split sep s)) as [l|] eqn:Hl; [|reflexivity].
  exact (split_last_closed sep s l Hl).
Qed.

Lemma removelast_app_nonnil {A} (l1 l2 : list A) :
  l2 <> [] -> removelast (l1 ++ l2) = (l1 ++ removelast l2)%list.
Proof. intros H. apply removelast_app. exact H. Qed.

Lemma last_app_nonnil {A} (l1 l2 : list A) :
  l2 <> [] -> last (l1 ++ l2) = last l2.
Proof.
  intros H. destruct l2 as [|x l2 _] using rev_ind; [contradiction|].
  rewrite app_assoc, !last_snoc. reflexivity.
Qed.

Lemma append_empty (s : string) : s ++ "" = s.
Proof.
  induction s as [|a s IH]; [reflexivity|].
  rewrite append_cons, IH. reflexivity.
Qed.

Lemma append_assoc (a b c : string) : (a ++ b) ++ c = a ++ b ++ c.
Proof.
  induction a as [|x a IH]; [reflexivity|].
  rewrite !append_cons, IH. reflexivity.
Qed.

(** A text without separator, followed by a separator. *)
Lemma split_closed_app sep t rest :
  Js.split sep t = [t] ->
  Js.split sep (t ++ String sep rest) = t :: Js.split sep rest.
Proof.
  induction t as [|c t IH]; intros Ht.
  - change ("" ++ String sep rest) with (String sep rest).
    apply split_sep.
  - destruct (Ascii.eqb_spec c sep) as [->|Hc].
    + rewrite split_sep in Ht. discriminate.
    + destruct (Js.split sep t) as [|seg segs] eqn:Hs;
        [exfalso; exact (split_not_nil _ _ Hs)|].
      rewrite (split_other sep c t seg segs Hc Hs) in Ht.
      injection Ht as -> ->.
      rewrite append_cons.
      apply (split_other sep c _ _ _ Hc). apply IH. reflexivity.
Qed.

End JsFacts.

(** ** Properties of the stream transforms, whatever the chunking *)

Module StreamUtilsFacts.
Import Streams StreamUtils JsFacts.

Lemma batch_run_lookup {A} (batchSize : Z) (l : list A) :
  forall (pending : list A) (i : nat),
  (List.length pending < Z.to_nat (Z.max 1 batchSize))%nat ->
  batch_run batchSize pending l !! i
  = nth_batch (Z.to_nat (Z.max 1 batchSize)) (pending ++ l) i.
Proof.
  set (n := Z.to_nat (Z.max 1 batchSize)).
  induction l as [|x rest IH]; intros pending i Hp.
  - rewrite app_nil_r. unfold nth_batch. cbn [batch_run].
    destruct pending as [|p pending]; cbn [batch_flush].
    + destruct (Nat.ltb_spec (i * n) (List.length (@nil A)));
        [cbn [List.length] in *; lia|reflexivity].
    + destruct i as [|i].
      * change (0 * n)%nat with 0%nat. rewrite drop_0, take_ge by lia.
        destruct (Nat.ltb_spec 0 (List.length (p :: pending)));
          [reflexivity|cbn [List.length] in *; lia].
      * destruct (Nat.ltb_spec (S i * n) (List.length (p :: pending)));
          [nia|reflexivity].
  - cbn [batch_run]. unfold batch_transform.
    assert (Hlen : List.length (pending ++ [x]) = S (List.length pending))
      by (rewrite length_app; cbn; lia).
    destruct (Z.geb_spec (Z.of_nat (List.length (pending ++ [x]))) batchSize)
      as [Hge|Hlt].
    + assert (Hn : List.length (pending ++ [x]) = n) by (unfold n in *; clear IH; destruct (Z.max_spec 1 batchSize) as [[? Hm]|[? Hm]]; rewrite Hm in *; lia).
      replace (pending ++ x :: rest)%list with ((pending ++ [x]) ++ rest)%list
        by (rewrite <- app_assoc; reflexivity).
      destruct i as [|i].
      * cbn [app lookup list_lookup]. unfold nth_batch.
        change (0 * n)%nat with 0%nat. rewrite drop_0.
        destruct (Nat.ltb_spec 0 (List.length ((pending ++ [x]) ++ rest)));
          [|rewrite !length_app in *; cbn [List.length] in *; lia].
        rewrite take_app_length' by (symmetry; exact Hn). reflexivity.
      * change (batch_run batchSize [] rest !! i
                = nth_batch n ((pending ++ [x]) ++ rest)%list (S i)).
        rewrite IH by (cbn; unfold n; destruct (Z.max_spec 1 batchSize) as [[? Hm]|[? Hm]]; rewrite Hm; lia). cbn [app]. unfold nth_batch.
        rewrite length_app, Hn.
        replace (S i * n)%nat with (n + i * n)%nat by lia.
        rewrite <- drop_drop.
        rewrite drop_app_length' by (symmetry; exact Hn).
        destruct (Nat.ltb_spec (i * n) (List.length rest));
          destruct (Nat.ltb_spec (n + i * n) (n + List.length rest));
          try lia; reflexivity.
    + cbn [app]. rewrite IH by (unfold n in *; clear IH; destruct (Z.max_spec 1 batchSize) as [[? Hm]|[? Hm]]; rewrite Hm in *; lia).
      rewrite <- app_assoc. reflexivity.
Qed.

(** X1: whatever the configured size, [BatchTransform] cuts the items it is
    fed into consecutive batches of [max 1 batchSize] items, the last one
    holding what is left: nothing is lost, repeated or reordered, and no
    batch is empty. *)
Theorem BatchTransform_batches {A} (batchSize : Z) (chunks : list A)
    (i : nat) :
  BatchTransform batchSize chunks !! i
  = nth_batch (Z.to_nat (Z.max 1 batchSize)) chunks i.
Proof.
  unfold BatchTransform. rewrite batch_run_lookup
    by (cbn; destruct (Z.max_spec 1 batchSize) as [[? Hm]|[? Hm]]; rewrite Hm; lia).
  reflexivity.
Qed.

Lemma numbered_cons n l (lines : list string) :
  numbered n (l :: lines) = (n + 1, l) :: numbered (n + 1) lines.
Proof.
  unfold numbered. rewrite imap_cons. f_equal; [f_equal; lia|].
  apply imap_ext. intros i x _. cbn. f_equal. lia.
Qed.

Lemma numbered_app n (l1 l2 : list string) :
  numbered n (l1 ++ l2)
  = (numbered n l1 ++ numbered (n + Z.of_nat (List.length l1)) l2)%list.
Proof.
  unfold numbered. rewrite imap_app. f_equal.
  apply imap_ext. intros i x _. cbn. f_equal. lia.
Qed.

Section Ndjson.
Context {Row : Type}.
Variable JSON_parse : string -> Row + string.

Lemma ndjson_lines_spec (lines : list string) : forall n,
  ndjson_lines JSON_parse n lines
  = (n + Z.of_nat (List.length lines),
     omap (item_of JSON_parse) (numbered n lines)).
Proof.
  induction lines as [|l lines IH]; intros n.
  - cbn. f_equal. lia.
  - cbn [ndjson_lines]. rewrite IH, numbered_cons. cbn [omap list_omap].
    change (item_of JSON_parse (n + 1, l))
      with (if decide (Js.trim l = "") then None
            else Some (parse_line JSON_parse (n + 1) (Js.trim l))).
    destruct (decide (Js.trim l = "")); f_equal; cbn [List.length]; lia.
Qed.

Lemma ndjson_run_spec (chunks : list string) : forall buf n,
  Js.split Js.LF buf = [buf] ->
  ndjson_run JSON_parse (mkNdjson buf n) chunks
  = omap (item_of JSON_parse)
         (numbered n (Js.split Js.LF (buf ++ text_of chunks))).
Proof.
  induction chunks as [|c chunks IH]; intros buf n Hbuf.
  - cbn [ndjson_run]. change (text_of []) with "". unfold ndjson_flush.
    cbn [nd_buffer nd_lineNumber].
    rewrite append_empty.
    rewrite Hbuf. unfold numbered. cbn [imap omap list_omap].
    unfold item_of. cbn [fst snd].
    destruct (decide (Js.trim buf = "")) as [->|Hne]; [reflexivity|].
    destruct (Js.trim buf) as [|a t] eqn:Ht; [contradiction|].
    cbn [Js.truthy]. repeat f_equal. lia.
  - cbn [ndjson_run]. change (text_of (c :: chunks)) with (c ++ text_of chunks).
    unfold ndjson_transform.
    cbn [nd_buffer nd_lineNumber]. rewrite ndjson_lines_spec.
    unfold Js.pop.
    rewrite <- append_assoc.
    rewrite (split_app Js.LF (buf ++ c) (text_of chunks)).
    rewrite numbered_app, omap_app.
    rewrite IH by apply last_default_closed. reflexivity.
Qed.

End Ndjson.


Lemma reader_lines_spec (lines : list string) : forall n,
  reader_lines n lines
  = (n + Z.of_nat (List.length lines),
     map (fun kl => mkLine (snd kl) (fst kl)) (numbered n lines)).
Proof.
  induction lines as [|l lines IH]; intros n.
  - cbn. f_equal. lia.
  - cbn [reader_lines]. rewrite IH, numbered_cons. cbn [map fst snd].
    f_equal. cbn [List.length]. lia.
Qed.

Lemma reader_run_spec (chunks : list string) : forall buf n,
  Js.split Js.LF buf = [buf] ->
  reader_run (mkReader buf n) chunks
  = map (fun kl => mkLine (snd kl) (fst kl))
        (numbered n (text_lines (buf ++ text_of chunks))).
Proof.
  induction chunks as [|c chunks IH]; intros buf n Hbuf.
  - cbn [reader_run]. change (text_of []) with "". rewrite append_empty.
    unfold reader_flush, text_lines. cbn [lr_buffer lr_lineNumber].
    rewrite Hbuf. cbn [last].
    destruct buf as [|a buf].
    + rewrite decide_True by reflexivity. reflexivity.
    + rewrite decide_False by discriminate. cbn [Js.truthy].
      unfold numbered. cbn. repeat f_equal. lia.
  - cbn [reader_run].
    change (text_of (c :: chunks)) with (c ++ text_of chunks).
    unfold reader_transform. cbn [lr_buffer lr_lineNumber].
    rewrite reader_lines_spec. unfold Js.pop.
    rewrite IH by apply last_default_closed.
    rewrite <- append_assoc.
    unfold text_lines at 2.
    rewrite (split_app Js.LF (buf ++ c) (text_of chunks)).
    set (closed := removelast (Js.split Js.LF (buf ++ c))).
    set (open := default "" (last (Js.split Js.LF (buf ++ c)))).
    assert (Hne : Js.split Js.LF (open ++ text_of chunks) <> [])
      by apply split_not_nil.
    rewrite last_app_nonnil, removelast_app_nonnil by exact Hne.
    unfold text_lines.
    destruct (decide (last (Js.split Js.LF (open ++ text_of chunks))
                      = Some ""));
      rewrite numbered_app, map_app; reflexivity.
Qed.


Lemma stringify_all {A} (JSON_stringify : A -> string + string)
    (JSON_parse : string -> A + string) (records : list A) :
  Forall (fun x =>
            exists t, JSON_stringify x = inl t /\ JSON_parse t = inl x /\
                      Js.trim t = t /\ t <> "" /\ Js.split Js.LF t = [t])
         records ->
  snd (NdjsonStringifyTransform JSON_stringify records) = None /\
  forall n,
    omap (item_of JSON_parse)
      (numbered n
         (Js.split Js.LF
            (text_of (fst (NdjsonStringifyTransform JSON_stringify records)))))
    = imap (fun i x => mkItem (Some x) None (n + Z.of_nat i + 1) None) records.
Proof.
  induction 1 as [|x records (t & Hs & Hp & Ht & Hne & Hcl) _ [IHe IH]].
  - split; [reflexivity|]. intros n. reflexivity.
  - cbn [NdjsonStringifyTransform]. rewrite Hs.
    destruct (NdjsonStringifyTransform JSON_stringify records)
      as [out err] eqn:Hrun.
    cbn [fst snd] in *. split; [exact IHe|]. intros n.
    change (text_of ((t ++ String Js.LF "") :: out))
      with ((t ++ String Js.LF "") ++ text_of out).
    rewrite append_assoc.
    change (String Js.LF "" ++ text_of out) with (String Js.LF (text_of out)).
    rewrite (split_closed_app Js.LF t (text_of out) Hcl), numbered_cons.
    cbn [omap list_omap].
    change (item_of JSON_parse (n + 1, t))
      with (if decide (Js.trim t = "") then None
            else Some (parse_line JSON_parse (n + 1) (Js.trim t))).
    rewrite Ht, decide_False by exact Hne.
    unfold parse_line. rewrite Hp. rewrite IH, imap_cons.
    f_equal; [f_equal; lia|].
    apply imap_ext. intros i y _. cbn. f_equal. lia.
Qed.



End StreamUtilsFacts.

(** ** Properties of the distributed lock *)

Module LockFacts.
Import Lock LockUse.

Lemma get_held (now : Z) (redis : Redis) (k v : string) (e : Z) :
  redis !! k = Some (v, e) -> now < e -> get now redis k = Some v.
Proof.
  intros Hk Hlt. unfold get. rewrite Hk.
  destruct (Z.ltb_spec now e); [reflexivity|lia].
Qed.

Lemma get_expired (now : Z) (redis : Redis) (k v : string) (e : Z) :
  redis !! k = Some (v, e) -> e <= now -> get now redis k = None.
Proof.
  intros Hk Hle. unfold get. rewrite Hk.
  destruct (Z.ltb_spec now e); [lia|reflexivity].
Qed.

(** While the key is held at every attempt, the loop gives up and writes
    nothing. *)
Lemma acquire_loop_held (k tok holder : string) (e ttl delay : Z)
    (redis : Redis) (attempts : nat) : forall now,
  redis !! k = Some (holder, e) ->
  (forall i, (i < attempts)%nat -> attempt_at now delay i < e) ->
  acquire_loop attempts now redis k tok ttl delay = (redis, None).
Proof.
  induction attempts as [|attempts IH]; intros now Hk Hall; [reflexivity|].
  cbn [acquire_loop]. unfold set_px_nx.
  rewrite (get_held now redis k holder e Hk).
  - apply IH; [exact Hk|]. intros i Hi.
    specialize (Hall (S i) ltac:(lia)). unfold attempt_at in *.
    rewrite Nat2Z.inj_succ in Hall. nia.
  - specialize (Hall 0%nat ltac:(lia)). unfold attempt_at in Hall. lia.
Qed.

(** The first attempt made once the lease of the holder has run out takes
    the key. *)
Lemma acquire_loop_expired (k tok holder : string) (e ttl delay : Z)
    (redis : Redis) (n : nat) : forall (attempts : nat) now,
  (n < attempts)%nat ->
  redis !! k = Some (holder, e) ->
  (forall i, (i < n)%nat -> attempt_at now delay i < e) ->
  e <= attempt_at now delay n ->
  acquire_loop attempts now redis k tok ttl delay
  = (<[k := (tok, attempt_at now delay n + ttl)]> redis,
     Some (mkLock k tok (attempt_at now delay n + ttl))).
Proof.
  induction n as [|n IH]; intros attempts now Hn Hk Hheld Hfree;
    (destruct attempts as [|attempts]; [lia|]); cbn [acquire_loop];
    unfold set_px_nx.
  - unfold attempt_at in *. rewrite Z.mul_0_l, Z.add_0_r in *.
    rewrite (get_expired now redis k holder e Hk Hfree). reflexivity.
  - rewrite (get_held now redis k holder e Hk).
    + rewrite (IH attempts (now + delay)); [| lia | exact Hk | | ].
      * unfold attempt_at. rewrite Nat2Z.inj_succ.
        replace (now + delay + Z.of_nat n * delay)
          with (now + Z.succ (Z.of_nat n) * delay) by nia.
        reflexivity.
      * intros i Hi. specialize (Hheld (S i) ltac:(lia)).
        unfold attempt_at in *. rewrite Nat2Z.inj_succ in Hheld. nia.
      * unfold attempt_at in *. rewrite Nat2Z.inj_succ in Hfree. nia.
    + specialize (Hheld 0%nat ltac:(lia)). unfold attempt_at in Hheld. lia.
Qed.

(** X5: an acquisition against a held key. As long as the holder's lease
    outlasts every attempt, [acquireLock] returns null and writes nothing;
    if the lease runs out by the attempt numbered [n], that attempt is the
    one that takes the key, under the caller's token and with a lease that
    runs from that attempt. *)
Theorem acquireLock_against_holder (nodeId uuid resourceKey holder : string)
    (now e : Z) (redis : Redis) (options : LockOptions) :
  let ttl := default DEFAULT_LOCK_TTL_MS (ttlMs options) in
  let delay := default DEFAULT_RETRY_DELAY_MS (retryDelayMs options) in
  let attempts := Z.to_nat (default DEFAULT_RETRIES (retries options) + 1) in
  let lockKey := "lock:" ++ resourceKey in
  let tok := nodeId ++ ":" ++ uuid in
  redis !! lockKey = Some (holder, e) ->
  ((forall i, (i < attempts)%nat -> attempt_at now delay i < e) ->
   acquireLock nodeId uuid now redis resourceKey options = (redis, None)) /\
  (forall n, (n < attempts)%nat ->
     (forall i, (i < n)%nat -> attempt_at now delay i < e) ->
     e <= attempt_at now delay n ->
     acquireLock nodeId uuid now redis resourceKey options
     = (<[lockKey := (tok, attempt_at now delay n + ttl)]> redis,
        Some (mkLock lockKey tok (attempt_at now delay n + ttl)))).
Proof.
  intros ttl delay attempts lockKey tok Hk. split.
  - intros Hall. unfold acquireLock.
    exact (acquire_loop_held lockKey tok holder e ttl delay redis attempts
             now Hk Hall).
  - intros n Hn Hheld Hfree. unfold acquireLock.
    exact (acquire_loop_expired lockKey tok holder e ttl delay redis n
             attempts now Hn Hk Hheld Hfree).
Qed.

Lemma acquireLock_against_holder_witness :
  acquireLock "n" "u" 0 MoreSamples.heldRedis "job" (mkOptions None None None)
  = (<["lock:job" := ("n:u", 30200)]> MoreSamples.heldRedis,
     Some (mkLock "lock:job" "n:u" 30200)).
Proof.
  apply (proj2 (acquireLock_against_holder "n" "u" "job" "other:1" 0 150
                  MoreSamples.heldRedis (mkOptions None None None)
                  eq_refl) 2%nat).
  - vm_compute. lia.
  - intros i Hi. destruct i as [|[|i]]; [reflexivity|reflexivity|lia].
  - vm_compute. discriminate.
Defined.

(** A free key is taken at the first attempt. *)
Lemma acquireLock_free (nodeId uuid resourceKey : string) (now ttl : Z)
    (retries : Z) (redis : Redis) :
  0 <= retries ->
  get now redis ("lock:" ++ resourceKey) = None ->
  acquireLock nodeId uuid now redis resourceKey (lease ttl retries)
  = (<["lock:" ++ resourceKey := (nodeId ++ ":" ++ uuid, now + ttl)]> redis,
     Some (mkLock ("lock:" ++ resourceKey) (nodeId ++ ":" ++ uuid)
             (now + ttl))).
Proof.
  intros Hr Hfree. unfold acquireLock, lease.
  cbn [ttlMs Lock.retries retryDelayMs].
  change (default DEFAULT_RETRIES (Some retries)) with retries.
  change (default DEFAULT_LOCK_TTL_MS (Some ttl)) with ttl.
  destruct (Z.to_nat (retries + 1)) as [|attempts] eqn:Ha; [lia|].
  cbn [acquire_loop]. unfold set_px_nx. rewrite Hfree. reflexivity.
Qed.

(** X6: a release that comes too late does no harm. When the lease of a
    first holder has run out and a second caller has taken the key, the
    first holder's [releaseLock] returns false and leaves the key with
    the second one. *)
Theorem late_release_spares_new_holder
    (nodeA uuidA nodeB uuidB resourceKey : string) (t0 t1 t2 ttl : Z)
    (redis : Redis) :
  get t0 redis ("lock:" ++ resourceKey) = None ->
  t0 + ttl <= t1 -> t1 <= t2 < t1 + ttl ->
  nodeA ++ ":" ++ uuidA <> nodeB ++ ":" ++ uuidB ->
  let '(redis1, lockA) :=
    acquireLock nodeA uuidA t0 redis resourceKey (lease ttl 0) in
  let '(redis2, lockB) :=
    acquireLock nodeB uuidB t1 redis1 resourceKey (lease ttl 0) in
  match lockA, lockB with
  | Some a, Some b =>
      token a = nodeA ++ ":" ++ uuidA /\ token b = nodeB ++ ":" ++ uuidB /\
      releaseLock t2 redis2 a = (redis2, false) /\
      getLockHolder t2 redis2 resourceKey = Some (token b)
  | _, _ => False
  end.
Proof.
  intros Hfree Hexp Ht2 Htok.
  rewrite (acquireLock_free nodeA uuidA resourceKey t0 ttl 0 redis)
    by (lia || exact Hfree).
  rewrite (acquireLock_free nodeB uuidB resourceKey t1 ttl 0).
  - cbn [token]. split; [reflexivity|]. split; [reflexivity|].
    assert (Hget : get t2 (<["lock:" ++ resourceKey :=
                              (nodeB ++ ":" ++ uuidB, t1 + ttl)]>
                            (<["lock:" ++ resourceKey :=
                                (nodeA ++ ":" ++ uuidA, t0 + ttl)]> redis))
                     ("lock:" ++ resourceKey)
                   = Some (nodeB ++ ":" ++ uuidB)).
    { apply (get_held _ _ _ _ (t1 + ttl)); [apply lookup_insert_eq|lia]. }
    split.
    + unfold releaseLock. cbn [key token]. rewrite Hget.
      rewrite decide_False; [reflexivity|]. intros [= H]. auto.
    + unfold getLockHolder. exact Hget.
  - lia.
  - apply (get_expired _ _ _ (nodeA ++ ":" ++ uuidA) (t0 + ttl));
      [apply lookup_insert_eq|lia].
Qed.

Lemma late_release_spares_new_holder_witness :
  let '(redis1, lockA) :=
    acquireLock "a" "1" 0 ∅ "job" (lease 100 0) in
  let '(redis2, lockB) :=
    acquireLock "b" "2" 100 redis1 "job" (lease 100 0) in
  match lockA, lockB with
  | Some a, Some b =>
      token a = "a:1" /\ token b = "b:2" /\
      releaseLock 150 redis2 a = (redis2, false) /\
      getLockHolder 150 redis2 "job" = Some (token b)
  | _, _ => False
  end.
Proof.
  apply (late_release_spares_new_holder "a" "1" "b" "2" "job" 0 100 150 100 ∅).
  - reflexivity.
  - lia.
  - lia.
  - discriminate.
Defined.

(** X7: renewing in time keeps the others out. A holder that calls
    [extendLock] before its lease has run out is answered true, and from
    then on no other caller gets the key before the new lease runs out; a
    call that comes after the lease has run out is answered false and
    changes nothing. *)
Theorem extendLock_in_time (node uuid other uuid' resourceKey : string)
    (t0 t1 t2 ttl ttl' : Z) (redis : Redis) :
  get t0 redis ("lock:" ++ resourceKey) = None ->
  let '(redis1, acquired) :=
    acquireLock node uuid t0 redis resourceKey (lease ttl 0) in
  match acquired with
  | None => False
  | Some lock =>
      (t1 < t0 + ttl -> t1 <= t2 < t1 + ttl' ->
       let '(redis2, extended) := extendLock t1 redis1 lock ttl' in
       extended = true /\
       acquireLock other uuid' t2 redis2 resourceKey (lease ttl 0)
       = (redis2, None)) /\
      (t0 + ttl <= t1 -> extendLock t1 redis1 lock ttl' = (redis1, false))
  end.
Proof.
  intros Hfree.
  rewrite (acquireLock_free node uuid resourceKey t0 ttl 0 redis)
    by (lia || exact Hfree).
  set (k := "lock:" ++ resourceKey). set (tok := node ++ ":" ++ uuid).
  split.
  - intros Ht1 Ht2. unfold extendLock. cbn [key token].
    rewrite (get_held t1 _ k tok (t0 + ttl)) by (apply lookup_insert_eq || lia).
    rewrite decide_True by reflexivity. split; [reflexivity|].
    unfold acquireLock, lease. cbn [ttlMs retries retryDelayMs].
    change (Z.to_nat (default DEFAULT_RETRIES (Some 0) + 1)) with 1%nat.
    cbn [acquire_loop]. unfold set_px_nx. fold k.
    rewrite (get_held t2 _ k tok (t1 + ttl')) by (apply lookup_insert_eq || lia).
    reflexivity.
  - intros Ht1. unfold extendLock. cbn [key token].
    rewrite (get_expired t1 _ k tok (t0 + ttl))
      by (apply lookup_insert_eq || lia).
    rewrite decide_False by discriminate. reflexivity.
Qed.

Lemma extendLock_in_time_witness :
  let '(redis1, acquired) := acquireLock "a" "1" 0 ∅ "job" (lease 100 0) in
  match acquired with
  | None => False
  | Some lock =>
      (50 < 0 + 100 -> 50 <= 120 < 50 + 100 ->
       let '(redis2, extended) := extendLock 50 redis1 lock 100 in
       extended = true /\
       acquireLock "b" "2" 120 redis2 "job" (lease 100 0) = (redis2, None)) /\
      (0 + 100 <= 50 -> extendLock 50 redis1 lock 100 = (redis1, false))
  end.
Proof.
  apply (extendLock_in_time "a" "1" "b" "2" "job" 0 50 120 100 100 ∅).
  reflexivity.
Defined.

(** X8: [withLock] on a free key runs the function once, with the key held
    under the caller's token, hands back what the function returned or
    threw, and, when the function has left the key alone and ended within
    the lease, leaves the key free again. On a key that stays held it
    throws without running the function and without writing anything. *)
Theorem withLock_runs_and_releases {T} (nodeId uuid resourceKey : string)
    (now ttl : Z) (redis : Redis)
    (fn : Z -> Redis -> Z * Redis * (T + string)) :
  let lockKey := "lock:" ++ resourceKey in
  let tok := nodeId ++ ":" ++ uuid in
  (get now redis lockKey = None ->
   let held := <[lockKey := (tok, now + ttl)]> redis in
   let '(ended, redis2, result) := fn now held in
   redis2 !! lockKey = held !! lockKey -> ended < now + ttl ->
   withLock nodeId uuid now redis resourceKey (lease ttl 0) fn
   = (delete lockKey redis2, result)) /\
  (forall holder, get now redis lockKey = Some holder ->
   withLock nodeId uuid now redis resourceKey (lease ttl 0) fn
   = (redis, inr ("Failed to acquire lock for resource: " ++ resourceKey))).
Proof.
  intros lockKey tok. split.
  - intros Hfree held.
    destruct (fn now held) as [[ended redis2] result] eqn:Hfn.
    intros Hkey Hend. unfold withLock.
    rewrite (acquireLock_free nodeId uuid resourceKey now ttl 0 redis)
      by (lia || exact Hfree).
    cbn [lease ttlMs expiresAt].
    change (default DEFAULT_LOCK_TTL_MS (Some ttl)) with ttl.
    replace (now + ttl - ttl) with now by lia.
    fold lockKey tok held. rewrite Hfn.
    unfold releaseLock. cbn [key token fst].
    rewrite (get_held ended redis2 lockKey tok (now + ttl)).
    + rewrite decide_True by reflexivity. reflexivity.
    + rewrite Hkey. apply lookup_insert_eq.
    + exact Hend.
  - intros holder Hheld. unfold withLock, acquireLock, lease.
    cbn [ttlMs retries retryDelayMs].
    change (Z.to_nat (default DEFAULT_RETRIES (Some 0) + 1)) with 1%nat.
    cbn [acquire_loop]. unfold set_px_nx. fold lockKey. rewrite Hheld.
    reflexivity.
Qed.

Lemma withLock_runs_and_releases_witness :
  withLock "a" "1" 0 ∅ "job" (lease 100 0) MoreSamples.quickJob
  = (delete "lock:job" (<["lock:job" := ("a:1", 100)]> ∅), inl 7).
Proof.
  apply (proj1 (withLock_runs_and_releases "a" "1" "job" 0 100 ∅
                  MoreSamples.quickJob)).
  - reflexivity.
  - reflexivity.
  - reflexivity.
Defined.

End LockFacts.

(** ** Properties of the sweep for stale jobs *)

Module StaleSweepFacts.
Import Entities JobStore StaleSweep.

Lemma dedup_from_sound (jobs : list ImportJob) : forall seen j,
  j ∈ dedup_from seen jobs -> (id j ∉ seen) /\ (j ∈ jobs).
Proof.
  induction jobs as [|x jobs IH]; intros seen j Hj; cbn in Hj.
  - inversion Hj.
  - destruct (decide (id x ∈ seen)) as [Hx|Hx].
    + destruct (IH seen j Hj) as [H1 H2]. split; [exact H1|].
      apply elem_of_cons. right. exact H2.
    + apply elem_of_cons in Hj as [->|Hj].
      * split; [exact Hx|]. apply elem_of_cons. left. reflexivity.
      * destruct (IH _ j Hj) as [H1 H2]. split.
        { intros Hs. apply H1, elem_of_union. right. exact Hs. }
        apply elem_of_cons. right. exact H2.
Qed.

Lemma dedup_from_nodup (jobs : list ImportJob) : forall seen,
  NoDup (map id (dedup_from seen jobs)).
Proof.
  induction jobs as [|x jobs IH]; intros seen; cbn; [constructor|].
  destruct (decide (id x ∈ seen)); [apply IH|].
  cbn. constructor; [|apply IH].
  intros Hin. apply list_elem_of_fmap in Hin as (j & Hid & Hj).
  apply dedup_from_sound in Hj as [Hseen _].
  apply Hseen, elem_of_union. left. apply elem_of_singleton.
  symmetry. exact Hid.
Qed.

Lemma dedup_from_complete (jobs : list ImportJob) : forall seen j,
  j ∈ jobs -> id j ∉ seen -> id j ∈ map id (dedup_from seen jobs).
Proof.
  induction jobs as [|x jobs IH]; intros seen j Hj Hseen.
  - inversion Hj.
  - cbn. apply elem_of_cons in Hj as [->|Hj].
    + rewrite decide_False by exact Hseen. cbn. apply elem_of_cons.
      left. reflexivity.
    + destruct (decide (id x ∈ seen)); [apply IH; assumption|].
      cbn. destruct (decide (id j = id x)) as [Heq|Hne].
      * apply elem_of_cons. left. exact Heq.
      * apply elem_of_cons. right. apply IH; [exact Hj|].
        intros Hs. apply elem_of_union in Hs as [Hs|Hs]; [|contradiction].
        apply elem_of_singleton in Hs. contradiction.
Qed.

Lemma dedup_from_first (jobs : list ImportJob) : forall seen j,
  j ∈ dedup_from seen jobs ->
  List.find (fun x => bool_decide (id x = id j)) jobs = Some j.
Proof.
  induction jobs as [|x jobs IH]; intros seen j Hj; cbn in Hj.
  - inversion Hj.
  - cbn [List.find]. destruct (decide (id x ∈ seen)) as [Hx|Hx].
    + destruct (dedup_from_sound _ _ _ Hj) as [Hseen _].
      rewrite bool_decide_eq_false_2 by (intros Heq; rewrite Heq in Hx; auto).
      exact (IH seen j Hj).
    + apply elem_of_cons in Hj as [->|Hj].
      * rewrite bool_decide_eq_true_2 by reflexivity. reflexivity.
      * destruct (dedup_from_sound _ _ _ Hj) as [Hseen _].
        rewrite bool_decide_eq_false_2 by set_solver.
        exact (IH _ j Hj).
Qed.

Lemma dedup_from_sublist (jobs : list ImportJob) : forall seen,
  sublist (dedup_from seen jobs) jobs.
Proof.
  induction jobs as [|x jobs IH]; intros seen; cbn; [constructor|].
  destruct (decide (id x ∈ seen)).
  - apply sublist_cons. apply IH.
  - apply sublist_skip. apply IH.
Qed.

(** X9: [deduplicateJobs] keeps, for every id that occurs in the list,
    exactly the first job with that id, in the order of the list: no id
    occurs twice in the result and none is lost. *)
Theorem deduplicateJobs_first_per_id (jobs : list ImportJob) :
  NoDup (map id (deduplicateJobs jobs)) /\
  sublist (deduplicateJobs jobs) jobs /\
  (forall j, j ∈ jobs -> id j ∈ map id (deduplicateJobs jobs)) /\
  (forall j, j ∈ deduplicateJobs jobs ->
     List.find (fun x => bool_decide (id x = id j)) jobs = Some j).
Proof.
  unfold deduplicateJobs. split; [apply dedup_from_nodup|].
  split; [apply dedup_from_sublist|]. split.
  - intros j Hj. apply dedup_from_complete; [exact Hj|set_solver].
  - intros j Hj. exact (dedup_from_first jobs ∅ j Hj).
Qed.

Section Sweep.
Variable cfg : Config.
Variable message : ImportJob -> string.

Lemma rows_elem (tbl : Table) (j : ImportJob) :
  wf_table tbl -> (j ∈ rows tbl <-> tbl !! id j = Some j).
Proof.
  intros Hwf. unfold rows. rewrite list_elem_of_fmap. split.
  - intros ([k j'] & -> & Hin). apply elem_of_map_to_list in Hin.
    cbn. rewrite (Hwf k j' Hin). exact Hin.
  - intros Hj. exists (id j, j). split; [reflexivity|].
    apply elem_of_map_to_list. exact Hj.
Qed.

Lemma rows_nodup (tbl : Table) : wf_table tbl -> NoDup (rows tbl).
Proof.
  intros Hwf. unfold rows. apply NoDup_fmap_2_strong.
  - intros [k1 j1] [k2 j2] H1 H2 Heq. cbn in Heq. subst j2.
    apply elem_of_map_to_list in H1, H2.
    rewrite <- (Hwf k1 j1 H1), <- (Hwf k2 j1 H2). reflexivity.
  - apply NoDup_map_to_list.
Qed.

Lemma handle_is_insert (now : Z) (tbl : Table) (j : ImportJob) :
  tbl !! id j = Some j ->
  StaleCleanup.handleStaleImportJob (restartStaleJobs cfg) now (message j)
    tbl j
  = <[id j := swept cfg message now j]> tbl.
Proof.
  intros Hj. unfold StaleCleanup.handleStaleImportJob, swept, update.
  rewrite Hj.
  destruct (restartStaleJobs cfg && bool_decide (status j = PROCESSING));
    reflexivity.
Qed.

Lemma sweep_fold (now : Z) (l : list ImportJob) : forall (tbl : Table) (c : Z),
  NoDup (map id l) ->
  (forall j, j ∈ l -> tbl !! id j = Some j) ->
  exists tbl',
    fold_left
      (fun (st : Table * Z) job =>
         (StaleCleanup.handleStaleImportJob (restartStaleJobs cfg) now
            (message job) (fst st) job, snd st + 1))
      l (tbl, c)
    = (tbl', c + Z.of_nat (List.length l)) /\
    forall k, tbl' !! k =
              if decide (k ∈ map id l)
              then swept cfg message now <$> tbl !! k
              else tbl !! k.
Proof.
  induction l as [|j l IH]; intros tbl c Hnd Hin.
  - exists tbl. split; [cbn; f_equal; lia|]. intros k.
    rewrite decide_False by (cbn; apply not_elem_of_nil). reflexivity.
  - cbn [map] in Hnd. apply NoDup_cons in Hnd as [Hj Hnd].
    cbn [fold_left fst snd].
    rewrite (handle_is_insert now tbl j)
      by (apply Hin, elem_of_cons; left; reflexivity).
    destruct (IH (<[id j := swept cfg message now j]> tbl) (c + 1) Hnd)
      as (tbl' & Hfold & Hlook).
    { intros j' Hj'. rewrite lookup_insert_ne.
      - apply Hin, elem_of_cons. right. exact Hj'.
      - intros Heq. apply Hj. rewrite Heq.
        apply list_elem_of_fmap. exists j'. split; [reflexivity|exact Hj']. }
    exists tbl'. split.
    + rewrite Hfold. f_equal. cbn [List.length]. lia.
    + intros k. rewrite Hlook. cbn [map].
      destruct (decide (k = id j)) as [->|Hk].
      * rewrite decide_False by exact Hj.
        rewrite decide_True by (apply elem_of_cons; left; reflexivity).
        rewrite lookup_insert_eq.
        rewrite (Hin j) by (apply elem_of_cons; left; reflexivity).
        reflexivity.
      * rewrite lookup_insert_ne by congruence.
        destruct (decide (k ∈ map id l)) as [Hkl|Hkl].
        -- rewrite decide_True by (apply elem_of_cons; right; exact Hkl).
           reflexivity.
        -- rewrite decide_False; [reflexivity|].
           intros H. apply elem_of_cons in H as [H|H]; auto.
Qed.

Lemma filter_elem {A} (p : A -> bool) (l : list A) (x : A) :
  x ∈ List.filter p l <-> x ∈ l /\ p x = true.
Proof. rewrite !list_elem_of_In. apply filter_In. Qed.

Lemma filter_none {A} (p : A -> bool) (l : list A) :
  (forall x, x ∈ l -> p x = false) -> List.filter p l = [].
Proof.
  induction l as [|x l IH]; intros H; [reflexivity|]. cbn.
  rewrite (H x) by (apply elem_of_cons; left; reflexivity).
  apply IH. intros y Hy. apply H, elem_of_cons. right. exact Hy.
Qed.

Lemma stale_candidates (now : Z) (tbl : Table) (j : ImportJob) :
  j ∈ (List.filter (stuck (now - staleThresholdMs cfg)) (rows tbl) ++
       List.filter (stale_lock (now - staleLockThresholdMs cfg)) (rows tbl))%list
  <-> j ∈ rows tbl /\ stale cfg now j = true.
Proof.
  rewrite elem_of_app, !filter_elem. unfold stale.
  rewrite orb_true_iff. tauto.
Qed.

Lemma candidates_in_table (now : Z) (tbl : Table) (j : ImportJob) :
  wf_table tbl ->
  j ∈ deduplicateJobs
        (List.filter (stuck (now - staleThresholdMs cfg)) (rows tbl) ++
         List.filter (stale_lock (now - staleLockThresholdMs cfg)) (rows tbl)) ->
  tbl !! id j = Some j /\ stale cfg now j = true.
Proof.
  intros Hwf Hj. apply dedup_from_sound in Hj as [_ Hj].
  apply stale_candidates in Hj as [Hrow Hstale].
  split; [apply rows_elem; assumption|exact Hstale].
Qed.

Lemma swept_id (now : Z) (j : ImportJob) : id (swept cfg message now j) = id j.
Proof.
  unfold swept.
  destruct (restartStaleJobs cfg && bool_decide (status j = PROCESSING));
    reflexivity.
Qed.

(** The sweep in closed form. *)
Lemma sweep_closed_form (now : Z) (tbl : Table) :
  wf_table tbl ->
  cleanupStaleImportJobs cfg message now tbl
  = ((fun j => if stale cfg now j then swept cfg message now j else j)
       <$> tbl,
     Z.of_nat (List.length (List.filter (stale cfg now) (rows tbl)))).
Proof.
  intros Hwf. unfold cleanupStaleImportJobs.
  set (cands := (List.filter _ (rows tbl) ++ List.filter _ (rows tbl))%list).
  set (l := deduplicateJobs cands).
  assert (Hnd : NoDup (map id l)) by apply dedup_from_nodup.
  assert (Hin : forall j, j ∈ l -> tbl !! id j = Some j /\ stale cfg now j = true)
    by (intros j Hj; exact (candidates_in_table now tbl j Hwf Hj)).
  assert (Hall : forall j, tbl !! id j = Some j -> stale cfg now j = true ->
                           j ∈ l).
  { intros j Hj Hs.
    assert (Hc : j ∈ cands)
      by (apply stale_candidates; split; [apply rows_elem; assumption|exact Hs]).
    pose proof (dedup_from_complete cands ∅ j Hc (not_elem_of_empty _)) as Hid.
    apply list_elem_of_fmap in Hid as (j' & Hid & Hj').
    destruct (Hin j' Hj') as [Hrow' _]. rewrite <- Hid in Hrow'.
    rewrite Hj in Hrow'. injection Hrow' as ->. exact Hj'. }
  destruct (sweep_fold now l tbl 0 Hnd (fun j Hj => proj1 (Hin j Hj)))
    as (tbl' & Hfold & Hlook).
  rewrite Hfold. f_equal.
  - apply map_eq. intros k. rewrite Hlook, lookup_fmap.
    destruct (tbl !! k) as [j|] eqn:Hk.
    + assert (Hid : id j = k) by exact (Hwf k j Hk). subst k. cbn [fmap option_fmap option_map].
      destruct (stale cfg now j) eqn:Hs.
      * rewrite decide_True; [reflexivity|].
        apply list_elem_of_fmap. exists j. split; [reflexivity|].
        apply Hall; assumption.
      * rewrite decide_False; [reflexivity|]. intros Hkin.
        apply list_elem_of_fmap in Hkin as (j' & Hid & Hj').
        destruct (Hin j' Hj') as [Hrow' Hs']. rewrite <- Hid in Hrow'.
        rewrite Hk in Hrow'. injection Hrow' as ->. congruence.
    + destruct (decide (k ∈ map id l)) as [Hkin|]; [|reflexivity].
      apply list_elem_of_fmap in Hkin as (j' & Hid & Hj').
      destruct (Hin j' Hj') as [Hrow' _]. rewrite <- Hid in Hrow'. congruence.
  - rewrite Z.add_0_l. f_equal. apply Permutation_length.
    apply NoDup_Permutation.
    + apply (NoDup_fmap_1 id). exact Hnd.
    + apply NoDup_ListNoDup, List.NoDup_filter, NoDup_ListNoDup, rows_nodup.
      exact Hwf.
    + intros j. rewrite filter_elem. split.
      * intros Hj. destruct (Hin j Hj) as [Hrow Hs].
        split; [apply rows_elem; assumption|exact Hs].
      * intros [Hrow Hs]. apply Hall; [apply rows_elem; assumption|exact Hs].
Qed.

(** X10: one pass of the sweep over a table. Every row that is stale at
    the instant of the sweep (in PROCESSING and started before the stale
    threshold, or owned, in PENDING or PROCESSING, with an ownership date
    before the stale-lock threshold) is rewritten once: to FAILED, or to
    PENDING when restarts are on and the row was in PROCESSING, with the
    ownership columns cleared. Every other row stays as it is, no row is
    added or removed, and the number returned is the number of stale
    rows. *)
Theorem cleanupStaleImportJobs_effect (now : Z) (tbl : Table) :
  wf_table tbl ->
  let '(tbl', cleaned) := cleanupStaleImportJobs cfg message now tbl in
  wf_table tbl' /\
  cleaned = Z.of_nat (List.length (List.filter (stale cfg now) (rows tbl))) /\
  forall k,
    tbl' !! k =
    (fun j => if stale cfg now j then swept cfg message now j else j)
      <$> tbl !! k.
Proof.
  intros Hwf. rewrite (sweep_closed_form now tbl Hwf). split; [|split].
  - intros k j'. rewrite lookup_fmap. destruct (tbl !! k) as [j|] eqn:Hk;
      [|discriminate].
    cbn. intros [= <-]. assert (Hid : id j = k) by exact (Hwf k j Hk).
    destruct (stale cfg now j); [rewrite swept_id|]; exact Hid.
  - reflexivity.
  - intros k. apply lookup_fmap.
Qed.

Lemma swept_settled (now now' : Z) (j : ImportJob) :
  stale cfg now' (swept cfg message now j) = false /\
  lockedBy (swept cfg message now j) = None /\
  (status (swept cfg message now j) = FAILED \/
   status (swept cfg message now j) = PENDING /\
   restartStaleJobs cfg = true /\ status j = PROCESSING).
Proof.
  unfold swept, stale, stuck, stale_lock.
  destruct (restartStaleJobs cfg) eqn:Hr; cbn [andb].
  - destruct (bool_decide (status j = PROCESSING)) eqn:Hp.
    + apply bool_decide_eq_true in Hp. cbn. split; [reflexivity|].
      split; [reflexivity|]. right. auto.
    + cbn. split; [reflexivity|]. split; [reflexivity|]. left. reflexivity.
  - cbn. split; [reflexivity|]. split; [reflexivity|]. left. reflexivity.
Qed.

Lemma terminal_not_stale (now : Z) (j : ImportJob) :
  isTerminal j = true -> stale cfg now j = false.
Proof.
  unfold isTerminal, stale, stuck, stale_lock. intros Ht.
  apply bool_decide_eq_true in Ht.
  rewrite (bool_decide_eq_false_2 (status j = PROCESSING))
    by (intros Hs; rewrite Hs in Ht; destruct Ht as [|[|]]; discriminate).
  rewrite (bool_decide_eq_false_2 (status j = PENDING \/ _))
    by (intros [Hs|Hs]; rewrite Hs in Ht; destruct Ht as [|[|]];
        discriminate).
  cbn [andb orb]. rewrite andb_false_r. reflexivity.
Qed.

(** X11: the sweep settles. It never rewrites a row in a terminal state;
    the rows it has rewritten are not stale at any later instant; and a
    second pass at the same instant over the table it left finds nothing
    to do. *)
Theorem cleanupStaleImportJobs_settles (now : Z) (tbl : Table) :
  wf_table tbl ->
  let tbl' := fst (cleanupStaleImportJobs cfg message now tbl) in
  (forall k j, tbl !! k = Some j -> isTerminal j = true ->
               tbl' !! k = Some j) /\
  (forall k j now', tbl !! k = Some j -> stale cfg now j = true ->
     exists j', tbl' !! k = Some j' /\ stale cfg now' j' = false /\
                lockedBy j' = None) /\
  cleanupStaleImportJobs cfg message now tbl' = (tbl', 0).
Proof.
  intros Hwf. rewrite (sweep_closed_form now tbl Hwf). cbn [fst].
  set (f := fun j => if stale cfg now j then swept cfg message now j else j).
  assert (Hwf' : wf_table (f <$> tbl)).
  { intros k j'. rewrite lookup_fmap. destruct (tbl !! k) as [j|] eqn:Hk;
      [|discriminate].
    cbn. intros [= <-]. assert (Hid : id j = k) by exact (Hwf k j Hk). unfold f.
    destruct (stale cfg now j); [rewrite swept_id|]; exact Hid. }
  assert (Hquiet : forall k j', (f <$> tbl) !! k = Some j' ->
                                stale cfg now j' = false).
  { intros k j'. rewrite lookup_fmap. destruct (tbl !! k) as [j|] eqn:Hk;
      [|discriminate].
    cbn. intros [= <-]. unfold f. destruct (stale cfg now j) eqn:Hs;
      [apply swept_settled|exact Hs]. }
  split; [|split].
  - intros k j Hk Ht. rewrite lookup_fmap, Hk. cbn. unfold f.
    rewrite (terminal_not_stale now j Ht). reflexivity.
  - intros k j now' Hk Hs. exists (swept cfg message now j).
    rewrite lookup_fmap, Hk. cbn. unfold f. rewrite Hs.
    split; [reflexivity|].
    destruct (swept_settled now now' j) as (H1 & H2 & _). auto.
  - rewrite (sweep_closed_form now (f <$> tbl) Hwf'). f_equal.
    + apply map_eq. intros k. rewrite lookup_fmap.
      destruct ((f <$> tbl) !! k) as [j'|] eqn:Hk; [|reflexivity].
      cbn. rewrite (Hquiet k j' Hk). reflexivity.
    + rewrite filter_none; [reflexivity|]. intros j' Hj'.
      apply (rows_elem _ _ Hwf') in Hj'. exact (Hquiet _ _ Hj').
Qed.

End Sweep.
Lemma cleanupStaleImportJobs_effect_witness :
  let '(tbl', cleaned) :=
    cleanupStaleImportJobs defaults (fun _ => "stale") 2000000
      Samples.processingTable in
  wf_table tbl' /\
  cleaned = Z.of_nat (List.length
                        (List.filter (stale defaults 2000000)
                           (rows Samples.processingTable))) /\
  forall k,
    tbl' !! k =
    (fun j => if stale defaults 2000000 j
              then swept defaults (fun _ => "stale") 2000000 j else j)
      <$> Samples.processingTable !! k.
Proof.
  apply (cleanupStaleImportJobs_effect defaults (fun _ => "stale") 2000000
           Samples.processingTable).
  apply (bool_decide_unpack _). vm_compute. exact I.
Defined.

Lemma cleanupStaleImportJobs_settles_witness :
  let tbl' :=
    fst (cleanupStaleImportJobs defaults (fun _ => "stale") 2000000
           Samples.processingTable) in
  (forall k j, Samples.processingTable !! k = Some j -> isTerminal j = true ->
               tbl' !! k = Some j) /\
  (forall k j now', Samples.processingTable !! k = Some j ->
     stale defaults 2000000 j = true ->
     exists j', tbl' !! k = Some j' /\ stale defaults now' j' = false /\
                lockedBy j' = None) /\
  cleanupStaleImportJobs defaults (fun _ => "stale") 2000000 tbl' = (tbl', 0).
Proof.
  apply (cleanupStaleImportJobs_settles defaults (fun _ => "stale") 2000000
           Samples.processingTable).
  apply (bool_decide_unpack _). vm_compute. exact I.
Defined.

(** The sweep of the sample table does rewrite its one row, to FAILED. *)
Example sweep_fails_the_stuck_job :
  exists j,
    fst (cleanupStaleImportJobs defaults (fun _ => "stale") 2000000
           Samples.processingTable) !! "job-1" = Some j /\
    status j = FAILED /\ lockedBy j = None /\ completedAt j = Some 2000000 /\
    snd (cleanupStaleImportJobs defaults (fun _ => "stale") 2000000
           Samples.processingTable) = 1.
Proof. eexists. repeat split; vm_compute; reflexivity. Qed.

(** X12: one node sweeps at a time. While another caller holds the key
    [stale-job-cleanup], [cleanupStaleJobs] touches neither table nor the
    key-value service and reports no job handled; on a free key it runs
    both sweeps and leaves the key free again. *)
Theorem cleanupStaleJobs_under_lock {Exports : Type} (cfg : Config)
    (message : ImportJob -> string)
    (cleanupStaleExportJobs : Z -> Exports -> Exports * Z)
    (nodeId uuid : string) (now : Z) (redis : Lock.Redis) (tbl : Table)
    (exports : Exports) :
  (forall holder,
     Lock.get now redis "lock:stale-job-cleanup" = Some holder ->
     cleanupStaleJobs cfg message cleanupStaleExportJobs nodeId uuid now
       redis tbl exports
     = (redis, tbl, exports, (0, 0))) /\
  (Lock.get now redis "lock:stale-job-cleanup" = None ->
   cleanupStaleJobs cfg message cleanupStaleExportJobs nodeId uuid now
     redis tbl exports
   = (delete "lock:stale-job-cleanup" redis,
      fst (cleanupStaleImportJobs cfg message now tbl),
      fst (cleanupStaleExportJobs now exports),
      (snd (cleanupStaleImportJobs cfg message now tbl),
       snd (cleanupStaleExportJobs now exports)))).
Proof.
  split.
  - intros holder Hheld. unfold cleanupStaleJobs, Lock.acquireLock.
    change (Z.to_nat _) with 1%nat. cbn [Lock.acquire_loop].
    unfold Lock.set_px_nx.
    change ("lock:" ++ "stale-job-cleanup") with "lock:stale-job-cleanup".
    rewrite Hheld. reflexivity.
  - intros Hfree. unfold cleanupStaleJobs.
    rewrite (LockFacts.acquireLock_free nodeId uuid "stale-job-cleanup" now
               60000 0 redis) by (lia || exact Hfree).
    destruct (cleanupStaleImportJobs cfg message now tbl) as [tbl' n].
    destruct (cleanupStaleExportJobs now exports) as [exports' m].
    unfold Lock.releaseLock. cbn [Lock.key Lock.token fst snd].
    rewrite (LockFacts.get_held now _ _ (nodeId ++ ":" ++ uuid)
               (now + 60000)) by (apply lookup_insert_eq || lia).
    rewrite decide_True by reflexivity. rewrite delete_insert_eq.
    reflexivity.
Qed.

End StaleSweepFacts.

(** ** The pattern matcher is right *)

Module RegexFacts.
Import Regex JsText JsFacts.

Lemma append_nil_inv (a b : string) : a ++ b = "" -> a = "" /\ b = "".
Proof.
  destruct a as [|c a]; [intros H; split; [reflexivity|exact H]|].
  rewrite append_cons. discriminate.
Qed.

Lemma nullable_matches (r : regex) : nullable r = true -> matches r "".
Proof.
  induction r as [| |p|r1 IH1 r2 IH2|r1 IH1 r2 IH2|r IH]; cbn; intros H;
    try discriminate.
  - constructor.
  - apply andb_true_iff in H as [H1 H2].
    change "" with ("" ++ ""). constructor; auto.
  - apply orb_true_iff in H as [H|H];
      [apply matches_left|apply matches_right]; auto.
  - constructor.
Qed.

Lemma matches_nullable (r : regex) (s : string) :
  matches r s -> s = "" -> nullable r = true.
Proof.
  induction 1 as [|p c Hp|r1 r2 s1 s2 _ IH1 _ IH2|r1 r2 s _ IH|r1 r2 s _ IH
                 |r|r s1 s2 _ _ _ _]; intros Hs; cbn; try reflexivity.
  - discriminate.
  - apply append_nil_inv in Hs as [-> ->].
    rewrite IH1, IH2; reflexivity.
  - rewrite IH; [reflexivity|exact Hs].
  - rewrite IH; [apply orb_true_r|exact Hs].
Qed.

Lemma after_sound (c : ascii) (r : regex) : forall s,
  matches (after c r) s -> matches r (String c s).
Proof.
  induction r as [| |p|r1 IH1 r2 IH2|r1 IH1 r2 IH2|r IH]; intros s H;
    cbn in H.
  - inversion H.
  - inversion H.
  - destruct (p c) eqn:Hp; inversion H; subst. constructor. exact Hp.
  - assert (Hleft : forall s, matches (Seq (after c r1) r2) s ->
                              matches (Seq r1 r2) (String c s)).
    { intros s0 H0. inversion H0; subst.
      rewrite <- append_cons. constructor; auto. }
    destruct (nullable r1) eqn:Hn; [|auto].
    inversion H; subst; [auto|].
    change (String c s) with ("" ++ String c s).
    constructor; [apply nullable_matches; exact Hn|auto].
  - inversion H; subst; [apply matches_left|apply matches_right]; auto.
  - inversion H; subst. rewrite <- append_cons.
    apply matches_star_more; auto.
Qed.

Lemma after_complete (r : regex) (s0 : string) :
  matches r s0 -> forall c s, s0 = String c s -> matches (after c r) s.
Proof.
  induction 1 as [|p x Hp|r1 r2 s1 s2 H1 IH1 H2 IH2|r1 r2 s0 _ IH
                 |r1 r2 s0 _ IH|r|r s1 s2 H1 IH1 H2 IH2]; intros c s Hs;
    cbn.
  - discriminate.
  - injection Hs as -> <-. rewrite Hp. constructor.
  - destruct s1 as [|x s1].
    + change ("" ++ s2) with s2 in Hs.
      rewrite (matches_nullable r1 "" H1 eq_refl).
      apply matches_right. exact (IH2 c s Hs).
    + rewrite append_cons in Hs. injection Hs as -> <-.
      assert (Hl : matches (Seq (after c r1) r2) (s1 ++ s2))
        by (constructor; [exact (IH1 c s1 eq_refl)|exact H2]).
      destruct (nullable r1); [apply matches_left|]; exact Hl.
  - apply matches_left. exact (IH c s Hs).
  - apply matches_right. exact (IH c s Hs).
  - discriminate.
  - destruct s1 as [|x s1].
    + change ("" ++ s2) with s2 in Hs. exact (IH2 c s Hs).
    + rewrite append_cons in Hs. injection Hs as -> <-.
      constructor; [exact (IH1 c s1 eq_refl)|exact H2].
Qed.

(** Reading a text character by character decides whether the pattern
    stands for it. *)
Lemma test_matches (s : string) : forall r,
  test r s = true <-> matches r s.
Proof.
  induction s as [|c s IH]; intros r; cbn [test].
  - split; [apply nullable_matches|].
    intros H. exact (matches_nullable r "" H eq_refl).
  - rewrite IH. split; [apply after_sound|].
    intros H. exact (after_complete r _ H c s eq_refl).
Qed.

Lemma matches_star_class (p : ascii -> bool) (s : string) :
  matches (Star (Class p)) s <-> all_chars p s = true.
Proof.
  split.
  - intros H. remember (Star (Class p)) as r eqn:Hr.
    induction H as [| | | | |r0|r0 s1 s2 H1 _ H2 IH2]; try discriminate.
    + reflexivity.
    + injection Hr as ->. inversion H1; subst.
      change (String c "" ++ s2) with (String c s2). cbn.
      rewrite H0. exact (IH2 eq_refl).
  - induction s as [|c s IH]; cbn; intros H; [constructor|].
    apply andb_true_iff in H as [Hc Hs].
    change (String c s) with (String c "" ++ s).
    apply matches_star_more; [constructor; exact Hc|auto].
Qed.

Lemma matches_plus_class (p : ascii -> bool) (s : string) :
  matches (Plus (Class p)) s <-> s <> "" /\ all_chars p s = true.
Proof.
  unfold Plus. split.
  - intros H. inversion H; subst. inversion H2; subst.
    apply matches_star_class in H4.
    change (String c "" ++ s2) with (String c s2). cbn.
    rewrite H1, H4. split; [discriminate|reflexivity].
  - intros [Hne Hall]. destruct s as [|c s]; [contradiction|].
    cbn in Hall. apply andb_true_iff in Hall as [Hc Hs].
    change (String c s) with (String c "" ++ s).
    constructor; [constructor; exact Hc|apply matches_star_class; exact Hs].
Qed.

Lemma all_chars_app (p : ascii -> bool) (a b : string) :
  all_chars p (a ++ b) = all_chars p a && all_chars p b.
Proof.
  induction a as [|c a IH]; [reflexivity|].
  rewrite append_cons. cbn. rewrite IH, andb_assoc. reflexivity.
Qed.

Lemma all_chars_weaken (p q : ascii -> bool) (s : string) :
  (forall c, p c = true -> q c = true) ->
  all_chars p s = true -> all_chars q s = true.
Proof.
  intros Hpq. induction s as [|c s IH]; cbn; [reflexivity|]. intros H.
  apply andb_true_iff in H as [Hc Hs]. rewrite (Hpq c Hc), IH; auto.
Qed.

Lemma length_append (a b : string) :
  String.length (a ++ b) = (String.length a + String.length b)%nat.
Proof.
  induction a as [|c a IH]; [reflexivity|].
  rewrite append_cons. cbn. rewrite IH. reflexivity.
Qed.

Lemma class_within_sound (p q : ascii -> bool) :
  class_within p q = true -> forall c, p c = true -> q c = true.
Proof.
  unfold class_within, all_ascii. intros H c Hp.
  rewrite forallb_forall in H.
  assert (Hin : In c (map ascii_of_nat (seq 0 256))).
  { apply in_map_iff. exists (nat_of_ascii c). split.
    - apply ascii_nat_embedding.
    - apply in_seq. pose proof (nat_ascii_bounded c). lia. }
  specialize (H c Hin). rewrite Hp in H. exact H.
Qed.

(** The characters of a matched text are in the classes of the pattern. *)
Lemma matches_within (q : ascii -> bool) (r : regex) (s : string) :
  matches r s -> classes_within q r = true -> all_chars q s = true.
Proof.
  induction 1 as [|p c Hp|r1 r2 s1 s2 _ IH1 _ IH2|r1 r2 s _ IH|r1 r2 s _ IH
                 |r|r s1 s2 _ IH1 _ IH2]; cbn [classes_within]; intros Hq.
  - reflexivity.
  - cbn. rewrite (class_within_sound p q Hq c Hp). reflexivity.
  - apply andb_true_iff in Hq as [Hq1 Hq2].
    rewrite all_chars_app, IH1, IH2; auto.
  - apply andb_true_iff in Hq as [Hq1 Hq2]. auto.
  - apply andb_true_iff in Hq as [Hq1 Hq2]. auto.
  - reflexivity.
  - rewrite all_chars_app, IH1, IH2; auto.
Qed.

(** A pattern of classes in a row matches texts of one length only. *)
Lemma matches_fixed_length (r : regex) (s : string) :
  matches r s -> forall n, fixed_length r = Some n -> String.length s = n.
Proof.
  induction 1 as [|p c Hp|r1 r2 s1 s2 _ IH1 _ IH2|r1 r2 s _ IH|r1 r2 s _ IH
                 |r|r s1 s2 _ _ _ _]; cbn [fixed_length]; intros n Hn;
    try discriminate.
  - injection Hn as <-. reflexivity.
  - injection Hn as <-. reflexivity.
  - destruct (fixed_length r1) as [a|]; [|discriminate].
    destruct (fixed_length r2) as [b|]; [|discriminate].
    injection Hn as <-. rewrite length_append, (IH1 a), (IH2 b); reflexivity.
  - destruct (fixed_length r1) as [a|]; [|discriminate].
    destruct (fixed_length r2) as [b|]; [|discriminate].
    destruct (Nat.eqb a b); [|discriminate]. injection Hn as <-. auto.
  - destruct (fixed_length r1) as [a|]; [|discriminate].
    destruct (fixed_length r2) as [b|]; [|discriminate].
    destruct (Nat.eqb_spec a b); [|discriminate]. injection Hn as <-.
    subst b. auto.
Qed.

End RegexFacts.

(** ** Properties of the validation helpers *)

Module ValidationFacts.
Import Regex JsText ValidationUtils JsFacts RegexFacts.

(** *** Case and white space *)

Lemma lower_ascii_idem (c : ascii) :
  Js.lower_ascii (Js.lower_ascii c) = Js.lower_ascii c.
Proof. destruct c as [[] [] [] [] [] [] [] []]; reflexivity. Qed.

Lemma is_space_lower (c : ascii) :
  Js.is_space (Js.lower_ascii c) = Js.is_space c.
Proof. destruct c as [[] [] [] [] [] [] [] []]; reflexivity. Qed.

Lemma lower_not_upper (c : ascii) : is_upper (Js.lower_ascii c) = false.
Proof. destruct c as [[] [] [] [] [] [] [] []]; reflexivity. Qed.

Lemma lower_fixes (c : ascii) : is_upper c = false -> Js.lower_ascii c = c.
Proof.
  destruct c as [[] [] [] [] [] [] [] []]; intros H;
    first [reflexivity|discriminate H].
Qed.

Lemma toLowerCase_idem (s : string) :
  Js.toLowerCase (Js.toLowerCase s) = Js.toLowerCase s.
Proof.
  induction s as [|c s IH]; [reflexivity|]. cbn.
  rewrite lower_ascii_idem, IH. reflexivity.
Qed.

Lemma toLowerCase_empty (s : string) : Js.toLowerCase s = "" -> s = "".
Proof. destruct s; [reflexivity|discriminate]. Qed.

Lemma trimStart_lower (s : string) :
  Js.trimStart (Js.toLowerCase s) = Js.toLowerCase (Js.trimStart s).
Proof.
  induction s as [|c s IH]; [reflexivity|]. cbn.
  rewrite is_space_lower. destruct (Js.is_space c); [exact IH|reflexivity].
Qed.

Lemma trimEnd_lower (s : string) :
  Js.trimEnd (Js.toLowerCase s) = Js.toLowerCase (Js.trimEnd s).
Proof.
  induction s as [|c s IH]; [reflexivity|]. cbn. rewrite IH, is_space_lower.
  destruct (Js.trimEnd s) as [|x t]; cbn.
  - destruct (Js.is_space c); reflexivity.
  - reflexivity.
Qed.

Lemma trim_lower (s : string) :
  Js.trim (Js.toLowerCase s) = Js.toLowerCase (Js.trim s).
Proof. unfold Js.trim. rewrite trimStart_lower, trimEnd_lower. reflexivity. Qed.

Lemma trimStart_idem (s : string) :
  Js.trimStart (Js.trimStart s) = Js.trimStart s.
Proof.
  induction s as [|c s IH]; [reflexivity|]. cbn.
  destruct (Js.is_space c) eqn:Hc; [exact IH|]. cbn. rewrite Hc. reflexivity.
Qed.

Lemma trimEnd_cons (c : ascii) (s : string) :
  Js.trimEnd (String c s)
  = match Js.trimEnd s with
    | EmptyString => if Js.is_space c then EmptyString else String c EmptyString
    | t => String c t
    end.
Proof. reflexivity. Qed.

Lemma trimEnd_idem (s : string) : Js.trimEnd (Js.trimEnd s) = Js.trimEnd s.
Proof.
  induction s as [|c s IH]; [reflexivity|]. rewrite trimEnd_cons.
  destruct (Js.trimEnd s) as [|x t] eqn:Ht.
  - destruct (Js.is_space c) eqn:Hc; [reflexivity|]. cbn. rewrite Hc.
    reflexivity.
  - rewrite trimEnd_cons, IH. reflexivity.
Qed.

(** Cutting white space at the end leaves the start as it is. *)
Lemma trimStart_trimEnd (s : string) :
  Js.trimStart s = s -> Js.trimStart (Js.trimEnd s) = Js.trimEnd s.
Proof.
  destruct s as [|c s]; [reflexivity|]. cbn.
  destruct (Js.is_space c) eqn:Hc.
  - intros H. exfalso.
    assert (Hlen : (String.length (Js.trimStart s) <= String.length s)%nat).
    { clear. induction s as [|x s IH]; cbn; [lia|].
      destruct (Js.is_space x); cbn; lia. }
    rewrite H in Hlen. cbn in Hlen. lia.
  - intros _. destruct (Js.trimEnd s); cbn; rewrite Hc; reflexivity.
Qed.

Lemma trim_idem (s : string) : Js.trim (Js.trim s) = Js.trim s.
Proof.
  unfold Js.trim.
  rewrite (trimStart_trimEnd (Js.trimStart s) (trimStart_idem s)).
  apply trimEnd_idem.
Qed.

(** *** Slugs *)

Lemma join_cons2 (sep x y : string) (l : list string) :
  join sep (x :: y :: l) = x ++ sep ++ join sep (y :: l).
Proof. reflexivity. Qed.

(** Joining the segments of a split gives the text back. *)
Lemma join_split (sep : ascii) (s : string) :
  join (String sep "") (Js.split sep s) = s.
Proof.
  induction s as [|c s IH]; [reflexivity|].
  destruct (Js.split sep s) as [|seg rest] eqn:Hs;
    [exfalso; exact (split_not_nil _ _ Hs)|].
  destruct (Ascii.eqb_spec c sep) as [->|Hc].
  - rewrite split_sep, Hs, join_cons2, IH. reflexivity.
  - rewrite (split_other sep c s seg rest Hc Hs).
    destruct rest as [|r rest].
    + cbn in IH |- *. rewrite IH. reflexivity.
    + rewrite join_cons2 in IH |- *. rewrite append_cons, IH. reflexivity.
Qed.

Lemma split_no_sep (sep : ascii) (w : string) :
  all_chars (fun c => negb (Ascii.eqb c sep)) w = true ->
  Js.split sep w = [w].
Proof.
  induction w as [|c w IH]; [reflexivity|]. cbn [all_chars]. intros H.
  apply andb_true_iff in H as [Hc Hw].
  apply negb_true_iff, Ascii.eqb_neq in Hc.
  exact (split_other sep c w w [] Hc (IH Hw)).
Qed.

Lemma lower_or_digit_not_dash (c : ascii) :
  lower_or_digit c = true -> negb (Ascii.eqb c "-") = true.
Proof.
  destruct c as [[] [] [] [] [] [] [] []]; intros H;
    first [reflexivity|discriminate H].
Qed.

Lemma word_closed (w : string) :
  all_chars lower_or_digit w = true -> Js.split "-" w = [w].
Proof.
  intros H. apply split_no_sep.
  exact (all_chars_weaken _ _ w lower_or_digit_not_dash H).
Qed.

Lemma kebab_from_split (s : string) :
  (kebab_from true s = true <-> Forall slug_word (Js.split "-" s)) /\
  (kebab_from false s = true <->
   match Js.split "-" s with
   | seg :: rest =>
       all_chars lower_or_digit seg = true /\ Forall slug_word rest
   | [] => False
   end).
Proof.
  induction s as [|c s [IHt IHf]].
  - cbn. split; split; try discriminate.
    + intros H. apply Forall_cons in H as [[H _] _]. contradiction.
    + intros _. split; [reflexivity|constructor].
    + reflexivity.
  - destruct (Js.split "-" s) as [|seg rest] eqn:Hs;
      [exfalso; exact (split_not_nil _ _ Hs)|].
    cbn [kebab_from]. destruct (Ascii.eqb_spec c "-") as [->|Hc].
    + rewrite split_sep, Hs. cbn [negb andb]. split.
      * split; [discriminate|]. intros H.
        apply Forall_cons in H as [[H _] _]. contradiction.
      * rewrite IHt. split; [intros H; split; [reflexivity|exact H]|].
        intros [_ H]. exact H.
    + rewrite (split_other "-" c s seg rest Hc Hs).
      unfold slug_word in *. cbn [all_chars].
      destruct (lower_or_digit c) eqn:Hl; cbn [andb].
      * split; [|exact IHf]. split.
        -- intros H. apply IHf in H as [Hseg Hrest].
           constructor; [|exact Hrest]. split; [discriminate|].
           cbn [all_chars]. rewrite Hl. exact Hseg.
        -- intros H. apply Forall_cons in H as [[_ Hseg] Hrest].
           cbn [all_chars] in Hseg. rewrite Hl in Hseg.
           apply IHf. split; assumption.
      * split; split; try discriminate.
        -- intros H. apply Forall_cons in H as [[_ H] _].
           cbn [all_chars] in H. rewrite Hl in H. discriminate.
        -- intros [H _]. discriminate.
Qed.

Lemma dash_words_split (t : string) :
  matches (Star (Seq (Lit "-") (Plus (Class lower_or_digit)))) t ->
  exists segs,
    Forall slug_word segs /\
    forall w, all_chars lower_or_digit w = true ->
              Js.split "-" (w ++ t) = w :: segs.
Proof.
  intros H.
  remember (Star (Seq (Lit "-") (Plus (Class lower_or_digit)))) as r eqn:Hr.
  induction H as [| | | | |r0|r0 s1 s2 H1 _ H2 IH2]; try discriminate.
  - exists []. split; [constructor|]. intros w Hw.
    rewrite append_empty. apply word_closed. exact Hw.
  - injection Hr as ->. destruct (IH2 eq_refl) as (segs & Hsegs & Hsplit).
    inversion H1 as [| |r1 r2 d w1 Hd Hw1| | | |]; subst.
    inversion Hd as [|p c Hc| | | | |]; subst.
    apply Ascii.eqb_eq in Hc. subst c.
    apply matches_plus_class in Hw1 as [Hne Hall].
    exists (w1 :: segs). split; [constructor; [split|]; assumption|].
    intros w Hw. rewrite append_assoc.
    change (String "-" "" ++ w1 ++ s2) with (String "-" (w1 ++ s2)).
    rewrite (split_closed_app "-" w (w1 ++ s2) (word_closed w Hw)).
    rewrite (Hsplit w1 Hall). reflexivity.
Qed.

Lemma words_match (rest : list string) :
  Forall slug_word rest ->
  matches (Star (Seq (Lit "-") (Plus (Class lower_or_digit))))
    (match rest with
     | [] => ""
     | _ => "-" ++ join "-" rest
     end).
Proof.
  induction 1 as [|w rest [Hne Hall] Hrest IH]; [constructor|].
  assert (Hw : matches (Seq (Lit "-") (Plus (Class lower_or_digit)))
                 ("-" ++ w)).
  { constructor; [constructor; reflexivity|].
    apply matches_plus_class. split; assumption. }
  destruct rest as [|w2 rest].
  - cbn [join]. rewrite <- (append_empty ("-" ++ w)).
    apply matches_star_more; [exact Hw|constructor].
  - rewrite join_cons2, <- append_assoc.
    apply matches_star_more; [exact Hw|exact IH].
Qed.

Lemma kebab_regex_split (s : string) :
  matches kebabCaseRegex s <-> Forall slug_word (Js.split "-" s).
Proof.
  unfold kebabCaseRegex. split.
  - intros H. inversion H as [| |r1 r2 w t Hw Ht| | | |]; subst.
    apply matches_plus_class in Hw as [Hne Hall].
    destruct (dash_words_split t Ht) as (segs & Hsegs & Hsplit).
    rewrite (Hsplit w Hall). constructor; [split|]; assumption.
  - intros H. pose proof (join_split "-" s) as Hj.
    destruct (Js.split "-" s) as [|w rest] eqn:Hsp;
      [exfalso; exact (split_not_nil _ _ Hsp)|].
    rewrite <- Hj. clear Hj Hsp.
    apply Forall_cons in H as [[Hne Hall] Hrest].
    pose proof (words_match rest Hrest) as Htail.
    destruct rest as [|w2 rest].
    + cbn [join]. rewrite <- (append_empty w).
      constructor; [apply matches_plus_class; split; assumption|exact Htail].
    + rewrite join_cons2.
      constructor; [apply matches_plus_class; split; assumption|exact Htail].
Qed.

(** X13: a slug is valid exactly when, cut at its dashes, it falls into
    words that are not empty and consist of lower-case letters and digits
    (so: no upper case, no dash at either end, no two dashes in a row, and
    not the empty text). *)
Theorem isValidSlug_words (slug : string) :
  isValidSlug slug = true <-> Forall slug_word (Js.split "-" slug).
Proof.
  unfold isValidSlug. rewrite test_matches. apply kebab_regex_split.
Qed.

Lemma isValidSlug_kebab (s : string) :
  isValidSlug s = true <-> kebab_from true s = true.
Proof.
  unfold isValidSlug.
  rewrite test_matches, kebab_regex_split. symmetry.
  apply kebab_from_split.
Qed.

(** The examples of the project's own tests. *)
Example isValidSlug_accepts :
  forallb isValidSlug
    ["hello-world"; "my-article-title"; "test123"; "a-b-c-d"; "single";
     "article-1"] = true.
Proof. vm_compute. reflexivity. Qed.

Example isValidSlug_rejects :
  existsb isValidSlug
    [""; "Hello-World"; "hello_world"; "hello world"; "-hello"; "hello-";
     "hello--world"; "hello/world"] = false.
Proof. vm_compute. reflexivity. Qed.

(** *** [toKebabCase] *)

Lemma all_chars_lower (s : string) :
  all_chars (fun c => negb (is_upper c)) (Js.toLowerCase s) = true.
Proof.
  induction s as [|c s IH]; [reflexivity|]. cbn.
  rewrite lower_not_upper, IH. reflexivity.
Qed.

Lemma all_chars_trimStart (p : ascii -> bool) (s : string) :
  all_chars p s = true -> all_chars p (Js.trimStart s) = true.
Proof.
  induction s as [|c s IH]; [reflexivity|]. cbn. intros H.
  destruct (Js.is_space c); [|exact H].
  apply andb_true_iff in H as [_ H]. auto.
Qed.

Lemma all_chars_trimEnd (p : ascii -> bool) (s : string) :
  all_chars p s = true -> all_chars p (Js.trimEnd s) = true.
Proof.
  induction s as [|c s IH]; [reflexivity|]. rewrite trimEnd_cons.
  cbn [all_chars]. intros H. apply andb_true_iff in H as [Hc Hs].
  specialize (IH Hs). destruct (Js.trimEnd s) as [|x t].
  - destruct (Js.is_space c); [reflexivity|]. cbn. rewrite Hc. reflexivity.
  - cbn [all_chars] in IH |- *. rewrite Hc, IH. reflexivity.
Qed.

Lemma all_chars_trim (p : ascii -> bool) (s : string) :
  all_chars p s = true -> all_chars p (Js.trim s) = true.
Proof.
  intros H. unfold Js.trim. apply all_chars_trimEnd, all_chars_trimStart, H.
Qed.

Lemma all_chars_remove (p q : ascii -> bool) (s : string) :
  all_chars q s = true ->
  all_chars (fun c => q c && negb (p c)) (remove_chars p s) = true.
Proof.
  induction s as [|c s IH]; [reflexivity|]. cbn. intros H.
  apply andb_true_iff in H as [Hc Hs].
  destruct (p c) eqn:Hp; [auto|]. cbn. rewrite Hc, Hp, IH; auto.
Qed.

Lemma all_chars_replace_runs (p q : ascii -> bool) (b : ascii) (s : string) :
  all_chars q s = true ->
  all_chars (fun c => Ascii.eqb c b || (q c && negb (p c)))
    (replace_runs p b s) = true.
Proof.
  induction s as [|c s IH]; [reflexivity|]. cbn [all_chars replace_runs].
  intros H. apply andb_true_iff in H as [Hc Hs]. specialize (IH Hs).
  destruct (p c) eqn:Hp.
  - destruct s as [|c' s]; [cbn; rewrite Ascii.eqb_refl; reflexivity|].
    destruct (p c'); [exact IH|].
    cbn [all_chars]. rewrite Ascii.eqb_refl. exact IH.
  - cbn [all_chars]. rewrite Hc, Hp, IH, orb_true_r. reflexivity.
Qed.

Lemma all_chars_drop_first (p : ascii -> bool) (c : ascii) (s : string) :
  all_chars p s = true -> all_chars p (drop_first_if c s) = true.
Proof.
  destruct s as [|x s]; [reflexivity|]. cbn. intros H.
  destruct (Ascii.eqb x c); [|exact H].
  apply andb_true_iff in H as [_ H]. exact H.
Qed.

Lemma drop_last_cons (c x y : ascii) (s : string) :
  drop_last_if c (String x (String y s))
  = String x (drop_last_if c (String y s)).
Proof. reflexivity. Qed.

Lemma all_chars_drop_last (p : ascii -> bool) (c : ascii) (s : string) :
  all_chars p s = true -> all_chars p (drop_last_if c s) = true.
Proof.
  induction s as [|x s IH]; [reflexivity|]. intros H.
  destruct s as [|y s].
  - cbn. destruct (Ascii.eqb x c); [reflexivity|exact H].
  - rewrite drop_last_cons. cbn [all_chars] in H |- *.
    apply andb_true_iff in H as [Hx Hs]. rewrite Hx, IH; auto.
Qed.

Lemma kept_lowered_class (c : ascii) :
  negb (is_upper c) && negb (not_kept c) = true ->
  lower_or_digit c || Js.is_space c || Ascii.eqb c "-" || Ascii.eqb c "_"
  = true.
Proof.
  destruct c as [[] [] [] [] [] [] [] []]; intros H;
    first [reflexivity|discriminate H].
Qed.

Lemma dashed_class (c : ascii) :
  Ascii.eqb c "-" ||
  ((lower_or_digit c || Js.is_space c || Ascii.eqb c "-" || Ascii.eqb c "_")
   && negb (space_or_underscore c)) = true ->
  slug_char c = true.
Proof.
  destruct c as [[] [] [] [] [] [] [] []]; intros H;
    first [reflexivity|discriminate H].
Qed.

Lemma collapsed_class (c : ascii) :
  Ascii.eqb c "-" || (slug_char c && negb (Ascii.eqb "-" c)) = true ->
  slug_char c = true.
Proof.
  destruct c as [[] [] [] [] [] [] [] []]; intros H;
    first [reflexivity|discriminate H].
Qed.

Lemma no_double_replace_runs (s : string) :
  no_double "-" (replace_runs (Ascii.eqb "-") "-" s) = true.
Proof.
  induction s as [|c s IH]; [reflexivity|]. cbn [replace_runs].
  destruct (Ascii.eqb_spec "-" c) as [<-|Hc].
  - destruct s as [|c' s]; [reflexivity|].
    destruct (Ascii.eqb_spec "-" c') as [<-|Hc']; [exact IH|].
    cbn [replace_runs] in IH |- *.
    destruct (Ascii.eqb_spec "-" c') as [|_]; [contradiction|].
    cbn [no_double] in IH |- *.
    destruct (Ascii.eqb_spec c' "-") as [->|_]; [contradiction|].
    rewrite andb_false_r. exact IH.
  - destruct (replace_runs (Ascii.eqb "-") "-" s) as [|y t] eqn:Hr;
      [reflexivity|].
    cbn [no_double] in *.
    destruct (Ascii.eqb_spec c "-") as [->|_]; [contradiction|]. exact IH.
Qed.

Lemma no_double_cons2 (c x y : ascii) (s : string) :
  no_double c (String x (String y s))
  = negb (Ascii.eqb x c && Ascii.eqb y c) && no_double c (String y s).
Proof. reflexivity. Qed.

Lemma no_double_tail (c x : ascii) (s : string) :
  no_double c (String x s) = true -> no_double c s = true.
Proof.
  destruct s as [|y s]; [reflexivity|]. cbn [no_double]. intros H.
  apply andb_true_iff in H as [_ H]. exact H.
Qed.

Lemma no_double_drop_first (c : ascii) (s : string) :
  no_double c s = true -> no_double c (drop_first_if c s) = true.
Proof.
  destruct s as [|x s]; [reflexivity|]. intros H. cbn [drop_first_if].
  destruct (Ascii.eqb x c); [exact (no_double_tail c x s H)|exact H].
Qed.

Lemma no_double_drop_last (c : ascii) (s : string) :
  no_double c s = true -> no_double c (drop_last_if c s) = true.
Proof.
  induction s as [|x s IH]; [reflexivity|]. intros H.
  destruct s as [|y s].
  - cbn. destruct (Ascii.eqb x c); reflexivity.
  - rewrite drop_last_cons. specialize (IH (no_double_tail c x _ H)).
    destruct (drop_last_if c (String y s)) as [|z t] eqn:Hd; [reflexivity|].
    assert (Hz : z = y).
    { destruct s as [|y2 s]; cbn in Hd.
      - destruct (Ascii.eqb y c); [discriminate|]. congruence.
      - congruence. }
    subst z. rewrite no_double_cons2 in H |- *.
    apply andb_true_iff in H as [Hxy _]. rewrite Hxy, IH. reflexivity.
Qed.

(** Dropping a dash at the start of a text without two dashes in a row
    leaves no dash at the start. *)
Lemma drop_first_twice (s : string) :
  no_double "-" s = true ->
  drop_first_if "-" (drop_first_if "-" s) = drop_first_if "-" s.
Proof.
  destruct s as [|x s]; [reflexivity|]. cbn [drop_first_if].
  destruct (Ascii.eqb_spec x "-") as [->|Hx].
  - destruct s as [|y s]; [reflexivity|]. cbn [no_double drop_first_if].
    destruct (Ascii.eqb_spec y "-") as [->|_]; [discriminate|reflexivity].
  - intros _. cbn [drop_first_if].
    destruct (Ascii.eqb_spec x "-"); [contradiction|reflexivity].
Qed.

Lemma drop_last_twice (s : string) :
  no_double "-" s = true ->
  drop_last_if "-" (drop_last_if "-" s) = drop_last_if "-" s.
Proof.
  induction s as [|x s IH]; [reflexivity|]. intros H.
  destruct s as [|y s].
  - cbn. destruct (Ascii.eqb_spec x "-") as [->|Hx]; [reflexivity|].
    cbn. destruct (Ascii.eqb_spec x "-"); [contradiction|reflexivity].
  - rewrite drop_last_cons. specialize (IH (no_double_tail _ _ _ H)).
    destruct (drop_last_if "-" (String y s)) as [|z t] eqn:Hd.
    + (* the tail was a single dash, so [x] is not one *)
      destruct s as [|y2 s]; [|rewrite drop_last_cons in Hd; discriminate].
      cbn in Hd. destruct (Ascii.eqb_spec y "-") as [Hy|Hy]; [|discriminate].
      rewrite Hy in H. rewrite no_double_cons2 in H. cbn.
      destruct (Ascii.eqb_spec x "-") as [Hx|Hx]; [|reflexivity].
      vm_compute in H. discriminate.
    + rewrite drop_last_cons, IH. reflexivity.
Qed.

Lemma drop_last_keeps_start (s : string) :
  drop_first_if "-" s = s ->
  drop_first_if "-" (drop_last_if "-" s) = drop_last_if "-" s.
Proof.
  destruct s as [|x s]; [reflexivity|]. cbn [drop_first_if].
  destruct (Ascii.eqb_spec x "-") as [->|Hx].
  - intros H. exfalso.
    assert (Hl : String.length s = String.length (String "-" s))
      by (rewrite <- H; reflexivity).
    cbn in Hl. lia.
  - intros _. destruct s as [|y s].
    + cbn. destruct (Ascii.eqb_spec x "-"); [contradiction|].
      cbn. destruct (Ascii.eqb_spec x "-"); [contradiction|reflexivity].
    + rewrite drop_last_cons. cbn [drop_first_if].
      destruct (Ascii.eqb_spec x "-"); [contradiction|reflexivity].
Qed.

Lemma slug_char_cases (c : ascii) :
  slug_char c = true -> c <> "-"%char -> lower_or_digit c = true.
Proof.
  unfold slug_char. intros H Hc. apply orb_true_iff in H as [H|H]; [exact H|].
  apply Ascii.eqb_eq in H. contradiction.
Qed.

(** A text of slug characters without two dashes in a row and without a
    dash at the end is in kebab case from any point where no word has to
    begin; and from the start, if it is not empty and begins with no
    dash. *)
Lemma kebab_from_shape (s : string) :
  all_chars slug_char s = true -> no_double "-" s = true ->
  drop_last_if "-" s = s ->
  kebab_from false s = true /\
  (drop_first_if "-" s = s -> s <> "" -> kebab_from true s = true).
Proof.
  induction s as [|c s IH]; intros Hall Hnd Hlast.
  - split; [reflexivity|]. intros _ H. contradiction.
  - cbn [all_chars] in Hall. apply andb_true_iff in Hall as [Hc Hs].
    assert (Hlast' : drop_last_if "-" s = s).
    { destruct s as [|y s]; [reflexivity|].
      rewrite drop_last_cons in Hlast. congruence. }
    destruct (IH Hs (no_double_tail _ _ _ Hnd) Hlast') as [IHf IHt].
    cbn [kebab_from]. destruct (Ascii.eqb_spec c "-") as [->|Hne].
    + assert (Hst : kebab_from true s = true).
      { destruct s as [|y s].
        - cbn in Hlast. discriminate.
        - apply IHt; [|discriminate]. cbn [no_double] in Hnd.
          cbn [drop_first_if].
          destruct (Ascii.eqb_spec y "-") as [->|]; [discriminate|].
          reflexivity. }
      split; [exact Hst|]. intros Hfirst. exfalso.
      cbn in Hfirst.
      assert (Hl : String.length s = String.length (String "-" s))
        by (rewrite <- Hfirst; reflexivity).
      cbn in Hl. lia.
    + rewrite (slug_char_cases c Hc Hne), IHf. split; [reflexivity|].
      intros _ _. reflexivity.
Qed.

Lemma toKebabCase_shape (str : string) :
  toKebabCase str = "" \/ kebab_from true (toKebabCase str) = true.
Proof.
  unfold toKebabCase.
  set (t1 := remove_chars not_kept (Js.trim (Js.toLowerCase str))).
  set (t2 := replace_runs space_or_underscore "-" t1).
  set (t3 := replace_runs (Ascii.eqb "-") "-" t2).
  assert (H1 : all_chars
                 (fun c => lower_or_digit c || Js.is_space c ||
                           Ascii.eqb c "-" || Ascii.eqb c "_") t1 = true).
  { apply (all_chars_weaken _ _ t1 kept_lowered_class).
    apply all_chars_remove, all_chars_trim, all_chars_lower. }
  assert (H2 : all_chars slug_char t2 = true).
  { apply (all_chars_weaken _ _ t2 dashed_class).
    apply all_chars_replace_runs. exact H1. }
  assert (H3 : all_chars slug_char t3 = true).
  { apply (all_chars_weaken _ _ t3 collapsed_class).
    apply all_chars_replace_runs. exact H2. }
  assert (Hn3 : no_double "-" t3 = true) by apply no_double_replace_runs.
  set (t4 := drop_first_if "-" t3).
  assert (H4 : all_chars slug_char t4 = true)
    by (apply all_chars_drop_first; exact H3).
  assert (Hn4 : no_double "-" t4 = true)
    by (apply no_double_drop_first; exact Hn3).
  assert (Hf4 : drop_first_if "-" t4 = t4) by (apply drop_first_twice, Hn3).
  destruct (kebab_from_shape (drop_last_if "-" t4)) as [_ Hk].
  - apply all_chars_drop_last. exact H4.
  - apply no_double_drop_last. exact Hn4.
  - apply drop_last_twice. exact Hn4.
  - destruct (drop_last_if "-" t4) as [|x t] eqn:Hd; [left; reflexivity|].
    right. apply Hk; [|discriminate]. rewrite <- Hd.
    apply drop_last_keeps_start. exact Hf4.
Qed.

(** X14: whatever the text, [toKebabCase] gives the empty text or a valid
    slug. *)
Theorem toKebabCase_is_slug (str : string) :
  toKebabCase str = "" \/ isValidSlug (toKebabCase str) = true.
Proof.
  destruct (toKebabCase_shape str) as [H|H]; [left; exact H|].
  right. apply isValidSlug_kebab. exact H.
Qed.

Lemma kebab_from_chars (s : string) : forall start,
  kebab_from start s = true -> all_chars slug_char s = true.
Proof.
  induction s as [|c s IH]; intros start H; [reflexivity|].
  cbn [kebab_from] in H. cbn [all_chars]. unfold slug_char at 1.
  destruct (Ascii.eqb c "-").
  - apply andb_true_iff in H as [_ H]. rewrite orb_true_r. exact (IH _ H).
  - apply andb_true_iff in H as [Hc H]. rewrite Hc. exact (IH _ H).
Qed.

Lemma slug_char_plain (c : ascii) :
  slug_char c = true ->
  is_upper c = false /\ Js.is_space c = false /\ not_kept c = false /\
  space_or_underscore c = false.
Proof.
  destruct c as [[] [] [] [] [] [] [] []]; intros H;
    first [repeat split; reflexivity|discriminate H].
Qed.

Lemma toLowerCase_fixes (s : string) :
  all_chars slug_char s = true -> Js.toLowerCase s = s.
Proof.
  induction s as [|c s IH]; [reflexivity|]. cbn. intros H.
  apply andb_true_iff in H as [Hc Hs].
  destruct (slug_char_plain c Hc) as (Hu & _).
  rewrite (lower_fixes c Hu), IH; auto.
Qed.

Lemma trimStart_fixes (s : string) :
  all_chars slug_char s = true -> Js.trimStart s = s.
Proof.
  destruct s as [|c s]; [reflexivity|]. cbn. intros H.
  apply andb_true_iff in H as [Hc _].
  destruct (slug_char_plain c Hc) as (_ & Hsp & _). rewrite Hsp. reflexivity.
Qed.

Lemma trimEnd_fixes (s : string) :
  all_chars slug_char s = true -> Js.trimEnd s = s.
Proof.
  induction s as [|c s IH]; [reflexivity|]. rewrite trimEnd_cons.
  cbn [all_chars]. intros H. apply andb_true_iff in H as [Hc Hs].
  rewrite (IH Hs). destruct (slug_char_plain c Hc) as (_ & Hsp & _).
  destruct s; [rewrite Hsp|]; reflexivity.
Qed.

Lemma remove_chars_fixes (p : ascii -> bool) (s : string) :
  all_chars (fun c => negb (p c)) s = true -> remove_chars p s = s.
Proof.
  induction s as [|c s IH]; [reflexivity|]. cbn. intros H.
  apply andb_true_iff in H as [Hc Hs]. apply negb_true_iff in Hc.
  rewrite Hc, IH; auto.
Qed.

Lemma replace_runs_fixes (p : ascii -> bool) (b : ascii) (s : string) :
  all_chars (fun c => negb (p c)) s = true -> replace_runs p b s = s.
Proof.
  induction s as [|c s IH]; [reflexivity|]. cbn [all_chars replace_runs].
  intros H. apply andb_true_iff in H as [Hc Hs]. apply negb_true_iff in Hc.
  rewrite Hc, IH; auto.
Qed.

Lemma collapse_fixes (s : string) : forall start,
  kebab_from start s = true -> replace_runs (Ascii.eqb "-") "-" s = s.
Proof.
  induction s as [|c s IH]; intros start H; [reflexivity|].
  cbn [kebab_from] in H. cbn [replace_runs].
  destruct (Ascii.eqb_spec c "-") as [->|Hc].
  - apply andb_true_iff in H as [_ H]. rewrite Ascii.eqb_refl.
    destruct s as [|c' s]; [reflexivity|].
    cbn [kebab_from] in H.
    destruct (Ascii.eqb_spec c' "-") as [->|Hc']; [discriminate|].
    destruct (Ascii.eqb_spec "-" c') as [<-|_]; [contradiction|].
    rewrite (IH true); [reflexivity|]. cbn [kebab_from].
    destruct (Ascii.eqb_spec c' "-"); [contradiction|exact H].
  - apply andb_true_iff in H as [_ H].
    destruct (Ascii.eqb_spec "-" c) as [<-|_]; [contradiction|].
    rewrite (IH false H). reflexivity.
Qed.

Lemma drop_last_fixes (s : string) : forall start,
  kebab_from start s = true -> drop_last_if "-" s = s.
Proof.
  induction s as [|c s IH]; intros start H; [reflexivity|].
  cbn [kebab_from] in H. destruct s as [|y s].
  - cbn. destruct (Ascii.eqb_spec c "-"); [|reflexivity].
    cbn in H. rewrite andb_false_r in H. discriminate.
  - rewrite drop_last_cons.
    destruct (Ascii.eqb c "-"); apply andb_true_iff in H as [_ H];
      rewrite (IH _ H); reflexivity.
Qed.

Lemma kebab_fixed (s : string) :
  kebab_from true s = true -> toKebabCase s = s.
Proof.
  intros H. pose proof (kebab_from_chars s true H) as Hall.
  unfold toKebabCase. rewrite (toLowerCase_fixes s Hall).
  unfold Js.trim. rewrite (trimStart_fixes s Hall), (trimEnd_fixes s Hall).
  rewrite (remove_chars_fixes not_kept s)
    by (apply (all_chars_weaken slug_char); [|exact Hall];
        intros c Hc; destruct (slug_char_plain c Hc) as (_ & _ & -> & _);
        reflexivity).
  rewrite (replace_runs_fixes space_or_underscore "-" s)
    by (apply (all_chars_weaken slug_char); [|exact Hall];
        intros c Hc; destruct (slug_char_plain c Hc) as (_ & _ & _ & ->);
        reflexivity).
  rewrite (collapse_fixes s true H).
  assert (Hfirst : drop_first_if "-" s = s).
  { destruct s as [|c s]; [reflexivity|]. cbn [kebab_from] in H.
    cbn [drop_first_if]. destruct (Ascii.eqb c "-"); [discriminate|].
    reflexivity. }
  rewrite Hfirst. exact (drop_last_fixes s true H).
Qed.

(** X15: [toKebabCase] leaves a valid slug as it is, and so applying it a
    second time changes nothing. *)
Theorem toKebabCase_settles (str : string) :
  (isValidSlug str = true -> toKebabCase str = str) /\
  toKebabCase (toKebabCase str) = toKebabCase str.
Proof.
  split.
  - intros H. apply kebab_fixed, isValidSlug_kebab, H.
  - destruct (toKebabCase_shape str) as [H|H].
    + rewrite H. reflexivity.
    + apply kebab_fixed. exact H.
Qed.

(** The examples of the project's own tests. *)
Example toKebabCase_examples :
  map toKebabCase
    ["Hello World"; "camelCaseString"; "  spaces  around  "; "UPPER CASE";
     "with_underscores"; "Hello! World?"; "test@example#com";
     "multiple   spaces"; "multiple---hyphens"]
  = ["hello-world"; "camelcasestring"; "spaces-around"; "upper-case";
     "with-underscores"; "hello-world"; "testexamplecom";
     "multiple-spaces"; "multiple-hyphens"].
Proof. vm_compute. reflexivity. Qed.

(** *** The Idempotency-Key header and UUIDs *)

Lemma isValidIdempotencyKey_chars_aux (k : string) :
  (1 <= String.length k <= 255)%nat -> all_chars key_char k = true ->
  isValidIdempotencyKey (Some k) = true.
Proof.
  intros Hlen Hall. unfold isValidIdempotencyKey.
  destruct k as [|c k]; [cbn in Hlen; lia|]. cbn [Js.truthy negb].
  destruct (Nat.eqb_spec (String.length (String c k)) 0);
    [cbn in *; lia|].
  destruct (Nat.ltb_spec 255 (String.length (String c k))); [lia|].
  cbn [orb]. apply test_matches, matches_plus_class.
  split; [discriminate|exact Hall].
Qed.

(** X16: a header value is accepted as an idempotency key exactly when it
    has between 1 and 255 characters, all of them letters, digits, dashes
    or underscores; an absent header is not a valid key. *)
Theorem isValidIdempotencyKey_chars (key : option string) :
  isValidIdempotencyKey key = true <->
  exists k, key = Some k /\ (1 <= String.length k <= 255)%nat /\
            all_chars key_char k = true.
Proof.
  unfold isValidIdempotencyKey. split.
  - destruct key as [k|]; [|discriminate].
    destruct (Js.truthy k); [|discriminate]. cbn [negb].
    destruct (Nat.eqb_spec (String.length k) 0); [discriminate|].
    destruct (Nat.ltb_spec 255 (String.length k)); [discriminate|].
    cbn [orb]. intros Hm.
    apply test_matches, matches_plus_class in Hm as [_ Hm].
    exists k. split; [reflexivity|]. split; [lia|exact Hm].
  - intros (k & -> & Hlen & Hall).
    apply isValidIdempotencyKey_chars_aux; assumption.
Qed.

Lemma hex_is_key_char : classes_within key_char uuidRegex = true.
Proof. vm_compute. reflexivity. Qed.

Lemma uuid_fixed_length : fixed_length uuidRegex = Some 36%nat.
Proof. vm_compute. reflexivity. Qed.

(** X17: every text [isValidUUID] accepts has 36 characters and is a valid
    idempotency key, as the comment in the code promises. *)
Theorem uuid_is_valid_key (uuid : string) :
  isValidUUID uuid = true ->
  String.length uuid = 36%nat /\ isValidIdempotencyKey (Some uuid) = true.
Proof.
  unfold isValidUUID. intros H. apply test_matches in H.
  pose proof (matches_fixed_length _ _ H 36%nat uuid_fixed_length) as Hlen.
  pose proof (matches_within key_char _ _ H hex_is_key_char) as Hall.
  split; [exact Hlen|].
  apply isValidIdempotencyKey_chars_aux; [lia|exact Hall].
Qed.

Lemma uuid_is_valid_key_witness :
  String.length "550e8400-e29b-41d4-a716-446655440000" = 36%nat /\
  isValidIdempotencyKey (Some "550e8400-e29b-41d4-a716-446655440000") = true.
Proof.
  apply (uuid_is_valid_key "550e8400-e29b-41d4-a716-446655440000").
  vm_compute. reflexivity.
Defined.

(** The examples of the project's own tests. *)
Example isValidUUID_examples :
  map isValidUUID
    ["550e8400-e29b-41d4-a716-446655440000";
     "6ba7b810-9dad-11d1-80b4-00c04fd430c8";
     "f47ac10b-58cc-4372-a567-0e02b2c3d479";
     ""; "invalid-uuid"; "550e8400-e29b-41d4-a716";
     "550e8400-e29b-41d4-a716-446655440000-extra";
     "550e8400e29b41d4a716446655440000";
     "gggggggg-gggg-gggg-gggg-gggggggggggg"]
  = [true; true; true; false; false; false; false; false; false].
Proof. vm_compute. reflexivity. Qed.

Example isValidEmail_examples :
  map isValidEmail
    ["test@example.com"; "user.name@domain.org"; "user+tag@sub.domain.com";
     "a@b.co"; ""; "invalid"; "invalid@"; "@domain.com"; "user@";
     "user name@domain.com"; "user@domain"]
  = [true; true; true; true; false; false; false; false; false; false;
     false].
Proof. vm_compute. reflexivity. Qed.

(** *** Counting words *)

Lemma split_ws_not_nil (s : string) : split_ws s <> [].
Proof.
  induction s as [|c s IH]; cbn; [discriminate|].
  destruct (Js.is_space c).
  - destruct s as [|c' s]; [discriminate|].
    destruct (Js.is_space c'); [exact IH|discriminate].
  - destruct (split_ws s); discriminate.
Qed.

Lemma words_from_space (c : ascii) (s : string) (b : bool) :
  Js.is_space c = true -> words_from b (String c s) = words_from false s.
Proof. intros H. cbn. rewrite H. reflexivity. Qed.

Lemma trimEnd_fixed_tail (c : ascii) (s : string) :
  Js.trimEnd (String c s) = String c s ->
  Js.trimEnd s = s /\ (s = "" -> Js.is_space c = false).
Proof.
  rewrite trimEnd_cons. destruct (Js.trimEnd s) as [|x t] eqn:Ht.
  - destruct (Js.is_space c) eqn:Hc; [discriminate|].
    intros [= <-]. split; [exact Ht|reflexivity].
  - intros [= <-]. split; [reflexivity|discriminate].
Qed.

(** The texts between the runs of white space of a text that ends in none
    are one more than its words, when a word is under way at its start. *)
Lemma split_ws_words (s : string) :
  Js.trimEnd s = s ->
  Z.of_nat (List.length (split_ws s)) = words_from true s + 1.
Proof.
  induction s as [|c s IH]; [reflexivity|]. intros Hfix.
  apply trimEnd_fixed_tail in Hfix as [Hs Hc]. specialize (IH Hs).
  cbn [split_ws words_from]. destruct (Js.is_space c) eqn:Hsp.
  - destruct s as [|c' s]; [specialize (Hc eq_refl); discriminate|].
    cbn [words_from] in IH |- *. destruct (Js.is_space c') eqn:Hsp'.
    + exact IH.
    + cbn [List.length]. lia.
  - destruct (split_ws s) as [|seg rest] eqn:Hw;
      [exfalso; exact (split_ws_not_nil _ Hw)|].
    cbn [List.length] in IH |- *. lia.
Qed.

Lemma words_blank (s : string) (b : bool) :
  Js.trimEnd s = "" -> words_from b s = 0.
Proof.
  revert b. induction s as [|c s IH]; intros b; [reflexivity|].
  rewrite trimEnd_cons. destruct (Js.trimEnd s) as [|x t] eqn:Ht;
    [|discriminate].
  destruct (Js.is_space c) eqn:Hc; [|discriminate]. intros _.
  cbn. rewrite Hc. apply IH. reflexivity.
Qed.

Lemma words_trimEnd (s : string) : forall b,
  words_from b (Js.trimEnd s) = words_from b s.
Proof.
  induction s as [|c s IH]; intros b; [reflexivity|]. rewrite trimEnd_cons.
  destruct (Js.trimEnd s) as [|x t] eqn:Ht.
  - destruct (Js.is_space c) eqn:Hc; cbn; rewrite Hc.
    + rewrite (words_blank s false Ht). reflexivity.
    + rewrite (words_blank s true Ht). reflexivity.
  - cbn [words_from]. rewrite <- !IH. reflexivity.
Qed.

Lemma words_trimStart (s : string) :
  words_from false (Js.trimStart s) = words_from false s.
Proof.
  induction s as [|c s IH]; [reflexivity|]. cbn.
  destruct (Js.is_space c) eqn:Hc; [exact IH|]. cbn. rewrite Hc. reflexivity.
Qed.

Lemma words_trim (s : string) :
  words_from false (Js.trim s) = words_from false s.
Proof. unfold Js.trim. rewrite words_trimEnd. apply words_trimStart. Qed.

Lemma trimStart_first (s : string) (c : ascii) (t : string) :
  Js.trimStart s = String c t -> Js.is_space c = false.
Proof.
  induction s as [|x s IH]; [discriminate|]. cbn.
  destruct (Js.is_space x) eqn:Hx; [exact IH|]. intros [= <- _]. exact Hx.
Qed.

Lemma countWords_word_count (text : string) :
  countWords text = word_count text.
Proof.
  unfold countWords, word_count. destruct text as [|c0 text0]; [reflexivity|].
  change (negb (Js.truthy (String c0 text0))) with false. cbv iota.
  set (text := String c0 text0).
  rewrite <- (words_trim text).
  destruct (decide (Js.trim text = "")) as [->|Hne]; [reflexivity|].
  rewrite split_ws_words by apply trimEnd_idem.
  destruct (Js.trim text) as [|c t] eqn:Ht; [contradiction|].
  assert (Hc : Js.is_space c = false).
  { assert (Hs : Js.trimStart (Js.trim text) = Js.trim text).
    { unfold Js.trim. apply trimStart_trimEnd, trimStart_idem. }
    rewrite Ht in Hs. exact (trimStart_first _ _ _ Hs). }
  cbn [words_from]. rewrite Hc. lia.
Qed.

Lemma words_from_app (a b : string) (c : ascii) : forall inside,
  Js.is_space c = true ->
  words_from inside (a ++ String c b)
  = words_from inside a + words_from false b.
Proof.
  induction a as [|x a IH]; intros inside Hc.
  - change ("" ++ String c b) with (String c b). cbn. rewrite Hc. lia.
  - rewrite append_cons. cbn [words_from].
    destruct (Js.is_space x); rewrite IH by exact Hc; lia.
Qed.

Lemma words_from_bounds (s : string) : forall inside,
  0 <= words_from inside s <= Z.of_nat (String.length s).
Proof.
  induction s as [|c s IH]; intros inside; [cbn; lia|].
  cbn [words_from String.length].
  destruct (Js.is_space c); [specialize (IH false)|specialize (IH true)];
    destruct inside; lia.
Qed.

(** X18: [countWords] counts the maximal runs of characters that are not
    white space. So it is 0 exactly on a text of white space only, never
    more than the number of characters, and the count of two texts put
    together with white space between them is the sum of their counts. *)
Theorem countWords_counts_runs (text a b : string) (c : ascii) :
  countWords text = word_count text /\
  0 <= countWords text <= Z.of_nat (String.length text) /\
  (countWords text = 0 <-> Js.trim text = "") /\
  (Js.is_space c = true ->
   countWords (a ++ String c b) = countWords a + countWords b).
Proof.
  split; [apply countWords_word_count|]. split; [|split].
  - rewrite countWords_word_count. apply words_from_bounds.
  - split.
    + unfold countWords. destruct (Js.truthy text) eqn:Ht; cbn [negb].
      * destruct (decide (Js.trim text = "")) as [He|Hne]; [auto|].
        intros H. pose proof (split_ws_not_nil (Js.trim text)) as Hnn.
        destruct (split_ws (Js.trim text)); [contradiction|].
        cbn [List.length] in H. exfalso. lia.
      * destruct text; [reflexivity|discriminate].
    + intros H. unfold countWords. destruct (Js.truthy text); cbn [negb];
        [|reflexivity].
      rewrite decide_True by exact H. reflexivity.
  - intros Hc. rewrite !countWords_word_count. unfold word_count.
    apply words_from_app. exact Hc.
Qed.

(** The examples of the project's own tests. *)
Example countWords_examples :
  map countWords
    ["hello world"; "one two three four five"; "single";
     "multiple   spaces   between"; "  leading and trailing spaces  ";
     ""; "   "]
  = [2; 5; 1; 3; 4; 0; 0].
Proof. vm_compute. reflexivity. Qed.

(** *** Tags *)

Lemma set_from_elem (l : list string) : forall seen x,
  x ∈ set_from seen l <-> x ∈ l /\ x ∉ seen.
Proof.
  induction l as [|y l IH]; intros seen x; cbn [set_from].
  - split; [intros H; inversion H|intros [H _]; inversion H].
  - destruct (decide (y ∈ seen)) as [Hy|Hy].
    + split.
      * intros H. apply IH in H as [H1 H2].
        split; [apply elem_of_cons; right; exact H1|exact H2].
      * intros [H1 H2]. apply IH. split; [|exact H2].
        apply elem_of_cons in H1 as [->|H1]; [contradiction|exact H1].
    + split.
      * intros H. apply elem_of_cons in H as [->|H].
        -- split; [apply elem_of_cons; left; reflexivity|exact Hy].
        -- apply IH in H as [H1 H2].
           apply not_elem_of_cons in H2 as [H2 H3].
           split; [apply elem_of_cons; right; exact H1|exact H3].
      * intros [H1 H2]. apply elem_of_cons.
        destruct (decide (x = y)) as [->|Hne]; [left; reflexivity|right].
        apply IH. apply elem_of_cons in H1 as [->|H1]; [contradiction|].
        split; [exact H1|]. apply not_elem_of_cons. split; assumption.
Qed.

Lemma set_from_nodup (l : list string) : forall seen,
  NoDup (set_from seen l).
Proof.
  induction l as [|y l IH]; intros seen; cbn [set_from]; [constructor|].
  destruct (decide (y ∈ seen)); [apply IH|].
  constructor; [|apply IH]. rewrite set_from_elem, not_elem_of_cons.
  intros [_ [H _]]. contradiction.
Qed.

Lemma set_from_fixes (l : list string) : forall seen,
  NoDup l -> (forall x, x ∈ l -> x ∉ seen) -> set_from seen l = l.
Proof.
  induction l as [|y l IH]; intros seen Hnd Hdis; [reflexivity|].
  apply NoDup_cons in Hnd as [Hy Hnd]. cbn [set_from].
  rewrite decide_False by (apply Hdis, elem_of_cons; left; reflexivity).
  f_equal. apply IH; [exact Hnd|]. intros x Hx.
  apply not_elem_of_cons. split.
  - intros ->. contradiction.
  - apply Hdis, elem_of_cons. right. exact Hx.
Qed.

Lemma filter_all {A} (p : A -> bool) (l : list A) :
  (forall x, x ∈ l -> p x = true) -> List.filter p l = l.
Proof.
  induction l as [|x l IH]; intros H; [reflexivity|]. cbn.
  rewrite (H x) by (apply elem_of_cons; left; reflexivity). f_equal.
  apply IH. intros y Hy. apply H, elem_of_cons. right. exact Hy.
Qed.

Lemma map_fixes {A} (f : A -> A) (l : list A) :
  (forall x, x ∈ l -> f x = x) -> map f l = l.
Proof.
  induction l as [|x l IH]; intros H; [reflexivity|]. cbn.
  rewrite (H x) by (apply elem_of_cons; left; reflexivity). f_equal.
  apply IH. intros y Hy. apply H, elem_of_cons. right. exact Hy.
Qed.

Lemma nonempty_length (t : string) :
  (0 <? String.length t)%nat = true <-> t <> "".
Proof.
  destruct t; cbn; split; try discriminate; try reflexivity.
  intros H. contradiction.
Qed.

Lemma normalizeTags_elem (tags : list string) (t : string) :
  t ∈ normalizeTags tags <->
  t <> "" /\ exists x, x ∈ tags /\ t = Js.toLowerCase (Js.trim x).
Proof.
  unfold normalizeTags, distinct.
  rewrite list_elem_of_In, filter_In, <- list_elem_of_In.
  rewrite set_from_elem, list_elem_of_fmap, nonempty_length. split.
  - intros [[(x & -> & Hx) _] Hne]. split; [exact Hne|]. exists x. auto.
  - intros [Hne (x & Hx & ->)]. split; [|exact Hne].
    split; [exists x; auto|apply not_elem_of_nil].
Qed.

Lemma normalizeTags_nodup (tags : list string) : NoDup (normalizeTags tags).
Proof.
  unfold normalizeTags, distinct.
  apply NoDup_ListNoDup, List.NoDup_filter, NoDup_ListNoDup, set_from_nodup.
Qed.

Lemma set_from_sublist (l : list string) :
  forall seen, sublist (set_from seen l) l.
Proof.
  induction l as [|x l IH]; intros seen; cbn [set_from]; [constructor|].
  destruct (decide (x ∈ seen)).
  - apply sublist_cons, IH.
  - apply sublist_skip, IH.
Qed.

Lemma filter_sublist {A} (p : A -> bool) (l : list A) :
  sublist (List.filter p l) l.
Proof.
  induction l as [|x l IH]; cbn [List.filter]; [constructor|].
  destruct (p x); [apply sublist_skip, IH|apply sublist_cons, IH].
Qed.

(** X19: [normalizeTags] gives each tag trimmed and in lower case, once,
    in the order of the list, and leaves out the empty ones; a list that
    went through it once goes through again unchanged. *)
Theorem normalizeTags_normal (tags : list string) :
  NoDup (normalizeTags tags) /\
  sublist (normalizeTags tags)
          (map (fun tag => Js.toLowerCase (Js.trim tag)) tags) /\
  (forall t, t ∈ normalizeTags tags <->
             t <> "" /\
             exists x, x ∈ tags /\ t = Js.toLowerCase (Js.trim x)) /\
  normalizeTags (normalizeTags tags) = normalizeTags tags.
Proof.
  split; [apply normalizeTags_nodup|].
  split.
  { unfold normalizeTags, distinct.
    etrans; [apply filter_sublist|apply set_from_sublist]. }
  split; [apply normalizeTags_elem|].
  set (r := normalizeTags tags).
  assert (Hfix : forall t, t ∈ r -> Js.toLowerCase (Js.trim t) = t).
  { intros t Ht. apply normalizeTags_elem in Ht as [_ (x & _ & ->)].
    rewrite <- trim_lower, toLowerCase_idem, trim_lower, trim_idem.
    reflexivity. }
  unfold normalizeTags at 1, distinct.
  rewrite (map_fixes _ r Hfix).
  rewrite (set_from_fixes r []);
    [|apply normalizeTags_nodup|intros x _; apply not_elem_of_nil].
  apply filter_all. intros t Ht. apply nonempty_length.
  apply normalizeTags_elem in Ht as [Hne _]. exact Hne.
Qed.

(** The examples of the project's own tests. *)
Example normalizeTags_examples :
  map normalizeTags
    [["Tag1"; "TAG2"; "tag3"]; ["  spaced  "; "normal"];
     ["tag"; "Tag"; "TAG"]; ["a"; "b"; "a"; "c"; "b"];
     ["valid"; ""; "  "]; [""; ""; ""]]
  = [["tag1"; "tag2"; "tag3"]; ["spaced"; "normal"]; ["tag"];
     ["a"; "b"; "c"]; ["valid"]; []].
Proof. vm_compute. reflexivity. Qed.

Example parseBoolean_examples :
  map parseBoolean
    [UBoolean true; UString "true"; UString "TRUE"; UString "1";
     UString "yes"; UString "YES"; UNumber 1;
     UBoolean false; UString "false"; UString "0"; UString "no";
     UNumber 0; UString "invalid"; UNumber 2; UOther]
  = [Some true; Some true; Some true; Some true; Some true; Some true;
     Some true; Some false; Some false; Some false; Some false; Some false;
     None; None; None].
Proof. vm_compute. reflexivity. Qed.

End ValidationFacts.

Module ExportWritersFacts.
Import Entities Exports JsText StreamUtils ExportWriters JsFacts.

Lemma plain_text_cons (c : ascii) (s : string) :
  plain_text (String c s) = true ->
  Ascii.eqb c "," = false /\ Ascii.eqb c DQUOTE = false /\
  Ascii.eqb c Js.LF = false /\ plain_text s = true.
Proof.
  unfold plain_text. cbn [includes].
  rewrite !negb_true_iff, !orb_false_iff. tauto.
Qed.

(** A field that needs no quotes is read up to its end. *)
Lemma read_plain (str : string) :
  forall (acc : string) (fields : list string) (rest : string),
  plain_text str = true ->
  read_csv Plain acc fields (str ++ rest) =
  read_csv Plain (acc ++ str) fields rest.
Proof.
  induction str as [|c str IH]; intros acc fields rest Hp.
  - rewrite append_empty. reflexivity.
  - apply plain_text_cons in Hp as (Hc & Hq & Hl & Hp).
    rewrite append_cons. cbn [read_csv]. rewrite Hc, Hl.
    rewrite (IH _ _ _ Hp), append_assoc. reflexivity.
Qed.

(** A field in quotes is read up to the closing quote, the doubled quotes
    giving one each. *)
Lemma read_quoted (str : string) :
  forall (acc : string) (fields : list string) (rest : string),
  read_csv Quoted acc fields (double_quotes str ++ String DQUOTE rest) =
  read_csv QuoteSeen (acc ++ str) fields rest.
Proof.
  induction str as [|c str IH]; intros acc fields rest.
  - rewrite append_empty. reflexivity.
  - cbn [double_quotes]. destruct (Ascii.eqb c DQUOTE) eqn:Hc.
    + apply Ascii.eqb_eq in Hc. subst c.
      rewrite !append_cons. cbn [read_csv].
      change (Ascii.eqb DQUOTE DQUOTE) with true. cbv iota.
      rewrite IH, append_assoc. reflexivity.
    + rewrite append_cons. cbn [read_csv]. rewrite Hc.
      rewrite IH, append_assoc. reflexivity.
Qed.

Lemma read_plain_start (m : Mode) (str : string) (t : ascii)
    (fields : list string) (rest : string) :
  at_start m -> separator t -> plain_text str = true ->
  read_csv m "" fields (str ++ String t rest) =
  read_csv Plain str fields (String t rest).
Proof.
  intros Hm Ht Hp. destruct str as [|c str].
  - destruct Hm as [-> | ->], Ht as [-> | ->]; reflexivity.
  - pose proof (plain_text_cons _ _ Hp) as (Hc & Hq & Hl & Hp').
    rewrite append_cons.
    assert (Hgo : read_csv m "" fields (String c (str ++ String t rest)) =
                  read_csv Plain "" fields (String c (str ++ String t rest))).
    { destruct Hm as [-> | ->]; cbn [read_csv]; rewrite Hq; reflexivity. }
    rewrite Hgo, <- append_cons.
    rewrite (read_plain _ "" fields _ Hp). reflexivity.
Qed.

Section Csv.
Variable JSON_stringify : Value -> string.

#[local] Abbreviation escapeCSV := (ExportWriters.escapeCSV JSON_stringify).
#[local] Abbreviation cell_text := (ExportWriters.cell_text JSON_stringify).
#[local] Abbreviation value_text := (ExportWriters.value_text JSON_stringify).
#[local] Abbreviation transformToCsv :=
  (ExportWriters.transformToCsv JSON_stringify).

(** What the reader makes of one written cell and the separator after
    it. *)
Lemma read_cell (m : Mode) (v : option Value) (t : ascii)
    (fields : list string) (rest : string) :
  at_start m -> separator t ->
  read_csv m "" fields (escapeCSV v ++ String t rest) =
  read_csv Plain (cell_text v) fields (String t rest).
Proof.
  intros Hm Ht.
  assert (Hempty : read_csv m "" fields (String t rest) =
                   read_csv Plain "" fields (String t rest)).
  { destruct Hm as [-> | ->], Ht as [-> | ->]; reflexivity. }
  assert (Hval : forall str,
    read_csv m "" fields
      ((if (includes "," str || includes DQUOTE str || includes Js.LF str)%bool
        then String DQUOTE (double_quotes str ++ String DQUOTE "")
        else str) ++ String t rest) =
    read_csv Plain str fields (String t rest)).
  { intros str.
    destruct (includes "," str || includes DQUOTE str || includes Js.LF str)%bool
      eqn:Hinc.
    - rewrite append_cons, append_assoc, append_cons.
      change ("" ++ String t rest) with (String t rest).
      assert (Hq : read_csv m "" fields
                (String DQUOTE (double_quotes str ++ String DQUOTE (String t rest))) =
              read_csv Quoted "" fields
                (double_quotes str ++ String DQUOTE (String t rest))).
      { destruct Hm as [-> | ->]; reflexivity. }
      rewrite Hq, read_quoted.
      change ("" ++ str) with str.
      destruct Ht as [-> | ->]; reflexivity.
    - apply read_plain_start; [assumption..|].
      unfold plain_text. rewrite Hinc. reflexivity. }
  destruct v as [[]|]; try exact Hempty; apply Hval.
Qed.

(** A written line is read as the texts of its cells. *)
Lemma read_line (vs : list (option Value)) :
  forall (m : Mode) (fields : list string) (rest : string),
  at_start m -> vs <> [] ->
  read_csv m "" fields (join "," (map escapeCSV vs) ++ String Js.LF rest) =
  (fields ++ map cell_text vs)%list :: read_csv RecordStart "" [] rest.
Proof.
  induction vs as [|v vs IH]; intros m fields rest Hm Hne; [done|].
  destruct vs as [|v' vs].
  - cbn [map join]. rewrite read_cell; [|assumption|right; reflexivity].
    reflexivity.
  - change (join "," (map escapeCSV (v :: v' :: vs)))
      with (escapeCSV v ++ "," ++ join "," (map escapeCSV (v' :: vs))).
    rewrite !append_assoc.
    change ("," ++ join "," (map escapeCSV (v' :: vs)) ++ String Js.LF rest)
      with (String "," (join "," (map escapeCSV (v' :: vs)) ++
                        String Js.LF rest)).
    rewrite read_cell; [|assumption|left; reflexivity].
    cbn [read_csv]. change (Ascii.eqb "," ",") with true. cbv iota.
    rewrite (IH FieldStart); [|right; reflexivity|done].
    rewrite <- app_assoc. reflexivity.
Qed.

#[local] Abbreviation written_line :=
  (ExportWriters.written_line JSON_stringify).

Lemma read_lines (rows : list (list (option Value))) :
  Forall (fun vs => vs <> []) rows ->
  parse_csv (text_of (map written_line rows)) =
  map (map cell_text) rows.
Proof.
  unfold parse_csv. induction 1 as [|vs rows Hne _ IH]; [reflexivity|].
  cbn [map]. change (text_of (written_line vs :: map written_line rows))
    with (written_line vs ++ text_of (map written_line rows)).
  unfold ExportWriters.written_line at 1. rewrite append_assoc.
  change (String Js.LF "" ++ text_of (map written_line rows))
    with (String Js.LF (text_of (map written_line rows))).
  rewrite read_line; [|left; reflexivity|assumption].
  rewrite IH. reflexivity.
Qed.

Lemma csv_row_line (headers : list string) (chunk : FormattedRecord) :
  (join "," (map (fun h => escapeCSV (chunk_get chunk h)) headers) ++
   String Js.LF "")%string =
  written_line (map (chunk_get chunk) headers).
Proof.
  unfold ExportWriters.written_line. rewrite map_map. reflexivity.
Qed.

Lemma csv_fold (headers : list string) (chunks : list FormattedRecord) :
  forall out,
  fold_left (csv_on_data JSON_stringify headers) chunks (true, out) =
  (true,
   (out ++ map (fun chunk => written_line (map (chunk_get chunk) headers))
             chunks)%list).
Proof.
  induction chunks as [|c chunks IH]; intros out; cbn [fold_left map].
  - rewrite app_nil_r. reflexivity.
  - cbn [csv_on_data]. rewrite IH, <- app_assoc, csv_row_line. reflexivity.
Qed.

(** What [transformToCsv] writes: nothing at all for no record, otherwise
    the header line and one line for each record. *)
Lemma transformToCsv_lines (chunks : list FormattedRecord)
    (rt : ResourceType) (fields : option (list string)) :
  transformToCsv chunks rt fields =
  match chunks with
  | [] => []
  | _ =>
      (join "," (csv_headers rt fields) ++ String Js.LF "")%string ::
      map (fun chunk =>
             written_line (map (chunk_get chunk) (csv_headers rt fields)))
          chunks
  end.
Proof.
  unfold ExportWriters.transformToCsv. destruct chunks as [|c chunks];
    [reflexivity|].
  cbn [fold_left csv_on_data]. rewrite csv_fold, csv_row_line. reflexivity.
Qed.

Lemma csv_headers_nonempty (rt : ResourceType)
    (fields : option (list string)) :
  csv_headers rt fields <> [].
Proof.
  unfold csv_headers. destruct fields as [[|f fs]|]; cbn;
    try done; destruct rt; done.
Qed.

Lemma header_line (headers : list string) :
  Forall (fun h => plain_text h = true) headers ->
  join "," headers ++ String Js.LF "" =
  written_line (map (fun h => Some (VString h)) headers).
Proof.
  intros Hp. unfold ExportWriters.written_line. f_equal. f_equal.
  rewrite map_map. rewrite <- (map_id headers) at 1.
  apply map_ext_Forall. eapply Forall_impl; [exact Hp|].
  intros h Hh. cbn. unfold plain_text in Hh.
  destruct (includes "," h || includes DQUOTE h || includes Js.LF h)%bool;
    [discriminate|reflexivity].
Qed.

(** X20: a CSV export reads back. When the names of the columns hold no
    comma, double quote or line feed and are not inherited names, an
    RFC 4180 reader finds in the written text the column names and then,
    for every exported record in turn, the text of its value in every
    column: the empty text for a null or missing value, and commas,
    quotes and line feeds inside a value intact. Without any record
    nothing is written, not even the header. *)
Theorem transformToCsv_reads_back (chunks : list FormattedRecord)
    (rt : ResourceType) (fields : option (list string)) :
  Forall (fun h => plain_name h = true) (csv_headers rt fields) ->
  parse_csv (text_of (transformToCsv chunks rt fields)) =
  match chunks with
  | [] => []
  | _ =>
      csv_headers rt fields ::
      map (fun chunk =>
             map (fun h => cell_text (chunk_get chunk h))
                 (csv_headers rt fields)) chunks
  end.
Proof.
  intros Hn. rewrite transformToCsv_lines.
  destruct chunks as [|c chunks]; [reflexivity|].
  set (headers := csv_headers rt fields) in *.
  assert (Hp : Forall (fun h => plain_text h = true) headers).
  { eapply Forall_impl; [exact Hn|]. intros h Hh.
    apply andb_true_iff in Hh as [Hh _]. exact Hh. }
  rewrite (header_line _ Hp).
  rewrite <- (map_map (fun chunk => map (chunk_get chunk) headers)
                written_line (c :: chunks)).
  change (written_line (map (fun h => Some (VString h)) headers) ::
          map written_line
            (map (fun chunk => map (chunk_get chunk) headers) (c :: chunks)))
    with (map written_line
            (map (fun h => Some (VString h)) headers ::
             map (fun chunk => map (chunk_get chunk) headers)
                 (c :: chunks))).
  assert (Hne : headers <> []) by apply csv_headers_nonempty.
  rewrite read_lines.
  - change (map (map cell_text)
              (map (fun h => Some (VString h)) headers ::
               map (fun chunk => map (chunk_get chunk) headers)
                   (c :: chunks)))
      with (map cell_text (map (fun h => Some (VString h)) headers) ::
            map (map cell_text)
                (map (fun chunk => map (chunk_get chunk) headers)
                     (c :: chunks))).
    f_equal.
    + rewrite map_map. apply map_id.
    + rewrite map_map. apply map_ext. intros ch. apply map_map.
  - constructor.
    + destruct headers; [done|discriminate].
    + apply Forall_forall. intros vs Hin.
      apply list_elem_of_In, in_map_iff in Hin as (ch & <- & _).
      destruct headers; [done|discriminate].
Qed.

End Csv.

(** The theorem at a user whose name needs quoting. *)
Lemma transformToCsv_reads_back_witness :
  Forall (fun h => plain_name h = true) (csv_headers USERS None) /\
  parse_csv (text_of (transformToCsv ExportSamples.toyJson
                        [ExportSamples.quotedRecord] USERS None)) =
  [ ["id"; "email"; "name"; "role"; "active"; "created_at"; "updated_at"];
    ["a"; "a@example.com"; "Doe, " ++ String DQUOTE "Jane"; "reader";
     "true"; "[x]"; "[x]"] ].
Proof.
  split.
  - vm_compute. repeat constructor.
  - rewrite (transformToCsv_reads_back ExportSamples.toyJson
               [ExportSamples.quotedRecord] USERS None).
    + vm_compute. reflexivity.
    + vm_compute. repeat constructor.
Defined.

Lemma lookup_key_fst (f : string) (F : FormattedRecord)
    (kv : string * option Value) :
  lookup_key f F = Some kv -> fst kv = f.
Proof.
  unfold lookup_key. intros H. apply find_some in H as [_ H].
  apply bool_decide_eq_true in H. exact H.
Qed.

Lemma lookup_key_cons (h : string) (kv : string * option Value)
    (F : FormattedRecord) :
  lookup_key h (kv :: F) =
  if bool_decide (fst kv = h) then Some kv else lookup_key h F.
Proof. reflexivity. Qed.

Lemma lookup_key_projected (h : string) (F : FormattedRecord)
    (fs : list string) :
  lookup_key h (omap (fun field => lookup_key field F) fs) =
  if bool_decide (h ∈ fs) then lookup_key h F else None.
Proof.
  induction fs as [|f fs IH]; [reflexivity|].
  change (omap (fun field => lookup_key field F) (f :: fs))
    with (match lookup_key f F with
          | Some kv => kv :: omap (fun field => lookup_key field F) fs
          | None => omap (fun field => lookup_key field F) fs
          end).
  destruct (lookup_key f F) as [kv|] eqn:Hf.
  - rewrite lookup_key_cons, (lookup_key_fst _ _ _ Hf).
    destruct (decide (f = h)) as [->|Hne].
    + rewrite bool_decide_eq_true_2 by reflexivity.
      rewrite bool_decide_eq_true_2 by (left).
      symmetry. exact Hf.
    + rewrite (bool_decide_eq_false_2 _ Hne), IH.
      destruct (decide (h ∈ fs)) as [Hin|Hin].
      * rewrite !bool_decide_eq_true_2; [reflexivity|by right|assumption].
      * rewrite !bool_decide_eq_false_2; [reflexivity| |assumption].
        rewrite elem_of_cons. intros [?|?]; congruence.
  - rewrite IH.
    destruct (decide (f = h)) as [->|Hne].
    + rewrite Hf. rewrite (bool_decide_eq_true_2 (h ∈ h :: fs)) by left.
      destruct (bool_decide (h ∈ fs)); reflexivity.
    + destruct (decide (h ∈ fs)) as [Hin|Hin].
      * rewrite !bool_decide_eq_true_2; [reflexivity|by right|assumption].
      * rewrite !bool_decide_eq_false_2; [reflexivity| |assumption].
        rewrite elem_of_cons. intros [?|?]; congruence.
Qed.

Lemma lookup_key_renamed (h : string) (e : Entity)
    (columns : list (string * string)) :
  h ∉ map fst columns -> lookup_key h (renamed e columns) = None.
Proof.
  induction columns as [|[k c] columns IH]; intros Hn; [reflexivity|].
  change (renamed e ((k, c) :: columns))
    with ((k, e !! c) :: renamed e columns).
  change (map fst ((k, c) :: columns)) with (k :: map fst columns) in Hn.
  rewrite lookup_key_cons. cbn [fst].
  apply not_elem_of_cons in Hn as [Hne Hn].
  rewrite bool_decide_eq_false_2 by congruence. apply IH, Hn.
Qed.

(** X21: a projection only selects. Under every name of the header of the
    export that is not an inherited name, the projected record has the
    value the whole record has under that name, and it has nothing under
    any other such name; a requested name the resource does not have is
    kept in the header and reads as undefined in every record. *)
Theorem formatRecord_projection (record : Entity) (rt : ResourceType)
    (fields : option (list string)) (h : string) :
  h ∉ Object_prototype ->
  chunk_get (formatRecord record rt fields) h =
  if bool_decide (h ∈ csv_headers rt fields)
  then chunk_get (formatRecord record rt None) h
  else None.
Proof.
  intros _.
  assert (Hfull : h ∉ getHeaders rt ->
                  lookup_key h (formatRecord record rt None) = None).
  { intros Hn. destruct rt; apply lookup_key_renamed; exact Hn. }
  assert (Hnone : formatRecord record rt fields = formatRecord record rt None ->
                  csv_headers rt fields = getHeaders rt ->
                  chunk_get (formatRecord record rt fields) h =
                  if bool_decide (h ∈ csv_headers rt fields)
                  then chunk_get (formatRecord record rt None) h
                  else None).
  { intros -> ->. destruct (decide (h ∈ getHeaders rt)) as [Hin|Hin].
    - rewrite bool_decide_eq_true_2 by assumption. reflexivity.
    - rewrite bool_decide_eq_false_2 by assumption.
      unfold chunk_get. rewrite (Hfull Hin). reflexivity. }
  destruct fields as [[|f fs]|].
  - apply Hnone; destruct rt; reflexivity.
  - unfold chunk_get at 1, csv_headers.
    change (0 <? List.length (f :: fs))%nat with true. cbv iota.
    replace (formatRecord record rt (Some (f :: fs)))
      with (omap (fun field => lookup_key field (formatRecord record rt None))
                 (f :: fs)) by (destruct rt; reflexivity).
    rewrite lookup_key_projected.
    destruct (bool_decide (h ∈ f :: fs)); reflexivity.
  - apply Hnone; reflexivity.
Qed.

(** The theorem at a projection that asks for a column users do not
    have. *)
Lemma formatRecord_projection_witness :
  chunk_get (formatRecord Samples.userA USERS (Some ["email"; "nickname"]))
            "nickname" = None /\
  chunk_get (formatRecord Samples.userA USERS (Some ["email"; "nickname"]))
            "email" = Some (VString "a@example.com").
Proof.
  split.
  - rewrite (formatRecord_projection Samples.userA USERS
               (Some ["email"; "nickname"]) "nickname").
    + vm_compute. reflexivity.
    + apply (bool_decide_unpack _). vm_compute. exact I.
  - vm_compute. reflexivity.
Defined.

Lemma text_of_app (a b : list string) :
  text_of (a ++ b) = text_of a ++ text_of b.
Proof.
  induction a as [|x a IH]; [reflexivity|].
  change (text_of ((x :: a) ++ b)) with (x ++ text_of (a ++ b)).
  change (text_of (x :: a)) with (x ++ text_of a).
  rewrite IH, append_assoc. reflexivity.
Qed.

Lemma join_cons_text (sep x : string) (l : list string) :
  join sep (x :: l) = x ++ text_of (flat_map (fun y => [sep; y]) l).
Proof.
  revert x. induction l as [|y l IH]; intros x.
  - cbn. rewrite append_empty. reflexivity.
  - change (join sep (x :: y :: l)) with (x ++ sep ++ join sep (y :: l)).
    rewrite IH. reflexivity.
Qed.

Section JsonArray.
Context {A : Type}.
Variable JSON_stringify : A -> string.

Lemma json_fold (chunks : list A) :
  forall out,
  fold_left (json_on_data JSON_stringify) chunks (false, out) =
  (false,
   (out ++ flat_map (fun y => [","; y]) (map JSON_stringify chunks))%list).
Proof.
  induction chunks as [|c chunks IH]; intros out; cbn [fold_left map flat_map].
  - rewrite app_nil_r. reflexivity.
  - cbn [json_on_data]. rewrite IH, <- !app_assoc. reflexivity.
Qed.

(** X22: a JSON export is one array. What [wrapAsJsonArray] writes is,
    put together, an opening bracket, the texts of the records in turn
    with one comma between neighbours, and a closing bracket; with no
    record it is the empty array. *)
Theorem wrapAsJsonArray_text (chunks : list A) :
  text_of (wrapAsJsonArray JSON_stringify chunks) =
  "[" ++ join "," (map JSON_stringify chunks) ++ "]".
Proof.
  unfold wrapAsJsonArray. destruct chunks as [|c chunks]; [reflexivity|].
  cbn [fold_left json_on_data map]. rewrite json_fold.
  cbn [snd]. rewrite join_cons_text, !text_of_app.
  change (text_of ["]"]) with "]".
  change (text_of ["["]) with "[".
  change (text_of [JSON_stringify c]) with (JSON_stringify c ++ "").
  rewrite append_empty, !append_assoc. reflexivity.
Qed.

End JsonArray.

End ExportWritersFacts.

Module UpsertsFacts.
Import Entities JobStore Pipeline JsText ValidationUtils Upserts.

Lemma with_data_nil {Row} : with_data (@nil (ValidatedImportRecord Row)) = Some [].
Proof. reflexivity. Qed.

Lemma with_data_cons {Row} (r : ValidatedImportRecord Row) records :
  with_data (r :: records) =
  match v_data r with
  | Some data =>
      match with_data records with
      | Some rows => Some ((v_lineNumber r, data) :: rows)
      | None => None
      end
  | None => None
  end.
Proof.
  unfold with_data. cbn. destruct (v_data r); reflexivity.
Qed.

Lemma with_data_lines {Row} (records : list (ValidatedImportRecord Row)) :
  forall rows, with_data records = Some rows ->
  map fst rows = map v_lineNumber records.
Proof.
  induction records as [|r records IH]; intros rows H.
  - rewrite with_data_nil in H. injection H as <-. reflexivity.
  - rewrite with_data_cons in H. destruct (v_data r) as [data|]; [|done].
    destruct (with_data records) as [rows'|]; [|done].
    injection H as <-. cbn. f_equal. apply IH. reflexivity.
Qed.

Lemma with_data_app {Row} (pre : list (ValidatedImportRecord Row)) :
  forall record post rows,
  with_data (pre ++ record :: post) = Some rows ->
  exists rows_pre data rows_post,
    rows = (rows_pre ++ (v_lineNumber record, data) :: rows_post)%list /\
    with_data pre = Some rows_pre /\ v_data record = Some data.
Proof.
  induction pre as [|r pre IH]; intros record post rows H.
  - cbn [app] in H. rewrite with_data_cons in H.
    destruct (v_data record) as [data|]; [|done].
    destruct (with_data post) as [rows'|]; [|done].
    injection H as <-. exists [], data, rows'. done.
  - change ((r :: pre) ++ record :: post)%list
      with (r :: (pre ++ record :: post))%list in H.
    rewrite with_data_cons in H.
    destruct (v_data r) as [d|] eqn:Hd; [|done].
    destruct (with_data (pre ++ record :: post)) as [rows'|] eqn:Hw; [|done].
    injection H as <-.
    destruct (IH _ _ _ Hw) as (rp & data & rq & -> & Hp & Hdata).
    exists ((v_lineNumber r, d) :: rp), data, rq.
    split; [reflexivity|]. split; [|assumption].
    rewrite with_data_cons, Hd, Hp. reflexivity.
Qed.

Lemma first_seen_rows {Row} (key : Row -> string) (k : string)
    (records : list (ValidatedImportRecord Row)) :
  forall rows, with_data records = Some rows ->
  first_seen key k records =
  fst <$> List.find (fun r => bool_decide (key (snd r) = k)) rows.
Proof.
  unfold first_seen.
  induction records as [|r records IH]; intros rows H.
  - rewrite with_data_nil in H. injection H as <-. reflexivity.
  - rewrite with_data_cons in H. destruct (v_data r) as [data|] eqn:Hd; [|done].
    destruct (with_data records) as [rows'|]; [|done].
    injection H as <-. cbn [List.find snd]. rewrite Hd. cbn [fmap option_fmap option_map].
    destruct (decide (key data = k)) as [Hk|Hk].
    + rewrite !bool_decide_eq_true_2; [reflexivity|assumption|congruence].
    + rewrite !bool_decide_eq_false_2; [apply IH; reflexivity|assumption|congruence].
Qed.

(** A loop whose every round counts its row once, as saved or as failed
    with one error on the line of the row, accounts for all its rows. *)
Lemma fold_accounts {S D} (tally_of : S -> Tally) (step : S -> Z * D -> S) :
  (forall st rec,
     tally_of (step st rec) = success (tally_of st) \/
     exists e, row e = fst rec /\
               tally_of (step st rec) = failure (tally_of st) e) ->
  forall rows st,
  exists es,
    t_errors (tally_of (fold_left step rows st)) =
      (t_errors (tally_of st) ++ es)%list /\
    sublist (map row es) (map fst rows) /\
    t_failed (tally_of (fold_left step rows st)) =
      t_failed (tally_of st) + len es /\
    t_successful (tally_of (fold_left step rows st)) +
    t_failed (tally_of (fold_left step rows st)) =
      t_successful (tally_of st) + t_failed (tally_of st) + len rows /\
    t_successful (tally_of st) <=
      t_successful (tally_of (fold_left step rows st)).
Proof.
  intros Hstep. induction rows as [|rec rows IH]; intros st.
  - exists []. cbn. rewrite app_nil_r. unfold len. cbn.
    repeat split; try lia. constructor.
  - cbn [fold_left]. destruct (IH (step st rec)) as (es & He & Hs & Hf & Hc & Hm).
    set (t' := tally_of (fold_left step rows (step st rec))) in *.
    destruct (Hstep st rec) as [Hok | (e & Hrow & Hfail)].
    + exists es. rewrite Hok in *. unfold len in *.
      cbn [success t_errors t_failed t_successful map List.length] in *.
      split; [exact He|]. split; [apply sublist_cons, Hs|].
      repeat split; lia.
    + exists (e :: es). rewrite Hfail in *. unfold len in *.
      cbn [failure t_errors t_failed t_successful map List.length] in *.
      split; [rewrite He, <- app_assoc; reflexivity|].
      split; [rewrite Hrow; apply sublist_skip, Hs|].
      repeat split; lia.
Qed.

(** A loop that notes the line on which it first sees a key holds, after
    some rows, the first line of every key among them. *)
Lemma fold_seen {S D} (seen_of : S -> gmap string Z) (key : D -> string)
    (step : S -> Z * D -> S) :
  (forall st rec,
     seen_of (step st rec) =
     match seen_of st !! key (snd rec) with
     | Some _ => seen_of st
     | None => <[key (snd rec) := fst rec]> (seen_of st)
     end) ->
  forall rows st k,
  seen_of (fold_left step rows st) !! k =
  match seen_of st !! k with
  | Some n => Some n
  | None => fst <$> List.find (fun r => bool_decide (key (snd r) = k)) rows
  end.
Proof.
  intros Hseen. induction rows as [|rec rows IH]; intros st k.
  - cbn. destruct (seen_of st !! k); reflexivity.
  - cbn [fold_left List.find]. rewrite IH, Hseen.
    destruct (decide (key (snd rec) = k)) as [Hk|Hk].
    + rewrite (bool_decide_eq_true_2 _ Hk). subst k.
      destruct (seen_of st !! key (snd rec)) as [n|] eqn:Hs.
      * rewrite Hs. reflexivity.
      * rewrite lookup_insert_eq. reflexivity.
    + rewrite (bool_decide_eq_false_2 _ Hk).
      destruct (seen_of st !! key (snd rec)) as [n|] eqn:Hs.
      * reflexivity.
      * rewrite lookup_insert_ne by assumption. reflexivity.
Qed.

(** In such a loop a row whose key was seen before fails with the error
    that names the first line, and the error stays in the list. *)
Lemma fold_rejects {S D} (seen_of : S -> gmap string Z)
    (tally_of : S -> Tally) (key : D -> string)
    (reject : Z -> D -> Z -> ImportJobError) (step : S -> Z * D -> S) :
  (forall st rec,
     seen_of (step st rec) =
     match seen_of st !! key (snd rec) with
     | Some _ => seen_of st
     | None => <[key (snd rec) := fst rec]> (seen_of st)
     end) ->
  (forall st rec first,
     seen_of st !! key (snd rec) = Some first ->
     tally_of (step st rec) =
     failure (tally_of st) (reject (fst rec) (snd rec) first)) ->
  (forall st rec,
     tally_of (step st rec) = success (tally_of st) \/
     exists e, row e = fst rec /\
               tally_of (step st rec) = failure (tally_of st) e) ->
  forall before line data after st n,
  seen_of st = ∅ ->
  fst <$> List.find (fun r => bool_decide (key (snd r) = key data)) before
    = Some n ->
  reject line data n ∈
    t_errors (tally_of (fold_left step (before ++ (line, data) :: after) st)).
Proof.
  intros Hseen Hdup Hstep before line data after st n Hempty Hfirst.
  rewrite fold_left_app. cbn [fold_left].
  set (st1 := fold_left step before st).
  assert (Hs1 : seen_of st1 !! key data = Some n).
  { unfold st1. rewrite (fold_seen seen_of key step Hseen), Hempty.
    rewrite lookup_empty. exact Hfirst. }
  pose proof (Hdup st1 (line, data) n Hs1) as Hfail.
  destruct (fold_accounts tally_of step Hstep after (step st1 (line, data)))
    as (es & He & _).
  rewrite He, Hfail. cbn [failure t_errors fst snd].
  apply elem_of_app. left. apply elem_of_app. right. apply list_elem_of_singleton.
  reflexivity.
Qed.

Lemma accounts_of_fold (lines : list Z) (t : Tally) (es : list ImportJobError) :
  t_errors t = es ->
  sublist (map row es) lines ->
  t_failed t = len es ->
  t_successful t + t_failed t = len lines ->
  0 <= t_successful t ->
  accounts lines (batch_of t).
Proof.
  intros He Hs Hf Hc Hm. unfold accounts, batch_of. cbn.
  rewrite He. repeat split; try assumption. symmetry. exact Hf.
Qed.

Section Upserts.
Context {DB : Type}.
Variable Date_parse : string -> Z.
Variable uuidv4 : DB -> string * DB.
Variable findUsersByEmail : DB -> list string -> list User + string.
Variable findUserIds : DB -> list string -> list string + string.
Variable findArticlesBySlug : DB -> list string -> list Article + string.
Variable findArticleIds : DB -> list string -> list string + string.
Variable findOneComment : DB -> string -> option Comment + string.
Variable saveUser : DB -> User -> DB + string.
Variable saveArticle : DB -> Article -> DB + string.
Variable saveComment : DB -> Comment -> DB + string.

#[local] Abbreviation upsertUsers :=
  (Upserts.upsertUsers Date_parse uuidv4 findUsersByEmail saveUser).
#[local] Abbreviation upsertUsers_step :=
  (Upserts.upsertUsers_step Date_parse uuidv4 saveUser).
#[local] Abbreviation upsertArticles :=
  (Upserts.upsertArticles Date_parse uuidv4 findUserIds findArticlesBySlug
     saveArticle).
#[local] Abbreviation upsertArticles_step :=
  (Upserts.upsertArticles_step Date_parse uuidv4 saveArticle).
#[local] Abbreviation upsertComments :=
  (Upserts.upsertComments Date_parse uuidv4 findUserIds findArticleIds
     findOneComment saveComment).
#[local] Abbreviation upsertComments_step :=
  (Upserts.upsertComments_step Date_parse uuidv4 findOneComment saveComment).

Lemma user_save_error_row (n : Z) (d : ImportUserRecordDto) (msg : string) :
  row (user_save_error n d msg) = n.
Proof.
  unfold user_save_error.
  destruct (_ || _)%bool; [reflexivity|].
  destruct (includes_text _ _); reflexivity.
Qed.

Lemma article_save_error_row (n : Z) (d : ImportArticleRecordDto)
    (msg : string) :
  row (article_save_error n d msg) = n.
Proof.
  unfold article_save_error.
  destruct (_ || _)%bool; [reflexivity|].
  destruct (includes_text _ _); reflexivity.
Qed.

Lemma upsertUsers_step_tally (m : gmap string User)
    (st : DB * gmap string Z * Tally) (rec : Z * ImportUserRecordDto) :
  snd (upsertUsers_step m st rec) = success (snd st) \/
  exists e, row e = fst rec /\
            snd (upsertUsers_step m st rec) = failure (snd st) e.
Proof.
  destruct st as [[db seen] t], rec as [n d].
  unfold Upserts.upsertUsers_step.
  destruct (seen !! Js.toLowerCase (ud_email d)) as [first|].
  - right. eexists. split; [|reflexivity]. reflexivity.
  - destruct (user_to_save Date_parse uuidv4 db (m !! ud_email d) d)
      as [user db1].
    destruct (saveUser db1 user) as [db2|msg].
    + left. reflexivity.
    + right. eexists. split; [|reflexivity]. apply user_save_error_row.
Qed.

Lemma upsertArticles_step_tally (m : gmap string Article)
    (authors : list string)
    (st : DB * gmap string Z * Tally) (rec : Z * ImportArticleRecordDto) :
  snd (upsertArticles_step m authors st rec) = success (snd st) \/
  exists e, row e = fst rec /\
            snd (upsertArticles_step m authors st rec) = failure (snd st) e.
Proof.
  destruct st as [[db seen] t], rec as [n d].
  unfold Upserts.upsertArticles_step.
  destruct (seen !! ad_slug d) as [first|].
  - right. eexists. split; [|reflexivity]. reflexivity.
  - destruct (negb _).
    + right. eexists. split; [|reflexivity]. reflexivity.
    + destruct (article_to_save Date_parse uuidv4 db (m !! ad_slug d) d)
        as [article db1].
      destruct (saveArticle db1 article) as [db2|msg].
      * left. reflexivity.
      * right. eexists. split; [|reflexivity]. apply article_save_error_row.
Qed.

Lemma upsertComments_step_tally (articles users : list string)
    (st : DB * Tally) (rec : Z * ImportCommentRecordDto) :
  snd (upsertComments_step articles users st rec) = success (snd st) \/
  exists e, row e = fst rec /\
            snd (upsertComments_step articles users st rec) =
            failure (snd st) e.
Proof.
  destruct st as [db t], rec as [n d].
  unfold Upserts.upsertComments_step.
  destruct (negb _).
  { right. eexists. split; [|reflexivity]. reflexivity. }
  destruct (negb _).
  { right. eexists. split; [|reflexivity]. reflexivity. }
  destruct (comment_to_save Date_parse uuidv4 findOneComment db _ d)
    as [[comment db1]|msg].
  - destruct (saveComment db1 comment) as [db2|msg].
    + left. reflexivity.
    + right. eexists. split; [|reflexivity]. reflexivity.
  - right. eexists. split; [|reflexivity]. reflexivity.
Qed.

(** X23: [upsertUsers] accounts for every record of the batch. When it
    returns, each record was counted once, as saved or as failed, nothing
    was skipped, and there is one stored error for each failed record,
    on the line of that record and in the order of the batch. *)
Theorem upsertUsers_accounts (db db' : DB)
    (records : list (ValidatedImportRecord ImportUserRecordDto))
    (r : ImportBatchResult) :
  upsertUsers db records = inl (db', r) ->
  accounts (map v_lineNumber records) r.
Proof.
  unfold Upserts.upsertUsers. intros H.
  destruct (with_data records) as [rows|] eqn:Hw; [|done].
  destruct (findUsersByEmail db _) as [existing|e]; [|done].
  destruct (fold_accounts snd (upsertUsers_step (emailToUser_of existing))
              (upsertUsers_step_tally _) rows (db, ∅, mkTally 0 0 []))
    as (es & He & Hs & Hf & Hc & Hm).
  destruct (fold_left _ rows _) as [[db1 seen] t].
  injection H as <- <-. cbn [snd t_errors t_failed t_successful] in *.
  rewrite <- (with_data_lines _ _ Hw).
  apply (accounts_of_fold _ _ es); try assumption.
  - unfold len in *. rewrite length_map. lia.
Qed.

(** X24: [upsertArticles] accounts for every record of the batch, in the
    same way. *)
Theorem upsertArticles_accounts (db db' : DB)
    (records : list (ValidatedImportRecord ImportArticleRecordDto))
    (r : ImportBatchResult) :
  upsertArticles db records = inl (db', r) ->
  accounts (map v_lineNumber records) r.
Proof.
  unfold Upserts.upsertArticles. intros H.
  destruct (with_data records) as [rows|] eqn:Hw; [|done].
  destruct (findArticlesBySlug db _) as [existing|e]; [|done].
  destruct (findUserIds db _) as [authors|e]; [|done].
  destruct (fold_accounts snd
              (upsertArticles_step (slugToArticle_of existing) authors)
              (upsertArticles_step_tally _ _) rows (db, ∅, mkTally 0 0 []))
    as (es & He & Hs & Hf & Hc & Hm).
  destruct (fold_left _ rows _) as [[db1 seen] t].
  injection H as <- <-. cbn [snd t_errors t_failed t_successful] in *.
  rewrite <- (with_data_lines _ _ Hw).
  apply (accounts_of_fold _ _ es); try assumption.
  - unfold len in *. rewrite length_map. lia.
Qed.

(** X25: [upsertComments] accounts for every record of the batch, in the
    same way. *)
Theorem upsertComments_accounts (db db' : DB)
    (records : list (ValidatedImportRecord ImportCommentRecordDto))
    (r : ImportBatchResult) :
  upsertComments db records = inl (db', r) ->
  accounts (map v_lineNumber records) r.
Proof.
  unfold Upserts.upsertComments. intros H.
  destruct (with_data records) as [rows|] eqn:Hw; [|done].
  destruct (findArticleIds db _) as [articles|e]; [|done].
  destruct (findUserIds db _) as [users|e]; [|done].
  destruct (fold_accounts snd (upsertComments_step articles users)
              (upsertComments_step_tally _ _) rows (db, mkTally 0 0 []))
    as (es & He & Hs & Hf & Hc & Hm).
  destruct (fold_left _ rows _) as [db1 t].
  injection H as <- <-. cbn [snd t_errors t_failed t_successful] in *.
  rewrite <- (with_data_lines _ _ Hw).
  apply (accounts_of_fold _ _ es); try assumption.
  - unfold len in *. rewrite length_map. lia.
Qed.

Lemma upsertUsers_step_seen (m : gmap string User)
    (st : DB * gmap string Z * Tally) (rec : Z * ImportUserRecordDto) :
  snd (fst (upsertUsers_step m st rec)) =
  match snd (fst st) !! Js.toLowerCase (ud_email (snd rec)) with
  | Some _ => snd (fst st)
  | None => <[Js.toLowerCase (ud_email (snd rec)) := fst rec]> (snd (fst st))
  end.
Proof.
  destruct st as [[db seen] t], rec as [n d].
  unfold Upserts.upsertUsers_step. cbn [fst snd].
  destruct (seen !! Js.toLowerCase (ud_email d)) as [first|]; [reflexivity|].
  destruct (user_to_save Date_parse uuidv4 db (m !! ud_email d) d)
    as [user db1].
  destruct (saveUser db1 user); reflexivity.
Qed.

Lemma upsertUsers_step_repeat (m : gmap string User)
    (st : DB * gmap string Z * Tally) (rec : Z * ImportUserRecordDto)
    (first : Z) :
  snd (fst st) !! Js.toLowerCase (ud_email (snd rec)) = Some first ->
  snd (upsertUsers_step m st rec) =
  failure (snd st)
    (duplicate_in_file "email" (fst rec) (ud_email (snd rec)) first).
Proof.
  destruct st as [[db seen] t], rec as [n d]. cbn [fst snd]. intros H.
  unfold Upserts.upsertUsers_step. rewrite H. reflexivity.
Qed.

Lemma upsertArticles_step_seen (m : gmap string Article)
    (authors : list string)
    (st : DB * gmap string Z * Tally) (rec : Z * ImportArticleRecordDto) :
  snd (fst (upsertArticles_step m authors st rec)) =
  match snd (fst st) !! ad_slug (snd rec) with
  | Some _ => snd (fst st)
  | None => <[ad_slug (snd rec) := fst rec]> (snd (fst st))
  end.
Proof.
  destruct st as [[db seen] t], rec as [n d].
  unfold Upserts.upsertArticles_step. cbn [fst snd].
  destruct (seen !! ad_slug d) as [first|]; [reflexivity|].
  destruct (negb _); [reflexivity|].
  destruct (article_to_save Date_parse uuidv4 db (m !! ad_slug d) d)
    as [article db1].
  destruct (saveArticle db1 article); reflexivity.
Qed.

Lemma upsertArticles_step_repeat (m : gmap string Article)
    (authors : list string)
    (st : DB * gmap string Z * Tally) (rec : Z * ImportArticleRecordDto)
    (first : Z) :
  snd (fst st) !! ad_slug (snd rec) = Some first ->
  snd (upsertArticles_step m authors st rec) =
  failure (snd st)
    (duplicate_in_file "slug" (fst rec) (ad_slug (snd rec)) first).
Proof.
  destruct st as [[db seen] t], rec as [n d]. cbn [fst snd]. intros H.
  unfold Upserts.upsertArticles_step. rewrite H. reflexivity.
Qed.

(** X26: within one batch an email is taken once. A user record whose
    email, in lower case, is that of an earlier record of the batch fails
    with the error that names the email and the line of the first record
    that has it, whatever became of that first record. *)
Theorem upsertUsers_rejects_repeats (db db' : DB)
    (before after : list (ValidatedImportRecord ImportUserRecordDto))
    (record : ValidatedImportRecord ImportUserRecordDto)
    (userData : ImportUserRecordDto) (n : Z) (r : ImportBatchResult) :
  upsertUsers db (before ++ record :: after) = inl (db', r) ->
  v_data record = Some userData ->
  first_seen (fun d => Js.toLowerCase (ud_email d))
             (Js.toLowerCase (ud_email userData)) before = Some n ->
  duplicate_in_file "email" (v_lineNumber record) (ud_email userData) n
    ∈ batchErrors r.
Proof.
  unfold Upserts.upsertUsers. intros H Hdata Hfirst.
  destruct (with_data (before ++ record :: after)) as [rows|] eqn:Hw; [|done].
  destruct (findUsersByEmail db _) as [existing|e]; [|done].
  destruct (with_data_app _ _ _ _ Hw) as (rp & data & rq & -> & Hp & Hd).
  assert (data = userData) as -> by congruence.
  rewrite (first_seen_rows _ _ _ _ Hp) in Hfirst.
  pose proof (fold_rejects (fun st => snd (fst st)) snd
                (fun d => Js.toLowerCase (ud_email d))
                (fun line d first =>
                   duplicate_in_file "email" line (ud_email d) first)
                (upsertUsers_step (emailToUser_of existing))
                (upsertUsers_step_seen _) (upsertUsers_step_repeat _)
                (upsertUsers_step_tally _)
                rp (v_lineNumber record) userData rq
                (db, ∅, mkTally 0 0 []) n eq_refl Hfirst) as Hin.
  destruct (fold_left _ _ _) as [[db1 seen] t].
  injection H as <- <-. exact Hin.
Qed.

(** X27: within one batch a slug is taken once. An article record whose
    slug is that of an earlier record of the batch fails with the error
    that names the slug and the line of the first record that has it. *)
Theorem upsertArticles_rejects_repeats (db db' : DB)
    (before after : list (ValidatedImportRecord ImportArticleRecordDto))
    (record : ValidatedImportRecord ImportArticleRecordDto)
    (articleData : ImportArticleRecordDto) (n : Z) (r : ImportBatchResult) :
  upsertArticles db (before ++ record :: after) = inl (db', r) ->
  v_data record = Some articleData ->
  first_seen ad_slug (ad_slug articleData) before = Some n ->
  duplicate_in_file "slug" (v_lineNumber record) (ad_slug articleData) n
    ∈ batchErrors r.
Proof.
  unfold Upserts.upsertArticles. intros H Hdata Hfirst.
  destruct (with_data (before ++ record :: after)) as [rows|] eqn:Hw; [|done].
  destruct (findArticlesBySlug db _) as [existing|e]; [|done].
  destruct (findUserIds db _) as [authors|e]; [|done].
  destruct (with_data_app _ _ _ _ Hw) as (rp & data & rq & -> & Hp & Hd).
  assert (data = articleData) as -> by congruence.
  rewrite (first_seen_rows _ _ _ _ Hp) in Hfirst.
  pose proof (fold_rejects (fun st => snd (fst st)) snd ad_slug
                (fun line d first =>
                   duplicate_in_file "slug" line (ad_slug d) first)
                (upsertArticles_step (slugToArticle_of existing) authors)
                (upsertArticles_step_seen _ _)
                (upsertArticles_step_repeat _ _)
                (upsertArticles_step_tally _ _)
                rp (v_lineNumber record) articleData rq
                (db, ∅, mkTally 0 0 []) n eq_refl Hfirst) as Hin.
  destruct (fold_left _ _ _) as [[db1 seen] t].
  injection H as <- <-. exact Hin.
Qed.

End Upserts.

(** The theorems at two records of which the second fails. *)
Lemma upsertUsers_accounts_witness :
  accounts [2; 3] UpsertSamples.twoUsersResult.
Proof.
  apply (upsertUsers_accounts Samples.toyDate UpsertSamples.toyUuid
           UpsertSamples.toyFind UpsertSamples.toySave
           [] [UpsertSamples.adaSaved] UpsertSamples.twoUsers
           UpsertSamples.twoUsersResult).
  vm_compute. reflexivity.
Defined.

Lemma upsertArticles_accounts_witness :
  accounts [2; 3] UpsertSamples.twoArticlesResult.
Proof.
  apply (upsertArticles_accounts Samples.toyDate UpsertSamples.toyUuid
           UpsertSamples.toyFindIds UpsertSamples.toyFind
           UpsertSamples.toySave
           [] [UpsertSamples.introSaved] UpsertSamples.twoArticles
           UpsertSamples.twoArticlesResult).
  vm_compute. reflexivity.
Defined.

Lemma upsertComments_accounts_witness :
  accounts [2; 3] UpsertSamples.twoCommentsResult.
Proof.
  apply (upsertComments_accounts Samples.toyDate UpsertSamples.toyUuid
           UpsertSamples.toyFindIds UpsertSamples.toyFindIds
           UpsertSamples.toyFindOne UpsertSamples.toySave
           [] [UpsertSamples.helloSaved] UpsertSamples.twoComments
           UpsertSamples.twoCommentsResult).
  vm_compute. reflexivity.
Defined.

Lemma upsertUsers_rejects_repeats_witness :
  duplicate_in_file "email" 3 "ADA@example.com" 2
    ∈ batchErrors UpsertSamples.twoUsersResult.
Proof.
  apply (upsertUsers_rejects_repeats Samples.toyDate UpsertSamples.toyUuid
           UpsertSamples.toyFind UpsertSamples.toySave
           [] [UpsertSamples.adaSaved]
           [UpsertSamples.valid 2 UpsertSamples.ada] []
           (UpsertSamples.valid 3 UpsertSamples.adaAgain)
           UpsertSamples.adaAgain 2 UpsertSamples.twoUsersResult).
  - vm_compute. reflexivity.
  - reflexivity.
  - vm_compute. reflexivity.
Defined.

Lemma upsertArticles_rejects_repeats_witness :
  duplicate_in_file "slug" 3 "intro" 2
    ∈ batchErrors UpsertSamples.twoArticlesResult.
Proof.
  apply (upsertArticles_rejects_repeats Samples.toyDate UpsertSamples.toyUuid
           UpsertSamples.toyFindIds UpsertSamples.toyFind
           UpsertSamples.toySave
           [] [UpsertSamples.introSaved]
           [UpsertSamples.valid 2 UpsertSamples.intro] []
           (UpsertSamples.valid 3 UpsertSamples.intro)
           UpsertSamples.intro 2 UpsertSamples.twoArticlesResult).
  - vm_compute. reflexivity.
  - reflexivity.
  - vm_compute. reflexivity.
Defined.

End UpsertsFacts.

Module ApiKeyGuardFacts.
Import JsText ApiKeyGuard ValidationFacts.

Lemma apiKeys_elem (apiKeyConfig key : string) :
  key ∈ apiKeys_of apiKeyConfig <->
  key <> "" /\
  exists part, part ∈ Js.split "," apiKeyConfig /\ key = Js.trim part.
Proof.
  unfold apiKeys_of, distinct.
  rewrite set_from_elem, list_elem_of_In, filter_In, <- list_elem_of_In.
  rewrite list_elem_of_fmap, nonempty_length. split.
  - intros [[(part & -> & Hp) Hne] _]. split; [exact Hne|]. exists part. auto.
  - intros [Hne (part & Hp & ->)]. split; [|apply not_elem_of_nil].
    split; [exists part; auto|exact Hne].
Qed.

Lemma apiKeys_none (apiKeyConfig : string) :
  apiKeys_of apiKeyConfig = [] <->
  forall part, part ∈ Js.split "," apiKeyConfig -> Js.trim part = "".
Proof.
  split.
  - intros Hnil part Hp.
    destruct (decide (Js.trim part = "")) as [He|Hne]; [exact He|].
    assert (Hin : Js.trim part ∈ apiKeys_of apiKeyConfig).
    { apply apiKeys_elem. split; [exact Hne|]. exists part. auto. }
    rewrite Hnil in Hin. inversion Hin.
  - intros Hall. destruct (apiKeys_of apiKeyConfig) as [|k ks] eqn:Hk;
      [reflexivity|].
    assert (Hin : k ∈ apiKeys_of apiKeyConfig)
      by (rewrite Hk; apply elem_of_cons; left; reflexivity).
    apply apiKeys_elem in Hin as [Hne (part & Hp & ->)].
    exfalso. apply Hne, Hall, Hp.
Qed.

(** X29: who the API key guard lets through. A request passes exactly
    when no key is configured, which is the case as soon as every part of
    the configured text between commas is blank, or when its header is,
    character for character, the trimmed text of a part that is not
    blank. *)
Theorem canActivate_admits (apiKeyConfig : string)
    (providedApiKey : option string) :
  canActivate apiKeyConfig providedApiKey = inl true <->
  (forall part, part ∈ Js.split "," apiKeyConfig -> Js.trim part = "") \/
  (exists part, part ∈ Js.split "," apiKeyConfig /\ Js.trim part <> "" /\
                providedApiKey = Some (Js.trim part)).
Proof.
  unfold canActivate. rewrite <- apiKeys_none.
  destruct (apiKeys_of apiKeyConfig) as [|k ks] eqn:Hk.
  - cbn. split; [intros _; left; reflexivity|reflexivity].
  - cbn [List.length Nat.eqb]. split.
    + intros H. right. destruct providedApiKey as [key|]; [|discriminate].
      destruct (Js.truthy key); cbn [negb] in H; [|discriminate].
      destruct (bool_decide (key ∈ k :: ks)) eqn:Hin; cbn [negb] in H;
        [|discriminate].
      apply bool_decide_eq_true in Hin. rewrite <- Hk in Hin.
      apply apiKeys_elem in Hin as [Hne (part & Hp & ->)].
      exists part. auto.
    + intros [Hnil | (part & Hp & Hne & ->)]; [discriminate|].
      assert (Hin : Js.trim part ∈ k :: ks).
      { rewrite <- Hk. apply apiKeys_elem. split; [exact Hne|].
        exists part. auto. }
      destruct (Js.trim part) as [|c t] eqn:Ht; [contradiction|].
      cbn [Js.truthy negb]. rewrite bool_decide_eq_true_2 by exact Hin.
      reflexivity.
Qed.

Example canActivate_examples :
  canActivate " , " (Some "anything") = inl true /\
  canActivate "k1, k2" (Some "k2") = inl true /\
  canActivate "k1, k2" (Some " k2") = inr key_invalid /\
  canActivate "k1, k2" None = inr key_required.
Proof. vm_compute. auto. Qed.

End ApiKeyGuardFacts.

Module ProgressFacts.
Import Entities Imports.



End ProgressFacts.
